(** * Asset-pricing factor-model estimators

    A shallow embedding of [linearmodels/asset_pricing/model.py]: the
    time-series estimator [TradedFactorModel], the two-pass estimator
    [LinearFactorModel] and the GMM estimator [LinearFactorModelGMM].

    numpy arrays are modelled with their run-time shape, every numpy
    operation that can raise on a shape mismatch returns in the [result]
    monad, and the floating-point scalar type, [numpy.linalg] and
    [scipy.optimize.minimize] are interfaces that the estimators are
    written against; the examples run them on exact rationals ([Exact])
    and on binary64 numbers ([Binary64]). *)

From Stdlib Require Import List String Ascii ZArith Lia Bool Arith PeanoNat.
From Stdlib Require Import QArith Qcanon Qround Permutation DecimalString.
From Stdlib Require Floats.
Import ListNotations.

Local Close Scope Qc_scope.
Local Close Scope Q_scope.
Local Open Scope string_scope.
Local Open Scope nat_scope.
Local Open Scope list_scope.

Set Implicit Arguments.

(** ** Python exceptions and the error monad *)

Inductive exn : Type :=
| ValueError (msg : string)
| TypeError (msg : string)
| IndexError (msg : string)
| KeyError (key : string)
| LinAlgError (msg : string).

Inductive result (X : Type) : Type :=
| Ok (x : X)
| Err (e : exn).

Arguments Ok {X} x.
Arguments Err {X} e.

Definition bind {X Y : Type} (r : result X) (k : X -> result Y) : result Y :=
  match r with
  | Ok x => k x
  | Err e => Err e
  end.

Notation "x <- e ;; k" := (bind e (fun x => k))
  (at level 61, e at next level, right associativity).
Notation "' pat <- e ;; k" := (bind e (fun x => match x with pat => k end))
  (at level 61, pat pattern, e at next level, right associativity).

Definition is_ok {X : Type} (r : result X) : bool :=
  match r with Ok _ => true | Err _ => false end.

(** ** The scalar interface

    Python floats (numpy [float64]) as the estimators use them.  [fpow]
    and [fceil] serve the default kernel bandwidth only. *)

Class Scalar (A : Type) : Type := {
  zero : A;
  one : A;
  fadd : A -> A -> A;
  fsub : A -> A -> A;
  fmul : A -> A -> A;
  fdiv : A -> A -> A;
  fneg : A -> A;
  fabs : A -> A;
  flt : A -> A -> bool;
  fpow : A -> A -> A;
  fceil : A -> Z;
  of_Z : Z -> A
}.

Class Default (T : Type) : Type := dflt : T.

#[export] Instance nat_Default : Default nat := 0.
#[export] Instance Scalar_Default {A : Type} {SA : Scalar A} : Default A := @zero A SA.

(** ** numpy arrays

    A two-dimensional array carries its shape; a one-dimensional array is
    a list.  Entries are read by position, so every constructor below is
    a tabulation of an index function. *)

Record matrix (T : Type) : Type := Matrix {
  nrows : nat;
  ncols : nat;
  rows : list (list T)
}.

Module np.

Section Array.

Context {T : Type} {DT : Default T}.

Definition shape (m : matrix T) : nat * nat := (nrows m, ncols m).

Definition get (m : matrix T) (i j : nat) : T :=
  nth j (nth i (rows m) []) dflt.

Definition get1 (v : list T) (i : nat) : T := nth i v dflt.

Definition tabulate (r c : nat) (f : nat -> nat -> T) : matrix T :=
  Matrix r c (map (fun i => map (fun j => f i j) (seq 0 c)) (seq 0 r)).

Definition tabulate1 (n : nat) (f : nat -> T) : list T :=
  map f (seq 0 n).

(** [m.T] *)
Definition T_ (m : matrix T) : matrix T :=
  tabulate (ncols m) (nrows m) (fun i j => get m j i).

(** [v[:, None]] and [v[None, :]] *)
Definition col (v : list T) : matrix T :=
  tabulate (List.length v) 1 (fun i _ => get1 v i).

Definition row (v : list T) : matrix T :=
  tabulate 1 (List.length v) (fun _ j => get1 v j).

(** [m.ravel()] in C order and [m.ravel(order='F')] *)
Definition ravel (m : matrix T) : list T :=
  tabulate1 (nrows m * ncols m)
    (fun t => get m (t / ncols m) (t mod ncols m)).

Definition ravelF (m : matrix T) : list T :=
  tabulate1 (nrows m * ncols m)
    (fun t => get m (t mod nrows m) (t / nrows m)).

(** [np.reshape(v, (r, c))] and [np.reshape(v, (r, c), order='F')] *)
Definition reshape1 (v : list T) (r c : nat) : result (matrix T) :=
  if List.length v =? r * c
  then Ok (tabulate r c (fun i j => get1 v (i * c + j)))
  else Err (ValueError "cannot reshape array").

Definition reshape1F (v : list T) (r c : nat) : result (matrix T) :=
  if List.length v =? r * c
  then Ok (tabulate r c (fun i j => get1 v (i + j * r)))
  else Err (ValueError "cannot reshape array").

Definition reshape (m : matrix T) (r c : nat) : result (matrix T) :=
  reshape1 (ravel m) r c.

(** [np.tile(m, (a, b))] *)
Definition tile (m : matrix T) (a b : nat) : matrix T :=
  tabulate (a * nrows m) (b * ncols m)
    (fun i j => get m (i mod nrows m) (j mod ncols m)).

(** [np.c_[a, b]] and [np.r_[a, b]] on two-dimensional arrays *)
Definition c_ (a b : matrix T) : result (matrix T) :=
  if nrows a =? nrows b
  then Ok (tabulate (nrows a) (ncols a + ncols b)
             (fun i j => if j <? ncols a then get a i j
                         else get b i (j - ncols a)))
  else Err (ValueError "all the input array dimensions must match").

Definition r_ (a b : matrix T) : result (matrix T) :=
  if ncols a =? ncols b
  then Ok (tabulate (nrows a + nrows b) (ncols a)
             (fun i j => if i <? nrows a then get a i j
                         else get b (i - nrows a) j))
  else Err (ValueError "all the input array dimensions must match").

(** Python slices [lo:hi] with non-negative bounds: the first index and
    the number of indices selected in a dimension of length [n]. *)
Definition slice_bounds (lo : nat) (hi : option nat) (n : nat) : nat * nat :=
  let start := Nat.min lo n in
  let stop := match hi with Some h => Nat.min h n | None => n end in
  (start, stop - start).

(** The start of the slice [-k:] in a dimension of length [n]. *)
Definition last_start (k n : nat) : nat :=
  if k =? 0 then 0 else n - k.

(** [v[lo:hi]] *)
Definition slice1 (v : list T) (lo : nat) (hi : option nat) : list T :=
  let '(s, cnt) := slice_bounds lo hi (List.length v) in
  firstn cnt (skipn s v).

(** [m[rlo:rhi, clo:chi]] *)
Definition slice (m : matrix T) (rlo : nat) (rhi : option nat)
                 (clo : nat) (chi : option nat) : matrix T :=
  let '(sr, cr) := slice_bounds rlo rhi (nrows m) in
  let '(sc, cc) := slice_bounds clo chi (ncols m) in
  tabulate cr cc (fun i j => get m (sr + i) (sc + j)).

(** The indices of [lo:hi:step], [step] positive. *)
Definition strided (lo hi step n : nat) : list nat :=
  let stop := Nat.min hi n in
  map (fun t => lo + t * step) (seq 0 ((stop - lo + (step - 1)) / step)).

(** [m[idx]] and [m[:, idx]] with integer index lists *)
Definition take_rows (m : matrix T) (idx : list nat) : result (matrix T) :=
  if forallb (fun i => i <? nrows m) idx
  then Ok (tabulate (List.length idx) (ncols m)
             (fun i j => get m (nth i idx 0) j))
  else Err (IndexError "index out of bounds").

Definition take_cols (m : matrix T) (idx : list nat) : result (matrix T) :=
  if forallb (fun j => j <? ncols m) idx
  then Ok (tabulate (nrows m) (List.length idx)
             (fun i j => get m i (nth j idx 0)))
  else Err (IndexError "index out of bounds").

(** [m[i]] as a one-dimensional array *)
Definition item_row (m : matrix T) (i : nat) : result (list T) :=
  if i <? nrows m
  then Ok (tabulate1 (ncols m) (fun j => get m i j))
  else Err (IndexError "index out of bounds").

(** Broadcasting of one dimension: the common length, and the index
    read in an operand of length [d]. *)
Definition bdim (a b : nat) : option nat :=
  if a =? b then Some a
  else if a =? 1 then Some b
  else if b =? 1 then Some a
  else None.

Definition bidx (d i : nat) : nat := if d =? 1 then 0 else i.

(** [m[rlo:rhi, clo:chi] = v]: the value is broadcast to the region *)
Definition fits (d region : nat) : bool := (d =? region) || (d =? 1).

Definition set_slice (m : matrix T) (rlo : nat) (rhi : option nat)
                     (clo : nat) (chi : option nat) (v : matrix T)
  : result (matrix T) :=
  let '(sr, cr) := slice_bounds rlo rhi (nrows m) in
  let '(sc, cc) := slice_bounds clo chi (ncols m) in
  if fits (nrows v) cr && fits (ncols v) cc
  then Ok (tabulate (nrows m) (ncols m)
             (fun i j =>
                if (sr <=? i) && (i <? sr + cr) && (sc <=? j) && (j <? sc + cc)
                then get v (bidx (nrows v) (i - sr)) (bidx (ncols v) (j - sc))
                else get m i j))
  else Err (ValueError "could not broadcast input array").

(** [m[:, j] = x] for a scalar [x], and [m[:, j] = v] for a
    one-dimensional [v] *)
Definition set_col_scalar (m : matrix T) (j : nat) (x : T) : result (matrix T) :=
  if j <? ncols m
  then Ok (tabulate (nrows m) (ncols m)
             (fun i j' => if j' =? j then x else get m i j'))
  else Err (IndexError "index out of bounds").

Definition set_col (m : matrix T) (j : nat) (v : list T) : result (matrix T) :=
  if j <? ncols m
  then if fits (List.length v) (nrows m)
       then Ok (tabulate (nrows m) (ncols m)
                  (fun i j' => if j' =? j then get1 v (bidx (List.length v) i)
                               else get m i j'))
       else Err (ValueError "could not broadcast input array")
  else Err (IndexError "index out of bounds").

End Array.

(** [np.arange(lo, hi)] *)
Definition arange (lo hi : nat) : list nat := seq lo (hi - lo).

Section Numeric.

Context {A : Type} {SA : Scalar A}.

Definition of_nat (n : nat) : A := of_Z (Z.of_nat n).

(** Sums run over the index in increasing order. *)
Definition sum_to (n : nat) (f : nat -> A) : A :=
  fold_left (fun acc t => fadd acc (f t)) (seq 0 n) zero.

Definition ones (r c : nat) : matrix A := tabulate r c (fun _ _ => one).
Definition zeros (r c : nat) : matrix A := tabulate r c (fun _ _ => zero).
Definition eye (n : nat) : matrix A :=
  tabulate n n (fun i j => if i =? j then one else zero).

(** [a @ b] *)
Definition matmul (a b : matrix A) : result (matrix A) :=
  if ncols a =? nrows b
  then Ok (tabulate (nrows a) (ncols b)
             (fun i j => sum_to (ncols a) (fun t => fmul (get a i t) (get b t j))))
  else Err (ValueError "matmul: shapes not aligned").

(** [a @ v] for a one-dimensional [v] *)
Definition matvec (a : matrix A) (v : list A) : result (list A) :=
  if ncols a =? List.length v
  then Ok (tabulate1 (nrows a)
             (fun i => sum_to (ncols a) (fun t => fmul (get a i t) (get1 v t))))
  else Err (ValueError "matmul: shapes not aligned").

(** [np.kron(a, b)] *)
Definition kron (a b : matrix A) : matrix A :=
  tabulate (nrows a * nrows b) (ncols a * ncols b)
    (fun i j => fmul (get a (i / nrows b) (j / ncols b))
                     (get b (i mod nrows b) (j mod ncols b))).

(** Element-wise binary operations with broadcasting *)
Definition broadcast (f : A -> A -> A) (a b : matrix A) : result (matrix A) :=
  match bdim (nrows a) (nrows b), bdim (ncols a) (ncols b) with
  | Some r, Some c =>
      Ok (tabulate r c
            (fun i j => f (get a (bidx (nrows a) i) (bidx (ncols a) j))
                          (get b (bidx (nrows b) i) (bidx (ncols b) j))))
  | _, _ => Err (ValueError "operands could not be broadcast together")
  end.

Definition add := broadcast fadd.
Definition sub := broadcast fsub.
Definition mul := broadcast fmul.

(** In-place [a -= b]: the result keeps the shape of [a]. *)
Definition isub (a b : matrix A) : result (matrix A) :=
  if fits (nrows b) (nrows a) && fits (ncols b) (ncols a)
  then Ok (tabulate (nrows a) (ncols a)
             (fun i j => fsub (get a i j)
                              (get b (bidx (nrows b) i) (bidx (ncols b) j))))
  else Err (ValueError "operands could not be broadcast together").

Definition map_matrix (f : A -> A) (a : matrix A) : matrix A :=
  tabulate (nrows a) (ncols a) (fun i j => f (get a i j)).

(** [a / x], [x * a], [-a] and [a ** 2] *)
Definition div_scalar (a : matrix A) (x : A) : matrix A :=
  map_matrix (fun y => fdiv y x) a.
Definition scale (x : A) (a : matrix A) : matrix A :=
  map_matrix (fun y => fmul x y) a.
Definition neg (a : matrix A) : matrix A := map_matrix fneg a.
Definition square (a : matrix A) : matrix A := map_matrix (fun y => fmul y y) a.

(** [a.mean(0)] and [a.sum()] *)
Definition mean0 (a : matrix A) : list A :=
  tabulate1 (ncols a)
    (fun j => fdiv (sum_to (nrows a) (fun i => get a i j)) (of_nat (nrows a))).

Definition sum (a : matrix A) : A :=
  sum_to (nrows a) (fun i => sum_to (ncols a) (fun j => get a i j)).

(** [float(a)] *)
Definition to_float (a : matrix A) : result A :=
  if (nrows a =? 1) && (ncols a =? 1)
  then Ok (get a 0 0)
  else Err (TypeError "only size-1 arrays can be converted to Python scalars").

End Numeric.

End np.

(** A parameter vector reaches the GMM moment builder either as the
    column array of starting values or as the one-dimensional array
    returned by the optimizer. *)

Inductive ndarray (A : Type) : Type :=
| Arr1 (v : list A)
| Arr2 (m : matrix A).

Section NdArray.

Context {A : Type} {SA : Scalar A}.

(** [x[lo:hi]] along the first axis *)
Definition nd_slice (x : ndarray A) (lo : nat) (hi : option nat) : ndarray A :=
  match x with
  | Arr1 v => Arr1 (np.slice1 v lo hi)
  | Arr2 m => Arr2 (np.slice m lo hi 0 None)
  end.

(** [x.shape[0]] *)
Definition nd_len (x : ndarray A) : nat :=
  match x with
  | Arr1 v => List.length v
  | Arr2 m => nrows m
  end.

(** [np.reshape(x, (r, c))] *)
Definition nd_reshape (x : ndarray A) (r c : nat) : result (matrix A) :=
  match x with
  | Arr1 v => np.reshape1 v r c
  | Arr2 m => np.reshape m r c
  end.

(** [a @ x] *)
Definition nd_matmul (a : matrix A) (x : ndarray A) : result (ndarray A) :=
  match x with
  | Arr1 v => y <- np.matvec a v ;; Ok (Arr1 y)
  | Arr2 m => y <- np.matmul a m ;; Ok (Arr2 y)
  end.

(** [x.T] *)
Definition nd_T (x : ndarray A) : ndarray A :=
  match x with
  | Arr1 v => Arr1 v
  | Arr2 m => Arr2 (np.T_ m)
  end.

(** Broadcasting against a two-dimensional array reads a
    one-dimensional operand as a single row. *)
Definition as2d (x : ndarray A) : matrix A :=
  match x with
  | Arr1 v => np.row v
  | Arr2 m => m
  end.

Definition nd_ravel (x : ndarray A) : list A :=
  match x with
  | Arr1 v => v
  | Arr2 m => np.ravel m
  end.
End NdArray.

(** ** Python values and calls *)

Inductive pyval : Type :=
| PyNone
| PyInt (z : Z)
| PyStr (s : string).

(** [d.get(key, default)] *)
Definition dict_get {V : Type} (d : list (string * V)) (key : string) (default : V) : V :=
  match find (fun kv => String.eqb (fst kv) key) d with
  | Some kv => snd kv
  | None => default
  end.

(** [d[key]] *)
Definition dict_item {V : Type} (d : list (string * V)) (key : pyval) : result V :=
  match key with
  | PyStr s =>
      match find (fun kv => String.eqb (fst kv) s) d with
      | Some kv => Ok (snd kv)
      | None => Err (KeyError s)
      end
  | _ => Err (KeyError "<key>")
  end.

(** A call [f(a1, ..., an, k1=v1, ...)]. *)
Record call (V : Type) : Type := Call {
  args : list V;
  kwargs : list (string * V)
}.

Definition mem (s : string) (l : list string) : bool :=
  existsb (String.eqb s) l.

(** Binding of a call to the parameters [names] (positional or keyword)
    and [kwonly] (keyword only): one optional value per parameter, in the
    order of the signature. *)
Definition bind_params {V : Type} (names kwonly : list string) (c : call V)
  : result (list (option V)) :=
  let npos := List.length (args c) in
  if List.length names <? npos
  then Err (TypeError "too many positional arguments")
  else if existsb (fun kv => negb (mem (fst kv) (names ++ kwonly))) (kwargs c)
  then Err (TypeError "unexpected keyword argument")
  else if existsb (fun kv => mem (fst kv) (firstn npos names)) (kwargs c)
  then Err (TypeError "multiple values for argument")
  else Ok (map Some (args c)
           ++ map (fun n => option_map snd
                              (find (fun kv => String.eqb (fst kv) n) (kwargs c)))
                  (skipn npos names ++ kwonly)).

(** ** Collaborators outside this module *)

(** [linearmodels.iv.data.IVData]: a two-dimensional array with column
    labels. *)
Record IVData (A : Type) : Type := mkIVData {
  ndarray_ : matrix A;
  cols : list string
}.

Inductive array_like (A : Type) : Type :=
| Array2D (values : matrix A)
| DataFrame (columns : list string) (values : matrix A)
| FromIVData (d : IVData A).

(** [IVData(x, var_name=...)] *)
Class DataInput (A : Type) : Type := {
  IVData_init : array_like A -> string -> result (IVData A)
}.

(** [numpy.linalg]: [None] stands for [LinAlgError]. *)
Class LinAlg (A : Type) : Type := {
  pinv : matrix A -> option (matrix A);
  inv : matrix A -> option (matrix A);
  lstsq : matrix A -> matrix A -> option (matrix A)
}.

(** The shapes [numpy.linalg] returns. *)
Class LinAlgShapes (A : Type) {LA : LinAlg A} : Prop := {
  pinv_shape : forall a x, pinv a = Some x -> np.shape x = (ncols a, nrows a);
  inv_shape : forall a x, inv a = Some x -> nrows a = ncols a /\ np.shape x = np.shape a;
  lstsq_shape : forall a b x,
      lstsq a b = Some x -> nrows a = nrows b /\ np.shape x = (ncols a, ncols b)
}.

(** [scipy.optimize.minimize(fun, x0, options={'maxiter': max_iter})]:
    the objective, the flattened starting point and the iteration cap give
    [res.x] and [res.fun].  The progress callback built by
    [callback_factory] only prints and is left out. *)
Class Optimizer (A : Type) : Type := {
  minimize : (list A -> result A) -> list A -> Z -> result (list A * A)
}.

(** [linearmodels.iv.covariance.KERNEL_LOOKUP]: the kernel weight
    functions by name, called as [KERNEL_LOOKUP[kernel](bw, nobs - 1)]. *)
Class Kernels (A : Type) : Type := {
  KERNEL_LOOKUP : list (string * (pyval -> Z -> result (list A)))
}.

(** [linearmodels.utility.WaldTestStatistic(stat, null, df, name=...)] *)
Record WaldTestStatistic (A : Type) : Type := mkWald {
  stat : A;
  null : string;
  df : Z;
  name : string
}.

(** The attributes handed to [LinearFactorModelResults] and
    [GMMFactorModelResults]. *)
Record Results (A M : Type) : Type := mkResults {
  params : matrix A;
  cov : matrix A;
  betas : matrix A;
  rp : ndarray A;
  rp_cov : matrix A;
  alphas : matrix A;
  alpha_vcv : matrix A;
  jstat : WaldTestStatistic A;
  rsquared : A;
  total_ss : A;
  residual_ss : A;
  param_names : list string;
  portfolio_names : list string;
  factor_names : list string;
  name_ : string;
  cov_type_ : string;
  model : M;
  nobs_ : nat;
  rp_names : list string
}.

Section Collaborators.

Context {A : Type} {SA : Scalar A} {LA : LinAlg A}.

Definition singular {X : Type} (o : option X) : result X :=
  match o with
  | Some x => Ok x
  | None => Err (LinAlgError "Singular matrix")
  end.

Definition np_pinv (a : matrix A) : result (matrix A) := singular (pinv a).
Definition np_inv (a : matrix A) : result (matrix A) := singular (inv a).
Definition np_lstsq (a b : matrix A) : result (matrix A) := singular (lstsq a b).

(** Modelled from the spec: [linearmodels.iv.covariance._cov_kernel(z, w)]
    is not among the sources.  It is the weighted sum of the lag-[j]
    autocovariances of [z], one per weight, each lag [j > 0]
    entered with its transpose, the whole divided by the number of
    observations; lag 0 is the contemporaneous outer product. *)
Definition autocov (z : matrix A) (lag : nat) : matrix A :=
  np.tabulate (ncols z) (ncols z)
    (fun a b => np.sum_to (nrows z - lag)
                  (fun t => fmul (np.get z (lag + t) a) (np.get z t b))).

Definition lag_term (z : matrix A) (w : list A) (lag : nat) : matrix A :=
  let op := autocov z lag in
  np.tabulate (ncols z) (ncols z)
    (fun a b => fmul (np.get1 w lag)
                  (if lag =? 0 then np.get op a b
                   else fadd (np.get op a b) (np.get op b a))).

Definition _cov_kernel (z : matrix A) (w : list A) : matrix A :=
  np.tabulate (ncols z) (ncols z)
    (fun a b =>
       fdiv (np.sum_to (List.length w) (fun lag => np.get (lag_term z w lag) a b))
            (np.of_nat (nrows z))).

(** ['alpha-{0}'.format(portfolio)] and its siblings *)
Definition alpha_name (portfolio : string) : string := "alpha-" ++ portfolio.
Definition beta_name (portfolio factor : string) : string :=
  "beta-" ++ portfolio ++ "-" ++ factor.
Definition lambda_name (factor : string) : string := "lambda-" ++ factor.
Definition mu_name (factor : string) : string := "mu-" ++ factor.
End Collaborators.

(** ** [callback_factory] *)

(** What the callback prints: the two arguments of
    ['Iteration: {0}, Objective: {1}'.format(d['iter'], fval)]. *)
Record progress (A : Type) : Type := mkProgress {
  iteration : nat;
  objective : A
}.

Section Callback.

Context {A P Args : Type}.

(** [callback(params)], the closure that [callback_factory(obj, args,
    disp)] returns, on its cell [d['iter']] and on the lines printed so
    far; [disp] is the value of [int(disp)]. *)
Definition callback (obj : P -> Args -> result A) (args : Args) (disp : Z)
                    (d : nat) (out : list (progress A)) (params : P)
  : result (nat * list (progress A)) :=
  fval <- obj params args ;;
  let out := if (0 <? disp)%Z && (Z.of_nat d mod disp =? 0)%Z
             then out ++ [mkProgress d fval]
             else out in
  Ok (d + 1, out).

(** [callback_factory(obj, args, disp=1)]: the new cell [d = {'iter': 0}]
    and the closure over it. *)
Definition callback_factory (obj : P -> Args -> result A) (args : Args) (disp : Z)
  : nat * (nat -> list (progress A) -> P -> result (nat * list (progress A))) :=
  (0, callback obj args disp).

End Callback.

(** ** [class TradedFactorModel] *)

Module TradedFactorModel.

Record t (A : Type) : Type := Build {
  portfolios : IVData A;
  factors : IVData A;
  _name : string
}.

Section Methods.

Context {A : Type} {SA : Scalar A} {LA : LinAlg A} {KS : Kernels A}
        {DI : DataInput A}.

(** [__init__(self, portfolios, factors)]; [class_name] is
    [self.__class__.__name__]. *)
Definition __init__ (class_name : string) (portfolios factors : array_like A)
  : result (t A) :=
  p <- IVData_init portfolios "portfolio" ;;
  f <- IVData_init factors "factor" ;;
  Ok (Build p f class_name).

(** [TradedFactorModel(...)] *)
Definition new (c : call (array_like A)) : result (t A) :=
  bound <- bind_params ["portfolios"; "factors"] [] c ;;
  match bound with
  | [Some portfolios; Some factors] =>
      __init__ "TradedFactorModel" portfolios factors
  | _ => Err (TypeError "missing required positional argument")
  end.

(** [int(np.ceil(4 * (nobs / 100) ** (2 / 9)))] *)
Definition default_bandwidth (nobs : nat) : Z :=
  fceil (fmul (of_Z 4)
              (fpow (fdiv (np.of_nat nobs) (of_Z 100))
                    (fdiv (of_Z 2) (of_Z 9)))).

(** The covariance selection of [fit] (the [if cov_type ...] chain):
    the covariance of the stacked moments [xe] and of the demeaned
    factors [fe]. *)
Definition covariance (cov_type : string) (cov_config : list (string * pyval))
                      (nobs : nat) (xe fe : matrix A)
  : result (matrix A * matrix A) :=
  if mem cov_type ["robust"; "heteroskedastic"] then
    xx <- np.matmul (np.T_ xe) xe ;;
    let xeex := np.div_scalar xx (np.of_nat nobs) in
    ff <- np.matmul (np.T_ fe) fe ;;
    let rp_cov := np.div_scalar ff (np.of_nat nobs) in
    Ok (xeex, rp_cov)
  else if String.eqb cov_type "kernel" then
    let kernel := dict_get cov_config "kernel" (PyStr "bartlett") in
    let bw := dict_get cov_config "bandwidth" PyNone in
    let bw := match bw with
              | PyNone => PyInt (default_bandwidth nobs)
              | _ => bw
              end in
    weights <- dict_item KERNEL_LOOKUP kernel ;;
    w <- weights bw (Z.of_nat nobs - 1)%Z ;;
    let xeex := _cov_kernel xe w in
    let rp_cov := _cov_kernel fe w in
    Ok (xeex, rp_cov)
  else Err (ValueError ("Unknown cov_type: " ++ cov_type)).

(** The names of the loadings, portfolio by portfolio. *)
Definition loading_names (pcols fcols : list string) : list string :=
  flat_map (fun portfolio =>
              alpha_name portfolio :: map (beta_name portfolio) fcols) pcols.

(** [fit(self, cov_type='robust', debiased=True, **cov_config)] *)
Definition fit (self : t A) (cov_type : string) (debiased : bool)
               (cov_config : list (string * pyval))
  : result (Results A (t A)) :=
  let p := ndarray_ (portfolios self) in
  let f := ndarray_ (factors self) in
  let nportfolio := ncols p in
  let '(nobs, nfactor) := np.shape f in
  fc <- np.c_ (np.ones nobs 1) f ;;
  let rp := np.col (np.mean0 f) in
  fe <- np.sub f (np.row (np.mean0 f)) ;;
  pfc <- np_pinv fc ;;
  b <- np.matmul pfc p ;;
  fcb <- np.matmul fc b ;;
  eps <- np.sub p fcb ;;
  let alphas := np.T_ (np.slice b 0 (Some 1) 0 None) in
  let nloading := (nfactor + 1) * nportfolio in
  let xpxi := np.eye (nloading + nfactor) in
  fcfc <- np.matmul (np.T_ fc) fc ;;
  pxx <- np_pinv (np.div_scalar fcfc (np.of_nat nobs)) ;;
  xpxi <- np.set_slice xpxi 0 (Some nloading) 0 (Some nloading)
            (np.kron (np.eye nportfolio) pxx) ;;
  let f_rep := np.tile fc 1 nportfolio in
  let eps_rep := np.tile eps (nfactor + 1) 1 in
  let eps_rep := np.ravelF eps_rep in
  eps_rep <- np.reshape1F eps_rep nobs ((nfactor + 1) * nportfolio) ;;
  xe <- np.mul f_rep eps_rep ;;
  xe <- np.c_ xe fe ;;
  '(xeex, rp_cov) <- covariance cov_type cov_config nobs xe fe ;;
  let debiased := (if debiased then 1 else 0)%Z in
  let df := ncols fc in
  v1 <- np.matmul xpxi xeex ;;
  v2 <- np.matmul v1 xpxi ;;
  let full_vcv :=
    np.div_scalar v2 (of_Z (Z.of_nat nobs - debiased * Z.of_nat df)) in
  let vcv := np.slice full_vcv 0 (Some nloading) 0 (Some nloading) in
  let rp_cov := np.div_scalar rp_cov (of_Z (Z.of_nat nobs - debiased)) in
  order <- np.reshape1 (np.arange 0 ((nfactor + 1) * nportfolio))
             nportfolio (nfactor + 1) ;;
  let order := np.ravel (np.T_ order) in
  vcv <- np.take_rows vcv order ;;
  vcv <- np.take_cols vcv order ;;
  let alpha_vcv := np.slice vcv 0 (Some nportfolio) 0 (Some nportfolio) in
  pav <- np_pinv alpha_vcv ;;
  s1 <- np.matmul (np.T_ alphas) pav ;;
  s2 <- np.matmul s1 alphas ;;
  stat <- np.to_float s2 ;;
  let jstat := mkWald stat "All alphas are 0" (Z.of_nat nportfolio) "J-statistic" in
  let params := np.T_ b in
  let betas := np.T_ (np.slice b 1 None 0 None) in
  let residual_ss := np.sum (np.square eps) in
  e <- np.sub p (np.row (np.mean0 p)) ;;
  let total_ss := np.sum (np.square e) in
  let r2 := fsub one (fdiv residual_ss total_ss) in
  let param_names :=
    loading_names (cols (portfolios self)) (cols (factors self))
    ++ map lambda_name (cols (factors self)) in
  Ok (mkResults params full_vcv betas (Arr2 rp) rp_cov alphas alpha_vcv jstat
        r2 total_ss residual_ss param_names
        (cols (portfolios self)) (cols (factors self)) (_name self)
        cov_type self nobs (cols (factors self))).
End Methods.

End TradedFactorModel.

(** ** [class LinearFactorModel(TradedFactorModel)] *)

Module LinearFactorModel.

Record t (A : Type) : Type := Build {
  base : TradedFactorModel.t A;
  _sigma : option (array_like A)
}.

Section Methods.

Context {A : Type} {SA : Scalar A} {LA : LinAlg A} {DI : DataInput A}.

Definition portfolios (self : t A) := TradedFactorModel.portfolios (base self).
Definition factors (self : t A) := TradedFactorModel.factors (base self).

(** [__init__(self, portfolios, factors, *, sigma=None)] *)
Definition __init__ (class_name : string) (portfolios factors : array_like A)
                    (sigma : option (array_like A)) : result (t A) :=
  b <- TradedFactorModel.__init__ class_name portfolios factors ;;
  Ok (Build b sigma).

(** [LinearFactorModel(...)] *)
Definition new (c : call (array_like A)) : result (t A) :=
  bound <- bind_params ["portfolios"; "factors"] ["sigma"] c ;;
  match bound with
  | [Some portfolios; Some factors; sigma] =>
      __init__ "LinearFactorModel" portfolios factors sigma
  | _ => Err (TypeError "missing required positional argument")
  end.

(** One pass of the [for i in range(nportfolio)] loop that fills the
    risk-premia rows of the Jacobian. *)
Definition jacobian_row_block (excess_returns : bool) (nfactor nrf s2 s3 : nat)
                              (betas lam alphas : matrix A)
                              (G : matrix A) (i : nat) : result (matrix A) :=
  let _lam := if excess_returns then lam else np.slice lam 1 None 0 None in
  bi <- np.take_rows betas [i] ;;
  block <- np.matmul (np.T_ bi) (np.T_ _lam) ;;
  ai <- np.item_row alphas i ;;
  block <- (if excess_returns then
              x <- np.mul (np.row ai) (np.eye nfactor) ;;
              np.isub block x
            else
              x <- np.mul (np.row ai) (np.eye nfactor) ;;
              y <- np.r_ (np.zeros 1 nfactor) x ;;
              np.isub block y) ;;
  block <- np.c_ (np.zeros (nfactor + nrf) 1) block ;;
  np.set_slice G s2 (Some s3) (i * (nfactor + 1)) (Some ((i + 1) * (nfactor + 1)))
    block.

Fixpoint for_each {S : Type} (body : S -> nat -> result S) (s : S)
                  (range : list nat) : result S :=
  match range with
  | [] => Ok s
  | i :: rest => s' <- body s i ;; for_each body s' rest
  end.

(** What [fit] has computed when it asks for the inverse of the
    Jacobian. *)
Record stage (A : Type) : Type := mkStage {
  st_b : matrix A;
  st_eps : matrix A;
  st_betas : matrix A;
  st_lam : matrix A;
  st_alphas : matrix A;
  st_S : matrix A;
  st_G : matrix A
}.

(** [fit] up to the Jacobian [G] *)
Definition moments_and_jacobian (self : t A) (excess_returns : bool)
  : result (stage A) :=
  let nrf := if excess_returns then 0 else 1 in
  let f := ndarray_ (factors self) in
  let '(nobs, nfactor) := np.shape f in
  let p := ndarray_ (portfolios self) in
  let nportfolio := ncols p in
  fc <- np.c_ (np.ones nobs 1) f ;;
  b <- np_lstsq fc p ;;
  fcb <- np.matmul fc b ;;
  eps <- np.sub p fcb ;;
  betas <- (if excess_returns
            then Ok (np.T_ (np.slice b 1 None 0 None))
            else np.set_col_scalar (np.T_ b) 0 one) ;;
  lam <- np_lstsq betas (np.col (np.mean0 p)) ;;
  let f_rep := np.tile fc 1 nportfolio in
  let eps_rep := np.tile eps (nfactor + 1) 1 in
  eps_rep <- np.reshape (np.T_ eps_rep) (nportfolio * (nfactor + 1)) nobs ;;
  let eps_rep := np.T_ eps_rep in
  expected <- np.matmul betas lam ;;
  pricing_errors <- np.sub p (np.T_ expected) ;;
  let alphas := np.col (np.mean0 pricing_errors) in
  m1 <- np.mul f_rep eps_rep ;;
  m2 <- np.matmul pricing_errors betas ;;
  m3 <- np.sub pricing_errors (np.T_ alphas) ;;
  m12 <- np.c_ m1 m2 ;;
  moments <- np.c_ m12 m3 ;;
  mm <- np.matmul (np.T_ moments) moments ;;
  let S := np.div_scalar mm (np.of_nat nobs) in
  let G := np.eye (nrows S) in
  let s2 := (nfactor + 1) * nportfolio in
  let s3 := s2 + (nfactor + nrf) in
  fpf <- np.matmul (np.T_ fc) fc ;;
  let fpf := np.div_scalar fpf (np.of_nat nobs) in
  G <- np.set_slice G 0 (Some s2) 0 (Some s2) (np.kron (np.eye nportfolio) fpf) ;;
  bb <- np.matmul (np.T_ betas) betas ;;
  G <- np.set_slice G s2 (Some s3) s2 (Some s3) bb ;;
  G <- for_each (jacobian_row_block excess_returns nfactor nrf s2 s3
                   betas lam alphas) G (seq 0 nportfolio) ;;
  zero_lam <- (if excess_returns
               then np.r_ (np.zeros 1 1) lam
               else np.r_ (np.zeros 1 1) (np.slice lam 1 None 0 None)) ;;
  G <- np.set_slice G s3 None 0 (Some s2)
         (np.kron (np.eye nportfolio) (np.T_ zero_lam)) ;;
  Ok (mkStage b eps betas lam alphas S G).

(** [fit(self, excess_returns=True, cov_type='robust', **cov_config)] *)
Definition fit (self : t A) (excess_returns : bool) (cov_type : string)
               (cov_config : list (string * pyval))
  : result (Results A (t A)) :=
  let nrf := if excess_returns then 0 else 1 in
  let f := ndarray_ (factors self) in
  let '(nobs, nfactor) := np.shape f in
  let p := ndarray_ (portfolios self) in
  let nportfolio := ncols p in
  let s2 := (nfactor + 1) * nportfolio in
  let s3 := s2 + (nfactor + nrf) in
  st <- moments_and_jacobian self excess_returns ;;
  let eps := st_eps st in
  let betas := st_betas st in
  let lam := st_lam st in
  let alphas := st_alphas st in
  Ginv <- np_inv (st_G st) ;;
  v1 <- np.matmul Ginv (st_S st) ;;
  v2 <- np.matmul v1 (np.T_ Ginv) ;;
  let full_vcv := np.div_scalar v2 (np.of_nat nobs) in
  let alpha_vcv := np.slice full_vcv s3 None s3 None in
  avi <- np_inv alpha_vcv ;;
  t1 <- np.matmul (np.T_ alphas) avi ;;
  t2 <- np.matmul t1 alphas ;;
  stat <- np.to_float t2 ;;
  let jstat := mkWald stat "All alphas are 0"
                 (Z.of_nat nportfolio - Z.of_nat nfactor)%Z "J-statistic" in
  e <- np.sub p (np.row (np.mean0 p)) ;;
  let total_ss := np.sum (np.square e) in
  let residual_ss := np.sum (np.square eps) in
  let r2 := fsub one (fdiv residual_ss total_ss) in
  let rp := lam in
  let rp_cov := np.slice full_vcv s2 (Some s3) s2 (Some s3) in
  let betas := if excess_returns then betas else np.slice betas 0 None 1 None in
  params <- np.c_ alphas betas ;;
  let param_names :=
    TradedFactorModel.loading_names (cols (portfolios self)) (cols (factors self))
    ++ (if excess_returns then [] else ["lambda-risk_free"])
    ++ map lambda_name (cols (factors self)) in
  order <- np.reshape1 (np.arange 0 s2) nportfolio (nfactor + 1) ;;
  order <- np.set_col order 0 (np.arange s3 (s3 + nportfolio)) ;;
  let order := np.ravel order ++ np.arange s2 s3 in
  full_vcv <- np.take_rows full_vcv order ;;
  full_vcv <- np.take_cols full_vcv order ;;
  let factor_names := cols (factors self) in
  let rp_names := if excess_returns then factor_names
                  else "risk_free" :: factor_names in
  Ok (mkResults params full_vcv betas (Arr2 rp) rp_cov alphas alpha_vcv jstat
        r2 total_ss residual_ss param_names
        (cols (portfolios self)) factor_names
        (TradedFactorModel._name (base self))
        cov_type self nobs rp_names).
End Methods.

End LinearFactorModel.

(** ** [class LinearFactorModelGMM(TradedFactorModel)] *)

Module LinearFactorModelGMM.

Section Methods.

Context {A : Type} {SA : Scalar A} {LA : LinAlg A} {DI : DataInput A}
        {OPT : Optimizer A}.

Local Abbreviation t := (TradedFactorModel.t A).
Local Abbreviation portfolios := (@TradedFactorModel.portfolios A).
Local Abbreviation factors := (@TradedFactorModel.factors A).

(** [__init__(self, factors, portfolios)]: the body passes its
    parameters on, in this order, to [TradedFactorModel.__init__]. *)
Definition __init__ (class_name : string) (factors portfolios : array_like A)
  : result t :=
  TradedFactorModel.__init__ class_name factors portfolios.

(** [LinearFactorModelGMM(...)] *)
Definition new (c : call (array_like A)) : result t :=
  bound <- bind_params ["factors"; "portfolios"] [] c ;;
  match bound with
  | [Some factors; Some portfolios] =>
      __init__ "LinearFactorModelGMM" factors portfolios
  | _ => Err (TypeError "missing required positional argument")
  end.

(** [_moments(self, parameters, excess_returns)] *)
Definition _moments (self : t) (parameters : ndarray A) (excess_returns : bool)
  : result (matrix A) :=
  let nrf := if excess_returns then 0 else 1 in
  let p := ndarray_ (portfolios self) in
  let '(nobs, n) := np.shape p in
  let f := ndarray_ (factors self) in
  let k := ncols f in
  let s1 := n * k in
  let s2 := n * k + k + nrf in
  let betas := nd_slice parameters 0 (Some s1) in
  let lam := nd_slice parameters s1 (Some s2) in
  let mu := nd_slice parameters s2 None in
  betas <- nd_reshape betas n k ;;
  ob <- np.c_ (np.ones n nrf) betas ;;
  expected <- nd_matmul ob lam ;;
  fe <- np.sub f (as2d (nd_T mu)) ;;
  e1 <- np.sub p (as2d (nd_T expected)) ;;
  fb <- np.matmul fe (np.T_ betas) ;;
  eps <- np.sub e1 fb ;;
  f <- np.c_ (np.ones nobs 1) f ;;
  let f := np.tile f 1 n in
  eps <- np.reshape (np.T_ (np.tile eps (k + 1) 1)) (n * (k + 1)) nobs ;;
  let eps := np.T_ eps in
  ef <- np.mul eps f ;;
  np.c_ ef fe.

(** [_j(self, parameters, excess_returns, w)] *)
Definition _j (self : t) (parameters : ndarray A) (excess_returns : bool)
              (w : matrix A) : result A :=
  g <- _moments self parameters excess_returns ;;
  let nobs := nrows (ndarray_ (portfolios self)) in
  let gbar := np.col (np.mean0 g) in
  gw <- np.matmul (np.T_ gbar) w ;;
  gwg <- np.matmul gw gbar ;;
  v <- np.to_float gwg ;;
  Ok (fmul (np.of_nat nobs) v).

(** One pass of the [for i in range(n)] loop of [_jacobian]. *)
Definition jacobian_blocks (excess_returns : bool) (nobs k : nat)
                           (betas f_aug iota : matrix A)
                           (acc : matrix A * matrix A) (i : nat)
  : result (matrix A * matrix A) :=
  let '(jac12, jac13) := acc in
  b <- (if excess_returns then np.take_rows betas [i]
        else bi <- np.take_rows betas [i] ;; np.c_ (np.col [one]) bi) ;;
  ib <- np.matmul iota b ;;
  v <- np.matmul (np.T_ f_aug) ib ;;
  jac12 <- np.set_slice jac12 (i * (k + 1)) (Some ((i + 1) * (k + 1))) 0 None
             (np.div_scalar v (np.of_nat nobs)) ;;
  b <- np.take_rows betas [i] ;;
  ib <- np.matmul iota b ;;
  v <- np.matmul (np.neg (np.T_ f_aug)) ib ;;
  jac13 <- np.set_slice jac13 (i * (k + 1)) (Some ((i + 1) * (k + 1))) 0 None
             (np.div_scalar v (np.of_nat nobs)) ;;
  Ok (jac12, jac13).

(** [_jacobian(self, params, excess_returns)] *)
Definition _jacobian (self : t) (params : ndarray A) (excess_returns : bool)
  : result (matrix A) :=
  let '(nobs, k) := np.shape (ndarray_ (factors self)) in
  let n := ncols (ndarray_ (portfolios self)) in
  let nrf := if excess_returns then 0 else 1 in
  let jac := np.zeros (n * k + n + k) (nd_len params) in
  let s1 := n * k in
  let s2 := n * k + k + nrf in
  let betas := nd_slice params 0 (Some s1) in
  betas <- nd_reshape betas n k ;;
  let lam := nd_slice params s1 (Some s2) in
  let mu := nd_slice params (np.last_start k (nd_len params)) None in
  let lam_tilde := if excess_returns then lam else nd_slice lam 1 None in
  let f := ndarray_ (factors self) in
  fe <- np.sub f (as2d (nd_T mu)) ;;
  fe <- np.add fe (as2d (nd_T lam_tilde)) ;;
  f_aug <- np.c_ (np.ones nobs 1) f ;;
  fef <- np.matmul (np.T_ f_aug) fe ;;
  let fef := np.div_scalar fef (np.of_nat nobs) in
  let r1 := n * (k + 1) in
  jac <- np.set_slice jac 0 (Some r1) 0 (Some s1) (np.kron (np.eye n) fef) ;;
  let jac12 := np.zeros r1 (k + nrf) in
  let jac13 := np.zeros r1 k in
  let iota := np.ones nobs 1 in
  '(jac12, jac13) <- LinearFactorModel.for_each
                       (jacobian_blocks excess_returns nobs k betas f_aug iota)
                       (jac12, jac13) (seq 0 n) ;;
  jac <- np.set_slice jac 0 (Some r1) s1 (Some s2) jac12 ;;
  jac <- np.set_slice jac 0 (Some r1) s2 None jac13 ;;
  np.set_slice jac (np.last_start k (nrows jac)) None
    (np.last_start k (ncols jac)) None (np.eye k).

(** Modelled from the spec: [LinearFactorModelResults] is not among the
    sources.  Its [betas] and [risk_premia] give back the stored loadings
    and the stored risk premia, the latter as a one-dimensional series;
    these are the starting [(betas, lambda)] of the GMM estimator. *)
Definition betas_values {M : Type} (res : Results A M) : matrix A := betas res.
Definition risk_premia_values {M : Type} (res : Results A M) : list A :=
  nd_ravel (rp res).

(** The weighting matrix [inv(g.T @ g / nobs)] at [parameters] *)
Definition weighting (self : t) (parameters : ndarray A) (excess_returns : bool)
  : result (matrix A) :=
  let nobs := nrows (ndarray_ (portfolios self)) in
  g <- _moments self parameters excess_returns ;;
  gg <- np.matmul (np.T_ g) g ;;
  np_inv (np.div_scalar gg (np.of_nat nobs)).

(** The convergence test [np.abs(obj - last_obj) < 1e-6] *)
Definition tolerance : A := fdiv (of_Z 1) (of_Z 1000000).
Definition converged (obj last_obj : A) : bool :=
  flt (fabs (fsub obj last_obj)) tolerance.

(** The state of the step loop: the estimates, the weighting matrix in
    use and the objective values of the steps run so far, latest
    first. *)
Record steps_state : Type := mkSteps {
  ss_params : list A;
  ss_w : matrix A;
  ss_objs : list A
}.

(** One pass of [for i in range(steps - 1)] up to its convergence
    test: new weighting matrix, new minimisation. *)
Definition step (self : t) (excess_returns : bool) (max_iter : Z)
                (params : list A) : result (list A * matrix A * A) :=
  w <- weighting self (Arr1 params) excess_returns ;;
  res <- minimize (fun x => _j self (Arr1 x) excess_returns w) params max_iter ;;
  Ok (fst res, w, snd res).

(** [for i in range(steps - 1): ...; if ...: break; last_obj = obj] *)
Fixpoint step_loop (self : t) (excess_returns : bool) (max_iter : Z)
                   (remaining : nat) (s : steps_state) (last_obj : A)
  : result steps_state :=
  match remaining with
  | O => Ok s
  | S remaining' =>
      r <- step self excess_returns max_iter (ss_params s) ;;
      let '(params, w, obj) := r in
      let s' := mkSteps params w (obj :: ss_objs s) in
      if converged obj last_obj then Ok s'
      else step_loop self excess_returns max_iter remaining' s' obj
  end.

(** Starting values: the two-pass estimates and the factor means *)
Definition starting_values (self : t) (excess_returns : bool)
  : result (matrix A) :=
  mod_ <- LinearFactorModel.new
            (Call [FromIVData (portfolios self); FromIVData (factors self)] []) ;;
  res <- LinearFactorModel.fit mod_ excess_returns "robust" [] ;;
  let betas := np.ravel (betas_values res) in
  let lam := risk_premia_values res in
  let mu := np.mean0 (ndarray_ (factors self)) in
  Ok (np.col (betas ++ lam ++ mu)).

(** Steps 1 to 3 of [fit]: starting values, first minimisation and the
    re-weighted steps. *)
Definition estimate (self : t) (excess_returns : bool) (steps max_iter : Z)
  : result steps_state :=
  sv <- starting_values self excess_returns ;;
  w <- weighting self (Arr2 sv) excess_returns ;;
  res <- minimize (fun x => _j self (Arr1 x) excess_returns w) (np.ravel sv)
           max_iter ;;
  let params := fst res in
  let last_obj := snd res in
  step_loop self excess_returns max_iter (Z.to_nat (steps - 1))
    (mkSteps params w [last_obj]) last_obj.

(** [fit(self, excess_returns=True, steps=2, disp=10, max_iter=1000,
    cov_type='robust', debiased=True, **cov_config)] *)
Definition fit (self : t) (excess_returns : bool) (steps disp max_iter : Z)
               (cov_type : string) (debiased : bool)
               (cov_config : list (string * pyval))
  : result (Results A t) :=
  let '(nobs, n) := np.shape (ndarray_ (portfolios self)) in
  let k := ncols (ndarray_ (factors self)) in
  let nrf := if excess_returns then 0 else 1 in
  est <- estimate self excess_returns steps max_iter ;;
  let params := ss_params est in
  let w := ss_w est in
  g <- _moments self (Arr1 params) excess_returns ;;
  gg <- np.matmul (np.T_ g) g ;;
  let s := np.div_scalar gg (np.of_nat nobs) in
  jac <- _jacobian self (Arr1 params) excess_returns ;;
  si <- np_inv s ;;
  c1 <- np.matmul (np.T_ jac) si ;;
  c2 <- np.matmul c1 jac ;;
  ci <- np_inv c2 ;;
  let full_vcv := np.div_scalar ci (np.of_nat nobs) in
  let rp := np.slice1 params (n * k) (Some (n * k + k + nrf)) in
  let rp_cov := np.slice full_vcv (n * k) (Some (n * k + k + nrf))
                                  (n * k) (Some (n * k + k + nrf)) in
  let gbar := np.mean0 g in
  let alphas :=
    np.col (map (np.get1 gbar)
                (np.strided 0 (n * (k + 1)) (k + 1) (List.length gbar))) in
  let ridx := np.strided 0 (n * (k + 1)) (k + 1) (nrows s) in
  let cidx := np.strided 0 (n * (k + 1)) (k + 1) (ncols s) in
  let alpha_vcv :=
    np.div_scalar
      (np.tabulate (List.length ridx) (List.length cidx)
         (fun i j => np.get s (nth i ridx 0) (nth j cidx 0)))
      (np.of_nat nobs) in
  stat <- _j self (Arr1 params) excess_returns w ;;
  let jstat := mkWald stat "All alphas are 0" (Z.of_nat n) "J-statistic" in
  betas <- np.reshape1 (np.slice1 params 0 (Some (n * k))) n k ;;
  fb <- np.matmul (ndarray_ (factors self)) (np.T_ betas) ;;
  resids <- np.sub (ndarray_ (portfolios self)) fb ;;
  resids <- np.isub resids (np.row (np.mean0 resids)) ;;
  let residual_ss := np.sum (np.square resids) in
  let total := ndarray_ (portfolios self) in
  total <- np.sub total (np.row (np.mean0 total)) ;;
  let total_ss := np.sum (np.square total) in
  let r2 := fsub one (fdiv residual_ss total_ss) in
  let pcols := cols (portfolios self) in
  let fcols := cols (factors self) in
  let param_names :=
    flat_map (fun portfolio => map (beta_name portfolio) fcols) pcols
    ++ (if excess_returns then [] else ["lambda-risk_free"])
    ++ map lambda_name fcols
    ++ map mu_name fcols in
  let rp_names := np.slice1 param_names (n * k) (Some (n * k + k + nrf)) in
  params <- np.c_ alphas betas ;;
  Ok (mkResults params full_vcv betas (Arr1 rp) rp_cov alphas alpha_vcv jstat
        r2 total_ss residual_ss param_names pcols fcols
        (TradedFactorModel._name self) cov_type self nobs rp_names).
End Methods.

End LinearFactorModelGMM.

(** ** Exact rational arithmetic

    The estimators run on any [Scalar]; canonical rationals give runs
    that can be evaluated and compared.  Powers are taken at the integer
    part of the exponent. *)

Module Exact.

Definition Qc_ltb (x y : Qc) : bool :=
  (Qnum (this x) * Zpos (Qden (this y)) <? Qnum (this y) * Zpos (Qden (this x)))%Z.

(** The largest [n] below [2 ^ bits] with [n ^ q * den <= num], one binary
    digit at a time from the top. *)
Fixpoint root_digits (q : positive) (num den : Z) (bits : nat) (n : Z) : Z :=
  match bits with
  | O => n
  | S b =>
      let n' := (n + 2 ^ Z.of_nat b)%Z in
      root_digits q num den b (if (n' ^ Zpos q * den <=? num)%Z then n' else n)
  end.

(** The [q]-th root of [x >= 0] from below, in units of [2 ^ -64]: the
    root itself when it is such a number. *)
Definition root (q : positive) (x : Qc) : Qc :=
  let num := (Qnum (this x) * 2 ^ (64 * Zpos q))%Z in
  let den := Zpos (Qden (this x)) in
  let bits := Z.to_nat (65 + Z.log2_up (Qceiling (this x))) in
  Q2Qc (Qmake (root_digits q num den bits 0) (2 ^ 64)).

(** [x ** y] for [x >= 0] and the rational [y = p / q]: the [q]-th root
    of [x ^ p]. *)
Definition power (x y : Qc) : Qc :=
  let p := Qnum (this y) in
  root (Qden (this y))
       (if (p <? 0)%Z then Qcpower (Qcinv x) (Z.to_nat (- p))
        else Qcpower x (Z.to_nat p)).

#[export] Instance Qc_Scalar : Scalar Qc := {|
  zero := Q2Qc 0;
  one := Q2Qc 1;
  fadd := Qcplus;
  fsub := Qcminus;
  fmul := Qcmult;
  fdiv := Qcdiv;
  fneg := Qcopp;
  fabs := fun x => if Qc_ltb x (Q2Qc 0) then Qcopp x else x;
  flt := Qc_ltb;
  fpow := power;
  fceil := fun x => Qceiling (this x);
  of_Z := fun z => Q2Qc (inject_Z z)
|}.

(** Gauss-Jordan elimination on the rows of [[a | I]]: in exact
    arithmetic a column without pivot is met on every matrix without
    inverse. *)
Definition axpy (c : Qc) (p r : list Qc) : list Qc :=
  map (fun xy => Qcminus (snd xy) (Qcmult c (fst xy))) (combine p r).

Fixpoint find_pivot (c : nat) (todo : list (list Qc))
  : option (list Qc * list (list Qc)) :=
  match todo with
  | [] => None
  | r :: rest =>
      if Qc_eq_bool (nth c r (Q2Qc 0)) (Q2Qc 0)
      then match find_pivot c rest with
           | Some (p, others) => Some (p, r :: others)
           | None => None
           end
      else Some (r, rest)
  end.

Fixpoint eliminate (count c : nat) (done todo : list (list Qc))
  : option (list (list Qc)) :=
  match count with
  | O => Some done
  | S count' =>
      match find_pivot c todo with
      | None => None
      | Some (p, others) =>
          let p' := map (fun x => Qcdiv x (nth c p (Q2Qc 0))) p in
          let clear := fun r => axpy (nth c r (Q2Qc 0)) p' r in
          eliminate count' (S c) (map clear done ++ [p']) (map clear others)
      end
  end.

Definition inverse (a : matrix Qc) : option (matrix Qc) :=
  if nrows a =? ncols a then
    let n := nrows a in
    let aug := map (fun i => map (fun j => if j <? n then np.get a i j
                                           else if j - n =? i then Q2Qc 1
                                           else Q2Qc 0)
                                 (seq 0 (n + n))) (seq 0 n) in
    match eliminate n 0 [] aug with
    | Some done => Some (Matrix n n (map (skipn n) done))
    | None => None
    end
  else None.

Definition option_of {X : Type} (r : result X) : option X :=
  match r with Ok x => Some x | Err _ => None end.

Definition obind {X Y : Type} (o : option X) (k : X -> option Y) : option Y :=
  match o with Some x => k x | None => None end.

(** The pseudo-inverse of a matrix of full column rank or of full row
    rank. *)
Definition pseudo_inverse (a : matrix Qc) : option (matrix Qc) :=
  let at_ := np.T_ a in
  match obind (option_of (np.matmul at_ a)) inverse with
  | Some gi => option_of (np.matmul gi at_)
  | None =>
      match obind (option_of (np.matmul a at_)) inverse with
      | Some gi => option_of (np.matmul at_ gi)
      | None => None
      end
  end.

Definition least_squares (a b : matrix Qc) : option (matrix Qc) :=
  obind (pseudo_inverse a) (fun x => option_of (np.matmul x b)).

#[export] Instance Qc_LinAlg : LinAlg Qc := {|
  pinv := pseudo_inverse;
  inv := inverse;
  lstsq := least_squares
|}.

(** An optimizer that stops at once: it reports the starting point and
    the objective there, as [minimize] does when the iteration cap is 0. *)
#[export] Instance stopped_Optimizer : Optimizer Qc := {|
  minimize := fun obj x0 _ => v <- obj x0 ;; Ok (x0, v)
|}.

(** An optimizer that takes one fixed move: half the first coordinate. *)
Definition halve_first (x : list Qc) : list Qc :=
  match x with
  | [] => []
  | a :: rest => Qcdiv a (Q2Qc 2) :: rest
  end.

Definition moving_Optimizer : Optimizer Qc := {|
  minimize := fun obj x0 _ => v <- obj (halve_first x0) ;; Ok (halve_first x0, v)
|}.

(** An optimizer that reports the origin. *)
Definition zero_Optimizer : Optimizer Qc := {|
  minimize := fun obj x0 _ =>
    let x := map (fun _ => Q2Qc 0) x0 in v <- obj x ;; Ok (x, v)
|}.

(** Bartlett weights [1 - j / (bw + 1)], [j = 0 .. bw]. *)
Definition bartlett (bw : pyval) (n : Z) : result (list Qc) :=
  match bw with
  | PyInt b =>
      Ok (map (fun j => Qcminus (Q2Qc 1)
                          (Qcdiv (Q2Qc (inject_Z (Z.of_nat j)))
                                 (Q2Qc (inject_Z (b + 1)))))
              (seq 0 (Z.to_nat (b + 1))))
  | _ => Err (TypeError "bandwidth must be an integer")
  end.

(** The table of the examples: of the kernels of the library, the
    Bartlett kernel under its name ['bartlett']. *)
#[export] Instance Qc_Kernels : Kernels Qc := {|
  KERNEL_LOOKUP := [("bartlett", bartlett)]
|}.

Definition string_of_nat (n : nat) : string :=
  DecimalString.NilEmpty.string_of_uint (Nat.to_uint n).

(** Arrays get the labels [var_name.0], [var_name.1], ...; frames keep
    their own. *)
#[export] Instance Qc_DataInput : DataInput Qc := {|
  IVData_init := fun x var_name =>
    match x with
    | Array2D m =>
        Ok (mkIVData m (map (fun i => (var_name ++ "." ++ string_of_nat i)%string)
                            (seq 0 (ncols m))))
    | DataFrame columns m =>
        if List.length columns =? ncols m then Ok (mkIVData m columns)
        else Err (ValueError "Shape of passed values does not match columns")
    | FromIVData d => Ok d
    end
|}.

(** Equality test on rational arrays. *)
Definition Qc_eqb (x y : Qc) : bool :=
  (Qnum (this x) =? Qnum (this y))%Z && (Qden (this x) =? Qden (this y))%positive.

Fixpoint list_eqb {X : Type} (eqb : X -> X -> bool) (l1 l2 : list X) : bool :=
  match l1, l2 with
  | [], [] => true
  | x :: r1, y :: r2 => eqb x y && list_eqb eqb r1 r2
  | _, _ => false
  end.

Definition matrix_eqb (a b : matrix Qc) : bool :=
  (nrows a =? nrows b) && (ncols a =? ncols b)
  && list_eqb (list_eqb Qc_eqb) (rows a) (rows b).

(** Six observations of two portfolios and one factor. *)
Definition q (n : Z) (d : positive) : Qc := Q2Qc (Qmake n d).

Definition of_rows (r c : nat) (l : list (list Qc)) : matrix Qc := Matrix r c l.

Definition P : matrix Qc :=
  of_rows 6 2 [[q 1 1; q 2 1]; [q 3 1; q 1 1]; [q 2 1; q 5 1];
               [q 0 1; q 1 1]; [q 4 1; q 3 1]; [q 1 1; q 1 1]].

Definition F : matrix Qc :=
  of_rows 6 1 [[q 1 1]; [q 2 1]; [q 0 1]; [q 1 1]; [q 3 1]; [q 2 1]].

End Exact.

(** ** The collaborators in binary64

    The scalars are the kernel's IEEE 754 binary64 numbers, the floats of
    Python and numpy: sums, products and quotients round as theirs do. *)

Module Binary64.

Definition of_int (z : Z) : PrimFloat.float :=
  FloatOps.SF2Prim (SpecFloat.binary_normalize FloatOps.prec FloatOps.emax z 0 false).

(** [math.floor] and [numpy.ceil] on finite numbers. *)
Definition floor (x : PrimFloat.float) : Z :=
  match FloatOps.Prim2SF x with
  | SpecFloat.S754_finite s m e =>
      let v := if s then Z.neg m else Z.pos m in
      if (0 <=? e)%Z then (v * 2 ^ e)%Z else (v / 2 ^ (- e))%Z
  | _ => 0%Z
  end.

Definition ceiling (x : PrimFloat.float) : Z := (- floor (PrimFloat.opp x))%Z.

(** [sum of c i * t ^ i, i < n], by Horner's rule. *)
Fixpoint horner (c : nat -> PrimFloat.float) (n i : nat) (t : PrimFloat.float)
  : PrimFloat.float :=
  match n with
  | O => PrimFloat.zero
  | S n' => PrimFloat.add (c i) (PrimFloat.mul t (horner c n' (S i) t))
  end.

Definition ln2 : PrimFloat.float := FloatOps.Z.ldexp (of_int 6243314768165359) (-53).

(** The natural logarithm of [x > 0]: [x = m * 2 ^ e] with [m] near one,
    and [ln m = 2 * atanh ((m - 1) / (m + 1))] by its series. *)
Definition ln (x : PrimFloat.float) : PrimFloat.float :=
  let '(m, e) := FloatOps.Z.frexp x in
  let '(m, e) := if PrimFloat.ltb m (PrimFloat.div (of_int 181) (of_int 256))
                 then (PrimFloat.mul (of_int 2) m, (e - 1)%Z) else (m, e) in
  let t := PrimFloat.div (PrimFloat.sub m PrimFloat.one) (PrimFloat.add m PrimFloat.one) in
  let s := horner (fun i => PrimFloat.div PrimFloat.one (of_int (Z.of_nat (2 * i + 1))))
                  14 0 (PrimFloat.mul t t) in
  PrimFloat.add (PrimFloat.mul (of_int 2) (PrimFloat.mul t s))
                (PrimFloat.mul (of_int e) ln2).

Fixpoint factorial (n : nat) : Z :=
  match n with
  | O => 1%Z
  | S n' => (Z.of_nat n * factorial n')%Z
  end.

(** The exponential: [z = k * ln 2 + r] with [r] small, [exp r] by its
    series, scaled by [2 ^ k]. *)
Definition exp (z : PrimFloat.float) : PrimFloat.float :=
  let k := floor (PrimFloat.add (PrimFloat.div z ln2)
                                (PrimFloat.div PrimFloat.one (of_int 2))) in
  let r := PrimFloat.sub z (PrimFloat.mul (of_int k) ln2) in
  FloatOps.Z.ldexp
    (horner (fun i => PrimFloat.div PrimFloat.one (of_int (factorial i))) 22 0 r) k.

(** [x ** y] for [x >= 0], to a few units in the last place. *)
Definition pow (x y : PrimFloat.float) : PrimFloat.float :=
  if PrimFloat.eqb y PrimFloat.zero then PrimFloat.one
  else if PrimFloat.eqb x PrimFloat.zero then PrimFloat.zero
  else if PrimFloat.ltb x PrimFloat.zero then PrimFloat.nan
  else exp (PrimFloat.mul y (ln x)).

#[export] Instance float_Scalar : Scalar PrimFloat.float := {|
  zero := PrimFloat.zero;
  one := PrimFloat.one;
  fadd := PrimFloat.add;
  fsub := PrimFloat.sub;
  fmul := PrimFloat.mul;
  fdiv := PrimFloat.div;
  fneg := PrimFloat.opp;
  fabs := PrimFloat.abs;
  flt := PrimFloat.ltb;
  fpow := pow;
  fceil := ceiling;
  of_Z := of_int
|}.

(** Gaussian elimination with partial pivoting on the rows of [[a | I]],
    as LAPACK's [gesv] behind [numpy.linalg.inv]: in column [c] the pivot
    is the first remaining row with the largest entry in absolute value;
    it changes places with the first remaining row; the elimination stops
    as singular when that entry is exactly zero. *)
Definition entry (c : nat) (r : list PrimFloat.float) : PrimFloat.float :=
  nth c r PrimFloat.zero.

Fixpoint pivot_index (c : nat) (todo : list (list PrimFloat.float))
                     (i best : nat) (largest : PrimFloat.float) : nat :=
  match todo with
  | [] => best
  | r :: rest =>
      if PrimFloat.ltb largest (PrimFloat.abs (entry c r))
      then pivot_index c rest (S i) i (PrimFloat.abs (entry c r))
      else pivot_index c rest (S i) best largest
  end.

Definition swap_first {X : Type} (i : nat) (l : list X) : list X :=
  match l with
  | [] => []
  | x :: rest =>
      match i with
      | O => l
      | S i' =>
          match nth_error rest i' with
          | Some y => y :: firstn i' rest ++ x :: skipn (S i') rest
          | None => l
          end
      end
  end.

Definition row_sub (m : PrimFloat.float) (p r : list PrimFloat.float)
  : list PrimFloat.float :=
  map (fun xy => PrimFloat.sub (snd xy) (PrimFloat.mul m (fst xy))) (combine p r).

Fixpoint eliminate (count c : nat) (done todo : list (list PrimFloat.float))
  : option (list (list PrimFloat.float)) :=
  match count with
  | O => Some done
  | S count' =>
      match todo with
      | [] => None
      | first :: _ =>
          match swap_first (pivot_index c todo 0 0 (PrimFloat.abs (entry c first))) todo with
          | [] => None
          | p :: others =>
              if PrimFloat.eqb (entry c p) PrimFloat.zero then None
              else eliminate count' (S c) (done ++ [p])
                     (map (fun r => row_sub (PrimFloat.div (entry c r) (entry c p)) p r)
                          others)
          end
      end
  end.

(** Back substitution on the rows [[u | y]], last row first: the rows of
    the solution of [u x = y]. *)
Fixpoint substitute (n i : nat) (upper : list (list PrimFloat.float))
  : list (list PrimFloat.float) :=
  match upper with
  | [] => []
  | r :: below =>
      let xs := substitute n (S i) below in
      let y := fold_right
                 (fun jx acc => row_sub (entry (fst jx) r) (snd jx) acc)
                 (skipn n r) (combine (seq (S i) (List.length xs)) xs) in
      map (fun v => PrimFloat.div v (entry i r)) y :: xs
  end.

Definition inverse (a : matrix PrimFloat.float) : option (matrix PrimFloat.float) :=
  if nrows a =? ncols a then
    let n := nrows a in
    let aug := map (fun i => map (fun j => if j <? n then np.get a i j
                                           else if j - n =? i then PrimFloat.one
                                           else PrimFloat.zero)
                                 (seq 0 (n + n))) (seq 0 n) in
    match eliminate n 0 [] aug with
    | Some upper => Some (Matrix n n (substitute n 0 upper))
    | None => None
    end
  else None.

(** The pseudo-inverse and least squares of a matrix of full rank by the
    normal equations, [inv(a.T @ a) @ a.T] for a tall matrix and
    [a.T @ inv(a @ a.T)] for a wide one; numpy takes them from a singular
    value decomposition, which rounds differently. *)
Definition pseudo_inverse (a : matrix PrimFloat.float)
  : option (matrix PrimFloat.float) :=
  let at_ := np.T_ a in
  if ncols a <=? nrows a
  then Exact.obind (Exact.obind (Exact.option_of (np.matmul at_ a)) inverse)
         (fun gi => Exact.option_of (np.matmul gi at_))
  else Exact.obind (Exact.obind (Exact.option_of (np.matmul a at_)) inverse)
         (fun gi => Exact.option_of (np.matmul at_ gi)).

Definition least_squares (a b : matrix PrimFloat.float)
  : option (matrix PrimFloat.float) :=
  Exact.obind (pseudo_inverse a) (fun x => Exact.option_of (np.matmul x b)).

#[export] Instance float_LinAlg : LinAlg PrimFloat.float := {|
  pinv := pseudo_inverse;
  inv := inverse;
  lstsq := least_squares
|}.

(** [minimize] with the iteration cap 0: the starting point and the
    objective there. *)
#[export] Instance stopped_Optimizer : Optimizer PrimFloat.float := {|
  minimize := fun obj x0 _ => v <- obj x0 ;; Ok (x0, v)
|}.

#[export] Instance float_DataInput : DataInput PrimFloat.float := {|
  IVData_init := fun x var_name =>
    match x with
    | Array2D m =>
        Ok (mkIVData m (map (fun i => (var_name ++ "." ++ Exact.string_of_nat i)%string)
                            (seq 0 (ncols m))))
    | DataFrame columns m =>
        if List.length columns =? ncols m then Ok (mkIVData m columns)
        else Err (ValueError "Shape of passed values does not match columns")
    | FromIVData d => Ok d
    end
|}.

(** The array of the integers [l]. *)
Definition of_rows (r c : nat) (l : list (list Z)) : matrix PrimFloat.float :=
  Matrix r c (map (map of_int) l).

End Binary64.

(** A state of the GMM step loop reached after [j] passes without the
    convergence test firing. *)
Section Reachable.
  Context {A : Type} {SA : Scalar A} {LA : LinAlg A} {DI : DataInput A}
          {OPT : Optimizer A}.
  Variables (self : TradedFactorModel.t A) (excess_returns : bool) (max_iter : Z).

Inductive reaches (s0 : LinearFactorModelGMM.steps_state) (last0 : A)
  : nat -> LinearFactorModelGMM.steps_state -> A -> Prop :=
| reaches_start : reaches s0 last0 0 s0 last0
| reaches_next : forall j s last params w obj,
    reaches s0 last0 j s last ->
    LinearFactorModelGMM.step self excess_returns max_iter
      (LinearFactorModelGMM.ss_params s) = Ok (params, w, obj) ->
    LinearFactorModelGMM.converged obj last = false ->
    reaches s0 last0 (S j)
      (LinearFactorModelGMM.mkSteps params w
         (obj :: LinearFactorModelGMM.ss_objs s)) obj.
End Reachable.


(** ** Vocabulary of the statements *)

Section Vocabulary.

Context {A : Type} {SA : Scalar A} {DI : DataInput A}.

(** The model that holds [portfolios] as portfolio returns and [factors]
    as factor returns. *)
Definition stored (class_name : string) (portfolios factors : array_like A)
  : result (TradedFactorModel.t A) :=
  p <- IVData_init portfolios "portfolio" ;;
  f <- IVData_init factors "factor" ;;
  Ok (TradedFactorModel.Build p f class_name).

(** The length of the GMM parameter vector [[betas, lambda, mu]]. *)
Definition nparams (n k nrf : nat) : nat := n * k + (k + nrf) + k.

(** A parameter vector of that length: flat, or a single column. *)
Definition well_sized (parameters : ndarray A) (n k nrf : nat) : Prop :=
  nd_len parameters = nparams n k nrf
  /\ match parameters return Prop with
     | Arr1 _ => True
     | Arr2 m => ncols m = 1
     end.

(** The error of the last branch of the covariance selection. *)
Definition unknown_cov_type (cov_type : string) : exn :=
  ValueError ("Unknown cov_type: " ++ cov_type).

Definition recognized : list string := ["robust"; "heteroskedastic"; "kernel"].

(** Errors raised by numpy itself. *)
Definition numpy_error (e : exn) : Prop :=
  match e with
  | ValueError msg =>
      In msg ["cannot reshape array"; "all the input array dimensions must match";
              "could not broadcast input array"; "matmul: shapes not aligned";
              "operands could not be broadcast together"]
  | TypeError _ | IndexError _ | LinAlgError _ => True
  | KeyError _ => False
  end.

(** The position of portfolio [i]'s intercept in a layout of
    per-portfolio blocks [(alpha, beta_1, ..., beta_k)]. *)
Definition alpha_positions (n k : nat) : list nat :=
  map (fun i => i * (k + 1)) (seq 0 n).

(** [m[idx][:, idx]] *)
Definition sub_block (m : matrix A) (idx : list nat) : result (matrix A) :=
  r <- np.take_rows m idx ;; np.take_cols r idx.

(** The error [numpy.linalg] raises for a matrix without inverse. *)
Definition singular_matrix : exn := LinAlgError "Singular matrix".

(** The objective values of the re-weighted steps, in the order of the
    steps, as the step loop with [remaining] passes left lets them
    follow the value [prev] of the step before: a pass is made only if
    one is left to make, and its value is the last one exactly when the
    convergence test fires or no pass is left. *)
Fixpoint follows_loop (remaining : nat) (prev : A) (later : list A) : Prop :=
  match later with
  | [] => remaining = 0
  | obj :: rest =>
      remaining <> 0
      /\ (if LinearFactorModelGMM.converged obj prev then rest = []
          else follows_loop (remaining - 1) obj rest)
  end.
End Vocabulary.

(** Exact arithmetic: what the algebraic statements ask of the scalars. *)
Class ExactScalar (A : Type) {SA : Scalar A} : Prop := {
  fadd_comm : forall x y : A, fadd x y = fadd y x;
  fadd_assoc : forall x y z : A, fadd x (fadd y z) = fadd (fadd x y) z;
  fadd_0_l : forall x : A, fadd zero x = x;
  fmul_1_l : forall x : A, fmul one x = x;
  fmul_0_l : forall x : A, fmul zero x = zero
}.

(** Kernel weights that keep the contemporaneous term alone: weight one
    at lag 0 and weight zero at every later lag. *)
Definition contemporaneous {A : Type} {SA : Scalar A} (w : list A) : Prop :=
  w <> [] /\ np.get1 w 0 = one
  /\ forall lag, 1 <= lag -> lag < List.length w -> np.get1 w lag = zero.

(** The entries of [m] at the rows [rho 0 .. rho (r - 1)] and the columns
    [gamma 0 .. gamma (c - 1)]: [m[rows][:, columns]] without the bounds
    check. *)
Definition pick {T : Type} {DT : Default T} (r c : nat) (rho gamma : nat -> nat)
                (m : matrix T) : matrix T :=
  np.tabulate r c (fun i j => np.get m (rho i) (gamma j)).

(** The index that stays, and the index read in the list [idx]. *)
Definition same (i : nat) : nat := i.

Definition at_ (idx : list nat) (i : nat) : nat := nth i idx 0.

(** [sigma] relabels the indices below [n]: it maps them to indices below
    [n], one to one. *)
Definition reorders (n : nat) (sigma : nat -> nat) : Prop :=
  (forall t, t < n -> sigma t < n)
  /\ (forall i j, i < n -> j < n -> sigma i = sigma j -> i = j).

(** The relabelling of the positions [i * K + c] in blocks of [K] that
    [sigma] induces on the blocks. *)
Definition block_at (K : nat) (sigma : nat -> nat) (J : nat) : nat :=
  sigma (J / K) * K + J mod K.

(** The relabelling of the moment conditions: the per-portfolio blocks
    below [s2] move with their portfolio, the positions from [s2] to [s3]
    stay, the per-portfolio positions from [s3] on move with their
    portfolio. *)
Definition moment_order (K s2 s3 : nat) (sigma : nat -> nat) (J : nat) : nat :=
  if J <? s2 then block_at K sigma J
  else if J <? s3 then J
  else s3 + sigma (J - s3).

Section Relabelling.

Context {A : Type} {SA : Scalar A} {LA : LinAlg A}.

(** The model with the portfolio columns, and their labels, in the order
    [perm]: [portfolios[:, perm]]. *)
Definition reorder_portfolios (perm : list nat) (self : TradedFactorModel.t A)
  : result (TradedFactorModel.t A) :=
  let d := TradedFactorModel.portfolios self in
  x <- np.take_cols (ndarray_ d) perm ;;
  Ok (TradedFactorModel.Build
        (mkIVData x (map (fun j => nth j (cols d) "") perm))
        (TradedFactorModel.factors self) (TradedFactorModel._name self)).

(** The [block] that pass [i] of the loop over the portfolios in the
    two-pass [fit] stores in the risk-premia rows of the Jacobian. *)
Definition jacobian_block (excess_returns : bool) (nfactor nrf : nat)
                          (betas lam alphas : matrix A) (i : nat)
  : result (matrix A) :=
  let _lam := if excess_returns then lam else np.slice lam 1 None 0 None in
  bi <- np.take_rows betas [i] ;;
  block <- np.matmul (np.T_ bi) (np.T_ _lam) ;;
  ai <- np.item_row alphas i ;;
  block <- (if excess_returns then
              x <- np.mul (np.row ai) (np.eye nfactor) ;;
              np.isub block x
            else
              x <- np.mul (np.row ai) (np.eye nfactor) ;;
              y <- np.r_ (np.zeros 1 nfactor) x ;;
              np.isub block y) ;;
  np.c_ (np.zeros (nfactor + nrf) 1) block.

(** The positions of the two-pass moment conditions of [n] portfolios and
    [k] factors after the portfolios are put in the order [perm]. *)
Definition moment_positions (n k nrf : nat) (perm : list nat) : list nat :=
  map (moment_order (k + 1) ((k + 1) * n) ((k + 1) * n + (k + nrf)) (at_ perm))
      (seq 0 ((k + 1) * n + (k + nrf) + n)).

(** At the matrix [a], the inverse [op] commutes with the relabelling
    [idx] of rows and columns. *)
Definition commutes_at (op : matrix A -> option (matrix A)) (idx : list nat)
                       (a : matrix A) : Prop :=
  forall x a' x',
    op a = Some x -> sub_block a idx = Ok a' -> sub_block x idx = Ok x' ->
    op a' = Some x'.

(** At [a] and [b], least squares solves column by column of [b], and
    does not depend on the order of the observations. *)
Definition solves_by_column (a b : matrix A) (idx : list nat) : Prop :=
  forall x b' x',
    lstsq a b = Some x -> np.take_cols b idx = Ok b' -> np.take_cols x idx = Ok x' ->
    lstsq a b' = Some x'.

Definition solves_by_row (a b : matrix A) (idx : list nat) : Prop :=
  forall x a' b',
    lstsq a b = Some x -> np.take_rows a idx = Ok a' -> np.take_rows b idx = Ok b' ->
    lstsq a' b' = Some x.

(** What the invariance under a reordering of the portfolios asks of the
    linear algebra behind the two-pass fit, at the matrices of this fit. *)
Definition two_pass_solvers_commute (perm : list nat) (self : LinearFactorModel.t A)
                                    (excess_returns : bool)
                                    (st : LinearFactorModel.stage A)
                                    (res : Results A (LinearFactorModel.t A)) : Prop :=
  let p := ndarray_ (LinearFactorModel.portfolios self) in
  let f := ndarray_ (LinearFactorModel.factors self) in
  let nrf := if excess_returns then 0 else 1 in
  (forall fc, np.c_ (np.ones (nrows f) 1) f = Ok fc -> solves_by_column fc p perm)
  /\ solves_by_row (LinearFactorModel.st_betas st) (np.col (np.mean0 p)) perm
  /\ commutes_at inv (moment_positions (ncols p) (ncols f) nrf perm)
                 (LinearFactorModel.st_G st)
  /\ commutes_at inv perm (alpha_vcv res).
End Relabelling.

(** [res] with another covariance-type tag. *)
Definition with_cov_type {A M : Type} (cov_type : string) (res : Results A M)
  : Results A M :=
  mkResults (params res) (cov res) (betas res) (rp res) (rp_cov res) (alphas res)
    (alpha_vcv res) (jstat res) (rsquared res) (total_ss res) (residual_ss res)
    (param_names res) (portfolio_names res) (factor_names res) (name_ res)
    cov_type (model res) (nobs_ res) (rp_names res).

Definition is_none {X : Type} (o : option X) : bool :=
  match o with None => true | Some _ => false end.

(** [res] as the result of another model object. *)
Definition with_model {A M M' : Type} (m : M') (res : Results A M) : Results A M' :=
  mkResults (params res) (cov res) (betas res) (rp res) (rp_cov res) (alphas res)
    (alpha_vcv res) (jstat res) (rsquared res) (total_ss res) (residual_ss res)
    (param_names res) (portfolio_names res) (factor_names res) (name_ res)
    (cov_type_ res) m (nobs_ res) (rp_names res).

(** [key] is no key of the dictionary [d]. *)
Definition missing {V : Type} (d : list (string * V)) (key : string) : Prop :=
  find (fun kv => String.eqb (fst kv) key) d = None.

(** The shapes of what an estimator reports for [n] portfolios, [k]
    factors and [nrf] risk-free premia. *)
Definition reports_shapes {A M : Type} (res : Results A M) (n k nrf : nat) : Prop :=
  np.shape (params res) = (n, k + 1)
  /\ np.shape (betas res) = (n, k)
  /\ np.shape (alphas res) = (n, 1)
  /\ np.shape (alpha_vcv res) = (n, n)
  /\ nd_len (rp res) = k + nrf
  /\ np.shape (rp_cov res) = (k + nrf, k + nrf).

(** The callback [cb] called on the iterates [xs], one after the other,
    as an optimizer does after each of its iterations. *)
Fixpoint called_on {A P : Type}
                   (cb : nat -> list (progress A) -> P -> result (nat * list (progress A)))
                   (d : nat) (out : list (progress A)) (xs : list P)
  : result (nat * list (progress A)) :=
  match xs with
  | [] => Ok (d, out)
  | x :: rest => r <- cb d out x ;; called_on cb (fst r) (snd r) rest
  end.

(** The iterations at which a line is due. *)
Definition due (disp : Z) (i : nat) : bool :=
  (0 <? disp)%Z && (Z.of_nat i mod disp =? 0)%Z.

(** Exact arithmetic with a commutative product. *)
Class CommutativeScalar (A : Type) {SA : Scalar A} : Prop := {
  fmul_comm : forall x y : A, fmul x y = fmul y x
}.

(** ** Matrices with and without an inverse *)

Section Inverses.

Context {A : Type} {SA : Scalar A}.

(** [x] is an inverse of [a]: [x @ a] is the identity. *)
Definition inverse_of (a x : matrix A) : Prop :=
  np.matmul x a = Ok (np.eye (nrows a)).

(** [a] has no inverse. *)
Definition no_inverse (a : matrix A) : Prop := forall x, ~ inverse_of a x.

End Inverses.

(** ** The matrices that [fit] inverts *)

Section Inverted.

Context {A : Type} {SA : Scalar A} {LA : LinAlg A} {DI : DataInput A}.

(** The covariance of the alphas in the two-pass estimator: the trailing
    block of [Ginv @ S @ Ginv.T / nobs]. *)
Definition two_pass_alpha_vcv (self : LinearFactorModel.t A) (excess_returns : bool)
                              (st : LinearFactorModel.stage A) (Ginv : matrix A)
  : result (matrix A) :=
  let nrf := if excess_returns then 0 else 1 in
  let nobs := nrows (ndarray_ (LinearFactorModel.factors self)) in
  let nfactor := ncols (ndarray_ (LinearFactorModel.factors self)) in
  let nportfolio := ncols (ndarray_ (LinearFactorModel.portfolios self)) in
  let s3 := (nfactor + 1) * nportfolio + (nfactor + nrf) in
  v1 <- np.matmul Ginv (LinearFactorModel.st_S st) ;;
  v2 <- np.matmul v1 (np.T_ Ginv) ;;
  Ok (np.slice (np.div_scalar v2 (np.of_nat nobs)) s3 None s3 None).

(** The covariance of the GMM moments at [parameters]: [g.T @ g / nobs]. *)
Definition moment_covariance (self : TradedFactorModel.t A) (parameters : ndarray A)
                             (excess_returns : bool) : result (matrix A) :=
  g <- LinearFactorModelGMM._moments self parameters excess_returns ;;
  gg <- np.matmul (np.T_ g) g ;;
  Ok (np.div_scalar gg (np.of_nat (nrows (ndarray_ (TradedFactorModel.portfolios self))))).

(** The core of the GMM covariance at [params]: [jac.T @ si @ jac]. *)
Definition covariance_core (self : TradedFactorModel.t A) (params : list A)
                           (excess_returns : bool) (si : matrix A)
  : result (matrix A) :=
  jac <- LinearFactorModelGMM._jacobian self (Arr1 params) excess_returns ;;
  c1 <- np.matmul (np.T_ jac) si ;;
  np.matmul c1 jac.

End Inverted.

(** A [numpy.linalg.inv] that returns inverses only. *)
Class ExactInverse (A : Type) {SA : Scalar A} {LA : LinAlg A} : Prop := {
  inv_inverse : forall a x, inv a = Some x -> inverse_of a x
}.

(** ** Checks on exact rationals *)

Section ExactChecks.
Import Exact.

Definition is_some_eqb (o : option (matrix Qc)) (x : matrix Qc) : bool :=
  match o with Some y => matrix_eqb y x | None => false end.

Definition commutes_atb (op : matrix Qc -> option (matrix Qc)) (idx : list nat)
                        (a : matrix Qc) : bool :=
  match op a with
  | None => true
  | Some x =>
      match sub_block a idx, sub_block x idx with
      | Ok a', Ok x' => is_some_eqb (op a') x'
      | _, _ => true
      end
  end.

Definition solves_by_columnb (a b : matrix Qc) (idx : list nat) : bool :=
  match lstsq a b with
  | None => true
  | Some x =>
      match np.take_cols b idx, np.take_cols x idx with
      | Ok b', Ok x' => is_some_eqb (lstsq a b') x'
      | _, _ => true
      end
  end.

Definition solves_by_rowb (a b : matrix Qc) (idx : list nat) : bool :=
  match lstsq a b with
  | None => true
  | Some x =>
      match np.take_rows a idx, np.take_rows b idx with
      | Ok a', Ok b' => is_some_eqb (lstsq a' b') x
      | _, _ => true
      end
  end.

(** The left half of the row [r] of an augmented matrix [[l | r]] is its
    right half times [a]. *)
Definition combines (a : matrix Qc) (n : nat) (r : list Qc) : Prop :=
  List.length r = n + n
  /\ forall j, j < n ->
       nth j r (Q2Qc 0)
       = np.sum_to n (fun t => Qcmult (nth (n + t) r (Q2Qc 0)) (np.get a t j)).

Definition identity_entry (i j : nat) : Qc := if i =? j then Q2Qc 1 else Q2Qc 0.

(** The elimination after [c] columns: the rows done carry the first [c]
    columns of the identity, the rows to do are zero there. *)
Definition reduced (a : matrix Qc) (n c : nat) (done todo : list (list Qc)) : Prop :=
  (forall r, In r (done ++ todo) -> combines a n r)
  /\ List.length done = c
  /\ (forall i j, i < c -> j < c -> nth j (nth i done []) (Q2Qc 0) = identity_entry i j)
  /\ (forall r j, In r todo -> j < c -> nth j r (Q2Qc 0) = Q2Qc 0).

(** [a @ v] is zero, and the entry [j] of [v] is not. *)
Definition kernel_vector (a : matrix Qc) (v : list Qc) (j : nat) : bool :=
  match np.matvec a v with
  | Ok av => list_eqb Qc_eqb av (np.tabulate1 (nrows a) (fun _ => Q2Qc 0))
             && negb (Qc_eqb (np.get1 v j) (Q2Qc 0))
  | Err _ => false
  end.
End ExactChecks.

(** ** Example models on exact rationals and in binary64 *)

Module Examples.
Import Exact.

Definition portfolios_data : IVData Qc := mkIVData P ["portfolio.0"; "portfolio.1"].
Definition factors_data : IVData Qc := mkIVData F ["factor.0"].

Definition traded : TradedFactorModel.t Qc :=
  TradedFactorModel.Build portfolios_data factors_data "TradedFactorModel".

Definition two_pass : LinearFactorModel.t Qc :=
  LinearFactorModel.Build
    (TradedFactorModel.Build portfolios_data factors_data "LinearFactorModel") None.

Definition gmm : TradedFactorModel.t Qc :=
  TradedFactorModel.Build portfolios_data factors_data "LinearFactorModelGMM".

(** A single observation of one portfolio and one factor. *)
Definition one_obs : LinearFactorModel.t Qc :=
  LinearFactorModel.Build
    (TradedFactorModel.Build (mkIVData (of_rows 1 1 [[q 2 1]]) ["portfolio.0"])
                             (mkIVData (of_rows 1 1 [[q 1 1]]) ["factor.0"])
                             "LinearFactorModel") None.

Definition one_obs_gmm : TradedFactorModel.t Qc :=
  TradedFactorModel.Build (mkIVData (of_rows 1 1 [[q 2 1]]) ["portfolio.0"])
                          (mkIVData (of_rows 1 1 [[q 1 1]]) ["factor.0"])
                          "LinearFactorModelGMM".

(** The same observation in binary64. *)
Definition one_obs_binary64 : LinearFactorModel.t PrimFloat.float :=
  LinearFactorModel.Build
    (TradedFactorModel.Build (mkIVData (Binary64.of_rows 1 1 [[2%Z]]) ["portfolio.0"])
                             (mkIVData (Binary64.of_rows 1 1 [[1%Z]]) ["factor.0"])
                             "LinearFactorModel") None.

(** Six observations of a portfolio and of a portfolio that pays nothing,
    on exact rationals and in binary64. *)
Definition idle : LinearFactorModel.t Qc :=
  LinearFactorModel.Build
    (TradedFactorModel.Build
       (mkIVData (of_rows 6 2 [[q 1 1; q 0 1]; [q 3 1; q 0 1]; [q 2 1; q 0 1];
                               [q 0 1; q 0 1]; [q 4 1; q 0 1]; [q 1 1; q 0 1]])
                 ["portfolio.0"; "portfolio.1"])
       factors_data "LinearFactorModel") None.

Definition idle_binary64 : LinearFactorModel.t PrimFloat.float :=
  LinearFactorModel.Build
    (TradedFactorModel.Build
       (mkIVData (Binary64.of_rows 6 2
                    [[1; 0]; [3; 0]; [2; 0]; [0; 0]; [4; 0]; [1; 0]]%Z)
                 ["portfolio.0"; "portfolio.1"])
       (mkIVData (Binary64.of_rows 6 1 [[1]; [2]; [0]; [1]; [3]; [2]]%Z)
                 ["factor.0"])
       "LinearFactorModel") None.

(** The first three observations only: fewer than the five moments. *)
Definition three_obs : TradedFactorModel.t Qc :=
  TradedFactorModel.Build
    (mkIVData (of_rows 3 2 [[q 1 1; q 2 1]; [q 3 1; q 1 1]; [q 2 1; q 5 1]])
              ["portfolio.0"; "portfolio.1"])
    (mkIVData (of_rows 3 1 [[q 1 1]; [q 2 1]; [q 0 1]]) ["factor.0"])
    "LinearFactorModelGMM".

(** The same three observations in binary64. *)
Definition three_obs_binary64 : TradedFactorModel.t PrimFloat.float :=
  TradedFactorModel.Build
    (mkIVData (Binary64.of_rows 3 2 [[1; 2]; [3; 1]; [2; 5]]%Z)
              ["portfolio.0"; "portfolio.1"])
    (mkIVData (Binary64.of_rows 3 1 [[1]; [2]; [0]]%Z) ["factor.0"])
    "LinearFactorModelGMM".

(** Six observations of the portfolios against three of the factor. *)
Definition unequal : TradedFactorModel.t Qc :=
  TradedFactorModel.Build portfolios_data (TradedFactorModel.factors three_obs)
    "TradedFactorModel".

(** The two-pass estimates with the factor mean, as a flat vector. *)
Definition theta : list Qc := [q 9 11; q (-7) 11; q 129 130; q 3 2].

End Examples.
(** * Properties *)

Unset Implicit Arguments.

Import Exact.

#[local] Arguments Nat.min : simpl never.
#[local] Arguments Nat.sub : simpl never.
#[local] Arguments Nat.div : simpl never.
#[local] Arguments Nat.modulo : simpl never.
#[local] Arguments Nat.mul : simpl never.
#[local] Arguments Nat.add : simpl never.

(** ** The error monad *)

Lemma bind_ok {X Y : Type} (r : result X) (k : X -> result Y) (y : Y) :
  bind r k = Ok y -> exists x, r = Ok x /\ k x = Ok y.
Proof.
  destruct r as [x|e]; simpl; intros H; [exists x; auto | discriminate].
Qed.

Lemma bind_err {X Y : Type} (r : result X) (k : X -> result Y) (e : exn) :
  bind r k = Err e -> r = Err e \/ exists x, r = Ok x /\ k x = Err e.
Proof.
  destruct r as [x|e']; simpl; intros H.
  - right; exists x; split; [reflexivity | exact H].
  - left; injection H as ->; reflexivity.
Qed.

Lemma bind_of_ok {X Y : Type} (r : result X) (k : X -> result Y) (x : X) :
  r = Ok x -> bind r k = k x.
Proof. intros ->; reflexivity. Qed.

Lemma bind_of_err {X Y : Type} (r : result X) (k : X -> result Y) (e : exn) :
  r = Err e -> bind r k = Err e.
Proof. intros ->; reflexivity. Qed.

(** Splits a successful chain of binds into its steps. *)
Ltac inv_bind H :=
  repeat
    (cbv beta iota zeta in H;
     match type of H with
     | bind ?r ?k = Ok _ =>
         let x := fresh "x" in
         let Hx := fresh "E" x in
         apply bind_ok in H; destruct H as (x & Hx & H)
     | (let (_, _) := ?p in _) = Ok _ => destruct p
     | match ?p with (_, _) => _ end = Ok _ => destruct p
     end).

Ltac inv_ok H := injection H as H; subst.

Lemma is_ok_inv {X : Type} (r : result X) : is_ok r = true -> exists x, r = Ok x.
Proof. destruct r as [x|e]; simpl; intros H; [exists x; reflexivity | discriminate H]. Qed.

(** A fact computed on the value of a successful run. *)
Lemma ok_fact {X Y : Type} (r : result X) (f : X -> Y) (d y : Y) (x : X) :
  match r with Ok x => f x | Err _ => d end = y -> r = Ok x -> f x = y.
Proof. intros H E. rewrite E in H. exact H. Qed.
(** ** Arrays: entries and shapes *)

Section ArrayFacts.

Context {T : Type} {DT : Default T}.

Lemma get_tabulate (r c : nat) (f : nat -> nat -> T) (i j : nat) :
  i < r -> j < c -> np.get (np.tabulate r c f) i j = f i j.
Proof.
  intros Hi Hj. unfold np.get, np.tabulate. simpl.
  rewrite (nth_indep _ [] (map (fun j => f 0 j) (seq 0 c)))
    by (rewrite length_map, length_seq; exact Hi).
  rewrite (map_nth (fun i => map (fun j => f i j) (seq 0 c)) (seq 0 r) 0 i).
  rewrite seq_nth by exact Hi. rewrite Nat.add_0_l.
  rewrite (nth_indep _ dflt (f i 0))
    by (rewrite length_map, length_seq; exact Hj).
  rewrite (map_nth (fun j => f i j) (seq 0 c) 0 j).
  rewrite seq_nth by exact Hj. reflexivity.
Qed.

Lemma tabulate_ext (r c : nat) (f g : nat -> nat -> T) :
  (forall i j, i < r -> j < c -> f i j = g i j) ->
  np.tabulate r c f = np.tabulate r c g.
Proof.
  intros H. unfold np.tabulate. f_equal.
  apply map_ext_in. intros i Hi. apply in_seq in Hi.
  apply map_ext_in. intros j Hj. apply in_seq in Hj.
  apply H; lia.
Qed.

Lemma length_tabulate1 (n : nat) (f : nat -> T) :
  List.length (np.tabulate1 n f) = n.
Proof. unfold np.tabulate1. rewrite length_map, length_seq. reflexivity. Qed.

Lemma get1_tabulate1 (n : nat) (f : nat -> T) (i : nat) :
  i < n -> np.get1 (np.tabulate1 n f) i = f i.
Proof.
  intros Hi. unfold np.get1, np.tabulate1.
  rewrite (nth_indep _ dflt (f 0)) by (rewrite length_map, length_seq; exact Hi).
  rewrite (map_nth f (seq 0 n) 0 i). rewrite seq_nth by exact Hi. reflexivity.
Qed.

Lemma tabulate1_ext (n : nat) (f g : nat -> T) :
  (forall i, i < n -> f i = g i) -> np.tabulate1 n f = np.tabulate1 n g.
Proof.
  intros H. apply map_ext_in. intros i Hi. apply in_seq in Hi. apply H; lia.
Qed.

Lemma bdim_some (a b c : nat) :
  np.bdim a b = Some c ->
  (a = b /\ c = a) \/ (a = 1 /\ c = b) \/ (b = 1 /\ c = a).
Proof.
  unfold np.bdim.
  destruct (Nat.eqb_spec a b); [intros [= <-]; auto |].
  destruct (Nat.eqb_spec a 1); [intros [= <-]; auto |].
  destruct (Nat.eqb_spec b 1); [intros [= <-]; auto | discriminate].
Qed.

Lemma bdim_same (a : nat) : np.bdim a a = Some a.
Proof. unfold np.bdim. rewrite Nat.eqb_refl. reflexivity. Qed.

Lemma fits_true (d region : nat) :
  np.fits d region = true -> d = region \/ d = 1.
Proof.
  unfold np.fits. intros H. apply orb_true_iff in H.
  destruct H as [H|H]; apply Nat.eqb_eq in H; auto.
Qed.

Lemma c_shape (a b x : matrix T) :
  np.c_ a b = Ok x ->
  nrows a = nrows b /\ nrows x = nrows a /\ ncols x = ncols a + ncols b.
Proof.
  unfold np.c_. destruct (Nat.eqb_spec (nrows a) (nrows b)); [|discriminate].
  intros [= <-]. auto.
Qed.

Lemma r_shape (a b x : matrix T) :
  np.r_ a b = Ok x ->
  ncols a = ncols b /\ nrows x = nrows a + nrows b /\ ncols x = ncols a.
Proof.
  unfold np.r_. destruct (Nat.eqb_spec (ncols a) (ncols b)); [|discriminate].
  intros [= <-]. auto.
Qed.

Lemma reshape1_shape (v : list T) (r c : nat) (x : matrix T) :
  np.reshape1 v r c = Ok x -> List.length v = r * c /\ nrows x = r /\ ncols x = c.
Proof.
  unfold np.reshape1. destruct (Nat.eqb_spec (List.length v) (r * c)); [|discriminate].
  intros [= <-]. auto.
Qed.

Lemma reshape1F_shape (v : list T) (r c : nat) (x : matrix T) :
  np.reshape1F v r c = Ok x -> List.length v = r * c /\ nrows x = r /\ ncols x = c.
Proof.
  unfold np.reshape1F. destruct (Nat.eqb_spec (List.length v) (r * c)); [|discriminate].
  intros [= <-]. auto.
Qed.

Lemma length_ravel (m : matrix T) : List.length (np.ravel m) = nrows m * ncols m.
Proof. apply length_tabulate1. Qed.

Lemma length_ravelF (m : matrix T) : List.length (np.ravelF m) = nrows m * ncols m.
Proof. apply length_tabulate1. Qed.

Lemma reshape_shape (m : matrix T) (r c : nat) (x : matrix T) :
  np.reshape m r c = Ok x -> nrows m * ncols m = r * c /\ nrows x = r /\ ncols x = c.
Proof.
  unfold np.reshape. intros H. apply reshape1_shape in H.
  rewrite length_ravel in H. exact H.
Qed.

Lemma take_rows_shape (m : matrix T) (idx : list nat) (x : matrix T) :
  np.take_rows m idx = Ok x ->
  Forall (fun i => i < nrows m) idx
  /\ nrows x = List.length idx /\ ncols x = ncols m.
Proof.
  unfold np.take_rows.
  destruct (forallb (fun i => i <? nrows m) idx) eqn:E; [|discriminate].
  intros [= <-]. split; [|auto].
  apply Forall_forall. intros i Hi.
  rewrite forallb_forall in E. apply Nat.ltb_lt. auto.
Qed.

Lemma take_cols_shape (m : matrix T) (idx : list nat) (x : matrix T) :
  np.take_cols m idx = Ok x ->
  Forall (fun j => j < ncols m) idx
  /\ nrows x = nrows m /\ ncols x = List.length idx.
Proof.
  unfold np.take_cols.
  destruct (forallb (fun j => j <? ncols m) idx) eqn:E; [|discriminate].
  intros [= <-]. split; [|auto].
  apply Forall_forall. intros i Hi.
  rewrite forallb_forall in E. apply Nat.ltb_lt. auto.
Qed.

Lemma set_slice_fits (m : matrix T) rlo rhi clo chi (v x : matrix T) :
  np.set_slice m rlo rhi clo chi v = Ok x ->
  nrows x = nrows m /\ ncols x = ncols m
  /\ np.fits (nrows v) (snd (np.slice_bounds rlo rhi (nrows m))) = true
  /\ np.fits (ncols v) (snd (np.slice_bounds clo chi (ncols m))) = true.
Proof.
  unfold np.set_slice.
  destruct (np.slice_bounds rlo rhi (nrows m)) as [sr cr].
  destruct (np.slice_bounds clo chi (ncols m)) as [sc cc]. simpl.
  destruct (np.fits (nrows v) cr) eqn:E1; [|discriminate].
  destruct (np.fits (ncols v) cc) eqn:E2; [|discriminate].
  intros [= <-]. auto.
Qed.

Lemma set_slice_shape (m : matrix T) rlo rhi clo chi (v x : matrix T) :
  np.set_slice m rlo rhi clo chi v = Ok x ->
  nrows x = nrows m /\ ncols x = ncols m.
Proof. intros H. apply set_slice_fits in H. tauto. Qed.

Lemma set_col_scalar_shape (m : matrix T) j y (x : matrix T) :
  np.set_col_scalar m j y = Ok x ->
  j < ncols m /\ nrows x = nrows m /\ ncols x = ncols m.
Proof.
  unfold np.set_col_scalar. destruct (Nat.ltb_spec j (ncols m)); [|discriminate].
  intros [= <-]. auto.
Qed.

Lemma set_col_shape (m : matrix T) j v (x : matrix T) :
  np.set_col m j v = Ok x ->
  j < ncols m /\ nrows x = nrows m /\ ncols x = ncols m.
Proof.
  unfold np.set_col. destruct (Nat.ltb_spec j (ncols m)); [|discriminate].
  destruct (np.fits _ _); [|discriminate].
  intros [= <-]. auto.
Qed.

Lemma length_slice1 (v : list T) (lo : nat) (hi : option nat) :
  List.length (np.slice1 v lo hi)
  = snd (np.slice_bounds lo hi (List.length v)).
Proof.
  unfold np.slice1, np.slice_bounds. simpl.
  rewrite length_firstn, length_skipn. destruct hi; lia.
Qed.
End ArrayFacts.

Section NumericFacts.

Context {A : Type} {SA : Scalar A}.

Lemma matmul_shape (a b x : matrix A) :
  np.matmul a b = Ok x ->
  ncols a = nrows b /\ nrows x = nrows a /\ ncols x = ncols b.
Proof.
  unfold np.matmul. destruct (Nat.eqb_spec (ncols a) (nrows b)); [|discriminate].
  intros [= <-]. auto.
Qed.

Lemma matvec_shape (a : matrix A) (v x : list A) :
  np.matvec a v = Ok x -> ncols a = List.length v /\ List.length x = nrows a.
Proof.
  unfold np.matvec. destruct (Nat.eqb_spec (ncols a) (List.length v)); [|discriminate].
  intros [= <-]. split; [auto | apply length_tabulate1].
Qed.

Lemma broadcast_shape (f : A -> A -> A) (a b x : matrix A) :
  np.broadcast f a b = Ok x ->
  np.bdim (nrows a) (nrows b) = Some (nrows x)
  /\ np.bdim (ncols a) (ncols b) = Some (ncols x).
Proof.
  unfold np.broadcast.
  destruct (np.bdim (nrows a) (nrows b)); [|discriminate].
  destruct (np.bdim (ncols a) (ncols b)); [|discriminate].
  intros [= <-]. auto.
Qed.

Lemma isub_fits (a b x : matrix A) :
  np.isub a b = Ok x ->
  nrows x = nrows a /\ ncols x = ncols a
  /\ np.fits (nrows b) (nrows a) = true /\ np.fits (ncols b) (ncols a) = true.
Proof.
  unfold np.isub.
  destruct (np.fits (nrows b) (nrows a)); [|discriminate].
  destruct (np.fits (ncols b) (ncols a)); [|discriminate].
  intros [= <-]. auto.
Qed.

Lemma isub_shape (a b x : matrix A) :
  np.isub a b = Ok x -> nrows x = nrows a /\ ncols x = ncols a.
Proof. intros H. apply isub_fits in H. tauto. Qed.

Lemma to_float_shape (a : matrix A) (x : A) :
  np.to_float a = Ok x -> nrows a = 1 /\ ncols a = 1 /\ x = np.get a 0 0.
Proof.
  unfold np.to_float.
  destruct (Nat.eqb_spec (nrows a) 1); [|discriminate].
  destruct (Nat.eqb_spec (ncols a) 1); [|discriminate].
  intros [= <-]. auto.
Qed.

Lemma nd_reshape_shape (x : ndarray A) (r c : nat) (m : matrix A) :
  nd_reshape x r c = Ok m -> nrows m = r /\ ncols m = c.
Proof.
  destruct x; simpl; intros H.
  - apply reshape1_shape in H. tauto.
  - apply reshape_shape in H. tauto.
Qed.
End NumericFacts.

(** ** Arrays: when an operation succeeds *)

Section ArraySuccess.

Context {A : Type} {SA : Scalar A}.

Lemma bdim_one_r (a : nat) : np.bdim a 1 = Some a.
Proof.
  unfold np.bdim. destruct (Nat.eqb_spec a 1) as [->|]; [reflexivity|].
  rewrite Nat.eqb_refl. reflexivity.
Qed.

Lemma bdim_eq (a b c : nat) : a = b -> c = a -> np.bdim a b = Some c.
Proof. intros -> ->. apply bdim_same. Qed.

Lemma c_ok (a b : matrix A) :
  nrows a = nrows b ->
  exists x, np.c_ a b = Ok x /\ nrows x = nrows a /\ ncols x = ncols a + ncols b.
Proof.
  intros H. unfold np.c_. rewrite (proj2 (Nat.eqb_eq _ _) H).
  eexists; split; [reflexivity | auto].
Qed.

Lemma matmul_ok (a b : matrix A) :
  ncols a = nrows b ->
  exists x, np.matmul a b = Ok x /\ nrows x = nrows a /\ ncols x = ncols b.
Proof.
  intros H. unfold np.matmul. rewrite (proj2 (Nat.eqb_eq _ _) H).
  eexists; split; [reflexivity | auto].
Qed.

Lemma matvec_ok (a : matrix A) (v : list A) :
  ncols a = List.length v ->
  exists x, np.matvec a v = Ok x /\ List.length x = nrows a.
Proof.
  intros H. unfold np.matvec. rewrite (proj2 (Nat.eqb_eq _ _) H).
  eexists; split; [reflexivity | apply length_tabulate1].
Qed.

Lemma broadcast_ok (f : A -> A -> A) (a b : matrix A) (r c : nat) :
  np.bdim (nrows a) (nrows b) = Some r ->
  np.bdim (ncols a) (ncols b) = Some c ->
  exists x, np.broadcast f a b = Ok x /\ nrows x = r /\ ncols x = c.
Proof.
  intros Hr Hc. unfold np.broadcast. rewrite Hr, Hc.
  eexists; split; [reflexivity | auto].
Qed.

Lemma reshape1_ok (v : list A) (r c : nat) :
  List.length v = r * c ->
  exists x, np.reshape1 v r c = Ok x /\ nrows x = r /\ ncols x = c.
Proof.
  intros H. unfold np.reshape1. rewrite (proj2 (Nat.eqb_eq _ _) H).
  eexists; split; [reflexivity | auto].
Qed.

Lemma reshape_ok (m : matrix A) (r c : nat) :
  nrows m * ncols m = r * c ->
  exists x, np.reshape m r c = Ok x /\ nrows x = r /\ ncols x = c.
Proof.
  intros H. apply reshape1_ok. rewrite length_ravel. exact H.
Qed.
End ArraySuccess.

(** ** Shapes of the total operations *)

Section Shapes.

Context {T : Type} {DT : Default T}.

Lemma nrows_tabulate r c (f : nat -> nat -> T) : nrows (np.tabulate r c f) = r.
Proof. reflexivity. Qed.
Lemma ncols_tabulate r c (f : nat -> nat -> T) : ncols (np.tabulate r c f) = c.
Proof. reflexivity. Qed.
Lemma nrows_T (m : matrix T) : nrows (np.T_ m) = ncols m.
Proof. reflexivity. Qed.
Lemma ncols_T (m : matrix T) : ncols (np.T_ m) = nrows m.
Proof. reflexivity. Qed.
Lemma nrows_col (v : list T) : nrows (np.col v) = List.length v.
Proof. reflexivity. Qed.
Lemma ncols_col (v : list T) : ncols (np.col v) = 1.
Proof. reflexivity. Qed.
Lemma nrows_row (v : list T) : nrows (np.row v) = 1.
Proof. reflexivity. Qed.
Lemma ncols_row (v : list T) : ncols (np.row v) = List.length v.
Proof. reflexivity. Qed.
Lemma nrows_tile (m : matrix T) a b : nrows (np.tile m a b) = a * nrows m.
Proof. reflexivity. Qed.
Lemma ncols_tile (m : matrix T) a b : ncols (np.tile m a b) = b * ncols m.
Proof. reflexivity. Qed.
Lemma nrows_slice (m : matrix T) rlo rhi clo chi :
  nrows (np.slice m rlo rhi clo chi) = snd (np.slice_bounds rlo rhi (nrows m)).
Proof. reflexivity. Qed.
Lemma ncols_slice (m : matrix T) rlo rhi clo chi :
  ncols (np.slice m rlo rhi clo chi) = snd (np.slice_bounds clo chi (ncols m)).
Proof. reflexivity. Qed.
Lemma slice_count_none lo n : snd (np.slice_bounds lo None n) = n - Nat.min lo n.
Proof. reflexivity. Qed.
Lemma slice_count_some lo hi n :
  snd (np.slice_bounds lo (Some hi) n) = Nat.min hi n - Nat.min lo n.
Proof. reflexivity. Qed.
Lemma slice_start lo hi n : fst (np.slice_bounds lo hi n) = Nat.min lo n.
Proof. reflexivity. Qed.
End Shapes.

Section NumericShapes.

Context {A : Type} {SA : Scalar A}.

Lemma nrows_ones r c : nrows (np.ones (A := A) r c) = r.
Proof. reflexivity. Qed.
Lemma ncols_ones r c : ncols (np.ones (A := A) r c) = c.
Proof. reflexivity. Qed.
Lemma nrows_zeros r c : nrows (np.zeros (A := A) r c) = r.
Proof. reflexivity. Qed.
Lemma ncols_zeros r c : ncols (np.zeros (A := A) r c) = c.
Proof. reflexivity. Qed.
Lemma nrows_eye n : nrows (np.eye (A := A) n) = n.
Proof. reflexivity. Qed.
Lemma ncols_eye n : ncols (np.eye (A := A) n) = n.
Proof. reflexivity. Qed.
Lemma nrows_kron (a b : matrix A) : nrows (np.kron a b) = nrows a * nrows b.
Proof. reflexivity. Qed.
Lemma ncols_kron (a b : matrix A) : ncols (np.kron a b) = ncols a * ncols b.
Proof. reflexivity. Qed.
Lemma nrows_div_scalar (a : matrix A) x : nrows (np.div_scalar a x) = nrows a.
Proof. reflexivity. Qed.
Lemma ncols_div_scalar (a : matrix A) x : ncols (np.div_scalar a x) = ncols a.
Proof. reflexivity. Qed.
Lemma nrows_neg (a : matrix A) : nrows (np.neg a) = nrows a.
Proof. reflexivity. Qed.
Lemma ncols_neg (a : matrix A) : ncols (np.neg a) = ncols a.
Proof. reflexivity. Qed.
Lemma length_mean0 (a : matrix A) : List.length (np.mean0 a) = ncols a.
Proof. apply length_tabulate1. Qed.
End NumericShapes.

Create Rewrite HintDb shp.

#[export] Hint Rewrite @nrows_tabulate @ncols_tabulate @nrows_T @ncols_T
  @nrows_col @ncols_col @nrows_row @ncols_row @nrows_tile @ncols_tile
  @nrows_slice @ncols_slice @slice_count_none @slice_count_some @slice_start
  @nrows_ones @ncols_ones @nrows_zeros @ncols_zeros @nrows_eye @ncols_eye
  @nrows_kron @ncols_kron @nrows_div_scalar @ncols_div_scalar
  @nrows_neg @ncols_neg @length_mean0
  @length_tabulate1 @length_ravel @length_ravelF @length_slice1
  length_app length_seq length_map : shp.

Ltac shapes := autorewrite with shp in *.

(** ** Shapes through the collaborators *)

Section CollaboratorShapes.

Context {A : Type} {SA : Scalar A} {LA : LinAlg A} {LS : @LinAlgShapes A LA}.

Lemma lstsq_ok_shape (a b x : matrix A) :
  np_lstsq a b = Ok x ->
  nrows a = nrows b /\ nrows x = ncols a /\ ncols x = ncols b.
Proof.
  unfold np_lstsq, singular. destruct (lstsq a b) as [y|] eqn:E; [|discriminate].
  intros [= <-]. apply lstsq_shape in E. destruct E as [E1 E2].
  unfold np.shape in E2. injection E2 as E2 E3. auto.
Qed.

Lemma inv_ok_shape (a x : matrix A) :
  np_inv a = Ok x -> nrows a = ncols a /\ nrows x = nrows a /\ ncols x = ncols a.
Proof.
  unfold np_inv, singular. destruct (inv a) as [y|] eqn:E; [|discriminate].
  intros [= <-]. apply inv_shape in E. destruct E as [E1 E2].
  unfold np.shape in E2. injection E2 as E2 E3. auto.
Qed.

Lemma pinv_ok_shape (a x : matrix A) :
  np_pinv a = Ok x -> nrows x = ncols a /\ ncols x = nrows a.
Proof.
  unfold np_pinv, singular. destruct (pinv a) as [y|] eqn:E; [|discriminate].
  intros [= <-]. apply pinv_shape in E.
  unfold np.shape in E. injection E as E2 E3. auto.
Qed.

Lemma for_each_shape (body : matrix A -> nat -> result (matrix A)) :
  (forall G i G', body G i = Ok G' -> nrows G' = nrows G /\ ncols G' = ncols G) ->
  forall range G G',
    LinearFactorModel.for_each body G range = Ok G' ->
    nrows G' = nrows G /\ ncols G' = ncols G.
Proof.
  intros Hb. induction range as [|i rest IH]; simpl; intros G G' H.
  - injection H as <-. auto.
  - apply bind_ok in H. destruct H as (G1 & H1 & H2).
    apply Hb in H1. apply IH in H2. lia.
Qed.

End CollaboratorShapes.

(** Turns every successful numpy step among the hypotheses into the
    shape facts it implies. *)
Ltac shape_facts :=
  repeat match goal with
    | H : np.c_ _ _ = Ok _ |- _ => apply c_shape in H; destruct H as (? & ? & ?)
    | H : np.r_ _ _ = Ok _ |- _ => apply r_shape in H; destruct H as (? & ? & ?)
    | H : np.matmul _ _ = Ok _ |- _ =>
        apply matmul_shape in H; destruct H as (? & ? & ?)
    | H : np.matvec _ _ = Ok _ |- _ => apply matvec_shape in H; destruct H as (? & ?)
    | H : np.sub _ _ = Ok _ |- _ => apply broadcast_shape in H; destruct H as (? & ?)
    | H : np.add _ _ = Ok _ |- _ => apply broadcast_shape in H; destruct H as (? & ?)
    | H : np.mul _ _ = Ok _ |- _ => apply broadcast_shape in H; destruct H as (? & ?)
    | H : np.isub _ _ = Ok _ |- _ =>
        apply isub_shape in H; destruct H as (? & ?)
    | H : np.reshape _ _ _ = Ok _ |- _ =>
        apply reshape_shape in H; destruct H as (? & ? & ?)
    | H : np.reshape1 _ _ _ = Ok _ |- _ =>
        apply reshape1_shape in H; destruct H as (? & ? & ?)
    | H : np.reshape1F _ _ _ = Ok _ |- _ =>
        apply reshape1F_shape in H; destruct H as (? & ? & ?)
    | H : nd_reshape _ _ _ = Ok _ |- _ =>
        apply nd_reshape_shape in H; destruct H as (? & ?)
    | H : np.take_rows _ _ = Ok _ |- _ =>
        apply take_rows_shape in H; destruct H as (? & ? & ?)
    | H : np.take_cols _ _ = Ok _ |- _ =>
        apply take_cols_shape in H; destruct H as (? & ? & ?)
    | H : np.set_slice _ _ _ _ _ _ = Ok _ |- _ =>
        apply set_slice_shape in H; destruct H as (? & ?)
    | H : np.set_col_scalar _ _ _ = Ok _ |- _ =>
        apply set_col_scalar_shape in H; destruct H as (? & ? & ?)
    | H : np.set_col _ _ _ = Ok _ |- _ =>
        apply set_col_shape in H; destruct H as (? & ? & ?)
    | H : np.to_float _ = Ok _ |- _ =>
        apply to_float_shape in H; destruct H as (? & ? & ?)
    | H : np_lstsq _ _ = Ok _ |- _ =>
        apply lstsq_ok_shape in H; destruct H as (? & ? & ?)
    | H : np_inv _ = Ok _ |- _ => apply inv_ok_shape in H; destruct H as (? & ? & ?)
    | H : np_pinv _ = Ok _ |- _ => apply pinv_ok_shape in H; destruct H as (? & ?)
    end;
  shapes.

(** Opens the broadcasting fact that gave the length [t]. *)
Ltac bdim_of t :=
  match goal with
  | H : np.bdim _ _ = Some t |- _ => apply bdim_some in H
  end.

(** ** The exact collaborators return the shapes of [numpy.linalg] *)

Lemma option_of_some {X : Type} (r : result X) (x : X) :
  option_of r = Some x -> r = Ok x.
Proof. destruct r; simpl; intros H; [injection H as -> | discriminate]; reflexivity. Qed.

Lemma inverse_shape (a x : matrix Qc) :
  inverse a = Some x -> nrows a = ncols a /\ np.shape x = np.shape a.
Proof.
  unfold inverse. destruct (Nat.eqb_spec (nrows a) (ncols a)) as [E|]; [|discriminate].
  destruct (eliminate _ _ _ _); [|discriminate].
  intros [= <-]. split; [exact E|]. unfold np.shape. simpl. rewrite <- E. reflexivity.
Qed.

Lemma pseudo_inverse_shape (a x : matrix Qc) :
  pseudo_inverse a = Some x -> np.shape x = (ncols a, nrows a).
Proof.
  unfold pseudo_inverse, obind.
  destruct (option_of (np.matmul (np.T_ a) a)) as [g|] eqn:G.
  - apply option_of_some in G. apply matmul_shape in G. destruct G as (_ & G1 & G2).
    destruct (inverse g) as [gi|] eqn:I.
    + apply inverse_shape in I. destruct I as [_ I]. unfold np.shape in I.
      injection I as I1 I2.
      intros H. apply option_of_some in H. apply matmul_shape in H.
      destruct H as (_ & H1 & H2). unfold np.shape. shapes. congruence.
    + destruct (option_of (np.matmul a (np.T_ a))) as [g'|] eqn:G'; [|discriminate].
      apply option_of_some in G'. apply matmul_shape in G'.
      destruct G' as (_ & G1' & G2').
      destruct (inverse g') as [gi|] eqn:I'; [|discriminate].
      apply inverse_shape in I'. destruct I' as [_ I']. unfold np.shape in I'.
      injection I' as I1 I2.
      intros H. apply option_of_some in H. apply matmul_shape in H.
      destruct H as (_ & H1 & H2). unfold np.shape. shapes. congruence.
  - destruct (option_of (np.matmul a (np.T_ a))) as [g'|] eqn:G'; [|discriminate].
    apply option_of_some in G'. apply matmul_shape in G'.
    destruct G' as (_ & G1' & G2').
    destruct (inverse g') as [gi|] eqn:I'; [|discriminate].
    apply inverse_shape in I'. destruct I' as [_ I']. unfold np.shape in I'.
    injection I' as I1 I2.
    intros H. apply option_of_some in H. apply matmul_shape in H.
    destruct H as (_ & H1 & H2). unfold np.shape. shapes. congruence.
Qed.

Lemma least_squares_shape (a b x : matrix Qc) :
  least_squares a b = Some x ->
  nrows a = nrows b /\ np.shape x = (ncols a, ncols b).
Proof.
  unfold least_squares, obind.
  destruct (pseudo_inverse a) as [pa|] eqn:E; [|discriminate].
  apply pseudo_inverse_shape in E. unfold np.shape in E. injection E as E1 E2.
  intros H. apply option_of_some in H. apply matmul_shape in H.
  destruct H as (H0 & H1 & H2). unfold np.shape. split; congruence.
Qed.

#[export] Instance Qc_LinAlgShapes : @LinAlgShapes Qc Qc_LinAlg.
Proof.
  constructor.
  - exact pseudo_inverse_shape.
  - exact inverse_shape.
  - exact least_squares_shape.
Qed.

#[export] Instance Qc_ExactScalar : @ExactScalar Qc Qc_Scalar.
Proof.
  constructor; simpl.
  - exact Qcplus_comm.
  - exact Qcplus_assoc.
  - exact Qcplus_0_l.
  - exact Qcmult_1_l.
  - exact Qcmult_0_l.
Qed.

Lemma bartlett_zero (n : Z) :
  exists w, bartlett (PyInt 0) n = Ok w /\ contemporaneous w.
Proof.
  eexists. split; [reflexivity|]. simpl. split; [discriminate|]. split.
  - apply Qc_is_canon. reflexivity.
  - intros lag H1 H2. simpl in H2. lia.
Qed.
(** ** Constructors *)

Section Constructors.

Context {A : Type} {SA : Scalar A} {LA : LinAlg A} {DI : DataInput A}
        {OPT : Optimizer A}.

(** C1: [LinearFactorModelGMM(a, b)] holds its first positional argument as
    the portfolio returns and its second as the factor returns, as the
    constructors of [TradedFactorModel] and [LinearFactorModel] do, against
    its own parameter names [(factors, portfolios)]; built from the named
    inputs [portfolios=P, factors=F] it is the model with [F] as portfolios
    and [P] as factors, the model that [LinearFactorModelGMM(F, P)] builds,
    while the two other constructors hold [P] as portfolios. *)
Theorem gmm_constructor_roles (a b P F : array_like A) :
  LinearFactorModelGMM.new (Call [a; b] []) = stored "LinearFactorModelGMM" a b
  /\ TradedFactorModel.new (Call [a; b] []) = stored "TradedFactorModel" a b
  /\ LinearFactorModel.new (Call [a; b] [])
     = (m <- stored "LinearFactorModel" a b ;; Ok (LinearFactorModel.Build m None))
  /\ TradedFactorModel.new (Call [] [("portfolios", P); ("factors", F)])
     = stored "TradedFactorModel" P F
  /\ LinearFactorModel.new (Call [] [("portfolios", P); ("factors", F)])
     = (m <- stored "LinearFactorModel" P F ;; Ok (LinearFactorModel.Build m None))
  /\ LinearFactorModelGMM.new (Call [] [("portfolios", P); ("factors", F)])
     = stored "LinearFactorModelGMM" F P
  /\ LinearFactorModelGMM.new (Call [] [("portfolios", P); ("factors", F)])
     = LinearFactorModelGMM.new (Call [F; P] []).
Proof.
  repeat split; try reflexivity.
  all: unfold LinearFactorModel.new, LinearFactorModel.__init__, stored; simpl.
  all: unfold TradedFactorModel.__init__.
  all: destruct (IVData_init _ "portfolio"); simpl; try reflexivity.
  all: destruct (IVData_init _ "factor"); reflexivity.
Qed.
End Constructors.

(** ** Degrees of freedom *)

Section DegreesOfFreedom.

Context {A : Type} {SA : Scalar A} {LA : LinAlg A} {KS : Kernels A}
        {DI : DataInput A} {OPT : Optimizer A}.

(** C2: with [N] portfolios and [K] factors held by the model, the
    J-statistic is reported with [N] degrees of freedom by the time-series
    estimator, [N - K] by the two-pass estimator and [N] by the GMM
    estimator. *)
Theorem jstat_degrees_of_freedom :
  (forall self cov_type debiased cov_config res,
      TradedFactorModel.fit self cov_type debiased cov_config = Ok res ->
      df (jstat res)
      = Z.of_nat (ncols (ndarray_ (TradedFactorModel.portfolios self))))
  /\ (forall self excess_returns cov_type cov_config res,
         LinearFactorModel.fit self excess_returns cov_type cov_config = Ok res ->
         df (jstat res)
         = (Z.of_nat (ncols (ndarray_ (LinearFactorModel.portfolios self)))
            - Z.of_nat (ncols (ndarray_ (LinearFactorModel.factors self))))%Z)
  /\ (forall self excess_returns steps disp max_iter cov_type debiased cov_config res,
         LinearFactorModelGMM.fit self excess_returns steps disp max_iter
           cov_type debiased cov_config = Ok res ->
         df (jstat res)
         = Z.of_nat (ncols (ndarray_ (TradedFactorModel.portfolios self)))).
Proof.
  repeat split.
  - intros self ct deb cfg res H.
    unfold TradedFactorModel.fit, np.shape in H.
    inv_bind H. inv_ok H. reflexivity.
  - intros self ex ct cfg res H.
    unfold LinearFactorModel.fit, np.shape in H.
    inv_bind H. inv_ok H. reflexivity.
  - intros self ex steps disp mi ct deb cfg res H.
    unfold LinearFactorModelGMM.fit, np.shape in H.
    inv_bind H. inv_ok H. reflexivity.
Qed.
End DegreesOfFreedom.

(** The three estimators on six observations of two portfolios and one
    factor: 2, 1 and 2 degrees of freedom. *)
Lemma jstat_degrees_of_freedom_witness :
  (exists res, TradedFactorModel.fit Examples.traded "robust" true [] = Ok res
               /\ df (jstat res) = 2%Z)
  /\ (exists res, LinearFactorModel.fit Examples.two_pass true "robust" [] = Ok res
                  /\ df (jstat res) = 1%Z)
  /\ (exists res, LinearFactorModelGMM.fit (OPT := Exact.stopped_Optimizer)
                    Examples.gmm true 2%Z 10%Z 1000%Z "robust" true [] = Ok res
                  /\ df (jstat res) = 2%Z).
Proof.
  destruct (jstat_degrees_of_freedom (A := Qc) (KS := Exact.Qc_Kernels)
              (OPT := Exact.stopped_Optimizer)) as (H1 & H2 & H3).
  repeat split.
  - destruct (TradedFactorModel.fit Examples.traded "robust" true []) as [res|e] eqn:E.
    + exists res. split; [reflexivity | exact (H1 _ _ _ _ _ E)].
    + exfalso. vm_compute in E. discriminate E.
  - destruct (LinearFactorModel.fit Examples.two_pass true "robust" []) as [res|e] eqn:E.
    + exists res. split; [reflexivity | exact (H2 _ _ _ _ _ E)].
    + exfalso. vm_compute in E. discriminate E.
  - destruct (LinearFactorModelGMM.fit (OPT := Exact.stopped_Optimizer)
                Examples.gmm true 2%Z 10%Z 1000%Z "robust" true []) as [res|e] eqn:E.
    + exists res. split; [reflexivity | exact (H3 _ _ _ _ _ _ _ _ _ E)].
    + exfalso. vm_compute in E. discriminate E.
Defined.

(** ** The covariance selection *)

Section CovarianceKind.

Context {A : Type} {SA : Scalar A} {LA : LinAlg A} {KS : Kernels A}
        {DI : DataInput A}.

Lemma mem_In (s : string) (l : list string) : mem s l = true <-> In s l.
Proof.
  unfold mem. rewrite existsb_exists. split.
  - intros (x & Hx & E). apply String.eqb_eq in E. subst. exact Hx.
  - intros H. exists s. split; [exact H | apply String.eqb_refl].
Qed.

Lemma covariance_unknown ct cfg nobs (xe fe : matrix A) :
  ~ In ct recognized ->
  TradedFactorModel.covariance ct cfg nobs xe fe = Err (unknown_cov_type ct).
Proof.
  intros H. unfold TradedFactorModel.covariance.
  destruct (mem ct ["robust"; "heteroskedastic"]) eqn:E1.
  { apply mem_In in E1. exfalso. apply H. unfold recognized. simpl in *. tauto. }
  destruct (String.eqb_spec ct "kernel") as [->|E2].
  { exfalso. apply H. unfold recognized. simpl. tauto. }
  reflexivity.
Qed.

Lemma covariance_robust ct cfg nobs (xe fe : matrix A) :
  In ct ["robust"; "heteroskedastic"] ->
  exists xeex rp_cov,
    TradedFactorModel.covariance ct cfg nobs xe fe = Ok (xeex, rp_cov).
Proof.
  intros H. apply mem_In in H. unfold TradedFactorModel.covariance. rewrite H.
  destruct (matmul_ok (np.T_ xe) xe) as (xx & -> & _); [reflexivity|].
  destruct (matmul_ok (np.T_ fe) fe) as (ff & -> & _); [reflexivity|].
  simpl. eauto.
Qed.

Lemma covariance_error_iff ct cfg nobs (xe fe : matrix A) :
  (forall kernel w bw n,
      In (kernel, w) KERNEL_LOOKUP -> w bw n <> Err (unknown_cov_type ct)) ->
  TradedFactorModel.covariance ct cfg nobs xe fe = Err (unknown_cov_type ct)
  <-> ~ In ct recognized.
Proof.
  intros Hk. split; [|apply covariance_unknown].
  intros H Hin.
  simpl in Hin. destruct Hin as [<-|[<-|[<-|[]]]].
  - destruct (covariance_robust "robust" cfg nobs xe fe) as (a & b & E);
      [simpl; tauto|]. congruence.
  - destruct (covariance_robust "heteroskedastic" cfg nobs xe fe) as (a & b & E);
      [simpl; tauto|]. congruence.
  - unfold TradedFactorModel.covariance in H. simpl in H.
    apply bind_err in H. destruct H as [H | (w & Hw & H)].
    + unfold dict_item in H.
      destruct (dict_get cfg "kernel" (PyStr "bartlett")); try discriminate.
      destruct (find _ _); discriminate.
    + apply bind_err in H. destruct H as [H | (x & Hx & H)]; [|discriminate].
      unfold dict_item in Hw.
      destruct (dict_get cfg "kernel" (PyStr "bartlett")); try discriminate.
      destruct (find _ KERNEL_LOOKUP) as [[name w']|] eqn:F; [|discriminate].
      injection Hw as ->.
      apply find_some in F. destruct F as [F _].
      exact (Hk _ _ _ _ F H).
Qed.

Lemma numpy_error_foreign e ct : numpy_error e -> e <> unknown_cov_type ct.
Proof.
  unfold unknown_cov_type. destruct e; simpl; try discriminate.
  intros H E. injection E as ->. simpl in H.
  repeat (destruct H as [H|H]; [discriminate H|]). exact H.
Qed.

Ltac np_err :=
  match goal with
  | H : ?op = Err ?e |- numpy_error ?e =>
      unfold np_pinv, np_inv, np_lstsq, singular, np.c_, np.r_, np.matmul,
        np.sub, np.add, np.mul, np.broadcast, np.isub, np.reshape, np.reshape1,
        np.reshape1F, np.take_rows, np.take_cols, np.set_slice, np.to_float,
        np.set_col, np.set_col_scalar, np.item_row in H;
      repeat match type of H with
             | context [match ?c with _ => _ end] => destruct c
             | context [if ?c then _ else _] => destruct c
             end;
      try discriminate H; injection H as <-; simpl; tauto
  end.

Lemma c_err (a b : matrix A) e : np.c_ a b = Err e -> numpy_error e.
Proof. intros H. np_err. Qed.
Lemma matmul_err (a b : matrix A) e : np.matmul a b = Err e -> numpy_error e.
Proof. intros H. np_err. Qed.
Lemma broadcast_err f (a b : matrix A) e : np.broadcast f a b = Err e -> numpy_error e.
Proof. intros H. np_err. Qed.
Lemma pinv_err (a : matrix A) e : np_pinv a = Err e -> numpy_error e.
Proof. intros H. np_err. Qed.
Lemma set_slice_err (m : matrix A) a b c d v e :
  np.set_slice m a b c d v = Err e -> numpy_error e.
Proof. intros H. np_err. Qed.
Lemma reshape1F_err (v : list A) r c e : np.reshape1F v r c = Err e -> numpy_error e.
Proof. intros H. np_err. Qed.
Lemma reshape1_err {T} {DT : Default T} (v : list T) r c e :
  np.reshape1 v r c = Err e -> numpy_error e.
Proof. intros H. np_err. Qed.
Lemma take_rows_err (m : matrix A) idx e : np.take_rows m idx = Err e -> numpy_error e.
Proof. intros H. np_err. Qed.
Lemma take_cols_err (m : matrix A) idx e : np.take_cols m idx = Err e -> numpy_error e.
Proof. intros H. np_err. Qed.
Lemma to_float_err (m : matrix A) e : np.to_float m = Err e -> numpy_error e.
Proof. intros H. np_err. Qed.

Lemma fit_unknown_error self ct deb cfg :
  (forall kernel w bw n,
      In (kernel, w) KERNEL_LOOKUP -> w bw n <> Err (unknown_cov_type ct)) ->
  TradedFactorModel.fit self ct deb cfg = Err (unknown_cov_type ct) ->
  ~ In ct recognized.
Proof.
  intros Hk H. unfold TradedFactorModel.fit, np.shape in H.
  repeat (cbv beta iota zeta in H;
          match type of H with
          | bind ?r ?k = Err _ =>
              apply bind_err in H; destruct H as [H | (? & ? & H)]
          | match ?p with (_, _) => _ end = Err _ => destruct p
          end);
    try discriminate H;
    try (apply covariance_error_iff in H; [exact H | exact Hk]);
    exfalso; apply numpy_error_foreign with (e := unknown_cov_type ct) (ct := ct);
    try reflexivity;
    eauto using c_err, matmul_err, broadcast_err, pinv_err, set_slice_err,
      reshape1F_err, reshape1_err, take_rows_err, take_cols_err, to_float_err.
Qed.

Lemma fit_ok_recognized self ct deb cfg res :
  TradedFactorModel.fit self ct deb cfg = Ok res -> In ct recognized.
Proof.
  intros H. unfold TradedFactorModel.fit, np.shape in H.
  inv_bind H.
  destruct (in_dec string_dec ct recognized) as [Hin|Hn]; [exact Hin|].
  match goal with
  | E : TradedFactorModel.covariance _ _ _ _ _ = Ok _ |- _ =>
      rewrite covariance_unknown in E by exact Hn; discriminate
  end.
Qed.

(** C3, amended: the covariance selection fails with
    [ValueError('Unknown cov_type: ...')] exactly when the covariance kind is
    none of ['robust'], ['heteroskedastic'] and ['kernel']; for those three
    names it proceeds without this error, and so does [fit].  (No kernel
    weight function is taken to raise this very error.) *)
Theorem covariance_kind_error (cov_type : string) :
  (forall kernel w bw n,
      In (kernel, w) KERNEL_LOOKUP -> w bw n <> Err (unknown_cov_type cov_type)) ->
  (forall cov_config nobs (xe fe : matrix A),
      TradedFactorModel.covariance cov_type cov_config nobs xe fe
      = Err (unknown_cov_type cov_type)
      <-> ~ In cov_type ["robust"; "heteroskedastic"; "kernel"])
  /\ (forall self debiased cov_config,
         TradedFactorModel.fit self cov_type debiased cov_config
         = Err (unknown_cov_type cov_type) ->
         ~ In cov_type ["robust"; "heteroskedastic"; "kernel"])
  /\ (forall self debiased cov_config res,
         TradedFactorModel.fit self cov_type debiased cov_config = Ok res ->
         In cov_type ["robust"; "heteroskedastic"; "kernel"]).
Proof.
  intros Hk. repeat split.
  - apply covariance_error_iff; exact Hk.
  - apply covariance_unknown.
  - intros self deb cfg. apply fit_unknown_error; exact Hk.
  - intros self deb cfg res. apply fit_ok_recognized.
Qed.
End CovarianceKind.

Lemma bartlett_error_foreign ct :
  forall kernel w bw n,
    In (kernel, w) (KERNEL_LOOKUP (A := Qc)) -> w bw n <> Err (unknown_cov_type ct).
Proof.
  intros kernel w bw n [[= <- <-]|[]]. destruct bw; discriminate.
Qed.

(** On the example the kind ['heteroskedastic'] is accepted and the kind
    ['hac'] is refused. *)
Lemma covariance_kind_error_witness :
  (exists res, TradedFactorModel.fit Examples.traded "heteroskedastic" true []
               = Ok res
               /\ In "heteroskedastic" ["robust"; "heteroskedastic"; "kernel"])
  /\ TradedFactorModel.covariance "hac" [] 6 P F = Err (unknown_cov_type "hac").
Proof.
  split.
  - destruct (covariance_kind_error "heteroskedastic"
                (bartlett_error_foreign "heteroskedastic")) as (_ & _ & H3).
    destruct (TradedFactorModel.fit Examples.traded "heteroskedastic" true [])
      as [res|e] eqn:E.
    + exists res. split; [reflexivity | exact (H3 _ _ _ _ E)].
    + exfalso. vm_compute in E. discriminate E.
  - destruct (covariance_kind_error "hac" (bartlett_error_foreign "hac"))
      as (H1 & _ & _).
    apply H1. simpl. intros [E|[E|[E|[]]]]; discriminate E.
Defined.

(** C3 as stated fails: ['heteroskedastic'] is neither ['robust'] nor
    ['kernel'], and the selection does not fail on it. *)
Lemma covariance_kind_counterexample :
  ~ (TradedFactorModel.covariance "heteroskedastic" [] 6 P F
       = Err (unknown_cov_type "heteroskedastic")
     <-> ~ In "heteroskedastic" ["robust"; "kernel"]).
Proof.
  intros [_ H].
  assert (E : TradedFactorModel.covariance "heteroskedastic" [] 6 P F
              = Err (unknown_cov_type "heteroskedastic")).
  { apply H. simpl. intros [E|[E|[]]]; discriminate. }
  vm_compute in E. discriminate.
Qed.

(** ** The GMM moment builder *)

Section Moments.

Context {A : Type} {SA : Scalar A} {LA : LinAlg A} {DI : DataInput A}
        {OPT : Optimizer A}.

Lemma moments_shape self parameters ex g :
  LinearFactorModelGMM._moments self parameters ex = Ok g ->
  nrows g = nrows (ndarray_ (TradedFactorModel.portfolios self))
  /\ ncols g = ncols (ndarray_ (TradedFactorModel.portfolios self))
               * (ncols (ndarray_ (TradedFactorModel.factors self)) + 1)
               + ncols (ndarray_ (TradedFactorModel.factors self)).
Proof.
  intros H. unfold LinearFactorModelGMM._moments, np.shape in H.
  inv_bind H.
  set (p := ndarray_ (TradedFactorModel.portfolios self)) in *.
  set (f := ndarray_ (TradedFactorModel.factors self)) in *.
  apply nd_reshape_shape in Ex as [Hb1 Hb2].
  apply broadcast_shape in Ex2 as [_ Hfe].
  apply matmul_shape in Ex4 as [Hfb _].
  apply c_shape in Ex6 as (_ & Hf1 & Hf2).
  apply reshape_shape in Ex7 as (_ & He1 & He2).
  apply broadcast_shape in Ex8 as [Hr Hc].
  apply c_shape in H as (Hrr & Hg1 & Hg2).
  simpl in *.
  apply bdim_some in Hr, Hc. lia.
Qed.

Lemma moments_total self parameters (ex : bool) :
  let p := ndarray_ (TradedFactorModel.portfolios self) in
  let f := ndarray_ (TradedFactorModel.factors self) in
  nrows f = nrows p ->
  well_sized parameters (ncols p) (ncols f) (if ex then 0 else 1) ->
  exists g, LinearFactorModelGMM._moments self parameters ex = Ok g.
Proof.
  intros p f Hrows [Hlen Hcol].
  unfold LinearFactorModelGMM._moments, np.shape.
  fold p f. cbv zeta.
  set (n := ncols p) in *. set (k := ncols f) in *.
  set (nrf := if ex then 0 else 1) in *.
  unfold nparams in Hlen.
  assert (Hbetas : exists betas,
             nd_reshape (nd_slice parameters 0 (Some (n * k))) n k = Ok betas
             /\ nrows betas = n /\ ncols betas = k).
  { destruct parameters as [v|m]; simpl in *.
    - apply reshape1_ok. rewrite length_slice1. simpl. lia.
    - apply reshape_ok. simpl. lia. }
  destruct Hbetas as (betas & -> & Hb1 & Hb2). simpl.
  destruct (c_ok (np.ones n nrf) betas) as (ob & -> & Ho1 & Ho2);
    [simpl; lia|]. simpl in *.
  assert (Hexp : exists expected,
             nd_matmul ob (nd_slice parameters (n * k) (Some (n * k + k + nrf)))
             = Ok expected
             /\ nrows (as2d (nd_T expected)) = 1
             /\ ncols (as2d (nd_T expected)) = n).
  { destruct parameters as [v|m]; simpl in *.
    - destruct (matvec_ok ob (np.slice1 v (n * k) (Some (n * k + k + nrf))))
        as (y & -> & Hy); [rewrite length_slice1; simpl; lia|].
      simpl. eexists; split; [reflexivity|]. simpl. lia.
    - destruct (matmul_ok ob (np.slice m (n * k) (Some (n * k + k + nrf)) 0 None))
        as (y & -> & Hy1 & Hy2); [simpl; lia|].
      simpl in *. eexists; split; [reflexivity|]. simpl. lia. }
  destruct Hexp as (expected & -> & He1 & He2). simpl.
  assert (Hmu : nrows (as2d (nd_T (nd_slice parameters (n * k + k + nrf) None))) = 1
                /\ ncols (as2d (nd_T (nd_slice parameters (n * k + k + nrf) None))) = k).
  { destruct parameters as [v|m]; simpl in *.
    - rewrite length_slice1. simpl. lia.
    - lia. }
  destruct Hmu as [Hm1 Hm2].
  destruct (broadcast_ok fsub f
              (as2d (nd_T (nd_slice parameters (n * k + k + nrf) None)))
              (nrows f) k) as (fe & Hfe & Hfe1 & Hfe2).
  { rewrite Hm1. apply bdim_one_r. }
  { rewrite Hm2. apply bdim_eq; lia. }
  unfold np.sub at 1. rewrite Hfe. simpl.
  destruct (broadcast_ok fsub p (as2d (nd_T expected)) (nrows p) n)
    as (e1 & He & He1' & He2').
  { rewrite He1. apply bdim_one_r. }
  { rewrite He2. apply bdim_eq; lia. }
  unfold np.sub at 1. rewrite He. simpl.
  destruct (matmul_ok fe (np.T_ betas)) as (fb & -> & Hfb1 & Hfb2);
    [simpl; lia|]. simpl in *.
  destruct (broadcast_ok fsub e1 fb (nrows p) n) as (eps & Heps & Hp1 & Hp2).
  { apply bdim_eq; lia. }
  { apply bdim_eq; lia. }
  unfold np.sub at 1. rewrite Heps. simpl.
  destruct (c_ok (np.ones (nrows p) 1) f) as (fc & -> & Hc1 & Hc2);
    [simpl; lia|]. simpl in *.
  destruct (reshape_ok (np.T_ (np.tile eps (k + 1) 1)) (n * (k + 1)) (nrows p))
    as (er & -> & Hr1 & Hr2); [simpl; nia|]. simpl.
  destruct (broadcast_ok fmul (np.T_ er) (np.tile fc 1 n) (nrows p) (n * (k + 1)))
    as (ef & Hef & Hef1 & Hef2).
  { apply bdim_eq; simpl; lia. }
  { apply bdim_eq; simpl; lia. }
  unfold np.mul. rewrite Hef. simpl.
  destruct (c_ok ef fe) as (g & -> & _); [lia|].
  exists g. reflexivity.
Qed.

(** C4, amended: with [N] portfolios and [K] factors, the moment matrix
    built at any parameter vector has one row per observation and
    [N * (K + 1) + K] columns, which is the parameter count [N * K + (K +
    nrf) + K] plus [N - K - nrf] over-identifying restrictions; it is built
    for every flat or column parameter vector of that length when
    portfolios and factors have the same number of observations. *)
Theorem moment_matrix_columns self parameters (excess_returns : bool) :
  let p := ndarray_ (TradedFactorModel.portfolios self) in
  let f := ndarray_ (TradedFactorModel.factors self) in
  let nrf := if excess_returns then 0 else 1 in
  (forall g,
      LinearFactorModelGMM._moments self parameters excess_returns = Ok g ->
      nrows g = nrows p
      /\ ncols g = ncols p * (ncols f + 1) + ncols f
      /\ (Z.of_nat (ncols g)
          = Z.of_nat (nparams (ncols p) (ncols f) nrf)
            + (Z.of_nat (ncols p) - Z.of_nat (ncols f) - Z.of_nat nrf))%Z)
  /\ (nrows f = nrows p ->
      well_sized parameters (ncols p) (ncols f) nrf ->
      exists g, LinearFactorModelGMM._moments self parameters excess_returns = Ok g).
Proof.
  intros p f nrf. split.
  - intros g H. apply moments_shape in H. destruct H as [H1 H2].
    fold p f in H1, H2. repeat split; try assumption.
    rewrite H2. unfold nparams. lia.
  - apply moments_total.
Qed.
End Moments.

(** At the two-pass estimates of the example the moment matrix has
    [2 * 2 + 1 = 5] columns for [4] parameters. *)
Lemma moment_matrix_columns_witness :
  exists g, LinearFactorModelGMM._moments Examples.gmm (Arr1 Examples.theta) true
            = Ok g
            /\ nrows g = 6 /\ ncols g = 5.
Proof.
  destruct (moment_matrix_columns (A := Qc) Examples.gmm (Arr1 Examples.theta) true)
    as [Hshape Htotal].
  destruct Htotal as [g Hg].
  - reflexivity.
  - split; [reflexivity | exact I].
  - exists g. split; [exact Hg|].
    destruct (Hshape g Hg) as (H1 & H2 & _). split; [exact H1 | exact H2].
Defined.

(** C4 as stated fails: two portfolios and one factor give 5 columns, not
    [K * (K + 1) + N * (K + 1) + K = 7], and 5 is not the parameter count 4
    plus [N = 2]. *)
Lemma moment_matrix_columns_counterexample :
  ~ (forall g,
        LinearFactorModelGMM._moments Examples.gmm (Arr1 Examples.theta) true = Ok g ->
        ncols g = 1 * (1 + 1) + 2 * (1 + 1) + 1
        /\ ncols g = nparams 2 1 0 + 2).
Proof.
  intros H.
  destruct (moments_total Examples.gmm (Arr1 Examples.theta) true) as [g Hg].
  - reflexivity.
  - split; [reflexivity | exact I].
  - destruct (H g Hg) as [H1 _].
    apply moments_shape in Hg. destruct Hg as [_ H2].
    rewrite H2 in H1. vm_compute in H1. discriminate H1.
Qed.

(** ** The two-pass estimator *)

Section TwoPass.

Context {A : Type} {SA : Scalar A} {LA : LinAlg A} {LS : @LinAlgShapes A LA}
        {DI : DataInput A}.

Lemma loading_name_not_lambda pcols fcols s :
  In s (TradedFactorModel.loading_names pcols fcols) ->
  exists c rest, s = String c rest /\ c <> "l"%char.
Proof.
  unfold TradedFactorModel.loading_names. rewrite in_flat_map.
  intros (p & _ & [<-|H]).
  - eexists _, _. split; [reflexivity | discriminate].
  - apply in_map_iff in H. destruct H as (f & <- & _).
    eexists _, _. split; [reflexivity | discriminate].
Qed.

Lemma lambda_risk_free_in pcols fcols :
  In "lambda-risk_free"
     (TradedFactorModel.loading_names pcols fcols ++ map lambda_name fcols)
  <-> In "risk_free" fcols.
Proof.
  rewrite in_app_iff, in_map_iff. split.
  - intros [H|(f & E & H)].
    + apply loading_name_not_lambda in H. destruct H as (c & rest & E & Hc).
      injection E as <- _. congruence.
    + unfold lambda_name in E. simpl in E. injection E as ->. exact H.
  - intros H. right. exists "risk_free". split; [reflexivity | exact H].
Qed.

(** Shapes at the point where [fit] inverts the Jacobian. *)
Lemma stage_shapes self (ex : bool) st :
  LinearFactorModel.moments_and_jacobian self ex = Ok st ->
  let n := ncols (ndarray_ (LinearFactorModel.portfolios self)) in
  let k := ncols (ndarray_ (LinearFactorModel.factors self)) in
  let nrf := if ex then 0 else 1 in
  nrows (LinearFactorModel.st_b st) = k + 1 /\ ncols (LinearFactorModel.st_b st) = n
  /\ nrows (LinearFactorModel.st_betas st) = n
  /\ ncols (LinearFactorModel.st_betas st) = k + nrf
  /\ nrows (LinearFactorModel.st_lam st) = k + nrf
  /\ ncols (LinearFactorModel.st_lam st) = 1
  /\ nrows (LinearFactorModel.st_alphas st) = n
  /\ ncols (LinearFactorModel.st_alphas st) = 1
  /\ nrows (LinearFactorModel.st_S st) = n * (k + 1) + (k + nrf) + n
  /\ ncols (LinearFactorModel.st_S st) = n * (k + 1) + (k + nrf) + n
  /\ nrows (LinearFactorModel.st_G st) = n * (k + 1) + (k + nrf) + n
  /\ ncols (LinearFactorModel.st_G st) = n * (k + 1) + (k + nrf) + n.
Proof.
  intros H n k nrf. subst n k nrf.
  unfold LinearFactorModel.moments_and_jacobian, np.shape in H.
  inv_bind H. inv_ok H. cbn [LinearFactorModel.st_b LinearFactorModel.st_betas
    LinearFactorModel.st_lam LinearFactorModel.st_alphas LinearFactorModel.st_S
    LinearFactorModel.st_G].
  set (p := ndarray_ (LinearFactorModel.portfolios self)) in *.
  set (f := ndarray_ (LinearFactorModel.factors self)) in *.
  assert (Hbetas : nrows x3 = ncols x0
                   /\ ncols x3 = nrows x0 - (if ex then 1 else 0)
                   /\ (ex = true -> 1 <= nrows x0)).
  { destruct ex.
    - injection Ex3 as <-. shape_facts. lia.
    - shape_facts. lia. }
  clear Ex3. destruct Hbetas as (Hbe1 & Hbe2 & Hbe3).
  apply for_each_shape in Ex18.
  2:{ intros G i G' HB. unfold LinearFactorModel.jacobian_row_block in HB.
      inv_bind HB. apply set_slice_shape in HB. tauto. }
  assert (Hz : True) by exact I. clear Ex19.
  shape_facts.
  bdim_of (ncols x7). bdim_of (ncols x8). bdim_of (ncols x10).
  destruct ex; repeat split; lia.
Qed.

Lemma stage_ones self st :
  LinearFactorModel.moments_and_jacobian self false = Ok st ->
  forall i, i < nrows (LinearFactorModel.st_betas st) ->
            np.get (LinearFactorModel.st_betas st) i 0 = one.
Proof.
  intros H i Hi.
  unfold LinearFactorModel.moments_and_jacobian, np.shape in H.
  inv_bind H. inv_ok H.
  cbn [LinearFactorModel.st_betas] in *.
  unfold np.set_col_scalar in Ex3.
  destruct (0 <? ncols (np.T_ x0)) eqn:E; [|discriminate].
  apply Nat.ltb_lt in E. injection Ex3 as <-.
  rewrite get_tabulate; [reflexivity | exact Hi | exact E].
Qed.

Lemma two_pass_report self (ex : bool) ct cfg res :
  LinearFactorModel.fit self ex ct cfg = Ok res ->
  let pcols := cols (LinearFactorModel.portfolios self) in
  let fcols := cols (LinearFactorModel.factors self) in
  exists st,
    LinearFactorModel.moments_and_jacobian self ex = Ok st
    /\ rp res = Arr2 (LinearFactorModel.st_lam st)
    /\ alphas res = LinearFactorModel.st_alphas st
    /\ np.c_ (alphas res) (betas res) = Ok (params res)
    /\ betas res = (if ex then LinearFactorModel.st_betas st
                    else np.slice (LinearFactorModel.st_betas st) 0 None 1 None)
    /\ param_names res
       = TradedFactorModel.loading_names pcols fcols
         ++ (if ex then [] else ["lambda-risk_free"])
         ++ map lambda_name fcols
    /\ rp_names res = (if ex then fcols else "risk_free" :: fcols).
Proof.
  intros H pcols fcols.
  unfold LinearFactorModel.fit, np.shape in H.
  inv_bind H. inv_ok H. exists x. simpl.
  repeat split; try reflexivity; assumption.
Qed.

(** C10: in the two-pass estimator, with [excess_returns] true the
    parameter names are the loadings' and the factors' ['lambda-...'] names
    only, the risk-premia names are the factor names and there is one risk
    premium per factor, so a ['lambda-risk_free'] name is present only as
    the premium of a factor itself named ['risk_free']; with
    [excess_returns] false the name ['lambda-risk_free'] precedes the
    factors' ['lambda-...'] names, ['risk_free'] leads the risk-premia
    names, there is one more risk premium than factors, and the reported
    betas are the fitted loadings without their leading column, whose
    entries are all one.  Either way the reported parameter array has one
    intercept and one beta per factor for each portfolio. *)
Theorem two_pass_risk_free_column self (excess_returns : bool) cov_type cov_config res :
  LinearFactorModel.fit self excess_returns cov_type cov_config = Ok res ->
  let pcols := cols (LinearFactorModel.portfolios self) in
  let fcols := cols (LinearFactorModel.factors self) in
  let n := ncols (ndarray_ (LinearFactorModel.portfolios self)) in
  let k := ncols (ndarray_ (LinearFactorModel.factors self)) in
  exists st,
    LinearFactorModel.moments_and_jacobian self excess_returns = Ok st
    /\ rp res = Arr2 (LinearFactorModel.st_lam st)
    /\ np.shape (params res) = (n, k + 1)
    /\ np.shape (betas res) = (n, k)
    /\ (if excess_returns then
          param_names res
          = TradedFactorModel.loading_names pcols fcols ++ map lambda_name fcols
          /\ rp_names res = fcols
          /\ nrows (LinearFactorModel.st_lam st) = k
          /\ betas res = LinearFactorModel.st_betas st
          /\ (In "lambda-risk_free" (param_names res) <-> In "risk_free" fcols)
        else
          param_names res
          = TradedFactorModel.loading_names pcols fcols
            ++ "lambda-risk_free" :: map lambda_name fcols
          /\ rp_names res = "risk_free" :: fcols
          /\ nrows (LinearFactorModel.st_lam st) = k + 1
          /\ ncols (LinearFactorModel.st_betas st) = k + 1
          /\ (forall i, i < n -> np.get (LinearFactorModel.st_betas st) i 0 = one)
          /\ betas res = np.slice (LinearFactorModel.st_betas st) 0 None 1 None).
Proof.
  intros H pcols fcols n k.
  apply two_pass_report in H.
  destruct H as (st & Hst & Hrp & Hal & Hpar & Hbe & Hpn & Hrn).
  exists st. split; [exact Hst|]. split; [exact Hrp|].
  pose proof (stage_shapes self excess_returns st Hst) as S. cbv zeta in S.
  fold n k in S.
  destruct S as (_ & _ & Sb1 & Sb2 & Sl1 & _ & Sa1 & Sa2 & _).
  assert (Hbs : np.shape (betas res) = (n, k)).
  { rewrite Hbe. unfold np.shape. destruct excess_returns; shapes; f_equal; lia. }
  split.
  { apply c_shape in Hpar. destruct Hpar as (_ & P1 & P2).
    unfold np.shape in *. injection Hbs as B1 B2.
    rewrite P1, P2, Hal, Sa1, Sa2, B2. f_equal. lia. }
  split; [exact Hbs|].
  destruct excess_returns.
  - fold pcols fcols in Hpn, Hrn. simpl in Hpn.
    repeat split; try assumption; try lia.
    + rewrite Hpn. apply lambda_risk_free_in.
    + rewrite Hpn. apply lambda_risk_free_in.
  - fold pcols fcols in Hpn, Hrn. simpl in Hpn.
    repeat split; try assumption; try lia.
    intros i Hi. apply (stage_ones self st Hst). lia.
Qed.
End TwoPass.

(** On the example: no risk-free name with excess returns, and the names
    ['lambda-risk_free'] and ['risk_free'] without. *)
Lemma two_pass_risk_free_column_witness :
  (exists res, LinearFactorModel.fit Examples.two_pass true "robust" [] = Ok res
               /\ rp_names res = ["factor.0"]
               /\ np.shape (params res) = (2, 2))
  /\ (exists res, LinearFactorModel.fit Examples.two_pass false "robust" [] = Ok res
                  /\ rp_names res = ["risk_free"; "factor.0"]
                  /\ np.shape (betas res) = (2, 1)).
Proof.
  split.
  - destruct (LinearFactorModel.fit Examples.two_pass true "robust" [])
      as [res|e] eqn:E.
    + exists res. split; [reflexivity|].
      destruct (two_pass_risk_free_column Examples.two_pass true "robust" [] res E)
        as (st & _ & _ & Hp & _ & _ & Hr & _).
      split; [exact Hr | exact Hp].
    + exfalso. vm_compute in E. discriminate E.
  - destruct (LinearFactorModel.fit Examples.two_pass false "robust" [])
      as [res|e] eqn:E.
    + exists res. split; [reflexivity|].
      destruct (two_pass_risk_free_column Examples.two_pass false "robust" [] res E)
        as (st & _ & _ & _ & Hb & _ & Hr & _).
      split; [exact Hr | exact Hb].
    + exfalso. vm_compute in E. discriminate E.
Defined.

(** ** The GMM step loop *)

Section StepLoop.

Context {A : Type} {SA : Scalar A} {LA : LinAlg A} {DI : DataInput A}
        {OPT : Optimizer A}.
Variables (self : TradedFactorModel.t A) (excess_returns : bool) (max_iter : Z).

Local Abbreviation loop := (LinearFactorModelGMM.step_loop self excess_returns max_iter).
Local Abbreviation step := (LinearFactorModelGMM.step self excess_returns max_iter).

Lemma step_loop_objs remaining :
  forall s last s',
    loop remaining s last = Ok s' ->
    exists later,
      rev (LinearFactorModelGMM.ss_objs s')
      = rev (LinearFactorModelGMM.ss_objs s) ++ later
      /\ follows_loop remaining last later.
Proof.
  induction remaining as [|r IH]; intros s last s' H; simpl in H.
  - injection H as <-. exists []. rewrite app_nil_r. split; reflexivity.
  - apply bind_ok in H. destruct H as ([[params w] obj] & Hstep & H).
    destruct (LinearFactorModelGMM.converged obj last) eqn:C.
    + injection H as <-. exists [obj]. simpl. split; [reflexivity|].
      split; [discriminate|]. rewrite C. reflexivity.
    + apply IH in H. destruct H as (later & Hl & Hf). simpl in Hl.
      exists (obj :: later). split.
      * rewrite Hl. rewrite <- app_assoc. reflexivity.
      * simpl. split; [discriminate|]. rewrite C.
        replace (S r - 1) with r by lia. exact Hf.
Qed.

Lemma follows_loop_length remaining :
  forall prev later,
    follows_loop remaining prev later -> List.length later <= remaining.
Proof.
  induction remaining as [|r IH]; intros prev later H.
  - destruct later as [|o rest]; simpl in *; [lia | destruct H; congruence].
  - destruct later as [|o rest]; simpl in *; [lia|].
    destruct H as [_ H].
    destruct (LinearFactorModelGMM.converged o prev).
    + subst rest. simpl. lia.
    + replace (S r - 1) with r in H by lia. apply IH in H. lia.
Qed.

(** Stopping before the passes are used up means that the test fired at
    the last step made. *)
Lemma follows_loop_early remaining :
  forall prev later,
    follows_loop remaining prev later ->
    List.length later < remaining ->
    exists init before obj,
      prev :: later = init ++ [before; obj]
      /\ LinearFactorModelGMM.converged obj before = true.
Proof.
  induction remaining as [|r IH]; intros prev later H Hlt; [lia|].
  destruct later as [|o rest]; simpl in H; [discriminate H|].
  destruct H as [_ H].
  destruct (LinearFactorModelGMM.converged o prev) eqn:C.
  - subst rest. exists [], prev, o. split; [reflexivity | exact C].
  - replace (S r - 1) with r in H by lia.
    apply IH in H; [|simpl in Hlt; lia].
    destruct H as (init & before & obj & E & Hc).
    exists (prev :: init), before, obj. split; [|exact Hc].
    simpl. rewrite E. reflexivity.
Qed.

(** The test did not fire at any step that was followed by another. *)
Lemma follows_loop_continue remaining :
  forall prev later init before obj rest,
    follows_loop remaining prev later ->
    prev :: later = init ++ before :: obj :: rest ->
    rest <> [] ->
    LinearFactorModelGMM.converged obj before = false.
Proof.
  induction remaining as [|r IH]; intros prev later init before obj rest H E Hr.
  - destruct later; simpl in H; [|destruct H; congruence].
    destruct init as [|? [|? ?]]; discriminate E.
  - destruct later as [|o later']; simpl in H.
    { destruct init as [|? [|? ?]]; discriminate E. }
    destruct H as [_ H].
    destruct init as [|i0 init'].
    + simpl in E. injection E as <- <- <-.
      destruct (LinearFactorModelGMM.converged o prev); [congruence | reflexivity].
    + simpl in E. injection E as <- E.
      destruct (LinearFactorModelGMM.converged o prev) eqn:C.
      * subst later'. destruct init' as [|? [|? ?]]; discriminate E.
      * replace (S r - 1) with r in H by lia.
        exact (IH o later' init' before obj rest H E Hr).
Qed.

Lemma step_loop_error remaining :
  forall s last e,
    loop remaining s last = Err e -> exists params, step params = Err e.
Proof.
  induction remaining as [|r IH]; intros s last e H; simpl in H; [discriminate|].
  apply bind_err in H. destruct H as [H | ([[params w] obj] & Hs & H)].
  - eauto.
  - destruct (LinearFactorModelGMM.converged obj last); [discriminate|].
    apply IH in H. exact H.
Qed.

Lemma step_loop_reaches s0 last0 j s last :
  reaches self excess_returns max_iter s0 last0 j s last ->
  forall remaining, j <= remaining ->
    loop remaining s0 last0 = loop (remaining - j) s last.
Proof.
  induction 1 as [|j s last params w obj R IH Hstep Hc]; intros remaining Hle.
  - rewrite Nat.sub_0_r. reflexivity.
  - rewrite IH by lia.
    replace (remaining - j) with (S (remaining - S j)) by lia.
    simpl. rewrite Hstep. simpl. rewrite Hc. reflexivity.
Qed.

Lemma step_loop_fails s0 last0 j s last e remaining :
  reaches self excess_returns max_iter s0 last0 j s last ->
  j < remaining ->
  step (LinearFactorModelGMM.ss_params s) = Err e ->
  loop remaining s0 last0 = Err e.
Proof.
  intros R Hlt Hs. rewrite (step_loop_reaches _ _ _ _ _ R) by lia.
  replace (remaining - j) with (S (remaining - S j)) by lia.
  simpl. rewrite Hs. reflexivity.
Qed.
End StepLoop.

Section OuterIterations.

Context {A : Type} {SA : Scalar A} {LA : LinAlg A} {DI : DataInput A}
        {OPT : Optimizer A}.

Lemma step_error self ex mi params e :
  LinearFactorModelGMM.step self ex mi params = Err e ->
  (exists parameters, LinearFactorModelGMM.weighting self parameters ex = Err e)
  \/ (exists obj x0, minimize obj x0 mi = Err e).
Proof.
  unfold LinearFactorModelGMM.step. intros H.
  apply bind_err in H. destruct H as [H | (w & Hw & H)]; [left; eauto|].
  apply bind_err in H. destruct H as [H | (r & Hr & H)]; [right; eauto|].
  discriminate H.
Qed.

(** C6: for [steps >= 1] the GMM estimation makes at most [steps]
    minimisations, one per weighting matrix; from the second step on it
    stops early exactly when the objective moved by less than [1e-6] from
    the step before; and when it fails, the error is that of a starting
    value, weighting matrix or minimisation, never of the loop reaching
    [steps]. *)
Theorem gmm_outer_iterations self excess_returns (steps max_iter : Z) :
  (1 <= steps)%Z ->
  (forall s,
      LinearFactorModelGMM.estimate self excess_returns steps max_iter = Ok s ->
      exists first later,
        rev (LinearFactorModelGMM.ss_objs s) = first :: later
        /\ follows_loop (Z.to_nat (steps - 1)) first later
        /\ (Z.of_nat (List.length (first :: later)) <= steps)%Z
        /\ ((Z.of_nat (List.length (first :: later)) < steps)%Z ->
            exists init before obj,
              first :: later = init ++ [before; obj]
              /\ LinearFactorModelGMM.converged obj before = true)
        /\ (forall init before obj rest,
               first :: later = init ++ before :: obj :: rest ->
               rest <> [] ->
               LinearFactorModelGMM.converged obj before = false))
  /\ (forall e,
         LinearFactorModelGMM.estimate self excess_returns steps max_iter = Err e ->
         LinearFactorModelGMM.starting_values self excess_returns = Err e
         \/ (exists parameters,
                LinearFactorModelGMM.weighting self parameters excess_returns = Err e)
         \/ (exists obj x0, minimize obj x0 max_iter = Err e)).
Proof.
  intros Hsteps. split.
  - intros s H. unfold LinearFactorModelGMM.estimate in H.
    inv_bind H. apply step_loop_objs in H. destruct H as (later & Hl & Hf).
    simpl in Hl. exists (snd x1), later. split; [exact Hl|]. split; [exact Hf|].
    pose proof (follows_loop_length _ _ _ Hf) as Hlen.
    split; [simpl; lia|]. split.
    + intros Hlt. apply (follows_loop_early _ _ _ Hf). simpl in Hlt. lia.
    + intros init before obj rest. apply (follows_loop_continue _ _ _ _ _ _ _ Hf).
  - intros e H. unfold LinearFactorModelGMM.estimate in H.
    apply bind_err in H. destruct H as [H | (sv & Hsv & H)]; [left; exact H|].
    right.
    apply bind_err in H. destruct H as [H | (w & Hw & H)]; [left; eauto|].
    apply bind_err in H. destruct H as [H | (r & Hr & H)]; [right; eauto|].
    apply step_loop_error in H. destruct H as (params & H).
    apply step_error in H. exact H.
Qed.
End OuterIterations.

(** With three steps allowed, the optimizer that stays put ends at the
    second step and the one that moves uses all three. *)
Lemma gmm_outer_iterations_witness :
  (exists s, LinearFactorModelGMM.estimate (OPT := stopped_Optimizer)
               Examples.gmm true 3%Z 1000%Z = Ok s
             /\ List.length (LinearFactorModelGMM.ss_objs s) = 2
             /\ exists first later,
                 rev (LinearFactorModelGMM.ss_objs s) = first :: later
                 /\ follows_loop 2 first later)
  /\ (exists s, LinearFactorModelGMM.estimate (OPT := moving_Optimizer)
                  Examples.gmm true 3%Z 1000%Z = Ok s
                /\ List.length (LinearFactorModelGMM.ss_objs s) = 3
                /\ exists first later,
                    rev (LinearFactorModelGMM.ss_objs s) = first :: later
                    /\ follows_loop 2 first later).
Proof.
  split.
  - destruct (gmm_outer_iterations (OPT := stopped_Optimizer)
                Examples.gmm true 3%Z 1000%Z) as [H _]; [lia|].
    destruct (is_ok_inv (LinearFactorModelGMM.estimate (OPT := stopped_Optimizer)
                           Examples.gmm true 3%Z 1000%Z)) as [s E];
      [vm_compute; reflexivity|].
    exists s. split; [exact E|]. split.
    + apply (ok_fact _ (fun s => List.length (LinearFactorModelGMM.ss_objs s)) 0 2 s)
        in E; [exact E | vm_compute; reflexivity].
    + destruct (H s E) as (first & later & H1 & H2 & _).
      exists first, later. split; [exact H1 | exact H2].
  - destruct (gmm_outer_iterations (OPT := moving_Optimizer)
                Examples.gmm true 3%Z 1000%Z) as [H _]; [lia|].
    destruct (is_ok_inv (LinearFactorModelGMM.estimate (OPT := moving_Optimizer)
                           Examples.gmm true 3%Z 1000%Z)) as [s E];
      [vm_compute; reflexivity|].
    exists s. split; [exact E|]. split.
    + apply (ok_fact _ (fun s => List.length (LinearFactorModelGMM.ss_objs s)) 0 3 s)
        in E; [exact E | vm_compute; reflexivity].
    + destruct (H s E) as (first & later & H1 & H2 & _).
      exists first, later. split; [exact H1 | exact H2].
Defined.

(** ** Matrices without inverse *)

Section Singular.

Context {A : Type} {SA : Scalar A} {LA : LinAlg A} {DI : DataInput A}
        {OPT : Optimizer A}.

Lemma np_inv_none (a : matrix A) : inv a = None -> np_inv a = Err singular_matrix.
Proof. intros H. unfold np_inv, singular. rewrite H. reflexivity. Qed.

Lemma np_inv_some (a x : matrix A) : inv a = Some x -> np_inv a = Ok x.
Proof. intros H. unfold np_inv, singular. rewrite H. reflexivity. Qed.

Lemma exact_inverse_raises {EI : @ExactInverse A SA LA} (a : matrix A) :
  no_inverse a -> inv a = None.
Proof.
  intros H. destruct (inv a) as [x|] eqn:E; [|reflexivity].
  destruct (H x). apply inv_inverse. exact E.
Qed.

Lemma two_pass_singular self ex ct cfg st :
  LinearFactorModel.moments_and_jacobian self ex = Ok st ->
  inv (LinearFactorModel.st_G st) = None ->
  LinearFactorModel.fit self ex ct cfg = Err singular_matrix.
Proof.
  intros Hst Hinv. unfold LinearFactorModel.fit, np.shape. cbv zeta.
  rewrite Hst. simpl. rewrite (np_inv_none _ Hinv). reflexivity.
Qed.

Lemma two_pass_alpha_singular self ex ct cfg st Ginv av :
  LinearFactorModel.moments_and_jacobian self ex = Ok st ->
  inv (LinearFactorModel.st_G st) = Some Ginv ->
  two_pass_alpha_vcv self ex st Ginv = Ok av ->
  inv av = None ->
  LinearFactorModel.fit self ex ct cfg = Err singular_matrix.
Proof.
  intros Hst HG Hav Hinv. unfold two_pass_alpha_vcv in Hav. inv_bind Hav.
  injection Hav as <-.
  unfold LinearFactorModel.fit, np.shape. cbv zeta.
  rewrite Hst. simpl. rewrite (np_inv_some _ _ HG). simpl.
  rewrite Ex. simpl. rewrite Ex0. simpl.
  rewrite (np_inv_none _ Hinv). reflexivity.
Qed.

Lemma weighting_covariance self parameters ex :
  LinearFactorModelGMM.weighting self parameters ex
  = (s <- moment_covariance self parameters ex ;; np_inv s).
Proof.
  unfold LinearFactorModelGMM.weighting, moment_covariance.
  destruct (LinearFactorModelGMM._moments self parameters ex) as [g|e]; [simpl | reflexivity].
  destruct (np.matmul (np.T_ g) g) as [gg|e]; reflexivity.
Qed.

Lemma weighting_singular self parameters ex s :
  moment_covariance self parameters ex = Ok s ->
  inv s = None ->
  LinearFactorModelGMM.weighting self parameters ex = Err singular_matrix.
Proof.
  intros Hs Hinv. rewrite weighting_covariance, Hs. simpl.
  apply np_inv_none. exact Hinv.
Qed.

Lemma fit_estimate_error self ex steps disp mi ct deb cfg e :
  LinearFactorModelGMM.estimate self ex steps mi = Err e ->
  LinearFactorModelGMM.fit self ex steps disp mi ct deb cfg = Err e.
Proof.
  intros H. unfold LinearFactorModelGMM.fit, np.shape. cbv zeta.
  rewrite H. reflexivity.
Qed.

Lemma estimate_start_error self ex steps mi e :
  LinearFactorModelGMM.starting_values self ex = Err e ->
  LinearFactorModelGMM.estimate self ex steps mi = Err e.
Proof.
  intros H. unfold LinearFactorModelGMM.estimate. rewrite H. reflexivity.
Qed.

Lemma starting_values_two_pass_error self ex mod_ e :
  LinearFactorModel.new
    (Call [FromIVData (TradedFactorModel.portfolios self);
           FromIVData (TradedFactorModel.factors self)] []) = Ok mod_ ->
  LinearFactorModel.fit mod_ ex "robust" [] = Err e ->
  LinearFactorModelGMM.starting_values self ex = Err e.
Proof.
  intros Hm Hf. unfold LinearFactorModelGMM.starting_values.
  rewrite Hm. simpl. rewrite Hf. reflexivity.
Qed.

Lemma estimate_first_weighting_error self ex steps mi sv e :
  LinearFactorModelGMM.starting_values self ex = Ok sv ->
  LinearFactorModelGMM.weighting self (Arr2 sv) ex = Err e ->
  LinearFactorModelGMM.estimate self ex steps mi = Err e.
Proof.
  intros Hsv Hw. unfold LinearFactorModelGMM.estimate.
  rewrite Hsv. simpl. rewrite Hw. reflexivity.
Qed.

Lemma estimate_step_weighting_error self ex steps mi sv w params obj j s last e :
  LinearFactorModelGMM.starting_values self ex = Ok sv ->
  LinearFactorModelGMM.weighting self (Arr2 sv) ex = Ok w ->
  minimize (fun x => LinearFactorModelGMM._j self (Arr1 x) ex w) (np.ravel sv) mi
  = Ok (params, obj) ->
  reaches self ex mi (LinearFactorModelGMM.mkSteps params w [obj]) obj j s last ->
  (Z.of_nat j < steps - 1)%Z ->
  LinearFactorModelGMM.weighting self (Arr1 (LinearFactorModelGMM.ss_params s)) ex
  = Err e ->
  LinearFactorModelGMM.estimate self ex steps mi = Err e.
Proof.
  intros Hsv Hw Hmin R Hj He. unfold LinearFactorModelGMM.estimate.
  rewrite Hsv. simpl. rewrite Hw. simpl. rewrite Hmin. simpl.
  apply (step_loop_fails self ex mi _ _ j s last e _ R); [lia|].
  unfold LinearFactorModelGMM.step. rewrite He. reflexivity.
Qed.

Lemma fit_inference_singular self ex steps disp mi ct deb cfg est s jac :
  LinearFactorModelGMM.estimate self ex steps mi = Ok est ->
  moment_covariance self (Arr1 (LinearFactorModelGMM.ss_params est)) ex = Ok s ->
  LinearFactorModelGMM._jacobian self (Arr1 (LinearFactorModelGMM.ss_params est)) ex
  = Ok jac ->
  inv s = None ->
  LinearFactorModelGMM.fit self ex steps disp mi ct deb cfg = Err singular_matrix.
Proof.
  intros Hest Hs Hjac Hinv. unfold moment_covariance in Hs. inv_bind Hs.
  injection Hs as <-.
  unfold LinearFactorModelGMM.fit, np.shape. cbv zeta.
  rewrite Hest. simpl. rewrite Ex. simpl. rewrite Ex0. simpl.
  rewrite Hjac. simpl. rewrite (np_inv_none _ Hinv). reflexivity.
Qed.

Lemma fit_core_singular self ex steps disp mi ct deb cfg est s si c2 :
  LinearFactorModelGMM.estimate self ex steps mi = Ok est ->
  moment_covariance self (Arr1 (LinearFactorModelGMM.ss_params est)) ex = Ok s ->
  inv s = Some si ->
  covariance_core self (LinearFactorModelGMM.ss_params est) ex si = Ok c2 ->
  inv c2 = None ->
  LinearFactorModelGMM.fit self ex steps disp mi ct deb cfg = Err singular_matrix.
Proof.
  intros Hest Hs Hsi Hc Hinv. unfold moment_covariance in Hs. inv_bind Hs.
  injection Hs as <-. unfold covariance_core in Hc. inv_bind Hc.
  unfold LinearFactorModelGMM.fit, np.shape. cbv zeta.
  rewrite Hest. simpl. rewrite Ex. simpl. rewrite Ex0. simpl.
  rewrite Ex1. simpl. rewrite (np_inv_some _ _ Hsi). simpl.
  rewrite Ex2. simpl. rewrite Hc. simpl.
  rewrite (np_inv_none _ Hinv). reflexivity.
Qed.

End Singular.

Section SingularClaim.

Context {A : Type} {SA : Scalar A} {LA : LinAlg A} {DI : DataInput A}
        {OPT : Optimizer A}.

End SingularClaim.

Lemma is_none_inv {X : Type} (o : option X) : is_none o = true -> o = None.
Proof. destruct o; [discriminate | reflexivity]. Qed.

Lemma inv_of_np_inv {A : Type} {LA : LinAlg A} (a x : matrix A) :
  np_inv a = Ok x -> inv a = Some x.
Proof.
  unfold np_inv, singular. destruct (inv a); [intros [= <-]; reflexivity | discriminate].
Qed.

(** ** Robust and kernel covariance *)

Section Sums.

Context {A : Type} {SA : Scalar A}.

Lemma sum_to_ext (n : nat) (f g : nat -> A) :
  (forall t, t < n -> f t = g t) -> np.sum_to n f = np.sum_to n g.
Proof.
  unfold np.sum_to. generalize (@zero A SA) as acc.
  assert (H : forall l acc, (forall t, In t l -> t < n) ->
                (forall t, t < n -> f t = g t) ->
                fold_left (fun acc t => fadd acc (f t)) l acc
                = fold_left (fun acc t => fadd acc (g t)) l acc).
  { induction l as [|a l IH]; intros acc Hl Hfg; simpl; [reflexivity|].
    rewrite (Hfg a) by (apply Hl; left; reflexivity).
    apply IH; [intros t Ht; apply Hl; right; exact Ht | exact Hfg]. }
  intros acc Hfg. apply H; [|exact Hfg].
  intros t Ht. apply in_seq in Ht. lia.
Qed.

Lemma sum_to_S (n : nat) (f : nat -> A) :
  np.sum_to (S n) f = fadd (np.sum_to n f) (f n).
Proof.
  unfold np.sum_to. rewrite seq_S, fold_left_app. reflexivity.
Qed.

Lemma sum_to_0 (f : nat -> A) : np.sum_to 0 f = zero.
Proof. reflexivity. Qed.
End Sums.

Section RobustKernel.

Context {A : Type} {SA : Scalar A} {ES : @ExactScalar A SA}
        {LA : LinAlg A} {KS : Kernels A} {DI : DataInput A}.

Lemma fadd_0_r (x : A) : fadd x zero = x.
Proof. rewrite fadd_comm. apply fadd_0_l. Qed.

Lemma sum_to_first (n : nat) (f : nat -> A) :
  1 <= n -> (forall t, 1 <= t -> t < n -> f t = zero) -> np.sum_to n f = f 0.
Proof.
  induction n as [|n IH]; intros Hn Hz; [lia|].
  rewrite sum_to_S. destruct n as [|n].
  - rewrite sum_to_0. apply fadd_0_l.
  - rewrite IH by (try lia; intros t H1 H2; apply Hz; lia).
    rewrite (Hz (S n)) by lia. apply fadd_0_r.
Qed.

Lemma cov_kernel_contemporaneous (z : matrix A) (w : list A) :
  contemporaneous w ->
  forall zz, np.matmul (np.T_ z) z = Ok zz ->
  _cov_kernel z w = np.div_scalar zz (np.of_nat (nrows z)).
Proof.
  intros (Hne & H0 & Hz) zz Hzz.
  unfold np.matmul in Hzz. rewrite ncols_T, Nat.eqb_refl in Hzz.
  injection Hzz as <-.
  unfold _cov_kernel, np.div_scalar, np.map_matrix. shapes.
  apply tabulate_ext. intros a b Ha Hb.
  rewrite get_tabulate by assumption. f_equal.
  rewrite sum_to_first.
  - unfold lag_term. rewrite get_tabulate by assumption.
    rewrite H0, fmul_1_l. simpl.
    unfold autocov. rewrite get_tabulate by assumption.
    rewrite Nat.sub_0_r. apply sum_to_ext. intros t Ht.
    unfold np.T_. rewrite get_tabulate by assumption. reflexivity.
  - destruct w; [congruence | simpl; lia].
  - intros lag H1 H2. unfold lag_term. rewrite get_tabulate by assumption.
    rewrite (Hz lag H1 H2). apply fmul_0_l.
Qed.

Lemma covariance_kernel_zero kernel weights w other nobs (xe fe : matrix A) :
  dict_item KERNEL_LOOKUP (PyStr kernel) = Ok weights ->
  weights (PyInt 0) (Z.of_nat nobs - 1)%Z = Ok w ->
  contemporaneous w ->
  nrows xe = nobs -> nrows fe = nobs ->
  TradedFactorModel.covariance "kernel"
    (("kernel", PyStr kernel) :: ("bandwidth", PyInt 0) :: other) nobs xe fe
  = TradedFactorModel.covariance "robust" [] nobs xe fe.
Proof.
  intros Hk Hw Hc Hxe Hfe.
  unfold TradedFactorModel.covariance.
  change (mem "kernel" ["robust"; "heteroskedastic"]) with false.
  change (mem "robust" ["robust"; "heteroskedastic"]) with true.
  change ("kernel" =? "kernel")%string with true.
  change (dict_get (("kernel", PyStr kernel) :: ("bandwidth", PyInt 0) :: other)
            "kernel" (PyStr "bartlett")) with (PyStr kernel).
  change (dict_get (("kernel", PyStr kernel) :: ("bandwidth", PyInt 0) :: other)
            "bandwidth" PyNone) with (PyInt 0).
  cbv beta iota zeta.
  rewrite Hk. cbn [bind]. rewrite Hw. cbn [bind].
  destruct (matmul_ok (np.T_ xe) xe) as (xx & Exx & _); [reflexivity|].
  destruct (matmul_ok (np.T_ fe) fe) as (ff & Eff & _); [reflexivity|].
  rewrite Exx, Eff. cbn [bind].
  rewrite (cov_kernel_contemporaneous xe w Hc xx Exx).
  rewrite (cov_kernel_contemporaneous fe w Hc ff Eff).
  rewrite Hxe, Hfe. reflexivity.
Qed.
End RobustKernel.
Section RobustKernelFit.
Context {A : Type} {SA : Scalar A} {ES : @ExactScalar A SA}
        {LA : LinAlg A} {KS : Kernels A} {DI : DataInput A}.

Ltac step_both :=
  cbv beta iota zeta;
  match goal with
  | |- context [match ?p with pair _ _ => _ end] => is_var p; destruct p
  | |- bind ?r _ = bind (bind ?r _) _ =>
      let E := fresh "E" in destruct r eqn:E; cbn [bind]; [|reflexivity]
  end.

Lemma fit_kernel_zero self deb kernel weights w other :
  dict_item KERNEL_LOOKUP (PyStr kernel) = Ok weights ->
  weights (PyInt 0)
    (Z.of_nat (nrows (ndarray_ (TradedFactorModel.factors self))) - 1)%Z = Ok w ->
  contemporaneous w ->
  TradedFactorModel.fit self "kernel" deb
    (("kernel", PyStr kernel) :: ("bandwidth", PyInt 0) :: other)
  = (res <- TradedFactorModel.fit self "robust" deb [] ;;
     Ok (with_cov_type "kernel" res)).
Proof.
  intros Hk Hw Hc. unfold TradedFactorModel.fit, np.shape.
  repeat step_both.
  rewrite (covariance_kernel_zero kernel weights w other _ _ _ Hk Hw Hc).
  2:{ shape_facts. bdim_of (nrows x0). lia. }
  2:{ shape_facts. bdim_of (nrows x0). lia. }
  repeat step_both.
  reflexivity.
Qed.
End RobustKernelFit.

Section RobustKernelClaim.

Context {A : Type} {SA : Scalar A} {ES : @ExactScalar A SA}
        {LA : LinAlg A} {KS : Kernels A} {DI : DataInput A}.

(** C8: in exact arithmetic, for a kernel of [KERNEL_LOOKUP] whose weights
    at bandwidth 0 keep the contemporaneous term alone, the kernel
    covariance with [bandwidth = 0] of the stacked moment matrix and of the
    demeaned factors is the robust covariance of the same matrices, the
    outer product divided by the number of observations; and [fit] with
    that kernel and bandwidth returns what the robust [fit] returns, up
    to the covariance-type tag. *)
Theorem robust_is_kernel_bandwidth_zero kernel weights :
  dict_item KERNEL_LOOKUP (PyStr kernel) = Ok weights ->
  (forall nobs (xe fe : matrix A) w other,
      weights (PyInt 0) (Z.of_nat nobs - 1)%Z = Ok w ->
      contemporaneous w ->
      nrows xe = nobs -> nrows fe = nobs ->
      exists xx ff,
        np.matmul (np.T_ xe) xe = Ok xx /\ np.matmul (np.T_ fe) fe = Ok ff
        /\ TradedFactorModel.covariance "robust" [] nobs xe fe
           = Ok (np.div_scalar xx (np.of_nat nobs), np.div_scalar ff (np.of_nat nobs))
        /\ TradedFactorModel.covariance "kernel"
             (("kernel", PyStr kernel) :: ("bandwidth", PyInt 0) :: other) nobs xe fe
           = TradedFactorModel.covariance "robust" [] nobs xe fe)
  /\ (forall self debiased w other,
         weights (PyInt 0)
           (Z.of_nat (nrows (ndarray_ (TradedFactorModel.factors self))) - 1)%Z = Ok w ->
         contemporaneous w ->
         TradedFactorModel.fit self "kernel" debiased
           (("kernel", PyStr kernel) :: ("bandwidth", PyInt 0) :: other)
         = (res <- TradedFactorModel.fit self "robust" debiased [] ;;
            Ok (with_cov_type "kernel" res))).
Proof.
  intros Hk. split.
  - intros nobs xe fe w other Hw Hc Hxe Hfe.
    destruct (matmul_ok (np.T_ xe) xe) as (xx & Exx & _); [reflexivity|].
    destruct (matmul_ok (np.T_ fe) fe) as (ff & Eff & _); [reflexivity|].
    exists xx, ff. split; [exact Exx|]. split; [exact Eff|]. split.
    + unfold TradedFactorModel.covariance.
      change (mem "robust" ["robust"; "heteroskedastic"]) with true.
      cbv beta iota. rewrite Exx, Eff. reflexivity.
    + exact (covariance_kernel_zero kernel weights w other nobs xe fe
               Hk Hw Hc Hxe Hfe).
  - intros self deb w other Hw Hc.
    exact (fit_kernel_zero self deb kernel weights w other Hk Hw Hc).
Qed.
End RobustKernelClaim.

(** On the example, the Bartlett kernel at bandwidth 0 gives the robust
    fit. *)
Lemma robust_is_kernel_bandwidth_zero_witness :
  TradedFactorModel.fit Examples.traded "kernel" true
    [("kernel", PyStr "bartlett"); ("bandwidth", PyInt 0)]
  = (res <- TradedFactorModel.fit Examples.traded "robust" true [] ;;
     Ok (with_cov_type "kernel" res)).
Proof.
  assert (Hk : dict_item (KERNEL_LOOKUP (A := Qc)) (PyStr "bartlett") = Ok bartlett)
    by reflexivity.
  destruct (robust_is_kernel_bandwidth_zero (A := Qc) "bartlett" bartlett Hk)
    as [_ H].
  destruct (bartlett_zero
              (Z.of_nat (nrows (ndarray_ (TradedFactorModel.factors Examples.traded)))
               - 1)%Z) as (w & Hw & Hc).
  exact (H Examples.traded true w [] Hw Hc).
Defined.

(** ** Layout of the covariance *)

Section Content.

Context {T : Type} {DT : Default T}.

Lemma tabulate_ext2 (r c r' c' : nat) (f g : nat -> nat -> T) :
  r = r' -> c = c' ->
  (forall i j, i < r -> j < c -> f i j = g i j) ->
  np.tabulate r c f = np.tabulate r' c' g.
Proof. intros <- <-. apply tabulate_ext. Qed.

Lemma take_rows_inv (m : matrix T) (idx : list nat) (x : matrix T) :
  np.take_rows m idx = Ok x ->
  Forall (fun i => i < nrows m) idx
  /\ x = np.tabulate (List.length idx) (ncols m) (fun i j => np.get m (nth i idx 0) j).
Proof.
  intros H. pose proof (take_rows_shape _ _ _ H) as (F & _).
  split; [exact F|]. unfold np.take_rows in H.
  destruct (forallb _ idx); [injection H as <-; reflexivity | discriminate].
Qed.

Lemma take_cols_inv (m : matrix T) (idx : list nat) (x : matrix T) :
  np.take_cols m idx = Ok x ->
  Forall (fun j => j < ncols m) idx
  /\ x = np.tabulate (nrows m) (List.length idx) (fun i j => np.get m i (nth j idx 0)).
Proof.
  intros H. pose proof (take_cols_shape _ _ _ H) as (F & _).
  split; [exact F|]. unfold np.take_cols in H.
  destruct (forallb _ idx); [injection H as <-; reflexivity | discriminate].
Qed.

Lemma take_rows_ok (m : matrix T) (idx : list nat) :
  Forall (fun i => i < nrows m) idx ->
  np.take_rows m idx
  = Ok (np.tabulate (List.length idx) (ncols m) (fun i j => np.get m (nth i idx 0) j)).
Proof.
  intros F. unfold np.take_rows.
  replace (forallb (fun i => i <? nrows m) idx) with true; [reflexivity|].
  symmetry. apply forallb_forall. intros i Hi. apply Nat.ltb_lt.
  rewrite Forall_forall in F. auto.
Qed.

Lemma take_cols_ok (m : matrix T) (idx : list nat) :
  Forall (fun j => j < ncols m) idx ->
  np.take_cols m idx
  = Ok (np.tabulate (nrows m) (List.length idx) (fun i j => np.get m i (nth j idx 0))).
Proof.
  intros F. unfold np.take_cols.
  replace (forallb (fun j => j <? ncols m) idx) with true; [reflexivity|].
  symmetry. apply forallb_forall. intros i Hi. apply Nat.ltb_lt.
  rewrite Forall_forall in F. auto.
Qed.

Lemma reshape1_inv (v : list T) (r c : nat) (x : matrix T) :
  np.reshape1 v r c = Ok x ->
  List.length v = r * c
  /\ x = np.tabulate r c (fun i j => np.get1 v (i * c + j)).
Proof.
  unfold np.reshape1. destruct (Nat.eqb_spec (List.length v) (r * c)); [|discriminate].
  intros [= <-]. auto.
Qed.

Lemma nth_tabulate1 (n : nat) (f : nat -> T) (i : nat) (d : T) :
  i < n -> nth i (np.tabulate1 n f) d = f i.
Proof.
  intros Hi. unfold np.tabulate1.
  rewrite (nth_indep _ d (f 0)) by (rewrite length_map, length_seq; exact Hi).
  rewrite (map_nth f (seq 0 n) 0 i). rewrite seq_nth by exact Hi. reflexivity.
Qed.
End Content.

Section Positions.

Lemma nth_alpha_positions n k i :
  i < n -> nth i (alpha_positions n k) 0 = i * (k + 1).
Proof.
  intros Hi. unfold alpha_positions.
  rewrite (nth_indep _ 0 ((fun i => i * (k + 1)) 0))
    by (rewrite length_map, length_seq; exact Hi).
  rewrite (map_nth (fun i => i * (k + 1)) (seq 0 n) 0 i).
  rewrite seq_nth by exact Hi. reflexivity.
Qed.

Lemma length_alpha_positions n k : List.length (alpha_positions n k) = n.
Proof. unfold alpha_positions. rewrite length_map, length_seq. reflexivity. Qed.

Lemma alpha_positions_bound n k L :
  n * (k + 1) <= L -> Forall (fun i => i < L) (alpha_positions n k).
Proof.
  intros H. apply Forall_forall. intros x Hx. unfold alpha_positions in Hx.
  apply in_map_iff in Hx. destruct Hx as (i & <- & Hi). apply in_seq in Hi. nia.
Qed.

Lemma get1_arange lo hi i : i < hi - lo -> np.get1 (np.arange lo hi) i = lo + i.
Proof. intros Hi. unfold np.get1, np.arange. apply seq_nth. exact Hi. Qed.

(** The block picked at [idx] from [m]. *)
Lemma sub_block_ok {A : Type} {SA : Scalar A} (m : matrix A) (idx : list nat) :
  Forall (fun i => i < nrows m) idx ->
  Forall (fun j => j < ncols m) idx ->
  sub_block m idx
  = Ok (np.tabulate (List.length idx) (List.length idx)
          (fun i j => np.get m (nth i idx 0) (nth j idx 0))).
Proof.
  intros Fr Fc. unfold sub_block. rewrite (take_rows_ok m idx Fr). simpl.
  rewrite take_cols_ok by exact Fc. f_equal. shapes.
  apply tabulate_ext. intros i j Hi Hj.
  rewrite get_tabulate; [reflexivity | exact Hi|].
  rewrite Forall_forall in Fc. apply Fc. apply nth_In. exact Hj.
Qed.
End Positions.

Section TradedLayout.

Context {A : Type} {SA : Scalar A} {LA : LinAlg A} {KS : Kernels A}
        {DI : DataInput A}.

Lemma traded_alpha_block self ct deb cfg res :
  TradedFactorModel.fit self ct deb cfg = Ok res ->
  let n := ncols (ndarray_ (TradedFactorModel.portfolios self)) in
  let k := ncols (ndarray_ (TradedFactorModel.factors self)) in
  np.shape (cov res) = (n * (k + 1) + k, n * (k + 1) + k)
  /\ sub_block (cov res) (alpha_positions n k) = Ok (alpha_vcv res).
Proof.
  intros H n k.
  unfold TradedFactorModel.fit, np.shape in H. fold n k in H.
  inv_bind H. inv_ok H. cbn [cov alpha_vcv].
  apply set_slice_shape in Ex7. destruct Ex7 as [X1 X2].
  rewrite nrows_eye in X1. rewrite ncols_eye in X2.
  apply matmul_shape in Ex12. destruct Ex12 as (_ & V1 & _).
  apply matmul_shape in Ex13. destruct Ex13 as (_ & W1 & W2).
  set (L := (k + 1) * n + k) in *.
  set (full := np.div_scalar x12 _) in *.
  assert (HL1 : nrows full = L) by (unfold full; shapes; lia).
  assert (HL2 : ncols full = L) by (unfold full; shapes; lia).
  split.
  { unfold np.shape. rewrite HL1, HL2. unfold L. f_equal; lia. }
  apply reshape1_inv in Ex14. destruct Ex14 as [_ ->].
  apply take_rows_inv in Ex15. destruct Ex15 as [Fr ->].
  apply take_cols_inv in Ex16. destruct Ex16 as [Fc ->].
  rewrite sub_block_ok
    by (apply alpha_positions_bound; rewrite ?HL1, ?HL2; unfold L; lia).
  f_equal. rewrite length_alpha_positions. unfold np.slice. shapes.
  assert (Hn : n <= (k + 1) * n) by nia.
  cbn [fst snd np.slice_bounds].
  apply tabulate_ext2; [lia | lia |]. intros i j Hi Hj.
  rewrite !nth_alpha_positions by assumption.
  assert (Hord : forall i, i < n ->
            nth i (np.ravel (np.T_ (np.tabulate n (k + 1)
                     (fun i j => np.get1 (np.arange 0 ((k + 1) * n)) (i * (k + 1) + j)))))
                  0 = i * (k + 1)).
  { intros i' Hi'. unfold np.ravel. shapes.
    rewrite nth_tabulate1 by nia.
    rewrite Nat.div_small, Nat.mod_small by exact Hi'.
    unfold np.T_. shapes. rewrite get_tabulate by lia.
    rewrite get_tabulate by lia. rewrite get1_arange by nia. lia. }
  rewrite Nat.min_0_l, !Nat.add_0_l.
  rewrite get_tabulate by (shapes; nia).
  rewrite get_tabulate.
  2:{ shapes. nia. }
  2:{ shapes. rewrite Hord by exact Hj. unfold L in *.
      rewrite HL2. nia. }
  rewrite !Hord by assumption.
  unfold np.slice. cbn [fst snd np.slice_bounds].
  rewrite get_tabulate by (rewrite ?HL1, ?HL2; unfold L; nia).
  rewrite !Nat.min_0_l, !Nat.add_0_l. reflexivity.
Qed.
End TradedLayout.
Section TwoPassLayout.
Context {A : Type} {SA : Scalar A} {LA : LinAlg A} {LS : @LinAlgShapes A LA}
        {DI : DataInput A}.

Lemma set_col_inv {T : Type} {DT : Default T} (m : matrix T) j v (x : matrix T) :
  np.set_col m j v = Ok x ->
  j < ncols m
  /\ (List.length v = nrows m \/ List.length v = 1)
  /\ x = np.tabulate (nrows m) (ncols m)
           (fun i j' => if j' =? j then np.get1 v (np.bidx (List.length v) i)
                        else np.get m i j').
Proof.
  unfold np.set_col. destruct (Nat.ltb_spec j (ncols m)); [|discriminate].
  destruct (np.fits (List.length v) (nrows m)) eqn:F; [|discriminate].
  intros [= <-]. apply fits_true in F. auto.
Qed.

Lemma two_pass_alpha_block self (ex : bool) ct cfg res :
  LinearFactorModel.fit self ex ct cfg = Ok res ->
  let n := ncols (ndarray_ (LinearFactorModel.portfolios self)) in
  let k := ncols (ndarray_ (LinearFactorModel.factors self)) in
  let nrf := if ex then 0 else 1 in
  np.shape (cov res) = (n * (k + 1) + (k + nrf), n * (k + 1) + (k + nrf))
  /\ sub_block (cov res) (alpha_positions n k) = Ok (alpha_vcv res).
Proof.
  intros H n k nrf.
  unfold LinearFactorModel.fit, np.shape in H. fold n k nrf in H.
  inv_bind H. inv_ok H. cbn [cov alpha_vcv].
  pose proof (stage_shapes self ex x Ex) as S. cbv zeta in S.
  fold n k nrf in S. destruct S as (_ & _ & _ & _ & _ & _ & _ & _ & _ & _ & G1 & G2).
  apply inv_ok_shape in Ex0. destruct Ex0 as (_ & I1 & I2).
  apply matmul_shape in Ex1. destruct Ex1 as (_ & V1 & _).
  apply matmul_shape in Ex2. destruct Ex2 as (_ & W1 & W2).
  rewrite ncols_T in W2.
  set (s2 := (k + 1) * n) in *. set (s3 := s2 + (k + nrf)) in *.
  set (full := np.div_scalar x2 _) in *.
  assert (HL1 : nrows full = s3 + n) by (unfold full; shapes; unfold s3, s2; lia).
  assert (HL2 : ncols full = s3 + n) by (unfold full; shapes; unfold s3, s2; lia).
  apply reshape1_inv in Ex9. destruct Ex9 as [_ ->].
  apply set_col_inv in Ex10. destruct Ex10 as (_ & Hlen & ->).
  unfold np.arange in Hlen at 1. rewrite length_seq in Hlen. shapes.
  set (order := np.ravel _ ++ np.arange s2 s3) in *.
  assert (Hlo : List.length order = s3).
  { unfold order. shapes. unfold np.arange. rewrite length_seq.
    unfold s3, s2. lia. }
  apply take_rows_inv in Ex11. destruct Ex11 as [Fr ->].
  apply take_cols_inv in Ex12. destruct Ex12 as [Fc ->].
  shapes. rewrite Hlo. split.
  { unfold np.shape. shapes. unfold s3, s2. f_equal; lia. }
  assert (Hord : forall i, i < n -> nth i (alpha_positions n k) 0 < s3
                                    /\ nth (nth i (alpha_positions n k) 0) order 0
                                       = s3 + i).
  { intros i Hi. rewrite nth_alpha_positions by exact Hi.
    assert (Hb : i * (k + 1) < n * (k + 1)) by nia.
    split; [unfold s3, s2; lia|].
    unfold order. rewrite app_nth1 by (shapes; lia).
    unfold np.ravel. shapes. rewrite nth_tabulate1 by lia.
    rewrite Nat.div_mul, Nat.Div0.mod_mul by lia.
    rewrite get_tabulate by lia. rewrite Nat.eqb_refl.
    unfold np.arange. rewrite length_seq.
    replace (s3 + n - s3) with n by lia.
    unfold np.get1. rewrite seq_nth.
    - unfold np.bidx. destruct (Nat.eqb_spec n 1); lia.
    - unfold np.bidx. destruct (Nat.eqb_spec n 1); lia. }
  rewrite sub_block_ok.
  2:{ shapes. apply alpha_positions_bound. unfold s3, s2. lia. }
  2:{ shapes. apply alpha_positions_bound. unfold s3, s2. lia. }
  f_equal. rewrite length_alpha_positions. unfold np.slice.
  cbn [fst snd np.slice_bounds]. rewrite HL1, HL2.
  apply tabulate_ext2; [lia | lia |]. intros i j Hi Hj.
  destruct (Hord i Hi) as [Bi Oi]. destruct (Hord j Hj) as [Bj Oj].
  rewrite get_tabulate by assumption.
  rewrite get_tabulate.
  2:{ exact Bi. }
  2:{ rewrite Oj. lia. }
  rewrite Oi, Oj. f_equal; lia.
Qed.
End TwoPassLayout.
Section GMMLayout.
Context {A : Type} {SA : Scalar A} {LA : LinAlg A} {LS : @LinAlgShapes A LA}
        {DI : DataInput A} {OPT : Optimizer A}.

Lemma for_each_inv {S : Type} (P : S -> Prop) (body : S -> nat -> result S) :
  (forall s i s', P s -> body s i = Ok s' -> P s') ->
  forall range s s',
    P s -> LinearFactorModel.for_each body s range = Ok s' -> P s'.
Proof.
  intros Hb. induction range as [|i rest IH]; simpl; intros s s' Hs H.
  - injection H as <-. exact Hs.
  - apply bind_ok in H. destruct H as (s1 & H1 & H2).
    exact (IH s1 s' (Hb s i s1 Hs H1) H2).
Qed.

Lemma jacobian_shape self v (ex : bool) jac :
  LinearFactorModelGMM._jacobian self (Arr1 v) ex = Ok jac ->
  let n := ncols (ndarray_ (TradedFactorModel.portfolios self)) in
  let k := ncols (ndarray_ (TradedFactorModel.factors self)) in
  let nrf := if ex then 0 else 1 in
  nrows jac = n * k + n + k /\ ncols jac = List.length v
  /\ (k = List.length v - Nat.min (n * k + k + nrf) (List.length v) \/ k = 1).
Proof.
  intros H n k nrf.
  unfold LinearFactorModelGMM._jacobian, np.shape in H. fold n k nrf in H.
  inv_bind H.
  apply (for_each_inv
           (fun acc : matrix A * matrix A =>
              ncols (snd acc) = k)) in Ex5.
  2:{ intros [a b] i [a' b'] Hs HB.
      unfold LinearFactorModelGMM.jacobian_blocks in HB. inv_bind HB.
      inv_ok HB. simpl in *.
      match goal with
      | E : np.set_slice b _ _ _ _ _ = Ok _ |- _ =>
          apply set_slice_shape in E; destruct E as [_ E]; lia
      end. }
  2:{ reflexivity. }
  simpl in Ex5.
  apply set_slice_shape in Ex4. destruct Ex4 as [J1 J2].
  rewrite nrows_zeros in J1. rewrite ncols_zeros in J2. simpl in J2.
  apply set_slice_shape in Ex6. destruct Ex6 as [J3 J4].
  apply set_slice_fits in Ex7. destruct Ex7 as (J5 & J6 & _ & F).
  apply set_slice_shape in H. destruct H as [J7 J8].
  apply fits_true in F. rewrite slice_count_none in F.
  rewrite Ex5, J4, J2 in F.
  repeat split; lia.
Qed.

Lemma gmm_param_length self v (ex : bool) g jac :
  LinearFactorModelGMM._moments self (Arr1 v) ex = Ok g ->
  LinearFactorModelGMM._jacobian self (Arr1 v) ex = Ok jac ->
  List.length v
  = nparams (ncols (ndarray_ (TradedFactorModel.portfolios self)))
            (ncols (ndarray_ (TradedFactorModel.factors self)))
            (if ex then 0 else 1).
Proof.
  intros Hg Hj. apply jacobian_shape in Hj. cbv zeta in Hj.
  destruct Hj as (_ & _ & F).
  unfold LinearFactorModelGMM._moments, np.shape in Hg.
  inv_bind Hg. clear Hg.
  simpl in Ex, Ex1, Ex2.
  apply bind_ok in Ex1. destruct Ex1 as (y & Ey & _).
  apply reshape1_shape in Ex. destruct Ex as (B0 & B1 & B2).
  apply c_shape in Ex0. destruct Ex0 as (_ & _ & O2).
  apply matvec_shape in Ey. destruct Ey as [M1 _].
  apply broadcast_shape in Ex2. destruct Ex2 as [_ D].
  apply matmul_shape in Ex4. destruct Ex4 as (K1 & _).
  shapes. apply bdim_some in D. unfold nparams.
  set (n := ncols (ndarray_ (TradedFactorModel.portfolios self))) in *.
  set (k := ncols (ndarray_ (TradedFactorModel.factors self))) in *.
  set (nrf := if ex then 0 else 1) in *.
  set (P := List.length v) in *.
  set (s1 := n * k) in *.
  lia.
Qed.
End GMMLayout.
Section Names.

Lemma length_loading_names pcols fcols :
  List.length (TradedFactorModel.loading_names pcols fcols)
  = List.length pcols * (List.length fcols + 1).
Proof.
  unfold TradedFactorModel.loading_names.
  induction pcols as [|p ps IH]; [reflexivity|].
  cbn [flat_map]. rewrite length_app, IH. cbn [List.length].
  rewrite length_map. lia.
Qed.

Lemma nth_loading_names pcols fcols rest i :
  i < List.length pcols ->
  nth (i * (List.length fcols + 1))
      (TradedFactorModel.loading_names pcols fcols ++ rest) ""
  = alpha_name (nth i pcols "").
Proof.
  unfold TradedFactorModel.loading_names.
  revert i. induction pcols as [|p ps IH]; intros i Hi; [simpl in Hi; lia|].
  cbn [flat_map]. destruct i as [|i].
  - reflexivity.
  - rewrite <- app_assoc.
    rewrite app_nth2 by (cbn [List.length]; rewrite length_map; lia).
    cbn [List.length]. rewrite length_map.
    replace (S i * (List.length fcols + 1) - S (List.length fcols))
      with (i * (List.length fcols + 1)) by lia.
    cbn [nth]. apply IH. simpl in Hi. lia.
Qed.
End Names.

Section GMMLayoutFit.

Context {A : Type} {SA : Scalar A} {LA : LinAlg A} {LS : @LinAlgShapes A LA}
        {DI : DataInput A} {OPT : Optimizer A}.

Lemma strided_alpha_positions n k L :
  n * (k + 1) <= L ->
  np.strided 0 (n * (k + 1)) (k + 1) L = alpha_positions n k.
Proof.
  intros H. unfold np.strided, alpha_positions.
  rewrite Nat.min_l by exact H. rewrite Nat.sub_0_r.
  replace ((n * (k + 1) + (k + 1 - 1)) / (k + 1)) with n.
  - apply map_ext. intros t. lia.
  - symmetry. rewrite Nat.add_comm, Nat.div_add by lia.
    rewrite Nat.div_small by lia. lia.
Qed.

Lemma gmm_layout self (ex : bool) steps disp mi ct deb cfg res :
  LinearFactorModelGMM.fit self ex steps disp mi ct deb cfg = Ok res ->
  let n := ncols (ndarray_ (TradedFactorModel.portfolios self)) in
  let k := ncols (ndarray_ (TradedFactorModel.factors self)) in
  let nrf := if ex then 0 else 1 in
  let nobs := nrows (ndarray_ (TradedFactorModel.portfolios self)) in
  np.shape (cov res) = (nparams n k nrf, nparams n k nrf)
  /\ param_names res
     = flat_map (fun portfolio =>
                   map (beta_name portfolio) (cols (TradedFactorModel.factors self)))
                (cols (TradedFactorModel.portfolios self))
       ++ (if ex then [] else ["lambda-risk_free"])
       ++ map lambda_name (cols (TradedFactorModel.factors self))
       ++ map mu_name (cols (TradedFactorModel.factors self))
  /\ exists est g gg blk,
      LinearFactorModelGMM.estimate self ex steps mi = Ok est
      /\ LinearFactorModelGMM._moments self
           (Arr1 (LinearFactorModelGMM.ss_params est)) ex = Ok g
      /\ np.matmul (np.T_ g) g = Ok gg
      /\ sub_block (np.div_scalar gg (np.of_nat nobs)) (alpha_positions n k) = Ok blk
      /\ alpha_vcv res = np.div_scalar blk (np.of_nat nobs).
Proof.
  intros H n k nrf nobs.
  unfold LinearFactorModelGMM.fit, np.shape in H. fold n k nrf nobs in H.
  inv_bind H. inv_ok H. cbn [cov alpha_vcv param_names].
  pose proof (gmm_param_length self _ ex _ _ Ex0 Ex2) as HP.
  fold n k nrf in HP.
  pose proof (jacobian_shape self _ ex _ Ex2) as J. cbv zeta in J.
  destruct J as (_ & J2 & _).
  pose proof (moments_shape self _ ex _ Ex0) as [_ G2]. fold n k in G2.
  pose proof Ex1 as Egg.
  apply matmul_shape in Ex1. destruct Ex1 as (_ & S1 & S2).
  rewrite nrows_T in S1.
  apply inv_ok_shape in Ex3.
  apply matmul_shape in Ex4. destruct Ex4 as (_ & C1 & _).
  apply matmul_shape in Ex5. destruct Ex5 as (_ & C3 & C4).
  apply inv_ok_shape in Ex6. destruct Ex6 as (_ & I1 & I2).
  split.
  { unfold np.shape. shapes. f_equal; lia. }
  split; [reflexivity|].
  exists x, x0, x1.
  rewrite !strided_alpha_positions by (shapes; lia).
  eexists. split; [exact Ex|]. split; [exact Ex0|]. split; [exact Egg|].
  split.
  - apply sub_block_ok; shapes; apply alpha_positions_bound; lia.
  - reflexivity.
Qed.
End GMMLayoutFit.

Section LayoutClaim.

Context {A : Type} {SA : Scalar A} {LA : LinAlg A} {LS : @LinAlgShapes A LA}
        {KS : Kernels A} {DI : DataInput A} {OPT : Optimizer A}.

Lemma traded_param_names self ct deb cfg res :
  TradedFactorModel.fit self ct deb cfg = Ok res ->
  param_names res
  = TradedFactorModel.loading_names (cols (TradedFactorModel.portfolios self))
      (cols (TradedFactorModel.factors self))
    ++ map lambda_name (cols (TradedFactorModel.factors self)).
Proof.
  intros H. unfold TradedFactorModel.fit, np.shape in H.
  inv_bind H. inv_ok H. reflexivity.
Qed.

(** C5, amended: for the time-series and the two-pass estimator the full
    covariance has one row and column per parameter name -- the
    per-portfolio blocks of one intercept and [K] betas, then the risk
    premia -- the intercept of portfolio [i] is named at position
    [i * (K + 1)], and the alpha covariance is the sub-block of the full
    covariance at these positions.  For the GMM estimator the full
    covariance has one row and column per parameter name too, but the
    names are those of the betas, the risk premia and the factor means,
    without intercepts, and the alpha covariance is the block of the moment
    covariance [s] at the intercept positions of the moments, divided by
    the number of observations. *)
Theorem covariance_layout :
  (forall self cov_type debiased cov_config res,
      TradedFactorModel.fit self cov_type debiased cov_config = Ok res ->
      let pcols := cols (TradedFactorModel.portfolios self) in
      let fcols := cols (TradedFactorModel.factors self) in
      let n := ncols (ndarray_ (TradedFactorModel.portfolios self)) in
      let k := ncols (ndarray_ (TradedFactorModel.factors self)) in
      np.shape (cov res) = (n * (k + 1) + k, n * (k + 1) + k)
      /\ sub_block (cov res) (alpha_positions n k) = Ok (alpha_vcv res)
      /\ (List.length pcols = n -> List.length fcols = k ->
          List.length (param_names res) = nrows (cov res)
          /\ forall i, i < n ->
               nth (nth i (alpha_positions n k) 0) (param_names res) ""
               = alpha_name (nth i pcols "")))
  /\ (forall self (excess_returns : bool) cov_type cov_config res,
         LinearFactorModel.fit self excess_returns cov_type cov_config = Ok res ->
         let pcols := cols (LinearFactorModel.portfolios self) in
         let fcols := cols (LinearFactorModel.factors self) in
         let n := ncols (ndarray_ (LinearFactorModel.portfolios self)) in
         let k := ncols (ndarray_ (LinearFactorModel.factors self)) in
         let nrf := if excess_returns then 0 else 1 in
         np.shape (cov res) = (n * (k + 1) + (k + nrf), n * (k + 1) + (k + nrf))
         /\ sub_block (cov res) (alpha_positions n k) = Ok (alpha_vcv res)
         /\ (List.length pcols = n -> List.length fcols = k ->
             List.length (param_names res) = nrows (cov res)
             /\ forall i, i < n ->
                  nth (nth i (alpha_positions n k) 0) (param_names res) ""
                  = alpha_name (nth i pcols "")))
  /\ (forall self (excess_returns : bool) steps disp max_iter cov_type debiased
             cov_config res,
         LinearFactorModelGMM.fit self excess_returns steps disp max_iter
           cov_type debiased cov_config = Ok res ->
         let pcols := cols (TradedFactorModel.portfolios self) in
         let fcols := cols (TradedFactorModel.factors self) in
         let n := ncols (ndarray_ (TradedFactorModel.portfolios self)) in
         let k := ncols (ndarray_ (TradedFactorModel.factors self)) in
         let nrf := if excess_returns then 0 else 1 in
         let nobs := nrows (ndarray_ (TradedFactorModel.portfolios self)) in
         np.shape (cov res) = (nparams n k nrf, nparams n k nrf)
         /\ param_names res
            = flat_map (fun portfolio => map (beta_name portfolio) fcols) pcols
              ++ (if excess_returns then [] else ["lambda-risk_free"])
              ++ map lambda_name fcols ++ map mu_name fcols
         /\ (List.length pcols = n -> List.length fcols = k ->
             List.length (param_names res) = nrows (cov res))
         /\ exists est g gg blk,
             LinearFactorModelGMM.estimate self excess_returns steps max_iter = Ok est
             /\ LinearFactorModelGMM._moments self
                  (Arr1 (LinearFactorModelGMM.ss_params est)) excess_returns = Ok g
             /\ np.matmul (np.T_ g) g = Ok gg
             /\ sub_block (np.div_scalar gg (np.of_nat nobs)) (alpha_positions n k)
                = Ok blk
             /\ alpha_vcv res = np.div_scalar blk (np.of_nat nobs)).
Proof.
  split; [|split].
  - intros self ct deb cfg res H pcols fcols n k.
    destruct (traded_alpha_block self ct deb cfg res H) as [S B].
    fold n k in S, B. split; [exact S|]. split; [exact B|].
    intros Hp Hf.
    rewrite (traded_param_names self ct deb cfg res H). fold pcols fcols.
    unfold np.shape in S. injection S as S1 S2. split.
    + rewrite S1, length_app, length_loading_names, length_map. lia.
    + intros i Hi. rewrite nth_alpha_positions by exact Hi.
      rewrite <- Hf. apply nth_loading_names. lia.
  - intros self ex ct cfg res H pcols fcols n k nrf.
    destruct (two_pass_alpha_block self ex ct cfg res H) as [S B].
    fold n k nrf in S, B. split; [exact S|]. split; [exact B|].
    intros Hp Hf.
    apply two_pass_report in H. cbv zeta in H.
    destruct H as (st & _ & _ & _ & _ & _ & Hpn & _).
    fold pcols fcols in Hpn. rewrite Hpn.
    unfold np.shape in S. injection S as S1 S2. split.
    + rewrite S1, !length_app, length_loading_names, length_map.
      subst nrf. destruct ex; simpl; lia.
    + intros i Hi. rewrite nth_alpha_positions by exact Hi.
      rewrite <- Hf. apply nth_loading_names. lia.
  - intros self ex steps disp mi ct deb cfg res H pcols fcols n k nrf nobs.
    destruct (gmm_layout self ex steps disp mi ct deb cfg res H) as (S & N & B).
    fold n k nrf nobs pcols fcols in S, N, B.
    split; [exact S|]. split; [exact N|]. split; [|exact B].
    intros Hp Hf. rewrite N.
    unfold np.shape in S. injection S as S1 S2. rewrite S1.
    rewrite !length_app, !length_map. unfold nparams.
    assert (Hfl : List.length
                    (flat_map (fun portfolio => map (beta_name portfolio) fcols) pcols)
                  = List.length pcols * List.length fcols).
    { clear. induction pcols as [|p ps IH]; [reflexivity|].
      cbn [flat_map]. rewrite length_app, length_map, IH. simpl. lia. }
    rewrite Hfl, Hp, Hf. subst nrf. destruct ex; simpl; lia.
Qed.
End LayoutClaim.

Lemma Qc_eqb_refl (x : Qc) : Qc_eqb x x = true.
Proof. unfold Qc_eqb. rewrite Z.eqb_refl, Pos.eqb_refl. reflexivity. Qed.

Lemma list_eqb_refl {X : Type} (eqb : X -> X -> bool) (l : list X) :
  (forall x, eqb x x = true) -> list_eqb eqb l l = true.
Proof.
  intros H. induction l as [|x l IH]; [reflexivity|].
  simpl. rewrite H, IH. reflexivity.
Qed.

Lemma matrix_eqb_refl (a : matrix Qc) : matrix_eqb a a = true.
Proof.
  unfold matrix_eqb. rewrite !Nat.eqb_refl. simpl.
  apply list_eqb_refl. intros l. apply list_eqb_refl. exact Qc_eqb_refl.
Qed.

(** On the example: the alpha covariance of the time-series and of the
    two-pass fit sits at positions 0 and 2 of a covariance of size 5. *)
Lemma covariance_layout_witness :
  (exists res, TradedFactorModel.fit Examples.traded "robust" true [] = Ok res
               /\ np.shape (cov res) = (5, 5)
               /\ sub_block (cov res) [0; 2] = Ok (alpha_vcv res))
  /\ (exists res, LinearFactorModel.fit Examples.two_pass true "robust" [] = Ok res
                  /\ np.shape (cov res) = (5, 5)
                  /\ sub_block (cov res) [0; 2] = Ok (alpha_vcv res))
  /\ (exists res, LinearFactorModelGMM.fit (OPT := stopped_Optimizer) Examples.gmm true
                    2%Z 10%Z 1000%Z "robust" true [] = Ok res
                  /\ np.shape (cov res) = (4, 4)).
Proof.
  destruct (covariance_layout (A := Qc) (OPT := stopped_Optimizer)) as (H1 & H2 & H3).
  split; [|split].
  - destruct (is_ok_inv (TradedFactorModel.fit Examples.traded "robust" true []))
      as [res E]; [vm_compute; reflexivity|].
    exists res. split; [exact E|].
    destruct (H1 _ _ _ _ _ E) as (S & B & _). split; [exact S | exact B].
  - destruct (is_ok_inv (LinearFactorModel.fit Examples.two_pass true "robust" []))
      as [res E]; [vm_compute; reflexivity|].
    exists res. split; [exact E|].
    destruct (H2 _ _ _ _ _ E) as (S & B & _). split; [exact S | exact B].
  - destruct (is_ok_inv (LinearFactorModelGMM.fit (OPT := stopped_Optimizer)
                           Examples.gmm true 2%Z 10%Z 1000%Z "robust" true []))
      as [res E]; [vm_compute; reflexivity|].
    exists res. split; [exact E|].
    destruct (H3 _ _ _ _ _ _ _ _ _ E) as (S & _). exact S.
Defined.

(** C5 as stated fails for GMM: the alpha covariance of the example is not
    the block of the full covariance at positions 0 and 2. *)
Lemma covariance_layout_counterexample :
  ~ (forall res,
        LinearFactorModelGMM.fit (OPT := stopped_Optimizer) Examples.gmm true
          2%Z 10%Z 1000%Z "robust" true [] = Ok res ->
        sub_block (cov res) (alpha_positions 2 1) = Ok (alpha_vcv res)).
Proof.
  intros H.
  destruct (is_ok_inv (LinearFactorModelGMM.fit (OPT := stopped_Optimizer)
                         Examples.gmm true 2%Z 10%Z 1000%Z "robust" true []))
    as [res E]; [vm_compute; reflexivity|].
  specialize (H res E).
  assert (C : match LinearFactorModelGMM.fit (OPT := stopped_Optimizer)
                      Examples.gmm true 2%Z 10%Z 1000%Z "robust" true [] with
              | Ok res =>
                  match sub_block (cov res) (alpha_positions 2 1) with
                  | Ok b => matrix_eqb b (alpha_vcv res)
                  | Err _ => false
                  end
              | Err _ => true
              end = false) by (vm_compute; reflexivity).
  rewrite E, H, matrix_eqb_refl in C. discriminate C.
Qed.

(** ** Reordering rows and columns *)

Section Reindexing.

Lemma perm_length (idx : list nat) (L : nat) :
  Permutation idx (seq 0 L) -> List.length idx = L.
Proof. intros H. apply Permutation_length in H. rewrite length_seq in H. exact H. Qed.

Lemma perm_bound (idx : list nat) (L : nat) :
  Permutation idx (seq 0 L) -> forall t, t < L -> at_ idx t < L.
Proof.
  intros H t Ht. unfold at_.
  assert (In (nth t idx 0) (seq 0 L)) as Hin.
  { apply (Permutation_in _ H). apply nth_In. rewrite (perm_length _ _ H). exact Ht. }
  apply in_seq in Hin. lia.
Qed.

Lemma perm_inj (idx : list nat) (L : nat) :
  Permutation idx (seq 0 L) ->
  forall i j, i < L -> j < L -> at_ idx i = at_ idx j -> i = j.
Proof.
  intros H i j Hi Hj E. unfold at_ in E.
  assert (NoDup idx) as ND.
  { apply (Permutation_NoDup (Permutation_sym H)). apply seq_NoDup. }
  apply (proj1 (NoDup_nth idx 0) ND); rewrite ?(perm_length _ _ H); assumption.
Qed.

Lemma perm_forall (idx : list nat) (L : nat) :
  Permutation idx (seq 0 L) -> Forall (fun t => t < L) idx.
Proof.
  intros H. apply Forall_forall. intros t Ht.
  apply (Permutation_in _ H) in Ht. apply in_seq in Ht. lia.
Qed.

Lemma map_at_seq (idx : list nat) :
  map (at_ idx) (seq 0 (List.length idx)) = idx.
Proof.
  apply (nth_ext _ _ 0 0).
  - rewrite length_map, length_seq. reflexivity.
  - intros t Ht. rewrite length_map, length_seq in Ht.
    rewrite (nth_indep _ 0 (at_ idx 0)) by (rewrite length_map, length_seq; exact Ht).
    rewrite (map_nth (at_ idx) (seq 0 (List.length idx)) 0 t).
    rewrite seq_nth by exact Ht. reflexivity.
Qed.

Context {A : Type} {SA : Scalar A} {ES : @ExactScalar A SA}.

Lemma fold_add_perm (g : nat -> A) (l l' : list nat) :
  Permutation l l' ->
  forall acc, fold_left (fun acc t => fadd acc (g t)) l acc
              = fold_left (fun acc t => fadd acc (g t)) l' acc.
Proof.
  induction 1 as [|x l l' _ IH|x y l|l l' l'' _ IH1 _ IH2]; intros acc; simpl.
  - reflexivity.
  - apply IH.
  - f_equal. rewrite <- !fadd_assoc. f_equal. apply fadd_comm.
  - rewrite IH1. apply IH2.
Qed.

(** A sum read through a permutation of its index set. *)
Lemma sum_perm (idx : list nat) (L : nat) (g : nat -> A) :
  Permutation idx (seq 0 L) ->
  np.sum_to L (fun t => g (at_ idx t)) = np.sum_to L g.
Proof.
  intros H. unfold np.sum_to.
  rewrite <- (fold_add_perm g idx (seq 0 L) H zero).
  pose proof (map_at_seq idx) as M. rewrite (perm_length _ _ H) in M.
  assert (X : forall l acc,
             fold_left (fun acc t => fadd acc (g (at_ idx t))) l acc
             = fold_left (fun acc t => fadd acc (g t)) (map (at_ idx) l) acc).
  { induction l as [|a l IH]; intros acc; simpl; [reflexivity | apply IH]. }
  rewrite X, M. reflexivity.
Qed.

End Reindexing.

Section PickFacts.

Context {T : Type} {DT : Default T}.

Lemma nrows_pick r c rho gamma (m : matrix T) : nrows (pick r c rho gamma m) = r.
Proof. reflexivity. Qed.

Lemma ncols_pick r c rho gamma (m : matrix T) : ncols (pick r c rho gamma m) = c.
Proof. reflexivity. Qed.

Lemma get_pick r c rho gamma (m : matrix T) i j :
  i < r -> j < c -> np.get (pick r c rho gamma m) i j = np.get m (rho i) (gamma j).
Proof. intros Hi Hj. unfold pick. rewrite get_tabulate by assumption. reflexivity. Qed.

Lemma pick_ext r c rho gamma rho' gamma' (m m' : matrix T) :
  (forall i j, i < r -> j < c ->
               np.get m (rho i) (gamma j) = np.get m' (rho' i) (gamma' j)) ->
  pick r c rho gamma m = pick r c rho' gamma' m'.
Proof. intros H. unfold pick. apply tabulate_ext. exact H. Qed.

Lemma T_pick r c rho gamma (m : matrix T) :
  (forall i, i < r -> rho i < nrows m) ->
  (forall j, j < c -> gamma j < ncols m) ->
  np.T_ (pick r c rho gamma m) = pick c r gamma rho (np.T_ m).
Proof.
  intros Hr Hc. unfold np.T_ at 1. rewrite nrows_pick, ncols_pick.
  unfold pick at 2. apply tabulate_ext. intros i j Hi Hj.
  rewrite get_pick by assumption. unfold np.T_.
  rewrite get_tabulate by auto. reflexivity.
Qed.

Lemma take_cols_pick (m : matrix T) (idx : list nat) (x : matrix T) :
  np.take_cols m idx = Ok x ->
  x = pick (nrows m) (List.length idx) same (at_ idx) m.
Proof. intros H. apply take_cols_inv in H. tauto. Qed.

Lemma take_rows_pick (m : matrix T) (idx : list nat) (x : matrix T) :
  np.take_rows m idx = Ok x ->
  x = pick (List.length idx) (ncols m) (at_ idx) same m.
Proof. intros H. apply take_rows_inv in H. tauto. Qed.

Lemma bidx_lt d i : i < d -> np.bidx d i = i.
Proof.
  intros H. unfold np.bidx. destruct (Nat.eqb_spec d 1); [lia | reflexivity].
Qed.

Lemma bidx_bound a b c i :
  np.bdim a b = Some c -> i < c -> np.bidx a i < a /\ np.bidx b i < b.
Proof.
  intros H Hi. apply bdim_some in H. unfold np.bidx.
  destruct (Nat.eqb_spec a 1), (Nat.eqb_spec b 1); lia.
Qed.

End PickFacts.

#[export] Hint Rewrite @nrows_pick @ncols_pick : shp.

Section PickNumeric.

Context {A : Type} {SA : Scalar A}.

Lemma matmul_inv (a b x : matrix A) :
  np.matmul a b = Ok x ->
  ncols a = nrows b
  /\ x = np.tabulate (nrows a) (ncols b)
           (fun i j => np.sum_to (ncols a)
                         (fun t => fmul (np.get a i t) (np.get b t j))).
Proof.
  unfold np.matmul. destruct (Nat.eqb_spec (ncols a) (nrows b)); [|discriminate].
  intros [= <-]. auto.
Qed.

Lemma matmul_ok_eq (a b : matrix A) :
  ncols a = nrows b ->
  np.matmul a b
  = Ok (np.tabulate (nrows a) (ncols b)
          (fun i j => np.sum_to (ncols a)
                        (fun t => fmul (np.get a i t) (np.get b t j)))).
Proof. intros H. unfold np.matmul. rewrite (proj2 (Nat.eqb_eq _ _) H). reflexivity. Qed.

(** [a @ b] with the rows of [a] and the columns of [b] picked, and the
    inner index reordered by [theta] on both sides. *)
Lemma matmul_pick r c rho gamma theta (a b x : matrix A) :
  np.matmul a b = Ok x ->
  (forall i, i < r -> rho i < nrows a) ->
  (forall j, j < c -> gamma j < ncols b) ->
  (forall t, t < ncols a -> theta t < ncols a) ->
  (forall g : nat -> A,
      np.sum_to (ncols a) (fun t => g (theta t)) = np.sum_to (ncols a) g) ->
  np.matmul (pick r (ncols a) rho theta a) (pick (nrows b) c theta gamma b)
  = Ok (pick r c rho gamma x).
Proof.
  intros H Hr Hc Ht Hs. apply matmul_inv in H. destruct H as [E ->].
  rewrite matmul_ok_eq by (shapes; exact E). shapes. f_equal.
  unfold pick at 3. apply tabulate_ext. intros i j Hi Hj.
  rewrite get_tabulate by auto.
  rewrite <- (Hs (fun t => fmul (np.get a (rho i) t) (np.get b t (gamma j)))).
  apply sum_to_ext. intros t Ht'.
  rewrite !get_pick by (try assumption; lia). reflexivity.
Qed.

Lemma sum_same (n : nat) (g : nat -> A) :
  np.sum_to n (fun t => g (same t)) = np.sum_to n g.
Proof. reflexivity. Qed.

Lemma matmul_pick_r c gamma (a b x : matrix A) :
  np.matmul a b = Ok x ->
  (forall j, j < c -> gamma j < ncols b) ->
  np.matmul a (pick (nrows b) c same gamma b)
  = Ok (pick (nrows x) c same gamma x).
Proof.
  intros H Hc. apply matmul_inv in H. destruct H as [E ->].
  rewrite matmul_ok_eq by (shapes; exact E). shapes. f_equal.
  unfold pick at 2. apply tabulate_ext. intros i j Hi Hj.
  unfold same at 1. rewrite get_tabulate by auto.
  apply sum_to_ext. intros t Ht'.
  rewrite !get_pick by (try assumption; lia). reflexivity.
Qed.

Lemma matmul_pick_l r rho (a b x : matrix A) :
  np.matmul a b = Ok x ->
  (forall i, i < r -> rho i < nrows a) ->
  np.matmul (pick r (ncols a) rho same a) b
  = Ok (pick r (ncols x) rho same x).
Proof.
  intros H Hr. apply matmul_inv in H. destruct H as [E ->].
  rewrite matmul_ok_eq by (shapes; exact E). shapes. f_equal.
  unfold pick at 2. apply tabulate_ext. intros i j Hi Hj.
  unfold same at 1. rewrite get_tabulate by auto.
  apply sum_to_ext. intros t Ht'.
  rewrite !get_pick by (try assumption; lia). reflexivity.
Qed.

Lemma matmul_pick_inner theta (a b x : matrix A) :
  np.matmul a b = Ok x ->
  (forall t, t < ncols a -> theta t < ncols a) ->
  (forall g : nat -> A,
      np.sum_to (ncols a) (fun t => g (theta t)) = np.sum_to (ncols a) g) ->
  np.matmul (pick (nrows a) (ncols a) same theta a)
            (pick (nrows b) (ncols b) theta same b)
  = Ok x.
Proof.
  intros H Ht Hs. apply matmul_inv in H. destruct H as [E ->].
  rewrite matmul_ok_eq by (shapes; exact E). shapes. f_equal.
  apply tabulate_ext. intros i j Hi Hj.
  rewrite <- (Hs (fun t => fmul (np.get a i t) (np.get b t j))).
  apply sum_to_ext. intros t Ht'.
  rewrite !get_pick by (try assumption; lia). reflexivity.
Qed.

Lemma broadcast_pick_cols (f : A -> A -> A) c gamma (a b x : matrix A) :
  np.broadcast f a b = Ok x ->
  ncols a = ncols b ->
  (forall j, j < c -> gamma j < ncols a) ->
  np.broadcast f (pick (nrows a) c same gamma a) (pick (nrows b) c same gamma b)
  = Ok (pick (nrows x) c same gamma x).
Proof.
  intros H E Hc. unfold np.broadcast in *. shapes.
  destruct (np.bdim (nrows a) (nrows b)) as [r|] eqn:Er; [|discriminate].
  rewrite <- E in H. rewrite bdim_same in H. injection H as <-.
  rewrite bdim_same. f_equal. shapes.
  unfold pick at 3. apply tabulate_ext. intros i j Hi Hj.
  destruct (bidx_bound _ _ _ i Er Hi) as [B1 B2].
  rewrite (bidx_lt c j Hj).
  rewrite !get_pick by assumption.
  unfold same. rewrite get_tabulate by auto.
  rewrite (bidx_lt (ncols a) (gamma j)) by auto.
  reflexivity.
Qed.

Lemma map_matrix_pick (h : A -> A) r c rho gamma (m : matrix A) :
  (forall i, i < r -> rho i < nrows m) ->
  (forall j, j < c -> gamma j < ncols m) ->
  np.map_matrix h (pick r c rho gamma m) = pick r c rho gamma (np.map_matrix h m).
Proof.
  intros Hr Hc. unfold np.map_matrix at 1. shapes.
  unfold pick at 2. apply tabulate_ext. intros i j Hi Hj.
  rewrite get_pick by assumption. unfold np.map_matrix.
  rewrite get_tabulate by auto. reflexivity.
Qed.

Lemma col_mean0_pick c gamma (m : matrix A) :
  (forall j, j < c -> gamma j < ncols m) ->
  np.col (np.mean0 (pick (nrows m) c same gamma m))
  = pick c 1 gamma same (np.col (np.mean0 m)).
Proof.
  intros Hc. unfold np.col. shapes. unfold pick at 2.
  apply tabulate_ext. intros i j Hi Hj.
  rewrite get_tabulate by (shapes; auto; unfold same; lia).
  unfold np.mean0. shapes. rewrite !get1_tabulate1 by auto.
  f_equal. apply sum_to_ext. intros t Ht.
  rewrite get_pick by assumption. reflexivity.
Qed.

End PickNumeric.

(** ** Relabelling of blocks *)

Section Blocks.

Lemma block_div (K q c : nat) : c < K -> (q * K + c) / K = q.
Proof.
  intros H. symmetry. apply (Nat.div_unique _ K q c); [exact H | lia].
Qed.

Lemma block_mod (K q c : nat) : c < K -> (q * K + c) mod K = c.
Proof.
  intros H. symmetry. apply (Nat.mod_unique _ K q c); [exact H | lia].
Qed.

Lemma split_index (K J : nat) : 0 < K -> J = J / K * K + J mod K /\ J mod K < K.
Proof.
  intros H. split.
  - rewrite (Nat.div_mod_eq J K) at 1. lia.
  - apply Nat.mod_upper_bound. lia.
Qed.

Lemma div_below (K n J : nat) : 0 < K -> J < K * n -> J / K < n.
Proof. intros H HJ. apply Nat.Div0.div_lt_upper_bound. exact HJ. Qed.

Lemma block_at_div (K : nat) sigma J : 0 < K -> block_at K sigma J / K = sigma (J / K).
Proof.
  intros H. unfold block_at. apply block_div. apply Nat.mod_upper_bound. lia.
Qed.

Lemma block_at_mod (K : nat) sigma J : 0 < K -> block_at K sigma J mod K = J mod K.
Proof.
  intros H. unfold block_at. apply block_mod. apply Nat.mod_upper_bound. lia.
Qed.

Lemma block_at_bound (K n : nat) sigma J :
  0 < K -> reorders n sigma -> J < K * n -> block_at K sigma J < K * n.
Proof.
  intros H [Hb _] HJ. unfold block_at.
  pose proof (Hb (J / K) (div_below K n J H HJ)) as B.
  pose proof (Nat.mod_upper_bound J K ltac:(lia)) as C. nia.
Qed.

Lemma block_at_inj (K n : nat) sigma J1 J2 :
  0 < K -> reorders n sigma -> J1 < K * n -> J2 < K * n ->
  block_at K sigma J1 = block_at K sigma J2 -> J1 = J2.
Proof.
  intros H [_ Hi] H1 H2 E.
  assert (E1 : sigma (J1 / K) = sigma (J2 / K)).
  { rewrite <- (block_at_div K sigma J1), <- (block_at_div K sigma J2) by exact H.
    rewrite E. reflexivity. }
  assert (E2 : J1 mod K = J2 mod K).
  { rewrite <- (block_at_mod K sigma J1), <- (block_at_mod K sigma J2) by exact H.
    rewrite E. reflexivity. }
  apply Hi in E1; try (apply div_below; assumption).
  destruct (split_index K J1 H) as [S1 _]. destruct (split_index K J2 H) as [S2 _].
  rewrite S1, S2, E1, E2. reflexivity.
Qed.

Lemma block_at_start (K : nat) sigma i : 0 < K -> block_at K sigma (i * K) = sigma i * K.
Proof.
  intros H. unfold block_at.
  rewrite <- (Nat.add_0_r (i * K)). rewrite block_div, block_mod by exact H. lia.
Qed.

Lemma moment_order_low K s2 s3 sigma J :
  J < s2 -> moment_order K s2 s3 sigma J = block_at K sigma J.
Proof.
  intros H. unfold moment_order. destruct (Nat.ltb_spec J s2); [reflexivity | lia].
Qed.

Lemma moment_order_mid K s2 s3 sigma J :
  s2 <= J -> J < s3 -> moment_order K s2 s3 sigma J = J.
Proof.
  intros H1 H2. unfold moment_order.
  destruct (Nat.ltb_spec J s2); [lia|].
  destruct (Nat.ltb_spec J s3); [reflexivity | lia].
Qed.

Lemma moment_order_high K s2 s3 sigma J :
  s2 <= s3 -> s3 <= J -> moment_order K s2 s3 sigma J = s3 + sigma (J - s3).
Proof.
  intros H1 H2. unfold moment_order.
  destruct (Nat.ltb_spec J s2); [lia|].
  destruct (Nat.ltb_spec J s3); [lia | reflexivity].
Qed.

(** The three ranges of positions are kept. *)
Lemma moment_order_ranges K n s3 L sigma J :
  0 < K -> reorders n sigma -> K * n <= s3 -> L = s3 \/ L = s3 + n -> J < L ->
  let J' := moment_order K (K * n) s3 sigma J in
  (J < K * n -> J' < K * n)
  /\ (K * n <= J -> J < s3 -> J' = J)
  /\ (s3 <= J -> s3 <= J' /\ J' < L).
Proof.
  intros H R H3 HL HJ J'. subst J'. split; [|split].
  - intros X. rewrite moment_order_low by exact X. apply block_at_bound; assumption.
  - intros X Y. apply moment_order_mid; assumption.
  - intros X. rewrite moment_order_high by assumption.
    destruct R as [Hb _]. pose proof (Hb (J - s3)). lia.
Qed.

Lemma moment_order_reorders K n s3 L sigma :
  0 < K -> reorders n sigma -> K * n <= s3 -> L = s3 \/ L = s3 + n ->
  reorders L (moment_order K (K * n) s3 sigma).
Proof.
  intros H R H3 HL. split.
  - intros J HJ.
    destruct (moment_order_ranges K n s3 L sigma J H R H3 HL HJ) as (A1 & A2 & A3).
    destruct (Nat.lt_ge_cases J (K * n)) as [X|X]; [specialize (A1 X); lia|].
    destruct (Nat.lt_ge_cases J s3) as [Y|Y]; [rewrite (A2 X Y); lia|].
    specialize (A3 Y). lia.
  - intros J1 J2 H1 H2 E.
    destruct (moment_order_ranges K n s3 L sigma J1 H R H3 HL H1) as (A1 & A2 & A3).
    destruct (moment_order_ranges K n s3 L sigma J2 H R H3 HL H2) as (B1 & B2 & B3).
    destruct (Nat.lt_ge_cases J1 (K * n)) as [X1|X1];
      destruct (Nat.lt_ge_cases J2 (K * n)) as [X2|X2].
    + rewrite !moment_order_low in E by assumption.
      apply (block_at_inj K n sigma); assumption.
    + specialize (A1 X1).
      destruct (Nat.lt_ge_cases J2 s3) as [Y|Y];
        [rewrite (B2 X2 Y) in E | specialize (B3 Y)]; lia.
    + specialize (B1 X2).
      destruct (Nat.lt_ge_cases J1 s3) as [Y|Y];
        [rewrite (A2 X1 Y) in E | specialize (A3 Y)]; lia.
    + destruct (Nat.lt_ge_cases J1 s3) as [Y1|Y1];
        destruct (Nat.lt_ge_cases J2 s3) as [Y2|Y2].
      * rewrite (A2 X1 Y1), (B2 X2 Y2) in E. exact E.
      * rewrite (A2 X1 Y1) in E. specialize (B3 Y2). lia.
      * rewrite (B2 X2 Y2) in E. specialize (A3 Y1). lia.
      * rewrite !moment_order_high in E by assumption.
        destruct R as [_ Hi].
        assert (J1 - s3 = J2 - s3) by (apply Hi; lia). lia.
Qed.

Lemma reorders_at (idx : list nat) (n : nat) :
  Permutation idx (seq 0 n) -> reorders n (at_ idx).
Proof.
  intros H. split; [apply perm_bound | apply perm_inj]; exact H.
Qed.

Lemma reorders_same (n : nat) : reorders n same.
Proof. split; unfold same; auto. Qed.

Lemma reorders_permutation (L : nat) theta :
  reorders L theta -> Permutation (map theta (seq 0 L)) (seq 0 L).
Proof.
  intros [Hb Hi]. apply NoDup_Permutation_bis.
  - apply NoDup_map_NoDup_ForallPairs; [|apply seq_NoDup].
    intros x y Hx Hy. apply in_seq in Hx, Hy. apply Hi; lia.
  - rewrite length_map. apply Nat.le_refl.
  - intros x Hx. apply in_map_iff in Hx. destruct Hx as (t & <- & Ht).
    apply in_seq in Ht. apply in_seq. specialize (Hb t). lia.
Qed.

Context {A : Type} {SA : Scalar A} {ES : @ExactScalar A SA}.

(** A sum read through a relabelling of its index set. *)
Lemma sum_reindex (L : nat) theta (g : nat -> A) :
  reorders L theta ->
  np.sum_to L (fun t => g (theta t)) = np.sum_to L g.
Proof.
  intros R. rewrite <- (sum_perm _ L g (reorders_permutation L theta R)).
  apply sum_to_ext. intros t Ht. f_equal. unfold at_.
  rewrite (nth_indep _ 0 (theta 0)) by (rewrite length_map, length_seq; exact Ht).
  rewrite (map_nth theta (seq 0 L) 0 t). rewrite seq_nth by exact Ht. reflexivity.
Qed.

End Blocks.

(** ** Entries of the assembled arrays *)

Section Entries.

Context {T : Type} {DT : Default T}.

Lemma tabulate_wf (r c : nat) (f : nat -> nat -> T) :
  pick r c same same (np.tabulate r c f) = np.tabulate r c f.
Proof.
  unfold pick. apply tabulate_ext. intros i j Hi Hj.
  unfold same. rewrite get_tabulate by assumption. reflexivity.
Qed.

Lemma reshape1F_inv (v : list T) (r c : nat) (x : matrix T) :
  np.reshape1F v r c = Ok x ->
  List.length v = r * c
  /\ x = np.tabulate r c (fun i j => np.get1 v (i + j * r)).
Proof.
  unfold np.reshape1F. destruct (Nat.eqb_spec (List.length v) (r * c)); [|discriminate].
  intros [= <-]. auto.
Qed.

Lemma set_slice_ok_eq (m : matrix T) rlo rhi clo chi (v : matrix T) rstop cstop :
  rstop = match rhi with Some h => h | None => nrows m end ->
  cstop = match chi with Some h => h | None => ncols m end ->
  rlo <= rstop -> rstop <= nrows m -> clo <= cstop -> cstop <= ncols m ->
  nrows v = rstop - rlo -> ncols v = cstop - clo ->
  np.set_slice m rlo rhi clo chi v
  = Ok (np.tabulate (nrows m) (ncols m)
          (fun i j => if (rlo <=? i) && (i <? rstop) && (clo <=? j) && (j <? cstop)
                      then np.get v (i - rlo) (j - clo) else np.get m i j)).
Proof.
  intros Hr Hc R1 R2 C1 C2 V1 V2.
  unfold np.set_slice, np.slice_bounds.
  replace (match rhi with Some h => Nat.min h (nrows m) | None => nrows m end)
    with rstop by (subst rstop; destruct rhi; lia).
  replace (match chi with Some h => Nat.min h (ncols m) | None => ncols m end)
    with cstop by (subst cstop; destruct chi; lia).
  rewrite (Nat.min_l rlo) by lia. rewrite (Nat.min_l clo) by lia.
  unfold np.fits. rewrite V1, V2, !Nat.eqb_refl. cbn [orb andb].
  f_equal. apply tabulate_ext. intros i j Hi Hj.
  replace (rlo + (rstop - rlo)) with rstop by lia.
  replace (clo + (cstop - clo)) with cstop by lia.
  destruct ((rlo <=? i) && (i <? rstop) && (clo <=? j) && (j <? cstop)) eqn:E;
    [|reflexivity].
  apply andb_true_iff in E. destruct E as [E E4].
  apply andb_true_iff in E. destruct E as [E E3].
  apply andb_true_iff in E. destruct E as [E1 E2].
  apply Nat.leb_le in E1, E3. apply Nat.ltb_lt in E2, E4.
  rewrite <- V1, <- V2. rewrite !bidx_lt by lia. reflexivity.
Qed.

Lemma set_slice_inv (m : matrix T) rlo rhi clo chi (v x : matrix T) rstop cstop :
  np.set_slice m rlo rhi clo chi v = Ok x ->
  rstop = match rhi with Some h => h | None => nrows m end ->
  cstop = match chi with Some h => h | None => ncols m end ->
  rlo <= rstop -> rstop <= nrows m -> clo <= cstop -> cstop <= ncols m ->
  nrows v = rstop - rlo -> ncols v = cstop - clo ->
  x = np.tabulate (nrows m) (ncols m)
        (fun i j => if (rlo <=? i) && (i <? rstop) && (clo <=? j) && (j <? cstop)
                    then np.get v (i - rlo) (j - clo) else np.get m i j).
Proof.
  intros H Hr Hc R1 R2 C1 C2 V1 V2.
  rewrite (set_slice_ok_eq m rlo rhi clo chi v rstop cstop) in H by assumption.
  injection H as <-. reflexivity.
Qed.

End Entries.

Section NumericEntries.

Context {A : Type} {SA : Scalar A}.

Lemma eye_get (n i j : nat) :
  i < n -> j < n -> np.get (np.eye (A := A) n) i j = if i =? j then one else zero.
Proof.
  intros Hi Hj. unfold np.eye. rewrite get_tabulate by assumption. reflexivity.
Qed.

Lemma kron_get (a b : matrix A) (i j : nat) :
  i < nrows a * nrows b -> j < ncols a * ncols b ->
  np.get (np.kron a b) i j
  = fmul (np.get a (i / nrows b) (j / ncols b))
         (np.get b (i mod nrows b) (j mod ncols b)).
Proof.
  intros Hi Hj. unfold np.kron. rewrite get_tabulate by assumption. reflexivity.
Qed.

Lemma div_scalar_pick r c rho gamma (m : matrix A) y :
  (forall i, i < r -> rho i < nrows m) ->
  (forall j, j < c -> gamma j < ncols m) ->
  np.div_scalar (pick r c rho gamma m) y = pick r c rho gamma (np.div_scalar m y).
Proof. intros Hr Hc. unfold np.div_scalar. apply map_matrix_pick; assumption. Qed.

(** The residuals repeated once per regressor, the columns of one
    portfolio side by side. *)
Lemma stacked_residuals_F (e : matrix A) (K nobs n : nat) (x : matrix A) :
  np.reshape1F (np.ravelF (np.tile e K 1)) nobs (K * n) = Ok x ->
  0 < K -> nrows e = nobs -> ncols e = n ->
  x = pick nobs (K * n) same (fun J => J / K) e.
Proof.
  intros H HK He1 He2. apply reshape1F_inv in H. destruct H as [_ ->].
  unfold pick. apply tabulate_ext. intros i J Hi HJ.
  destruct (split_index K J HK) as [S C].
  pose proof (div_below K n J HK HJ) as Q.
  assert (D : (i + J * nobs) / (K * nobs) = J / K).
  { symmetry. apply (Nat.div_unique _ _ _ (i + J mod K * nobs)); [nia|].
    rewrite S at 1. lia. }
  assert (M : (i + J * nobs) mod (K * nobs) = i + J mod K * nobs).
  { symmetry. apply (Nat.mod_unique _ _ (J / K)); [nia|].
    rewrite S at 1. lia. }
  unfold np.ravelF. shapes. rewrite He1, He2.
  rewrite get1_tabulate1 by nia.
  unfold np.tile. rewrite He1, He2.
  rewrite get_tabulate by (rewrite ?D, ?M; nia).
  rewrite D, M. unfold same. f_equal.
  - rewrite Nat.Div0.mod_add. apply Nat.mod_small. exact Hi.
  - apply Nat.mod_small. exact Q.
Qed.

Lemma stacked_residuals_C (e : matrix A) (K nobs n : nat) (x : matrix A) :
  np.reshape (np.T_ (np.tile e K 1)) (n * K) nobs = Ok x ->
  0 < K -> nrows e = nobs -> ncols e = n ->
  np.T_ x = pick nobs (n * K) same (fun J => J / K) e.
Proof.
  intros H HK He1 He2. apply reshape1_inv in H. destruct H as [_ ->].
  unfold np.T_ at 1. shapes.
  unfold pick. apply tabulate_ext. intros i J Hi HJ.
  rewrite get_tabulate by assumption.
  destruct (split_index K J HK) as [S C].
  assert (Q : J / K < n) by (apply (div_below K n J HK); lia).
  assert (D : (J * nobs + i) / (K * nobs) = J / K).
  { symmetry. apply (Nat.div_unique _ _ _ (i + J mod K * nobs)); [nia|].
    rewrite S at 1. lia. }
  assert (M : (J * nobs + i) mod (K * nobs) = i + J mod K * nobs).
  { symmetry. apply (Nat.mod_unique _ _ (J / K)); [nia|].
    rewrite S at 1. lia. }
  unfold np.ravel. shapes. rewrite He1, He2.
  replace (1 * n * (K * nobs)) with (n * (K * nobs)) by lia.
  rewrite get1_tabulate1 by nia.
  unfold np.T_. shapes. rewrite He1, He2.
  rewrite get_tabulate by (rewrite ?D, ?M; nia).
  unfold np.tile. rewrite He1, He2.
  rewrite get_tabulate by (rewrite ?D, ?M; nia).
  rewrite D, M. unfold same. f_equal.
  - rewrite Nat.Div0.mod_add. apply Nat.mod_small. exact Hi.
  - apply Nat.mod_small. exact Q.
Qed.

(** The regressors repeated once per portfolio do not move with the
    portfolios. *)
Lemma tile_cols_pick (fc : matrix A) (n K c : nat) sigma :
  0 < K -> ncols fc = K -> c = n * ncols fc -> reorders n sigma ->
  pick (nrows (np.tile fc 1 n)) c same (block_at K sigma) (np.tile fc 1 n)
  = np.tile fc 1 n.
Proof.
  intros HK Hfc -> R. unfold pick, np.tile at 3. shapes.
  apply tabulate_ext. intros i j Hi Hj. unfold same.
  rewrite Hfc in *.
  unfold np.tile. rewrite get_tabulate.
  - rewrite Hfc. rewrite block_at_mod by exact HK.
    rewrite (Nat.mod_small i) by lia. reflexivity.
  - exact Hi.
  - rewrite Hfc. rewrite (Nat.mul_comm n K).
    apply block_at_bound; [exact HK | exact R | lia].
Qed.

Lemma c_pick_l (a b x : matrix A) (c1 : nat) gamma :
  np.c_ a b = Ok x -> c1 = ncols a ->
  (forall j, j < c1 -> gamma j < c1) ->
  np.c_ (pick (nrows a) c1 same gamma a) b
  = Ok (pick (nrows x) (c1 + ncols b) same
          (fun J => if J <? c1 then gamma J else J) x).
Proof.
  intros H -> Hg. unfold np.c_ in *. shapes.
  destruct (Nat.eqb_spec (nrows a) (nrows b)); [|discriminate].
  injection H as <-. f_equal. shapes.
  unfold pick at 2. apply tabulate_ext. intros i j Hi Hj. unfold same.
  destruct (Nat.ltb_spec j (ncols a)) as [X|X].
  - rewrite get_pick by assumption.
    rewrite get_tabulate by (try assumption; specialize (Hg j X); lia).
    destruct (Nat.ltb_spec (gamma j) (ncols a)) as [Y|Y]; [reflexivity|].
    specialize (Hg j X). lia.
  - rewrite get_tabulate by assumption.
    destruct (Nat.ltb_spec j (ncols a)); [lia | reflexivity].
Qed.

Lemma c_pick_both (a b x : matrix A) (c1 c2 : nat) gamma1 gamma2 :
  np.c_ a b = Ok x -> c1 = ncols a -> c2 = ncols b ->
  (forall j, j < c1 -> gamma1 j < c1) ->
  (forall j, j < c2 -> gamma2 j < c2) ->
  np.c_ (pick (nrows a) c1 same gamma1 a) (pick (nrows b) c2 same gamma2 b)
  = Ok (pick (nrows x) (c1 + c2) same
          (fun J => if J <? c1 then gamma1 J else c1 + gamma2 (J - c1)) x).
Proof.
  intros H -> -> Hg1 Hg2. unfold np.c_ in *. shapes.
  destruct (Nat.eqb_spec (nrows a) (nrows b)) as [E|]; [|discriminate].
  injection H as <-. f_equal. shapes.
  unfold pick at 3. apply tabulate_ext. intros i j Hi Hj. unfold same at 3.
  destruct (Nat.ltb_spec j (ncols a)) as [X|X].
  - rewrite get_pick by assumption.
    rewrite get_tabulate by (try assumption; specialize (Hg1 j X); lia).
    destruct (Nat.ltb_spec (gamma1 j) (ncols a)) as [Y|Y]; [reflexivity|].
    specialize (Hg1 j X). lia.
  - rewrite get_pick by lia.
    assert (Y : gamma2 (j - ncols a) < ncols b) by (apply Hg2; lia).
    rewrite get_tabulate by (try assumption; lia).
    destruct (Nat.ltb_spec (ncols a + gamma2 (j - ncols a)) (ncols a)); [lia|].
    unfold same. f_equal. lia.
Qed.

End NumericEntries.

(** ** The time-series estimator on reordered portfolios *)

(** Settles the comparisons of positions that [lia] can settle. *)
Ltac compare_positions :=
  repeat match goal with
    | |- context [?a <? ?b] => destruct (Nat.ltb_spec a b); try lia
    | |- context [?a <=? ?b] => destruct (Nat.leb_spec a b); try lia
    end;
  cbn [andb].

Section TradedReorder.

Context {A : Type} {SA : Scalar A} {ES : @ExactScalar A SA}
        {LA : LinAlg A} {LS : @LinAlgShapes A LA} {KS : Kernels A}
        {DI : DataInput A}.

Lemma eye_reorders (n : nat) sigma (i j : nat) :
  reorders n sigma -> i < n -> j < n ->
  np.get (np.eye (A := A) n) (sigma i) (sigma j) = np.get (np.eye n) i j.
Proof.
  intros [Hb Hi] H1 H2. rewrite !eye_get by auto.
  destruct (Nat.eqb_spec (sigma i) (sigma j)) as [E|E];
    destruct (Nat.eqb_spec i j) as [E'|E']; try reflexivity.
  - apply Hi in E; [contradiction | assumption | assumption].
  - subst j. contradiction.
Qed.

Lemma cov_kernel_pick (z : matrix A) (w : list A) (L : nat) tau :
  (forall J, J < L -> tau J < ncols z) ->
  _cov_kernel (pick (nrows z) L same tau z) w = pick L L tau tau (_cov_kernel z w).
Proof.
  intros Hb. unfold _cov_kernel at 1. shapes. unfold pick at 2.
  apply tabulate_ext. intros a b Ha Hb'.
  unfold _cov_kernel. rewrite get_tabulate by auto. f_equal.
  apply sum_to_ext. intros lag Hlag.
  unfold lag_term. shapes. rewrite !get_tabulate by auto.
  unfold autocov. shapes. rewrite !get_tabulate by auto.
  assert (X : forall a b, a < L -> b < L ->
            np.sum_to (nrows z - lag)
              (fun t => fmul (np.get (pick (nrows z) L same tau z) (lag + t) a)
                             (np.get (pick (nrows z) L same tau z) t b))
            = np.sum_to (nrows z - lag)
                (fun t => fmul (np.get z (lag + t) (tau a)) (np.get z t (tau b)))).
  { intros a' b' Ha' Hb''. apply sum_to_ext. intros t Ht.
    rewrite !get_pick by (try assumption; lia). reflexivity. }
  rewrite !X by assumption. reflexivity.
Qed.

Lemma covariance_pick ct cfg nobs (xe fe xeex rpc : matrix A) (L : nat) tau :
  TradedFactorModel.covariance ct cfg nobs xe fe = Ok (xeex, rpc) ->
  ncols xe = L -> (forall J, J < L -> tau J < L) ->
  TradedFactorModel.covariance ct cfg nobs (pick (nrows xe) L same tau xe) fe
  = Ok (pick L L tau tau xeex, rpc).
Proof.
  intros H HL Hb. unfold TradedFactorModel.covariance in *.
  destruct (mem ct ["robust"; "heteroskedastic"]).
  - inv_bind H. injection H as <- <-.
    rewrite T_pick by (unfold same; rewrite ?HL; auto).
    pose proof (matmul_pick L L tau tau same _ _ _ Ex) as M.
    rewrite nrows_T, ncols_T, HL in M.
    rewrite M; [|auto | auto | auto | intros g; apply sum_same].
    cbn [bind]. rewrite Ex0. cbn [bind].
    rewrite div_scalar_pick; [reflexivity | |].
    + apply matmul_shape in Ex. shapes. intros i Hi. specialize (Hb i Hi). lia.
    + apply matmul_shape in Ex. shapes. intros i Hi. specialize (Hb i Hi). lia.
  - destruct (String.eqb ct "kernel"); [|discriminate].
    inv_bind H. injection H as <- <-. rewrite Ex. cbn [bind]. rewrite Ex0. cbn [bind].
    rewrite cov_kernel_pick by (rewrite HL; exact Hb). reflexivity.
Qed.

Lemma xpxi_invariant (n K k : nat) sigma (q x : matrix A) :
  np.set_slice (np.eye (K * n + k)) 0 (Some (K * n)) 0 (Some (K * n))
    (np.kron (np.eye n) q) = Ok x ->
  0 < K -> nrows q = K -> ncols q = K -> reorders n sigma ->
  pick (K * n + k) (K * n + k)
       (moment_order K (K * n) (K * n + k) sigma)
       (moment_order K (K * n) (K * n + k) sigma) x = x.
Proof.
  intros H HK Hq1 Hq2 R.
  rewrite (set_slice_inv _ _ _ _ _ _ _ (K * n) (K * n) H)
    by (shapes; try reflexivity; nia).
  shapes. set (L := K * n + k).
  pose proof (moment_order_reorders K n L L sigma HK R ltac:(lia) ltac:(left; reflexivity))
    as [Tb Ti].
  set (tau := moment_order K (K * n) L sigma) in *.
  unfold pick. apply tabulate_ext. intros i j Hi Hj.
  rewrite get_tabulate by auto.
  destruct (moment_order_ranges K n L L sigma i HK R ltac:(lia)
              ltac:(left; reflexivity) Hi) as (I1 & I2 & I3).
  destruct (moment_order_ranges K n L L sigma j HK R ltac:(lia)
              ltac:(left; reflexivity) Hj) as (J1 & J2 & J3).
  fold tau in I1, I2, I3, J1, J2, J3.
  destruct (Nat.lt_ge_cases i (K * n)) as [X|X];
    destruct (Nat.lt_ge_cases j (K * n)) as [Y|Y].
  - specialize (I1 X). specialize (J1 Y). compare_positions.
    rewrite !Nat.sub_0_r. rewrite !kron_get by (shapes; nia).
    rewrite Hq1, Hq2. unfold tau. rewrite !moment_order_low by assumption.
    rewrite !block_at_div, !block_at_mod by exact HK.
    rewrite eye_reorders; [reflexivity | exact R | |]; apply div_below; assumption.
  - specialize (I1 X). specialize (J2 Y).
    assert (K * n <= tau j) by (rewrite J2 by lia; lia).
    compare_positions. rewrite !eye_get by auto.
    destruct (Nat.eqb_spec (tau i) (tau j)); [lia|].
    destruct (Nat.eqb_spec i j); [lia | reflexivity].
  - specialize (J1 Y). specialize (I2 X).
    assert (K * n <= tau i) by (rewrite I2 by lia; lia).
    compare_positions. rewrite !eye_get by auto.
    destruct (Nat.eqb_spec (tau i) (tau j)); [lia|].
    destruct (Nat.eqb_spec i j); [lia | reflexivity].
  - rewrite (I2 X) by lia. rewrite (J2 Y) by lia. reflexivity.
Qed.

End TradedReorder.

Section StackedResiduals.

Context {A : Type} {SA : Scalar A}.

Lemma reshape1F_ok_eq (v : list A) (r c : nat) :
  List.length v = r * c ->
  np.reshape1F v r c = Ok (np.tabulate r c (fun i j => np.get1 v (i + j * r))).
Proof.
  intros H. unfold np.reshape1F. rewrite (proj2 (Nat.eqb_eq _ _) H). reflexivity.
Qed.

Lemma reshape1_ok_eq (v : list A) (r c : nat) :
  List.length v = r * c ->
  np.reshape1 v r c = Ok (np.tabulate r c (fun i j => np.get1 v (i * c + j))).
Proof.
  intros H. unfold np.reshape1. rewrite (proj2 (Nat.eqb_eq _ _) H). reflexivity.
Qed.

Lemma stacked_pick (e : matrix A) (K nobs n c : nat) sigma :
  0 < K -> nrows e = nobs -> ncols e = n -> reorders n sigma -> c = K * n ->
  pick nobs c same (fun J => J / K) (pick nobs n same sigma e)
  = pick nobs c same (block_at K sigma) (pick nobs c same (fun J => J / K) e).
Proof.
  intros HK He1 He2 R ->. apply pick_ext. intros i J Hi HJ.
  pose proof (div_below K n J HK HJ) as Q.
  pose proof (block_at_bound K n sigma J HK R HJ) as B.
  rewrite !get_pick by assumption.
  rewrite block_at_div by exact HK. reflexivity.
Qed.

Lemma stacked_residuals_F_pick (e x : matrix A) (K nobs n : nat) sigma :
  np.reshape1F (np.ravelF (np.tile e K 1)) nobs (K * n) = Ok x ->
  0 < K -> nrows e = nobs -> ncols e = n -> reorders n sigma ->
  np.reshape1F (np.ravelF (np.tile (pick nobs n same sigma e) K 1)) nobs (K * n)
  = Ok (pick nobs (K * n) same (block_at K sigma) x).
Proof.
  intros H HK He1 He2 R.
  assert (F : np.reshape1F (np.ravelF (np.tile (pick nobs n same sigma e) K 1))
                nobs (K * n)
              = Ok (np.tabulate nobs (K * n)
                      (fun i j => np.get1
                         (np.ravelF (np.tile (pick nobs n same sigma e) K 1))
                         (i + j * nobs)))).
  { apply reshape1F_ok_eq. shapes. lia. }
  rewrite F. f_equal.
  rewrite (stacked_residuals_F _ K nobs n _ F HK eq_refl eq_refl).
  rewrite (stacked_residuals_F e K nobs n x H HK He1 He2).
  apply stacked_pick; auto.
Qed.

Lemma stacked_residuals_C_pick (e x : matrix A) (K nobs n : nat) sigma :
  np.reshape (np.T_ (np.tile e K 1)) (n * K) nobs = Ok x ->
  0 < K -> nrows e = nobs -> ncols e = n -> reorders n sigma ->
  exists x',
    np.reshape (np.T_ (np.tile (pick nobs n same sigma e) K 1)) (n * K) nobs = Ok x'
    /\ np.T_ x' = pick nobs (n * K) same (block_at K sigma) (np.T_ x).
Proof.
  intros H HK He1 He2 R.
  assert (F : np.reshape (np.T_ (np.tile (pick nobs n same sigma e) K 1)) (n * K) nobs
              = Ok (np.tabulate (n * K) nobs
                      (fun i j => np.get1
                         (np.ravel (np.T_ (np.tile (pick nobs n same sigma e) K 1)))
                         (i * nobs + j)))).
  { apply reshape1_ok_eq. shapes. lia. }
  eexists. split; [exact F|].
  rewrite (stacked_residuals_C _ K nobs n _ F HK eq_refl eq_refl).
  rewrite (stacked_residuals_C e K nobs n x H HK He1 He2).
  apply stacked_pick; auto. lia.
Qed.

End StackedResiduals.

Section AlphaBlock.

Context {A : Type} {SA : Scalar A}.

Lemma take_rows_alike (m m' : matrix A) (idx : list nat) (x : matrix A) :
  np.take_rows m idx = Ok x -> nrows m' = nrows m ->
  np.take_rows m' idx
  = Ok (pick (List.length idx) (ncols m') (at_ idx) same m').
Proof.
  intros H E. apply take_rows_inv in H. destruct H as [F _].
  rewrite <- E in F. apply take_rows_ok. exact F.
Qed.

Lemma take_cols_alike (m m' : matrix A) (idx : list nat) (x : matrix A) :
  np.take_cols m idx = Ok x -> ncols m' = ncols m ->
  np.take_cols m' idx
  = Ok (pick (nrows m') (List.length idx) same (at_ idx) m').
Proof.
  intros H E. apply take_cols_inv in H. destruct H as [F _].
  rewrite <- E in F. apply take_cols_ok. exact F.
Qed.

(** The rearranged loading covariance starts with the block of the
    intercepts. *)
Lemma alpha_block_form (full : matrix A) (n K L : nat) (ord : matrix nat)
                       (vr vc : matrix A) :
  nrows full = L -> ncols full = L -> K * n <= L -> 0 < K ->
  np.reshape1 (np.arange 0 (K * n)) n K = Ok ord ->
  np.take_rows (np.slice full 0 (Some (K * n)) 0 (Some (K * n)))
    (np.ravel (np.T_ ord)) = Ok vr ->
  np.take_cols vr (np.ravel (np.T_ ord)) = Ok vc ->
  np.slice vc 0 (Some n) 0 (Some n)
  = pick n n (fun i => i * K) (fun j => j * K) full.
Proof.
  intros HL1 HL2 HL HK Ho Hr Hc.
  apply reshape1_inv in Ho. destruct Ho as [_ ->].
  apply take_rows_inv in Hr. destruct Hr as [Fr ->].
  apply take_cols_inv in Hc. destruct Hc as [Fc ->].
  unfold np.slice at 1. shapes. cbn [fst snd np.slice_bounds].
  assert (Hn : n <= K * n) by nia.
  unfold pick. apply tabulate_ext2; [lia | lia |]. intros i j Hi Hj.
  assert (Hord : forall i, i < n ->
            nth i (np.ravel (np.T_ (np.tabulate n K
                     (fun i j => np.get1 (np.arange 0 (K * n)) (i * K + j)))))
                  0 = i * K).
  { intros i' Hi'. unfold np.ravel. shapes.
    rewrite nth_tabulate1 by nia.
    rewrite Nat.div_small, Nat.mod_small by lia.
    unfold np.T_. shapes. rewrite get_tabulate by lia.
    rewrite get_tabulate by lia. rewrite get1_arange by nia. lia. }
  rewrite Nat.min_0_l, !Nat.add_0_l.
  rewrite get_tabulate by (shapes; nia).
  rewrite get_tabulate.
  2:{ shapes. nia. }
  2:{ shapes. rewrite Hord by lia. rewrite HL2. nia. }
  rewrite !Hord by lia.
  unfold np.slice. cbn [fst snd np.slice_bounds].
  rewrite get_tabulate by (rewrite ?HL1, ?HL2; nia).
  rewrite !Nat.min_0_l, !Nat.add_0_l. reflexivity.
Qed.

Lemma alphas_pick (b : matrix A) (K n : nat) sigma :
  nrows b = K -> 0 < K -> ncols b = n -> (forall j, j < n -> sigma j < n) ->
  np.T_ (np.slice (pick K n same sigma b) 0 (Some 1) 0 None)
  = pick n 1 sigma same (np.T_ (np.slice b 0 (Some 1) 0 None)).
Proof.
  intros Hb1 HK Hb2 Rb.
  unfold np.T_ at 1. shapes. unfold pick at 2.
  apply tabulate_ext2; [lia | lia |]. intros i j Hi Hj.
  rewrite Nat.min_0_l, Nat.sub_0_r in *.
  assert (Bi : sigma i < n) by (apply Rb; lia).
  unfold same. unfold np.T_. shapes.
  rewrite get_tabulate by (rewrite ?Nat.min_0_l; lia).
  unfold np.slice. cbn [fst snd np.slice_bounds]. shapes.
  rewrite !get_tabulate by (rewrite ?Nat.min_0_l; lia).
  rewrite get_pick by lia. reflexivity.
Qed.

End AlphaBlock.

(** Closes a bound [theta j < c] from the bound [H] on [theta]. *)
Ltac below H := intros; eapply Nat.lt_le_trans; [apply H; lia | lia].

Section TradedReplay.

Context {A : Type} {SA : Scalar A} {ES : @ExactScalar A SA}
        {LA : LinAlg A} {LS : @LinAlgShapes A LA} {KS : Kernels A}
        {DI : DataInput A}.

Lemma covariance_shape ct cfg nobs (xe fe xeex rpc : matrix A) :
  TradedFactorModel.covariance ct cfg nobs xe fe = Ok (xeex, rpc) ->
  nrows xeex = ncols xe /\ ncols xeex = ncols xe.
Proof.
  intros H. unfold TradedFactorModel.covariance in H.
  destruct (mem ct ["robust"; "heteroskedastic"]).
  - inv_bind H. injection H as <- <-. shape_facts. auto.
  - destruct (String.eqb ct "kernel"); [|discriminate].
    inv_bind H. injection H as <- <-. auto.
Qed.

Lemma traded_reordered (p f : matrix A) (pn pn' fn : list string) (nm : string)
                       sigma ct deb cfg res :
  reorders (ncols p) sigma ->
  TradedFactorModel.fit
    (TradedFactorModel.Build (mkIVData p pn) (mkIVData f fn) nm) ct deb cfg = Ok res ->
  (forall x, pinv (alpha_vcv res) = Some x ->
             pinv (pick (ncols p) (ncols p) sigma sigma (alpha_vcv res))
             = Some (pick (ncols p) (ncols p) sigma sigma x)) ->
  exists res',
    TradedFactorModel.fit
      (TradedFactorModel.Build
         (mkIVData (pick (nrows p) (ncols p) same sigma p) pn') (mkIVData f fn) nm)
      ct deb cfg = Ok res'
    /\ alphas res' = pick (ncols p) 1 sigma same (alphas res)
    /\ alpha_vcv res' = pick (ncols p) (ncols p) sigma sigma (alpha_vcv res)
    /\ stat (jstat res') = stat (jstat res).
Proof.
  intros R H Hpinv.
  unfold TradedFactorModel.fit, np.shape in H |- *.
  cbn [TradedFactorModel.portfolios TradedFactorModel.factors ndarray_ cols
       TradedFactorModel._name] in H |- *.
  rewrite ?ncols_pick.
  remember (ncols p) as n eqn:Hn in *.
  remember (ncols f) as k eqn:Hk in *.
  remember (nrows f) as nobs eqn:Hnobs in *.
  inv_bind H. injection H as <-. cbn [alphas alpha_vcv jstat stat] in *.
  destruct R as [Rb Ri]. assert (R : reorders n sigma) by (split; assumption).
  assert (HK : 0 < k + 1) by lia.
  set (K := k + 1) in *. set (L := K * n + k) in *.
  assert (HKd : K = k + 1) by reflexivity.
  assert (HLd : L = K * n + k) by reflexivity.
  (* shapes of the first run *)
  pose proof (c_shape _ _ _ Ex) as (_ & Sx1 & Sx2).
  rewrite nrows_ones in Sx1. rewrite ncols_ones in Sx2.
  pose proof (broadcast_shape _ _ _ _ Ex0) as [S01 S02].
  rewrite nrows_row, bdim_one_r in S01. rewrite ncols_row, length_mean0, bdim_same in S02.
  injection S01 as S01. injection S02 as S02.
  pose proof (pinv_ok_shape _ _ Ex1) as [S11 S12].
  pose proof (matmul_shape _ _ _ Ex2) as (S21 & S22 & S23).
  pose proof (matmul_shape _ _ _ Ex3) as (S31 & S32 & S33).
  assert (Sp : nrows p = nobs) by lia.
  pose proof (broadcast_shape _ _ _ _ Ex4) as [S41 S42].
  rewrite (bdim_eq (nrows p) (nrows x3) nobs) in S41 by lia.
  rewrite (bdim_eq (ncols p) (ncols x3) n) in S42 by lia.
  injection S41 as S41. injection S42 as S42.
  pose proof (matmul_shape _ _ _ Ex5) as (_ & S52 & S53).
  rewrite nrows_T in S52.
  pose proof (pinv_ok_shape _ _ Ex6) as [S61 S62].
  rewrite ncols_div_scalar in S61. rewrite nrows_div_scalar in S62.
  pose proof (set_slice_shape _ _ _ _ _ _ _ Ex7) as [S71 S72].
  rewrite nrows_eye in S71. rewrite ncols_eye in S72.
  pose proof (reshape1F_shape _ _ _ _ Ex8) as (_ & S81 & S82).
  pose proof (broadcast_shape _ _ _ _ Ex9) as [S91 S92].
  rewrite nrows_tile in S91. rewrite ncols_tile in S92.
  rewrite (bdim_eq (1 * nrows x) (nrows x8) nobs) in S91 by lia.
  rewrite (bdim_eq (n * ncols x) (ncols x8) (K * n)) in S92 by (unfold K in *; nia).
  injection S91 as S91. injection S92 as S92.
  pose proof (c_shape _ _ _ Ex10) as (_ & S101 & S102).
  pose proof (covariance_shape _ _ _ _ _ _ _ Ex11) as [Sm1 Sm2].
  pose proof (matmul_shape _ _ _ Ex12) as (_ & S111 & S112).
  pose proof (matmul_shape _ _ _ Ex13) as (_ & S121 & S122).
  assert (Tb : forall J, J < L -> moment_order K (K * n) L sigma J < L).
  { apply (moment_order_reorders K n L L sigma HK R); [unfold L; lia | left; reflexivity]. }
  pose proof (moment_order_reorders K n L L sigma HK R ltac:(unfold L; lia)
                ltac:(left; reflexivity)) as RT.
  set (tau := moment_order K (K * n) L sigma) in *.
  (* the second run, step by step *)
  pose proof (matmul_pick_r n sigma _ _ _ Ex2 ltac:(below Rb)) as F2.
  replace (nrows x2) with K in F2 by lia.
  pose proof (matmul_pick_r n sigma _ _ _ Ex3 ltac:(below Rb)) as F3.
  replace (nrows x2) with K in F3 by lia.
  replace (nrows x3) with nobs in F3 by lia.
  pose proof (broadcast_pick_cols fsub n sigma _ _ _ Ex4 ltac:(lia) ltac:(below Rb)) as F4.
  replace (nrows x3) with nobs in F4 by lia.
  replace (nrows x4) with nobs in F4 by lia.
  fold (@np.sub A SA) in F4.
  pose proof (stacked_residuals_F_pick x4 x8 K nobs n sigma Ex8 HK
                ltac:(lia) ltac:(lia) R) as F8.
  pose proof (broadcast_pick_cols fmul (K * n) (block_at K sigma) _ _ _ Ex9
                ltac:(rewrite ncols_tile; nia)
                ltac:(intros; rewrite ncols_tile;
                      replace (n * ncols x) with (K * n) by nia;
                      apply block_at_bound; assumption)) as F9.
  rewrite (tile_cols_pick x n K (K * n) sigma HK ltac:(lia) ltac:(nia) R) in F9.
  replace (nrows x8) with nobs in F9 by lia.
  replace (nrows x9) with nobs in F9 by lia.
  fold (@np.mul A SA) in F9.
  pose proof (c_pick_l _ _ _ (K * n) (block_at K sigma) Ex10 ltac:(lia)
                ltac:(intros; apply block_at_bound; assumption)) as F10.
  replace (nrows x9) with nobs in F10 by lia.
  replace (nrows x10) with nobs in F10 by lia.
  replace (K * n + ncols x0) with L in F10 by lia.
  assert (P10 : pick nobs L same
                  (fun J => if J <? K * n then block_at K sigma J else J) x10
                = pick nobs L same tau x10).
  { apply pick_ext. intros i J Hi HJ. f_equal. unfold tau, moment_order.
    destruct (Nat.ltb_spec J (K * n)); [reflexivity|].
    destruct (Nat.ltb_spec J L); [reflexivity | lia]. }
  rewrite P10 in F10. clear P10.
  pose proof (covariance_pick ct cfg nobs _ _ _ _ L tau Ex11 ltac:(lia) Tb) as F11.
  replace (nrows x10) with nobs in F11 by lia.
  assert (X7 : pick L L tau tau x7 = x7)
    by exact (xpxi_invariant n K k sigma x6 x7 Ex7 HK ltac:(lia) ltac:(lia) R).
  pose proof (matmul_pick L L tau tau tau _ _ _ Ex12 ltac:(below Tb) ltac:(below Tb)
                ltac:(below Tb)) as F12.
  replace (ncols x7) with L in F12 by lia.
  replace (nrows m) with L in F12 by lia.
  rewrite X7 in F12.
  specialize (F12 ltac:(intros g; apply sum_reindex; exact RT)).
  pose proof (matmul_pick L L tau tau tau _ _ _ Ex13 ltac:(below Tb) ltac:(below Tb)
                ltac:(below Tb)) as F13.
  replace (ncols x11) with L in F13 by lia.
  replace (nrows x7) with L in F13 by lia.
  rewrite X7 in F13.
  specialize (F13 ltac:(intros g; apply sum_reindex; exact RT)).
  (* replay *)
  rewrite Ex. cbn [bind]. rewrite Ex0. cbn [bind]. rewrite Ex1. cbn [bind].
  rewrite Sp in F2, F4 |- *. rewrite F2. cbn [bind]. rewrite F3. cbn [bind].
  rewrite F4. cbn [bind]. rewrite Ex5. cbn [bind]. rewrite Ex6. cbn [bind].
  rewrite Ex7. cbn [bind]. rewrite F8. cbn [bind]. rewrite F9. cbn [bind].
  rewrite F10. cbn [bind]. rewrite F11. cbn [bind].
  rewrite F12. cbn [bind]. rewrite F13. cbn [bind]. rewrite Ex14. cbn [bind].
  set (c := of_Z (Z.of_nat nobs - (if deb then 1%Z else 0%Z) * Z.of_nat (ncols x))) in *.
  rewrite (div_scalar_pick L L tau tau x12 c) by (below Tb).
  set (full := np.div_scalar x12 c) in *.
  assert (HF1 : nrows full = L) by (unfold full; rewrite nrows_div_scalar; lia).
  assert (HF2 : ncols full = L) by (unfold full; rewrite ncols_div_scalar; lia).
  set (ord := np.ravel (np.T_ x13)) in *.
  set (sl' := np.slice (pick L L tau tau full) 0 (Some (K * n)) 0 (Some (K * n))).
  assert (F15 := take_rows_alike _ sl' _ _ Ex15
                   ltac:(unfold sl'; rewrite !nrows_slice, !slice_count_some,
                           nrows_pick, HF1; reflexivity)).
  set (vr' := pick (List.length ord) (ncols sl') (at_ ord) same sl') in *.
  assert (F16 := take_cols_alike _ vr' _ _ Ex16
                   ltac:(destruct (take_rows_shape _ _ _ Ex15) as (_ & _ & ->);
                         unfold vr', sl';
                         rewrite ncols_pick, !ncols_slice, !slice_count_some,
                           ncols_pick, HF2; reflexivity)).
  rewrite F15. cbn [bind]. rewrite F16. cbn [bind].
  pose proof (alpha_block_form full n K L x13 x14 x15 HF1 HF2 ltac:(lia) HK
                Ex14 Ex15 Ex16) as A1.
  pose proof (alpha_block_form (pick L L tau tau full) n K L x13 _ _ eq_refl eq_refl
                ltac:(lia) HK Ex14 F15 F16) as A2.
  rewrite A2. rewrite A1 in Ex17, Hpinv |- *.
  assert (P : pick n n (fun i => i * K) (fun j => j * K) (pick L L tau tau full)
              = pick n n sigma sigma
                  (pick n n (fun i => i * K) (fun j => j * K) full)).
  { apply pick_ext. intros i j Hi Hj.
    assert (Bi : sigma i < n) by (apply Rb; exact Hi).
    assert (Bj : sigma j < n) by (apply Rb; exact Hj).
    rewrite !get_pick by (try assumption; nia).
    unfold tau. rewrite !moment_order_low by nia.
    rewrite !block_at_start by exact HK. reflexivity. }
  rewrite P.
  set (av := pick n n (fun i => i * K) (fun j => j * K) full) in *.
  assert (F17 : np_pinv (pick n n sigma sigma av) = Ok (pick n n sigma sigma x16)).
  { unfold np_pinv, singular in Ex17 |- *.
    destruct (pinv av) as [y|] eqn:E; [|discriminate]. injection Ex17 as ->.
    rewrite (Hpinv x16 eq_refl). reflexivity. }
  rewrite F17. cbn [bind].
  assert (AL := alphas_pick x2 K n sigma ltac:(lia) HK ltac:(lia) Rb).
  rewrite AL. set (al := np.T_ (np.slice x2 0 (Some 1) 0 None)) in *.
  assert (Hal1 : nrows al = n) by (unfold al; shapes; lia).
  assert (Hal2 : ncols al = 1) by (unfold al; shapes; lia).
  pose proof (pinv_ok_shape _ _ Ex17) as [S161 S162].
  unfold av in S161, S162. rewrite ncols_pick in S161. rewrite nrows_pick in S162.
  pose proof (matmul_shape _ _ _ Ex18) as (_ & S171 & S172).
  rewrite nrows_T in S171.
  rewrite (T_pick n 1 sigma same al) by (unfold same; intros; lia || below Rb).
  pose proof (matmul_pick 1 n same sigma sigma _ _ _ Ex18
                ltac:(unfold same; rewrite nrows_T; lia) ltac:(below Rb)
                ltac:(rewrite ncols_T; below Rb)
                ltac:(intros g; rewrite ncols_T, Hal1; apply sum_reindex; exact R))
    as F18.
  rewrite ncols_T, Hal1, S161 in F18.
  rewrite F18. cbn [bind].
  pose proof (matmul_pick_inner sigma _ _ _ Ex19 ltac:(below Rb)
                ltac:(intros g; replace (ncols x17) with n by lia;
                      apply sum_reindex; exact R)) as F19.
  replace (nrows x17) with 1 in F19 by lia.
  replace (ncols x17) with n in F19 by lia.
  rewrite Hal1, Hal2 in F19.
  rewrite F19. cbn [bind]. rewrite Ex20. cbn [bind].
  destruct (broadcast_ok fsub (pick nobs n same sigma p)
              (np.row (np.mean0 (pick nobs n same sigma p))) nobs n) as (e' & F21 & _).
  { rewrite nrows_pick, nrows_row. apply bdim_one_r. }
  { rewrite ncols_pick, ncols_row, length_mean0, ncols_pick. apply bdim_same. }
  fold (@np.sub A SA) in F21. rewrite F21. cbn [bind].
  eexists. split; [reflexivity|].
  cbn [alphas alpha_vcv jstat stat]. repeat split; reflexivity.
Qed.
End TradedReplay.

(** ** The two-pass estimator on reordered portfolios *)

Section TwoPassParts.

Context {A : Type} {SA : Scalar A}.

Lemma betas_pick (ex : bool) (b x3 : matrix A) (K n : nat) sigma :
  (if ex then Ok (np.T_ (np.slice b 1 None 0 None))
   else np.set_col_scalar (np.T_ b) 0 one) = Ok x3 ->
  nrows b = K -> ncols b = n -> (forall j, j < n -> sigma j < n) ->
  (if ex then Ok (np.T_ (np.slice (pick K n same sigma b) 1 None 0 None))
   else np.set_col_scalar (np.T_ (pick K n same sigma b)) 0 one)
  = Ok (pick n (ncols x3) sigma same x3).
Proof.
  intros H Hb1 Hb2 Rb. destruct ex.
  - injection H as <-. f_equal.
    unfold np.T_ at 1. shapes. unfold pick at 2.
    apply tabulate_ext2; [lia | lia |]. intros i j Hi Hj.
    rewrite Nat.min_0_l, Nat.sub_0_r in *.
    assert (Bi : sigma i < n) by (apply Rb; lia).
    unfold same. unfold np.T_. shapes. rewrite get_tabulate by (rewrite ?Nat.min_0_l; lia).
    unfold np.slice. cbn [fst snd np.slice_bounds]. shapes.
    rewrite !get_tabulate by (rewrite ?Nat.min_0_l; lia).
    rewrite get_pick by (rewrite ?Nat.min_0_l; lia).
    rewrite ?Hb1, ?Hb2, ?Nat.min_0_l, ?Nat.add_0_l. reflexivity.
  - unfold np.set_col_scalar in *. shapes.
    destruct (Nat.ltb_spec 0 (nrows b)); [|discriminate].
    destruct (Nat.ltb_spec 0 K); [|lia].
    injection H as <-. f_equal. shapes.
    unfold pick at 2. apply tabulate_ext2; [lia | lia |]. intros i j Hi Hj.
    assert (Bi : sigma i < n) by (apply Rb; lia).
    unfold same. rewrite get_tabulate by lia.
    destruct (Nat.eqb_spec j 0); [reflexivity|].
    unfold np.T_. shapes. rewrite !get_tabulate by lia.
    rewrite get_pick by lia. reflexivity.
Qed.

Lemma jacobian_block_pick (ex : bool) (k nrf : nat) (betas lam alphas : matrix A)
                          (n : nat) sigma (i : nat) :
  i < n -> nrows betas = n -> nrows alphas = n -> (forall j, j < n -> sigma j < n) ->
  jacobian_block ex k nrf
    (pick n (ncols betas) sigma same betas) lam
    (pick n (ncols alphas) sigma same alphas) i
  = jacobian_block ex k nrf betas lam alphas (sigma i).
Proof.
  intros Hi Hb Ha Rb. unfold jacobian_block.
  assert (Bi : sigma i < n) by (apply Rb; exact Hi).
  assert (E1 : np.take_rows (pick n (ncols betas) sigma same betas) [i]
               = np.take_rows betas [sigma i]).
  { unfold np.take_rows. cbn [forallb]. shapes.
    rewrite (proj2 (Nat.ltb_lt _ _) Hi). rewrite Hb, (proj2 (Nat.ltb_lt _ _) Bi).
    cbn [andb]. f_equal. apply tabulate_ext. intros r j Hr Hj. cbn [List.length] in Hr.
    replace r with 0 by lia. cbn [nth].
    rewrite get_pick by assumption. reflexivity. }
  assert (E2 : np.item_row (pick n (ncols alphas) sigma same alphas) i
               = np.item_row alphas (sigma i)).
  { unfold np.item_row. shapes.
    rewrite (proj2 (Nat.ltb_lt _ _) Hi). rewrite Ha, (proj2 (Nat.ltb_lt _ _) Bi).
    f_equal. apply tabulate1_ext. intros j Hj.
    rewrite get_pick by assumption. reflexivity. }
  rewrite E1, E2. reflexivity.
Qed.

Lemma jacobian_block_shape (ex : bool) (k nrf : nat) (betas lam alphas : matrix A)
                           (i : nat) (b : matrix A) :
  jacobian_block ex k nrf betas lam alphas i = Ok b ->
  nrows lam = k + (if ex then 0 else 1) ->
  nrows b = k + nrf /\ ncols b = k + 1.
Proof.
  intros H Hl. unfold jacobian_block in H.
  inv_bind H. destruct ex; inv_bind Ex2; shape_facts; lia.
Qed.

Lemma for_each_app {S : Type} (body : S -> nat -> result S) (s : S) (l1 l2 : list nat) :
  LinearFactorModel.for_each body s (l1 ++ l2)
  = (s' <- LinearFactorModel.for_each body s l1 ;;
     LinearFactorModel.for_each body s' l2).
Proof.
  revert s. induction l1 as [|a l1 IH]; intros s; simpl; [reflexivity|].
  destruct (body s a); simpl; [apply IH | reflexivity].
Qed.

Lemma for_each_ext {S : Type} (body body' : S -> nat -> result S) :
  (forall s i, body s i = body' s i) ->
  forall range s,
    LinearFactorModel.for_each body s range = LinearFactorModel.for_each body' s range.
Proof.
  intros H. induction range as [|i rest IH]; intros s; simpl; [reflexivity|].
  rewrite H. destruct (body' s i); simpl; [apply IH | reflexivity].
Qed.

(** One pass of the loop computes its block and stores it. *)
Lemma jacobian_row_block_split (ex : bool) (k nrf s2 s3 : nat)
      (betas lam alphas G : matrix A) (i : nat) :
  LinearFactorModel.jacobian_row_block ex k nrf s2 s3 betas lam alphas G i
  = (block <- jacobian_block ex k nrf betas lam alphas i ;;
     np.set_slice G s2 (Some s3) (i * (k + 1)) (Some ((i + 1) * (k + 1))) block).
Proof.
  unfold LinearFactorModel.jacobian_row_block, jacobian_block. cbv zeta.
  destruct (np.take_rows betas [i]) as [bi|]; cbn [bind]; [|reflexivity].
  destruct (np.matmul (np.T_ bi) _) as [block|]; cbn [bind]; [|reflexivity].
  destruct (np.item_row alphas i) as [ai|]; cbn [bind]; [|reflexivity].
  destruct (if ex then _ else _) as [block'|]; cbn [bind]; [|reflexivity].
  destruct (np.c_ _ block') as [b|]; reflexivity.
Qed.

Lemma loop_split (ex : bool) (k nrf s2 s3 : nat) (betas lam alphas G : matrix A)
      (range : list nat) :
  LinearFactorModel.for_each
    (LinearFactorModel.jacobian_row_block ex k nrf s2 s3 betas lam alphas) G range
  = LinearFactorModel.for_each
      (fun G i => block <- jacobian_block ex k nrf betas lam alphas i ;;
                  np.set_slice G s2 (Some s3) (i * (k + 1)) (Some ((i + 1) * (k + 1)))
                    block)
      G range.
Proof. apply for_each_ext. intros s i. apply jacobian_row_block_split. Qed.

(** The Jacobian after the first [m] passes of the loop. *)
Lemma loop_form (blockf : nat -> result (matrix A)) (blk : nat -> matrix A)
                (s2 s3 K L : nat) (G : matrix A) (m : nat) :
  (forall i, i < m ->
             blockf i = Ok (blk i) /\ nrows (blk i) = s3 - s2 /\ ncols (blk i) = K) ->
  nrows G = L -> ncols G = L -> s2 <= s3 -> s3 <= L -> m * K <= L -> 0 < K ->
  exists G',
    LinearFactorModel.for_each
      (fun G i => block <- blockf i ;;
                  np.set_slice G s2 (Some s3) (i * K) (Some ((i + 1) * K)) block)
      G (seq 0 m) = Ok G'
    /\ nrows G' = L /\ ncols G' = L
    /\ forall r c, r < L -> c < L ->
         np.get G' r c
         = if (s2 <=? r) && (r <? s3) && (c <? m * K)
           then np.get (blk (c / K)) (r - s2) (c mod K)
           else np.get G r c.
Proof.
  intros Hblk HG1 HG2 H23 H3L. induction m as [|m IH]; intros HmL HK.
  - exists G. split; [reflexivity|]. split; [exact HG1|]. split; [exact HG2|].
    intros r c Hr Hc. rewrite Nat.mul_0_l.
    destruct (Nat.ltb_spec c 0); [lia|]. rewrite andb_false_r. reflexivity.
  - destruct IH as (G1 & E1 & S1 & S2 & F1); [intros i Hi; apply Hblk; lia | lia | exact HK |].
    destruct (Hblk m ltac:(lia)) as (Eb & Sb1 & Sb2).
    rewrite seq_S, for_each_app, E1. cbn [bind LinearFactorModel.for_each Nat.add].
    rewrite Nat.add_0_l. rewrite Eb. cbn [bind].
    rewrite (set_slice_ok_eq G1 s2 (Some s3) (m * K) (Some ((m + 1) * K)) (blk m)
               s3 ((m + 1) * K)) by (try reflexivity; lia).
    eexists. split; [reflexivity|]. shapes. split; [exact S1|]. split; [exact S2|].
    intros r c Hr Hc. rewrite get_tabulate by lia.
    rewrite (F1 r c Hr Hc).
    destruct (Nat.leb_spec s2 r); [|reflexivity].
    destruct (Nat.ltb_spec r s3); [|reflexivity]. cbn [andb].
    destruct (Nat.leb_spec (m * K) c) as [X|X].
    + destruct (Nat.ltb_spec c (m * K)); [lia|].
      destruct (Nat.ltb_spec c ((m + 1) * K)) as [Y|Y].
      * destruct (Nat.ltb_spec c (S m * K)); [|lia].
        assert (D : c / K = m)
          by (symmetry; apply (Nat.div_unique c K m (c - m * K)); lia).
        assert (M : c mod K = c - m * K)
          by (symmetry; apply (Nat.mod_unique c K m (c - m * K)); lia).
        rewrite D, M. reflexivity.
      * destruct (Nat.ltb_spec c (S m * K)); [lia | reflexivity].
    + destruct (Nat.ltb_spec c (m * K)); [|lia].
      destruct (Nat.ltb_spec c (S m * K)); [reflexivity | lia].
Qed.

(** Every pass of a successful loop has built its block. *)
Lemma loop_blocks (blockf : nat -> result (matrix A)) (s2 s3 K : nat)
                  (m : nat) (G G' : matrix A) :
  LinearFactorModel.for_each
    (fun G i => block <- blockf i ;;
                np.set_slice G s2 (Some s3) (i * K) (Some ((i + 1) * K)) block)
    G (seq 0 m) = Ok G' ->
  forall i, i < m -> exists b, blockf i = Ok b.
Proof.
  revert G'. induction m as [|m IH]; intros G' H i Hi; [lia|].
  rewrite seq_S, for_each_app in H. apply bind_ok in H. destruct H as (G1 & E1 & H).
  destruct (Nat.eq_dec i m) as [->|Hne].
  - cbn [LinearFactorModel.for_each Nat.add] in H. rewrite Nat.add_0_l in H.
    destruct (blockf m) as [b|e]; [exists b; reflexivity | discriminate].
  - apply (IH G1 E1). lia.
Qed.

(** The part of the Jacobian that is set before the loop does not move
    with the portfolios. *)
Lemma frame_invariant (n K s3 L : nat) sigma (q bb g1 g2 : matrix A) :
  np.set_slice (np.eye L) 0 (Some (K * n)) 0 (Some (K * n))
    (np.kron (np.eye n) q) = Ok g1 ->
  np.set_slice g1 (K * n) (Some s3) (K * n) (Some s3) bb = Ok g2 ->
  0 < K -> nrows q = K -> ncols q = K ->
  nrows bb = s3 - K * n -> ncols bb = s3 - K * n ->
  K * n <= s3 -> L = s3 \/ L = s3 + n -> reorders n sigma ->
  forall i j, i < L -> j < L ->
    np.get g2 (moment_order K (K * n) s3 sigma i) (moment_order K (K * n) s3 sigma j)
    = np.get g2 i j.
Proof.
  intros H1 H2 HK Hq1 Hq2 Hb1 Hb2 H3 HL R i j Hi Hj.
  assert (L3 : s3 <= L) by lia.
  pose proof (set_slice_shape _ _ _ _ _ _ _ H1) as [G11 G12].
  rewrite nrows_eye in G11. rewrite ncols_eye in G12.
  rewrite (set_slice_inv _ _ _ _ _ _ _ s3 s3 H2) by (try reflexivity; lia).
  rewrite (set_slice_inv _ _ _ _ _ _ _ (K * n) (K * n) H1)
    by (shapes; try reflexivity; nia).
  shapes.
  pose proof (moment_order_reorders K n s3 L sigma HK R H3 HL) as [Tb Ti].
  destruct (moment_order_ranges K n s3 L sigma i HK R H3 HL Hi) as (I1 & I2 & I3).
  destruct (moment_order_ranges K n s3 L sigma j HK R H3 HL Hj) as (J1 & J2 & J3).
  set (tau := moment_order K (K * n) s3 sigma) in *.
  pose proof (Tb i Hi) as Bi. pose proof (Tb j Hj) as Bj.
  rewrite !get_tabulate by (shapes; assumption).
  destruct (Nat.lt_ge_cases i (K * n)) as [X|X];
    destruct (Nat.lt_ge_cases j (K * n)) as [Y|Y].
  - specialize (I1 X). specialize (J1 Y). compare_positions.
    rewrite !Nat.sub_0_r. rewrite !kron_get by (shapes; nia).
    rewrite Hq1, Hq2. unfold tau. rewrite !moment_order_low by assumption.
    rewrite !block_at_div, !block_at_mod by exact HK.
    rewrite eye_reorders; [reflexivity | exact R | |]; apply div_below; assumption.
  - specialize (I1 X).
    assert (K * n <= tau j).
    { destruct (Nat.lt_ge_cases j s3) as [Z|Z];
        [rewrite (J2 Y Z); lia | specialize (J3 Z); lia]. }
    compare_positions; rewrite !eye_get by assumption;
      (destruct (Nat.eqb_spec (tau i) (tau j)); [lia|]);
      (destruct (Nat.eqb_spec i j); [lia | reflexivity]).
  - specialize (J1 Y).
    assert (K * n <= tau i).
    { destruct (Nat.lt_ge_cases i s3) as [Z|Z];
        [rewrite (I2 X Z); lia | specialize (I3 Z); lia]. }
    compare_positions; rewrite !eye_get by assumption;
      (destruct (Nat.eqb_spec (tau i) (tau j)); [lia|]);
      (destruct (Nat.eqb_spec i j); [lia | reflexivity]).
  - destruct (Nat.lt_ge_cases i s3) as [Zi|Zi];
      destruct (Nat.lt_ge_cases j s3) as [Zj|Zj].
    + rewrite (I2 X Zi), (J2 Y Zj). reflexivity.
    + rewrite (I2 X Zi). specialize (J3 Zj).
      compare_positions; rewrite !eye_get by assumption;
        (destruct (Nat.eqb_spec i (tau j)); [lia|]);
        (destruct (Nat.eqb_spec i j); [lia | reflexivity]).
    + rewrite (J2 Y Zj). specialize (I3 Zi).
      compare_positions; rewrite !eye_get by assumption;
        (destruct (Nat.eqb_spec (tau i) j); [lia|]);
        (destruct (Nat.eqb_spec i j); [lia | reflexivity]).
    + specialize (I3 Zi). specialize (J3 Zj).
      compare_positions; rewrite !eye_get by assumption;
        destruct (Nat.eqb_spec (tau i) (tau j)) as [E|E];
        destruct (Nat.eqb_spec i j) as [E'|E']; try reflexivity.
      * apply Ti in E; [contradiction | assumption | assumption].
      * subst j. contradiction.
Qed.

End TwoPassParts.

Section TwoPassReplay.

Context {A : Type} {SA : Scalar A} {ES : @ExactScalar A SA}
        {LA : LinAlg A} {LS : @LinAlgShapes A LA} {DI : DataInput A}.

Lemma stage_reordered (p f : matrix A) (pn pn' fn : list string) (nm : string) sg
                      sigma (ex : bool) st :
  let n := ncols p in
  let k := ncols f in
  let K := k + 1 in
  let nrf := if ex then 0 else 1 in
  let s3 := K * n + (k + nrf) in
  let p' := pick (nrows p) n same sigma p in
  reorders n sigma ->
  LinearFactorModel.moments_and_jacobian
    (LinearFactorModel.Build
       (TradedFactorModel.Build (mkIVData p pn) (mkIVData f fn) nm) sg) ex = Ok st ->
  (forall fc, np.c_ (np.ones (nrows f) 1) f = Ok fc ->
              lstsq fc p' = Some (pick K n same sigma (LinearFactorModel.st_b st))) ->
  lstsq (pick n (k + nrf) sigma same (LinearFactorModel.st_betas st))
        (np.col (np.mean0 p')) = Some (LinearFactorModel.st_lam st) ->
  exists st',
    LinearFactorModel.moments_and_jacobian
      (LinearFactorModel.Build
         (TradedFactorModel.Build (mkIVData p' pn') (mkIVData f fn) nm) sg) ex = Ok st'
    /\ LinearFactorModel.st_alphas st'
       = pick n 1 sigma same (LinearFactorModel.st_alphas st)
    /\ LinearFactorModel.st_betas st'
       = pick n (k + nrf) sigma same (LinearFactorModel.st_betas st)
    /\ LinearFactorModel.st_lam st' = LinearFactorModel.st_lam st
    /\ LinearFactorModel.st_S st'
       = pick (s3 + n) (s3 + n) (moment_order K (K * n) s3 sigma)
           (moment_order K (K * n) s3 sigma) (LinearFactorModel.st_S st)
    /\ LinearFactorModel.st_G st'
       = pick (s3 + n) (s3 + n) (moment_order K (K * n) s3 sigma)
           (moment_order K (K * n) s3 sigma) (LinearFactorModel.st_G st).
Proof.
  intros n k K nrf s3 p' R H H1 H2.
  pose proof (stage_shapes _ _ _ H) as SS. cbv zeta in SS.
  cbn [LinearFactorModel.portfolios LinearFactorModel.factors LinearFactorModel.base
       TradedFactorModel.portfolios TradedFactorModel.factors ndarray_] in SS.
  unfold LinearFactorModel.moments_and_jacobian, np.shape in H |- *.
  cbn [LinearFactorModel.portfolios LinearFactorModel.factors LinearFactorModel.base
       TradedFactorModel.portfolios TradedFactorModel.factors ndarray_ cols
       TradedFactorModel._name] in H |- *.
  subst p' s3 K nrf k n. rewrite ?ncols_pick.
  remember (ncols p) as n eqn:Hn in *.
  remember (ncols f) as k eqn:Hk in *.
  remember (nrows f) as nobs eqn:Hnobs in *.
  remember (if ex then 0 else 1) as nrf eqn:Hnrf in *.
  assert (Nrf : nrf <= 1) by (subst nrf; destruct ex; lia).
  inv_bind H. injection H as <-.
  cbn [LinearFactorModel.st_b LinearFactorModel.st_eps LinearFactorModel.st_betas
       LinearFactorModel.st_lam LinearFactorModel.st_alphas LinearFactorModel.st_S
       LinearFactorModel.st_G] in *.
  destruct R as [Rb Ri]. assert (R : reorders n sigma) by (split; assumption).
  set (K := k + 1) in *. set (kb := k + nrf) in *.
  set (s3 := K * n + kb) in *. set (L := s3 + n) in *.
  assert (HKd : K = k + 1) by reflexivity.
  assert (Hkb : kb = k + nrf) by reflexivity.
  assert (Hs3 : s3 = K * n + kb) by reflexivity.
  assert (HLd : L = s3 + n) by reflexivity.
  assert (HK : 0 < K) by lia.
  set (al := np.col (np.mean0 x7)) in *.
  set (cS := np.of_nat (A := A) nobs) in *.
  destruct SS as (Sb1 & Sb2 & S31 & S32 & S41 & S42 & Sa1 & Sa2 & SS1 & SS2 & SG1 & SG2).
  rewrite nrows_div_scalar in SS1. rewrite ncols_div_scalar in SS2.
  (* shapes of the first run *)
  pose proof (c_shape _ _ _ Ex) as (_ & Sx1 & Sx2).
  rewrite nrows_ones in Sx1. rewrite ncols_ones in Sx2.
  pose proof (lstsq_ok_shape _ _ _ Ex0) as (Sp & _ & _).
  pose proof (matmul_shape _ _ _ Ex1) as (_ & S11 & S12).
  pose proof (broadcast_shape _ _ _ _ Ex2) as [S21 S22].
  rewrite (bdim_eq (nrows p) (nrows x1) nobs) in S21 by lia.
  rewrite (bdim_eq (ncols p) (ncols x1) n) in S22 by lia.
  injection S21 as S21. injection S22 as S22.
  pose proof (matmul_shape _ _ _ Ex6) as (_ & S61 & S62).
  pose proof (broadcast_shape _ _ _ _ Ex7) as [S71 S72].
  rewrite nrows_T, S62, S42, bdim_one_r in S71.
  rewrite ncols_T in S72. rewrite (bdim_eq (ncols p) (nrows x6) n) in S72 by lia.
  injection S71 as S71. injection S72 as S72.
  pose proof (reshape_shape _ _ _ _ Ex5) as (_ & S51 & S52).
  pose proof (broadcast_shape _ _ _ _ Ex8) as [S81 S82].
  rewrite nrows_tile, nrows_T in S81. rewrite ncols_tile, ncols_T in S82.
  rewrite (bdim_eq (1 * nrows x) (ncols x5) nobs) in S81 by lia.
  rewrite (bdim_eq (n * ncols x) (nrows x5) (n * K)) in S82 by nia.
  injection S81 as S81. injection S82 as S82.
  pose proof (matmul_shape _ _ _ Ex9) as (_ & S91 & S92).
  pose proof (broadcast_shape _ _ _ _ Ex10) as [S101 S102].
  rewrite nrows_T in S101. rewrite ncols_T in S102.
  unfold al in S101, S102. rewrite ncols_col in S101.
  rewrite nrows_col, length_mean0 in S102.
  rewrite bdim_one_r in S101. rewrite bdim_same in S102.
  injection S101 as S101. injection S102 as S102.
  pose proof (c_shape _ _ _ Ex11) as (_ & S111 & S112).
  pose proof (c_shape _ _ _ Ex12) as (_ & S121 & S122).
  pose proof (matmul_shape _ _ _ Ex13) as (_ & S131 & S132).
  pose proof (matmul_shape _ _ _ Ex14) as (_ & S141 & S142).
  rewrite nrows_T in S141.
  pose proof (set_slice_shape _ _ _ _ _ _ _ Ex15) as [S151 S152].
  rewrite nrows_eye in S151. rewrite ncols_eye in S152.
  rewrite nrows_div_scalar in *.
  pose proof (matmul_shape _ _ _ Ex16) as (_ & S161 & S162).
  rewrite nrows_T in S161.
  pose proof (set_slice_shape _ _ _ _ _ _ _ Ex17) as [S171 S172].
  assert (S191 : nrows x19 = K /\ ncols x19 = 1).
  { clear - Ex19 S41 S42 Hkb Hnrf HKd. subst nrf.
    destruct ex; apply r_shape in Ex19; shapes; lia. }
  destruct S191 as [S191 S192].
  replace (nrows x13) with L in Ex15 by lia.
  pose proof (moment_order_reorders K n s3 L sigma HK R ltac:(lia)
                ltac:(right; reflexivity)) as RT.
  assert (Tb : forall J, J < L -> moment_order K (K * n) s3 sigma J < L)
    by (destruct RT as [Tb _]; exact Tb).
  set (tau := moment_order K (K * n) s3 sigma) in *.
  assert (Sp' : nrows p = nobs) by lia. rewrite Sp' in *.
  (* the second run, step by step *)
  assert (F0 : np_lstsq x (pick nobs n same sigma p) = Ok (pick K n same sigma x0)).
  { unfold np_lstsq, singular. rewrite (H1 x Ex). reflexivity. }
  pose proof (matmul_pick_r n sigma _ _ _ Ex1 ltac:(below Rb)) as F1.
  replace (nrows x0) with K in F1 by lia.
  replace (nrows x1) with nobs in F1 by lia.
  pose proof (broadcast_pick_cols fsub n sigma _ _ _ Ex2 ltac:(lia) ltac:(below Rb)) as F2.
  rewrite Sp' in F2.
  replace (nrows x1) with nobs in F2 by lia.
  replace (nrows x2) with nobs in F2 by lia.
  fold (@np.sub A SA) in F2.
  pose proof (betas_pick ex x0 x3 K n sigma Ex3 Sb1 Sb2 Rb) as F3.
  rewrite S32 in F3.
  assert (F4 : np_lstsq (pick n kb sigma same x3)
                 (np.col (np.mean0 (pick nobs n same sigma p))) = Ok x4).
  { unfold np_lstsq, singular. rewrite H2. reflexivity. }
  destruct (stacked_residuals_C_pick x2 x5 K nobs n sigma Ex5 HK
              ltac:(lia) ltac:(lia) R) as (x5' & F5 & T5).
  pose proof (matmul_pick_l n sigma _ _ _ Ex6 ltac:(below Rb)) as F6.
  rewrite S32 in F6. replace (ncols x6) with 1 in F6 by lia.
  pose proof (broadcast_pick_cols fsub n sigma p (np.T_ x6) x7 Ex7
                ltac:(rewrite ncols_T; lia) ltac:(below Rb)) as F7.
  rewrite Sp' in F7. rewrite nrows_T in F7.
  replace (ncols x6) with 1 in F7 by lia.
  replace (nrows x7) with nobs in F7 by lia.
  rewrite <- (T_pick n 1 sigma same x6) in F7 by (unfold same; intros; lia || below Rb).
  fold (@np.sub A SA) in F7.
  pose proof (col_mean0_pick n sigma x7 ltac:(below Rb)) as AL.
  replace (nrows x7) with nobs in AL by lia. fold al in AL.
  pose proof (broadcast_pick_cols fmul (n * K) (block_at K sigma) _ _ _ Ex8
                ltac:(rewrite ncols_tile, ncols_T; nia)
                ltac:(intros; rewrite ncols_tile;
                      replace (n * ncols x) with (K * n) by nia;
                      apply block_at_bound; [exact HK | exact R | lia])) as F8.
  rewrite (tile_cols_pick x n K (n * K) sigma HK ltac:(lia) ltac:(nia) R) in F8.
  rewrite nrows_T in F8.
  replace (ncols x5) with nobs in F8 by lia.
  replace (nrows x8) with nobs in F8 by lia.
  rewrite <- T5 in F8. fold (@np.mul A SA) in F8.
  pose proof (matmul_pick_inner sigma _ _ _ Ex9 ltac:(below Rb)
                ltac:(intros g; replace (ncols x7) with n by lia;
                      apply sum_reindex; exact R)) as F9.
  replace (nrows x7) with nobs in F9 by lia.
  replace (ncols x7) with n in F9 by lia.
  rewrite S31, S32 in F9.
  pose proof (broadcast_pick_cols fsub n sigma x7 (np.T_ al) x10 Ex10
                ltac:(rewrite ncols_T; lia) ltac:(below Rb)) as F10.
  rewrite nrows_T, Sa2 in F10.
  replace (nrows x7) with nobs in F10 by lia.
  replace (nrows x10) with nobs in F10 by lia.
  rewrite <- (T_pick n 1 sigma same al) in F10 by (unfold same; intros; lia || below Rb).
  fold (@np.sub A SA) in F10.
  pose proof (c_pick_l _ _ _ (n * K) (block_at K sigma) Ex11 ltac:(lia)
                ltac:(intros; replace (n * K) with (K * n) in * by lia;
                      apply block_at_bound; assumption)) as F11.
  replace (nrows x8) with nobs in F11 by lia.
  replace (nrows x11) with nobs in F11 by lia.
  replace (ncols x9) with kb in F11 by lia.
  pose proof (c_pick_both _ _ _ (n * K + kb) n
                (fun J => if J <? n * K then block_at K sigma J else J) sigma
                Ex12 ltac:(lia) ltac:(lia)) as F12.
  replace (nrows x11) with nobs in F12 by lia.
  replace (nrows x10) with nobs in F12 by lia.
  replace (nrows x12) with nobs in F12 by lia.
  specialize (F12
    ltac:(intros j Hj; destruct (Nat.ltb_spec j (n * K)); [|lia];
          replace (n * K) with (K * n) in * by lia;
          pose proof (block_at_bound K n sigma j HK R ltac:(assumption)); lia)
    ltac:(below Rb)).
  assert (P12 : pick nobs (n * K + kb + n) same
                  (fun J => if J <? n * K + kb
                            then if J <? n * K then block_at K sigma J else J
                            else n * K + kb + sigma (J - (n * K + kb))) x12
                = pick nobs L same tau x12).
  { unfold pick. apply tabulate_ext2; [reflexivity | lia |].
    intros i J Hi HJ. f_equal. unfold tau, moment_order.
    replace (n * K) with (K * n) by lia. fold s3.
    destruct (Nat.ltb_spec J s3); destruct (Nat.ltb_spec J (K * n));
      try reflexivity; lia. }
  rewrite P12 in F12. clear P12.
  assert (F13 : np.matmul (np.T_ (pick nobs L same tau x12)) (pick nobs L same tau x12)
                = Ok (pick L L tau tau x13)).
  { rewrite T_pick by (unfold same; intros; lia || below Tb).
    pose proof (matmul_pick L L tau tau same _ _ _ Ex13 ltac:(rewrite nrows_T; below Tb)
                  ltac:(below Tb) ltac:(unfold same; auto)
                  ltac:(intros g; apply sum_same)) as M.
    rewrite ncols_T in M. replace (nrows x12) with nobs in M by lia. exact M. }
  pose proof (matmul_pick_inner sigma (np.T_ x3) x3 x16 Ex16
                ltac:(rewrite ncols_T; below Rb)
                ltac:(intros g; rewrite ncols_T, S31; apply sum_reindex; exact R)) as F16.
  rewrite nrows_T, ncols_T, S31, S32 in F16.
  rewrite <- (T_pick n kb sigma same x3) in F16 by (unfold same; intros; lia || below Rb).
  (* replay up to the loop *)
  rewrite Ex. cbn [bind]. rewrite F0. cbn [bind]. rewrite F1. cbn [bind].
  rewrite F2. cbn [bind]. rewrite F3. cbn [bind]. rewrite F4. cbn [bind].
  rewrite F5. cbn [bind]. rewrite F6. cbn [bind]. rewrite F7. cbn [bind].
  rewrite F8. cbn [bind]. rewrite F9. cbn [bind]. rewrite AL.
  rewrite F10. cbn [bind]. rewrite F11. cbn [bind]. rewrite F12. cbn [bind].
  rewrite F13. cbn [bind]. rewrite Ex14. cbn [bind].
  rewrite nrows_div_scalar, nrows_pick. rewrite Ex15. cbn [bind].
  rewrite F16. cbn [bind]. rewrite Ex17. cbn [bind].
  (* the loop *)
  pose proof Ex18 as Ex18s. rewrite loop_split in Ex18s.
  set (blockf := jacobian_block ex k nrf x3 x4 al).
  set (blk := fun i => match blockf i with Ok b => b | Err _ => x17 end).
  assert (Hblk : forall i, i < n ->
            blockf i = Ok (blk i)
            /\ nrows (blk i) = s3 - K * n /\ ncols (blk i) = K).
  { intros i Hi.
    destruct (loop_blocks blockf (K * n) s3 K n x17 x18 Ex18s i Hi) as (b & Eb).
    unfold blk. rewrite Eb. split; [reflexivity|].
    destruct (jacobian_block_shape ex k nrf x3 x4 al i b Eb
                ltac:(rewrite S41, Hkb, Hnrf; reflexivity)). lia. }
  destruct (loop_form blockf blk (K * n) s3 K L x17 n Hblk
              ltac:(lia) ltac:(lia) ltac:(lia) ltac:(lia) ltac:(lia) HK)
    as (G3 & E3 & _ & _ & Form3).
  assert (EG3 : Ok G3 = Ok x18) by (rewrite <- E3; exact Ex18s).
  injection EG3 as ->. clear E3.
  set (blockf' := jacobian_block ex k nrf
                    (pick n kb sigma same x3) x4 (pick n 1 sigma same al)).
  assert (Hblk' : forall i, i < n ->
            blockf' i = Ok (blk (sigma i))
            /\ nrows (blk (sigma i)) = s3 - K * n /\ ncols (blk (sigma i)) = K).
  { intros i Hi. unfold blockf'.
    pose proof (jacobian_block_pick ex k nrf x3 x4 al n sigma i Hi S31 Sa1 Rb) as JP.
    rewrite S32, Sa2 in JP. rewrite JP. apply Hblk. apply Rb. exact Hi. }
  destruct (loop_form blockf' (fun i => blk (sigma i)) (K * n) s3 K L x17 n Hblk'
              ltac:(lia) ltac:(lia) ltac:(lia) ltac:(lia) ltac:(lia) HK)
    as (G3' & E3' & SG1' & SG2' & Form3').
  assert (E3'' : LinearFactorModel.for_each
                   (LinearFactorModel.jacobian_row_block ex k nrf (K * n) s3
                      (pick n kb sigma same x3) x4 (pick n 1 sigma same al))
                   x17 (seq 0 n) = Ok G3') by (rewrite loop_split; exact E3').
  rewrite E3''. cbn [bind]. rewrite Ex19. cbn [bind].
  pose proof (for_each_shape
                (LinearFactorModel.jacobian_row_block ex k nrf (K * n) s3 x3 x4 al)
                ltac:(intros G i G' HB;
                      unfold LinearFactorModel.jacobian_row_block in HB;
                      inv_bind HB; apply set_slice_shape in HB; exact HB)
                _ _ _ Ex18) as [S181 S182].
  rewrite (set_slice_ok_eq G3' s3 None 0 (Some (K * n)) _ L (K * n))
    by (autorewrite with shp; try reflexivity; nia).
  eexists. split; [reflexivity|].
  cbn [LinearFactorModel.st_alphas LinearFactorModel.st_betas LinearFactorModel.st_lam
       LinearFactorModel.st_S LinearFactorModel.st_G].
  split; [reflexivity|]. split; [reflexivity|]. split; [reflexivity|]. split.
  { apply div_scalar_pick; below Tb. }
  rewrite (set_slice_inv _ _ _ _ _ _ _ L (K * n) Ex20)
    by (autorewrite with shp; try reflexivity; nia).
  unfold pick. apply tabulate_ext2; [lia | lia |].
  rewrite SG1', SG2'. intros r c Hr Hc.
  pose proof (Tb r Hr) as Br. pose proof (Tb c Hc) as Bc.
  rewrite get_tabulate by lia.
  rewrite (Form3' r c Hr Hc), (Form3 (tau r) (tau c) Br Bc).
  destruct (moment_order_ranges K n s3 L sigma r HK R ltac:(lia)
              ltac:(right; reflexivity) Hr) as (R1 & R2 & R3).
  destruct (moment_order_ranges K n s3 L sigma c HK R ltac:(lia)
              ltac:(right; reflexivity) Hc) as (C1 & C2 & C3).
  fold tau in R1, R2, R3, C1, C2, C3.
  assert (Frame : np.get x17 (tau r) (tau c) = np.get x17 r c).
  { apply (frame_invariant n K s3 L sigma (np.div_scalar x14 cS) x16 x15 x17 Ex15 Ex17);
      try assumption; autorewrite with shp; lia. }
  destruct (Nat.lt_ge_cases c (K * n)) as [Y|Y].
  - specialize (C1 Y).
    destruct (Nat.lt_ge_cases r (K * n)) as [X|X];
      [|destruct (Nat.lt_ge_cases r s3) as [Z|Z]].
    + specialize (R1 X). compare_positions. symmetry. exact Frame.
    + rewrite (R2 X Z). compare_positions.
      unfold tau. rewrite (moment_order_low K (K * n) s3 sigma c Y).
      rewrite block_at_div, block_at_mod by exact HK. reflexivity.
    + specialize (R3 Z). compare_positions.
      rewrite !Nat.sub_0_r. rewrite !kron_get by (autorewrite with shp; nia).
      rewrite nrows_T, ncols_T, S191, S192.
      unfold tau. rewrite (moment_order_low K (K * n) s3 sigma c Y).
      rewrite (moment_order_high K (K * n) s3 sigma r) by lia.
      rewrite block_at_div, block_at_mod by exact HK.
      rewrite !Nat.div_1_r, !Nat.mod_1_r.
      replace (s3 + sigma (r - s3) - s3) with (sigma (r - s3)) by lia.
      rewrite eye_reorders; [reflexivity | exact R | lia |].
      apply div_below; assumption.
  - assert (Y' : K * n <= tau c).
    { destruct (Nat.lt_ge_cases c s3) as [Z|Z];
        [rewrite (C2 Y Z); lia | specialize (C3 Z); lia]. }
    destruct (Nat.ltb_spec c (K * n)); [lia|].
    destruct (Nat.ltb_spec (tau c) (K * n)); [lia|].
    destruct (Nat.ltb_spec c (n * K)); [lia|].
    destruct (Nat.ltb_spec (tau c) (n * K)); [lia|].
    rewrite !andb_false_r. symmetry. exact Frame.
Qed.
End TwoPassReplay.

Section TwoPassFit.

Context {A : Type} {SA : Scalar A} {ES : @ExactScalar A SA}
        {LA : LinAlg A} {LS : @LinAlgShapes A LA} {DI : DataInput A}.

Lemma alpha_slice_pick (full : matrix A) (s3 n L : nat) sigma tau :
  nrows full = L -> ncols full = L -> L = s3 + n ->
  (forall i, i < n -> tau (s3 + i) = s3 + sigma i) ->
  (forall i, i < n -> sigma i < n) ->
  np.slice (pick L L tau tau full) s3 None s3 None
  = pick n n sigma sigma (np.slice full s3 None s3 None).
Proof.
  intros H1 H2 HL Ht Hs. unfold np.slice at 1. cbn [np.slice_bounds fst snd].
  rewrite nrows_pick, ncols_pick. unfold pick at 2.
  rewrite (Nat.min_l s3 L) by lia.
  apply tabulate_ext2; [lia | lia |]. intros i j Hi Hj.
  assert (Bi : sigma i < n) by (apply Hs; lia).
  assert (Bj : sigma j < n) by (apply Hs; lia).
  rewrite get_pick by lia. rewrite !Ht by lia.
  unfold np.slice. cbn [np.slice_bounds fst snd]. rewrite H1, H2.
  rewrite (Nat.min_l s3 L) by lia.
  rewrite get_tabulate by lia. reflexivity.
Qed.

Lemma two_pass_reordered (p f : matrix A) (pn pn' fn : list string) (nm : string) sg
                         sigma (ex : bool) ct cfg st res :
  let n := ncols p in
  let k := ncols f in
  let K := k + 1 in
  let nrf := if ex then 0 else 1 in
  let s3 := K * n + (k + nrf) in
  let tau := moment_order K (K * n) s3 sigma in
  let p' := pick (nrows p) n same sigma p in
  let self := LinearFactorModel.Build
                (TradedFactorModel.Build (mkIVData p pn) (mkIVData f fn) nm) sg in
  let self' := LinearFactorModel.Build
                 (TradedFactorModel.Build (mkIVData p' pn') (mkIVData f fn) nm) sg in
  reorders n sigma ->
  LinearFactorModel.moments_and_jacobian self ex = Ok st ->
  LinearFactorModel.fit self ex ct cfg = Ok res ->
  (forall fc, np.c_ (np.ones (nrows f) 1) f = Ok fc ->
              lstsq fc p' = Some (pick K n same sigma (LinearFactorModel.st_b st))) ->
  lstsq (pick n (k + nrf) sigma same (LinearFactorModel.st_betas st))
        (np.col (np.mean0 p')) = Some (LinearFactorModel.st_lam st) ->
  (forall x, inv (LinearFactorModel.st_G st) = Some x ->
             inv (pick (s3 + n) (s3 + n) tau tau (LinearFactorModel.st_G st))
             = Some (pick (s3 + n) (s3 + n) tau tau x)) ->
  (forall x, inv (alpha_vcv res) = Some x ->
             inv (pick n n sigma sigma (alpha_vcv res))
             = Some (pick n n sigma sigma x)) ->
  exists res',
    LinearFactorModel.fit self' ex ct cfg = Ok res'
    /\ alphas res' = pick n 1 sigma same (alphas res)
    /\ alpha_vcv res' = pick n n sigma sigma (alpha_vcv res)
    /\ stat (jstat res') = stat (jstat res).
Proof.
  intros n k K nrf s3 tau p' self self' R Hst H H1 H2 H3 H4.
  destruct (stage_reordered p f pn pn' fn nm sg sigma ex st R Hst H1 H2)
    as (st' & Hst' & Sal & Sbe & Sla & SS & SG).
  pose proof (stage_shapes _ _ _ Hst) as SH. cbv zeta in SH.
  pose proof (stage_shapes _ _ _ Hst') as SH'. cbv zeta in SH'.
  unfold LinearFactorModel.fit, np.shape in H |- *.
  assert (Hst'' : LinearFactorModel.moments_and_jacobian self' ex = Ok st')
    by exact Hst'.
  rewrite Hst in H. rewrite Hst''. cbn [bind] in H |- *.
  clear H1 H2 Hst Hst' Hst''.
  subst self self' p' tau s3 K nrf k n.
  cbn [LinearFactorModel.portfolios LinearFactorModel.factors LinearFactorModel.base
       TradedFactorModel.portfolios TradedFactorModel.factors ndarray_ cols
       TradedFactorModel._name] in *.
  rewrite ?ncols_pick in *.
  destruct st as [b eps betas lam al S G]. destruct st' as [b' eps' betas' lam' al' S' G'].
  cbn [LinearFactorModel.st_b LinearFactorModel.st_eps LinearFactorModel.st_betas
       LinearFactorModel.st_lam LinearFactorModel.st_alphas LinearFactorModel.st_S
       LinearFactorModel.st_G] in *.
  subst al' betas' lam' S' G'.
  remember (ncols p) as n eqn:Hn in *.
  remember (ncols f) as k eqn:Hk in *.
  remember (nrows f) as nobs eqn:Hnobs in *.
  remember (if ex then 0 else 1) as nrf eqn:Hnrf in *.
  assert (Nrf : nrf <= 1) by (subst nrf; destruct ex; lia).
  inv_bind H. injection H as <-. cbn [alphas alpha_vcv jstat stat] in *.
  destruct R as [Rb Ri]. assert (R : reorders n sigma) by (split; assumption).
  set (K := k + 1) in *. set (kb := k + nrf) in *.
  set (s3 := K * n + kb) in *. set (L := s3 + n) in *.
  assert (HKd : K = k + 1) by reflexivity.
  assert (Hkb : kb = k + nrf) by reflexivity.
  assert (Hs3 : s3 = K * n + kb) by reflexivity.
  assert (HLd : L = s3 + n) by reflexivity.
  assert (HK : 0 < K) by lia.
  set (cS := np.of_nat (A := A) nobs) in *.
  destruct SH as (_ & _ & Sbe1 & Sbe2 & _ & _ & Sa1 & Sa2 & SS1 & SS2 & SG1 & SG2).
  pose proof (moment_order_reorders K n s3 L sigma HK R ltac:(lia)
                ltac:(right; reflexivity)) as RT.
  assert (Tb : forall J, J < L -> moment_order K (K * n) s3 sigma J < L)
    by (destruct RT as [Tb _]; exact Tb).
  set (tau := moment_order K (K * n) s3 sigma) in *.
  pose proof (inv_ok_shape _ _ Ex) as (_ & Sx1 & Sx2).
  pose proof (matmul_shape _ _ _ Ex0) as (_ & S01 & S02).
  pose proof (matmul_shape _ _ _ Ex1) as (_ & S11 & S12).
  rewrite ncols_T in S12.
  clear SH'.
  assert (F0 : np_inv (pick L L tau tau G) = Ok (pick L L tau tau x)).
  { unfold np_inv, singular in Ex |- *.
    destruct (inv G) as [y|] eqn:E; [|discriminate]. injection Ex as ->.
    rewrite (H3 x eq_refl). reflexivity. }
  pose proof (matmul_pick L L tau tau tau _ _ _ Ex0 ltac:(below Tb) ltac:(below Tb)
                ltac:(below Tb)
                ltac:(intros g; replace (ncols x) with L by lia;
                      apply sum_reindex; exact RT)) as F1.
  replace (ncols x) with L in F1 by lia.
  replace (nrows S) with L in F1 by lia.
  pose proof (matmul_pick L L tau tau tau _ _ _ Ex1 ltac:(below Tb)
                ltac:(rewrite ncols_T; below Tb) ltac:(below Tb)
                ltac:(intros g; replace (ncols x0) with L by lia;
                      apply sum_reindex; exact RT)) as F2.
  replace (ncols x0) with L in F2 by lia.
  rewrite nrows_T in F2. replace (ncols x) with L in F2 by lia.
  rewrite <- (T_pick L L tau tau x) in F2 by (below Tb).
  rewrite F0. cbn [bind]. rewrite F1. cbn [bind]. rewrite F2. cbn [bind].
  rewrite (div_scalar_pick L L tau tau x1 cS) by (below Tb).
  set (full := np.div_scalar x1 cS) in *.
  assert (HF1 : nrows full = L) by (unfold full; rewrite nrows_div_scalar; lia).
  assert (HF2 : ncols full = L) by (unfold full; rewrite ncols_div_scalar; lia).
  rewrite (alpha_slice_pick full s3 n L sigma tau HF1 HF2 HLd
             ltac:(intros i Hi; unfold tau; rewrite moment_order_high by lia;
                   f_equal; f_equal; lia) Rb).
  set (av := np.slice full s3 None s3 None) in *.
  assert (F3 : np_inv (pick n n sigma sigma av) = Ok (pick n n sigma sigma x2)).
  { unfold np_inv, singular in Ex2 |- *.
    destruct (inv av) as [y|] eqn:E; [|discriminate]. injection Ex2 as ->.
    rewrite (H4 x2 eq_refl). reflexivity. }
  rewrite F3. cbn [bind].
  pose proof (inv_ok_shape _ _ Ex2) as (_ & S21 & S22).
  assert (Hav1 : nrows av = n)
    by (unfold av; rewrite nrows_slice, slice_count_none, HF1; lia).
  assert (Hav2 : ncols av = n)
    by (unfold av; rewrite ncols_slice, slice_count_none, HF2; lia).
  pose proof (matmul_shape _ _ _ Ex3) as (_ & S31 & S32).
  rewrite nrows_T in S31.
  rewrite (T_pick n 1 sigma same al) by (unfold same; intros; lia || below Rb).
  pose proof (matmul_pick 1 n same sigma sigma _ _ _ Ex3
                ltac:(unfold same; rewrite nrows_T; lia) ltac:(below Rb)
                ltac:(rewrite ncols_T; below Rb)
                ltac:(intros g; rewrite ncols_T, Sa1; apply sum_reindex; exact R))
    as F4.
  rewrite ncols_T, Sa1 in F4. replace (nrows x2) with n in F4 by lia.
  rewrite F4. cbn [bind].
  pose proof (matmul_pick_inner sigma _ _ _ Ex4 ltac:(below Rb)
                ltac:(intros g; replace (ncols x3) with n by lia;
                      apply sum_reindex; exact R)) as F5.
  replace (nrows x3) with 1 in F5 by lia.
  replace (ncols x3) with n in F5 by lia.
  rewrite Sa1, Sa2 in F5.
  rewrite F5. cbn [bind]. rewrite Ex5. cbn [bind].
  destruct (broadcast_ok fsub (pick (nrows p) n same sigma p)
              (np.row (np.mean0 (pick (nrows p) n same sigma p))) (nrows p) n)
    as (e' & F6 & _).
  { rewrite nrows_pick, nrows_row. apply bdim_one_r. }
  { rewrite ncols_pick, ncols_row, length_mean0, ncols_pick. apply bdim_same. }
  fold (@np.sub A SA) in F6. rewrite F6. cbn [bind].
  destruct (c_ok (pick n 1 sigma same al)
              (if ex then pick n kb sigma same betas
               else np.slice (pick n kb sigma same betas) 0 None 1 None))
    as (pr' & F7 & _).
  { destruct ex; autorewrite with shp; lia. }
  rewrite F7. cbn [bind]. rewrite Ex8. cbn [bind]. rewrite Ex9. cbn [bind].
  set (ord := np.ravel x9 ++ np.arange (K * n) s3) in *.
  assert (F10 := take_rows_alike full (pick L L tau tau full) ord x10 Ex10
                   ltac:(rewrite nrows_pick, HF1; reflexivity)).
  set (vr' := pick (List.length ord) (ncols (pick L L tau tau full)) (at_ ord) same
                (pick L L tau tau full)) in *.
  assert (F11 := take_cols_alike x10 vr' ord x11 Ex11
                   ltac:(destruct (take_rows_shape _ _ _ Ex10) as (_ & _ & ->);
                         unfold vr'; rewrite !ncols_pick, HF2; reflexivity)).
  rewrite F10. cbn [bind]. rewrite F11. cbn [bind].
  eexists. split; [reflexivity|].
  cbn [alphas alpha_vcv jstat stat]. repeat split; reflexivity.
Qed.
End TwoPassFit.

(** ** Reordering the portfolios *)

Section ReorderFacts.

Context {A : Type} {SA : Scalar A} {LA : LinAlg A} {LS : @LinAlgShapes A LA}
        {KS : Kernels A} {DI : DataInput A}.

Lemma sub_block_shape (m : matrix A) (idx : list nat) (x : matrix A) :
  sub_block m idx = Ok x ->
  nrows x = List.length idx /\ ncols x = List.length idx.
Proof.
  unfold sub_block. intros H. apply bind_ok in H. destruct H as (r & Er & H).
  apply take_cols_shape in H. apply take_rows_shape in Er. lia.
Qed.

Lemma sub_block_pick (m : matrix A) (idx : list nat) (L : nat) :
  Forall (fun i => i < L) idx -> nrows m = L -> ncols m = L ->
  sub_block m idx
  = Ok (pick (List.length idx) (List.length idx) (at_ idx) (at_ idx) m).
Proof.
  intros F H1 H2. apply sub_block_ok; [rewrite H1 | rewrite H2]; exact F.
Qed.

(** A solver that commutes with the relabelling by the list [idx], used
    through the relabelling [theta] the list stands for. *)
Lemma commutes_pick (op : matrix A -> option (matrix A)) (idx : list nat)
                    (L : nat) theta (a : matrix A) :
  commutes_at op idx a ->
  List.length idx = L -> Forall (fun i => i < L) idx ->
  (forall i, i < L -> at_ idx i = theta i) ->
  nrows a = L -> ncols a = L ->
  (forall x, op a = Some x -> nrows x = L /\ ncols x = L) ->
  forall x, op a = Some x ->
            op (pick L L theta theta a) = Some (pick L L theta theta x).
Proof.
  intros Hc Hlen F Hth Ha1 Ha2 Hx x Hop.
  destruct (Hx x Hop) as [X1 X2].
  assert (P : forall m : matrix A,
             pick L L (at_ idx) (at_ idx) m = pick L L theta theta m).
  { intros m. apply pick_ext. intros i j Hi Hj. rewrite !Hth by assumption.
    reflexivity. }
  rewrite <- !P. rewrite <- Hlen at 1 2 3 4.
  apply (Hc x); [exact Hop | |].
  - apply (sub_block_pick a idx L); assumption.
  - apply (sub_block_pick x idx L); assumption.
Qed.

Lemma traded_alpha_shapes self ct deb cfg res :
  TradedFactorModel.fit self ct deb cfg = Ok res ->
  let n := ncols (ndarray_ (TradedFactorModel.portfolios self)) in
  nrows (alphas res) = n /\ ncols (alphas res) = 1
  /\ nrows (alpha_vcv res) = n /\ ncols (alpha_vcv res) = n.
Proof.
  intros H n.
  destruct (traded_alpha_block self ct deb cfg res H) as [_ B].
  apply sub_block_shape in B. rewrite length_alpha_positions in B. fold n in B.
  unfold TradedFactorModel.fit, np.shape in H. inv_bind H. injection H as <-.
  cbn [alphas alpha_vcv] in *.
  apply pinv_ok_shape in Ex1. apply c_shape in Ex. apply matmul_shape in Ex2.
  autorewrite with shp in *. subst n. lia.
Qed.

Lemma stage_solutions self (ex : bool) st :
  LinearFactorModel.moments_and_jacobian self ex = Ok st ->
  let p := ndarray_ (LinearFactorModel.portfolios self) in
  let f := ndarray_ (LinearFactorModel.factors self) in
  (forall fc, np.c_ (np.ones (nrows f) 1) f = Ok fc ->
              lstsq fc p = Some (LinearFactorModel.st_b st))
  /\ lstsq (LinearFactorModel.st_betas st) (np.col (np.mean0 p))
     = Some (LinearFactorModel.st_lam st).
Proof.
  intros H p f. unfold LinearFactorModel.moments_and_jacobian, np.shape in H.
  fold p f in H. inv_bind H. injection H as <-.
  cbn [LinearFactorModel.st_b LinearFactorModel.st_betas LinearFactorModel.st_lam].
  unfold np_lstsq, singular in Ex0, Ex4. split.
  - intros fc Hfc. rewrite Ex in Hfc. injection Hfc as <-.
    destruct (lstsq x p); [injection Ex0 as ->; reflexivity | discriminate].
  - destruct (lstsq x3 _); [injection Ex4 as ->; reflexivity | discriminate].
Qed.

Lemma two_pass_alpha_shapes self (ex : bool) ct cfg st res :
  LinearFactorModel.moments_and_jacobian self ex = Ok st ->
  LinearFactorModel.fit self ex ct cfg = Ok res ->
  let n := ncols (ndarray_ (LinearFactorModel.portfolios self)) in
  alphas res = LinearFactorModel.st_alphas st
  /\ nrows (alpha_vcv res) = n /\ ncols (alpha_vcv res) = n.
Proof.
  intros Hst H n.
  destruct (two_pass_alpha_block self ex ct cfg res H) as [_ B].
  apply sub_block_shape in B. rewrite length_alpha_positions in B. fold n in B.
  unfold LinearFactorModel.fit, np.shape in H. rewrite Hst in H. cbn [bind] in H.
  inv_bind H. injection H as <-. cbn [alphas alpha_vcv] in *.
  split; [reflexivity | exact B].
Qed.

Lemma moment_positions_facts (n k nrf : nat) (perm : list nat) :
  Permutation perm (seq 0 n) ->
  let L := (k + 1) * n + (k + nrf) + n in
  let tau := moment_order (k + 1) ((k + 1) * n) ((k + 1) * n + (k + nrf)) (at_ perm) in
  List.length (moment_positions n k nrf perm) = L
  /\ Forall (fun i => i < L) (moment_positions n k nrf perm)
  /\ forall i, i < L -> at_ (moment_positions n k nrf perm) i = tau i.
Proof.
  intros HP L tau.
  pose proof (moment_order_reorders (k + 1) n ((k + 1) * n + (k + nrf)) L (at_ perm)
                ltac:(lia) (reorders_at _ _ HP) ltac:(lia)
                ltac:(right; reflexivity)) as [Tb _].
  fold tau in Tb. unfold moment_positions. fold L tau.
  split; [rewrite length_map, length_seq; reflexivity|]. split.
  - apply Forall_forall. intros x Hx. apply in_map_iff in Hx.
    destruct Hx as (t & <- & Ht). apply in_seq in Ht. apply Tb. lia.
  - intros i Hi. unfold at_ at 1.
    rewrite (nth_indep _ 0 (tau 0)) by (rewrite length_map, length_seq; exact Hi).
    rewrite (map_nth tau (seq 0 L) 0 i). rewrite seq_nth by exact Hi. reflexivity.
Qed.

End ReorderFacts.

Section ExactCheckFacts.

Lemma Qc_eqb_sound (x y : Qc) : Qc_eqb x y = true -> x = y.
Proof.
  unfold Qc_eqb. intros H. apply andb_true_iff in H. destruct H as [H1 H2].
  apply Z.eqb_eq in H1. apply Pos.eqb_eq in H2.
  apply Qc_is_canon. unfold Qeq. rewrite H1, H2. reflexivity.
Qed.

Lemma list_eqb_sound {X : Type} (eqb : X -> X -> bool) :
  (forall x y, eqb x y = true -> x = y) ->
  forall l1 l2, list_eqb eqb l1 l2 = true -> l1 = l2.
Proof.
  intros Hs. induction l1 as [|a l1 IH]; intros [|b l2] H; simpl in H;
    try discriminate; [reflexivity|].
  apply andb_true_iff in H. destruct H as [H1 H2].
  f_equal; [apply Hs; exact H1 | apply IH; exact H2].
Qed.

Lemma matrix_eqb_sound (a b : matrix Qc) : matrix_eqb a b = true -> a = b.
Proof.
  unfold matrix_eqb. intros H. apply andb_true_iff in H. destruct H as [H H3].
  apply andb_true_iff in H. destruct H as [H1 H2].
  apply Nat.eqb_eq in H1, H2.
  apply (list_eqb_sound _ (list_eqb_sound _ Qc_eqb_sound)) in H3.
  destruct a, b. simpl in *. subst. reflexivity.
Qed.

Lemma is_some_eqb_sound (o : option (matrix Qc)) (x : matrix Qc) :
  is_some_eqb o x = true -> o = Some x.
Proof.
  destruct o as [y|]; simpl; [|discriminate].
  intros H. apply matrix_eqb_sound in H. subst. reflexivity.
Qed.

Lemma commutes_atb_sound op idx (a : matrix Qc) :
  commutes_atb op idx a = true -> commutes_at op idx a.
Proof.
  unfold commutes_atb. intros H x a' x' E1 E2 E3.
  rewrite E1, E2, E3 in H. apply is_some_eqb_sound. exact H.
Qed.

Lemma solves_by_columnb_sound (a b : matrix Qc) idx :
  solves_by_columnb a b idx = true -> solves_by_column a b idx.
Proof.
  unfold solves_by_columnb. intros H x b' x' E1 E2 E3.
  rewrite E1, E2, E3 in H. apply is_some_eqb_sound. exact H.
Qed.

Lemma solves_by_rowb_sound (a b : matrix Qc) idx :
  solves_by_rowb a b idx = true -> solves_by_row a b idx.
Proof.
  unfold solves_by_rowb. intros H x a' b' E1 E2 E3.
  rewrite E1, E2, E3 in H. apply is_some_eqb_sound. exact H.
Qed.

End ExactCheckFacts.

Section ReorderTheorems.

Context {A : Type} {SA : Scalar A} {ES : @ExactScalar A SA}
        {LA : LinAlg A} {LS : @LinAlgShapes A LA} {KS : Kernels A}
        {DI : DataInput A}.

(** X1: in exact arithmetic, if the pseudo-inverse commutes with the
    reordering at the alpha covariance of the fit, the time-series fit on
    the portfolios put in the order [perm] succeeds as the fit on the
    portfolios as given does; its alphas and its alpha covariance are
    those of that fit in the order [perm], and its J statistic is the
    same. *)
Theorem traded_portfolio_order (perm : list nat) self self'
                               cov_type debiased cov_config res :
  Permutation perm (seq 0 (ncols (ndarray_ (TradedFactorModel.portfolios self)))) ->
  reorder_portfolios perm self = Ok self' ->
  TradedFactorModel.fit self cov_type debiased cov_config = Ok res ->
  commutes_at pinv perm (alpha_vcv res) ->
  exists res',
    TradedFactorModel.fit self' cov_type debiased cov_config = Ok res'
    /\ np.take_rows (alphas res) perm = Ok (alphas res')
    /\ sub_block (alpha_vcv res) perm = Ok (alpha_vcv res')
    /\ stat (jstat res') = stat (jstat res).
Proof.
  intros HP Hre Hfit Hc.
  destruct (traded_alpha_shapes self cov_type debiased cov_config res Hfit)
    as (A1 & A2 & V1 & V2).
  destruct self as [[p pn] [f fn] nm].
  unfold reorder_portfolios in Hre.
  cbn [TradedFactorModel.portfolios TradedFactorModel.factors TradedFactorModel._name
       ndarray_ cols] in *.
  apply bind_ok in Hre. destruct Hre as (p' & Ep & Hre). injection Hre as <-.
  pose proof (take_cols_pick _ _ _ Ep) as ->.
  pose proof (perm_length _ _ HP) as Hlen. rewrite Hlen.
  pose proof (perm_forall _ _ HP) as HF.
  assert (Hpinv : forall x, pinv (alpha_vcv res) = Some x ->
            pinv (pick (ncols p) (ncols p) (at_ perm) (at_ perm) (alpha_vcv res))
            = Some (pick (ncols p) (ncols p) (at_ perm) (at_ perm) x)).
  { apply (commutes_pick pinv perm (ncols p) (at_ perm)); auto.
    intros x Hx. apply pinv_shape in Hx. unfold np.shape in Hx.
    injection Hx as X1 X2. lia. }
  destruct (traded_reordered p f pn (map (fun j => nth j pn "") perm) fn nm
              (at_ perm) cov_type debiased cov_config res
              (reorders_at _ _ HP) Hfit Hpinv) as (res' & Hfit' & Ea & Ev & Es).
  exists res'. split; [exact Hfit'|]. split; [|split; [|exact Es]].
  - rewrite Ea. rewrite take_rows_ok by (rewrite A1; exact HF).
    rewrite Hlen, A2. reflexivity.
  - rewrite Ev. rewrite (sub_block_pick _ perm (ncols p)) by assumption.
    rewrite Hlen. reflexivity.
Qed.

(** X2: in exact arithmetic, if least squares and the inverse commute
    with the reordering at the matrices of the fit, the two-pass fit on
    the portfolios put in the order [perm] succeeds as the fit on the
    portfolios as given does; its alphas and its alpha covariance are
    those of that fit in the order [perm], and its J statistic is the
    same. *)
Theorem two_pass_portfolio_order (perm : list nat) self base'
                                 (excess_returns : bool) cov_type cov_config st res :
  Permutation perm (seq 0 (ncols (ndarray_ (LinearFactorModel.portfolios self)))) ->
  reorder_portfolios perm (LinearFactorModel.base self) = Ok base' ->
  LinearFactorModel.moments_and_jacobian self excess_returns = Ok st ->
  LinearFactorModel.fit self excess_returns cov_type cov_config = Ok res ->
  two_pass_solvers_commute perm self excess_returns st res ->
  exists res',
    LinearFactorModel.fit
      (LinearFactorModel.Build base' (LinearFactorModel._sigma self))
      excess_returns cov_type cov_config = Ok res'
    /\ np.take_rows (alphas res) perm = Ok (alphas res')
    /\ sub_block (alpha_vcv res) perm = Ok (alpha_vcv res')
    /\ stat (jstat res') = stat (jstat res).
Proof.
  intros HP Hre Hst Hfit (H1 & H2 & H3 & H4).
  destruct (two_pass_alpha_shapes self excess_returns cov_type cov_config st res
              Hst Hfit) as (Eal & V1 & V2).
  pose proof (stage_shapes self excess_returns st Hst) as SH. cbv zeta in SH.
  destruct (stage_solutions self excess_returns st Hst) as [Sb Sl].
  destruct self as [[[p pn] [f fn] nm] sg].
  unfold reorder_portfolios in Hre.
  cbn [LinearFactorModel.portfolios LinearFactorModel.factors LinearFactorModel.base
       LinearFactorModel._sigma
       TradedFactorModel.portfolios TradedFactorModel.factors TradedFactorModel._name
       ndarray_ cols] in *.
  apply bind_ok in Hre. destruct Hre as (p' & Ep & Hre). injection Hre as <-.
  pose proof (take_cols_pick _ _ _ Ep) as Epick.
  pose proof (perm_length _ _ HP) as Hlen. rewrite Hlen in Epick.
  pose proof (perm_forall _ _ HP) as HF.
  destruct SH as (Sb1 & Sb2 & Sbe1 & Sbe2 & Sl1 & Sl2 & Sa1 & Sa2 & _ & _ & SG1 & SG2).
  set (n := ncols p) in *. set (k := ncols f) in *.
  set (nrf := if excess_returns then 0 else 1) in *.
  destruct (moment_positions_facts n k nrf perm HP) as (ML & MF & MT).
  cbv zeta in ML, MF, MT.
  assert (G1 : forall fc, np.c_ (np.ones (nrows f) 1) f = Ok fc ->
            lstsq fc (pick (nrows p) n same (at_ perm) p)
            = Some (pick (k + 1) n same (at_ perm) (LinearFactorModel.st_b st))).
  { intros fc Hfc. rewrite <- Epick.
    apply (H1 fc Hfc (LinearFactorModel.st_b st)); [exact (Sb fc Hfc) | exact Ep |].
    rewrite take_cols_ok by (rewrite Sb2; exact HF).
    rewrite Hlen, Sb1. reflexivity. }
  assert (G2 : lstsq (pick n (k + nrf) (at_ perm) same (LinearFactorModel.st_betas st))
                 (np.col (np.mean0 (pick (nrows p) n same (at_ perm) p)))
               = Some (LinearFactorModel.st_lam st)).
  { rewrite col_mean0_pick by (intros j Hj; apply (perm_bound _ _ HP); exact Hj).
    apply (H2 (LinearFactorModel.st_lam st)); [exact Sl | |].
    - rewrite take_rows_ok by (rewrite Sbe1; exact HF).
      rewrite Hlen, Sbe2. reflexivity.
    - rewrite take_rows_ok by (rewrite nrows_col, length_mean0; exact HF).
      rewrite Hlen, ncols_col. reflexivity. }
  assert (G3 : forall x, inv (LinearFactorModel.st_G st) = Some x ->
            inv (pick ((k + 1) * n + (k + nrf) + n) ((k + 1) * n + (k + nrf) + n)
                   (moment_order (k + 1) ((k + 1) * n) ((k + 1) * n + (k + nrf))
                      (at_ perm))
                   (moment_order (k + 1) ((k + 1) * n) ((k + 1) * n + (k + nrf))
                      (at_ perm))
                   (LinearFactorModel.st_G st))
            = Some (pick ((k + 1) * n + (k + nrf) + n) ((k + 1) * n + (k + nrf) + n)
                      (moment_order (k + 1) ((k + 1) * n) ((k + 1) * n + (k + nrf))
                         (at_ perm))
                      (moment_order (k + 1) ((k + 1) * n) ((k + 1) * n + (k + nrf))
                         (at_ perm)) x)).
  { apply (commutes_pick inv (moment_positions n k nrf perm)); auto; try lia.
    intros x Hx. apply inv_shape in Hx. destruct Hx as [_ Hx].
    unfold np.shape in Hx. injection Hx as X1 X2. lia. }
  assert (G4 : forall x, inv (alpha_vcv res) = Some x ->
            inv (pick n n (at_ perm) (at_ perm) (alpha_vcv res))
            = Some (pick n n (at_ perm) (at_ perm) x)).
  { apply (commutes_pick inv perm n (at_ perm)); auto.
    intros x Hx. apply inv_shape in Hx. destruct Hx as [_ Hx].
    unfold np.shape in Hx. injection Hx as X1 X2. lia. }
  destruct (two_pass_reordered p f pn (map (fun j => nth j pn "") perm) fn nm sg
              (at_ perm) excess_returns cov_type cov_config st res
              (reorders_at _ _ HP) Hst Hfit G1 G2 G3 G4)
    as (res' & Hfit' & Ea & Ev & Es).
  rewrite Epick. exists res'. split; [exact Hfit'|]. split; [|split; [|exact Es]].
  - rewrite Ea. rewrite take_rows_ok by (rewrite Eal, Sa1; exact HF).
    rewrite Hlen, Eal, Sa2. reflexivity.
  - rewrite Ev. rewrite (sub_block_pick _ perm n) by assumption.
    rewrite Hlen. reflexivity.
Qed.


End ReorderTheorems.

(** On the example, with the two portfolios swapped. *)
Lemma traded_portfolio_order_witness :
  exists self' res res',
    reorder_portfolios [1; 0] Examples.traded = Ok self'
    /\ TradedFactorModel.fit Examples.traded "robust" true [] = Ok res
    /\ TradedFactorModel.fit self' "robust" true [] = Ok res'
    /\ np.take_rows (alphas res) [1; 0] = Ok (alphas res')
    /\ sub_block (alpha_vcv res) [1; 0] = Ok (alpha_vcv res')
    /\ stat (jstat res') = stat (jstat res).
Proof.
  destruct (is_ok_inv (reorder_portfolios [1; 0] Examples.traded)) as [self' Es];
    [vm_compute; reflexivity|].
  destruct (is_ok_inv (TradedFactorModel.fit Examples.traded "robust" true []))
    as [res Er]; [vm_compute; reflexivity|].
  assert (HP : Permutation [1; 0]
                 (seq 0 (ncols (ndarray_ (TradedFactorModel.portfolios Examples.traded)))))
    by exact (perm_swap 0 1 []).
  assert (Hc : commutes_at pinv [1; 0] (alpha_vcv res)).
  { apply commutes_atb_sound.
    pose proof Er as C.
      apply (ok_fact _ (fun res => commutes_atb pinv [1; 0] (alpha_vcv res)) false true res) in C;
        [exact C | vm_compute; reflexivity]. }
  destruct (traded_portfolio_order (A := Qc) [1; 0] Examples.traded self'
              "robust" true [] res HP Es Er Hc) as (res' & H1 & H2 & H3 & H4).
  exists self', res, res'.
  split; [exact Es|]. split; [exact Er|]. split; [exact H1|].
  split; [exact H2|]. split; [exact H3 | exact H4].
Defined.

Lemma two_pass_portfolio_order_witness :
  exists base' res res',
    reorder_portfolios [1; 0] (LinearFactorModel.base Examples.two_pass) = Ok base'
    /\ LinearFactorModel.fit Examples.two_pass true "robust" [] = Ok res
    /\ LinearFactorModel.fit (LinearFactorModel.Build base' None) true "robust" []
       = Ok res'
    /\ np.take_rows (alphas res) [1; 0] = Ok (alphas res')
    /\ sub_block (alpha_vcv res) [1; 0] = Ok (alpha_vcv res')
    /\ stat (jstat res') = stat (jstat res).
Proof.
  destruct (is_ok_inv (reorder_portfolios [1; 0]
                         (LinearFactorModel.base Examples.two_pass))) as [base' Es];
    [vm_compute; reflexivity|].
  destruct (is_ok_inv (LinearFactorModel.moments_and_jacobian Examples.two_pass true))
    as [st Est]; [vm_compute; reflexivity|].
  destruct (is_ok_inv (LinearFactorModel.fit Examples.two_pass true "robust" []))
    as [res Er]; [vm_compute; reflexivity|].
  assert (HP : Permutation [1; 0]
                 (seq 0 (ncols (ndarray_ (LinearFactorModel.portfolios Examples.two_pass)))))
    by exact (perm_swap 0 1 []).
  assert (Hc : two_pass_solvers_commute [1; 0] Examples.two_pass true st res).
  { split; [|split; [|split]].
    - intros fc Hfc. apply solves_by_columnb_sound.
      pose proof Hfc as C.
      apply (ok_fact _ (fun fc => solves_by_columnb fc P [1; 0]) false true fc) in C;
        [exact C | vm_compute; reflexivity].
    - apply solves_by_rowb_sound.
      pose proof Est as C.
      apply (ok_fact _ (fun st => solves_by_rowb (LinearFactorModel.st_betas st)
                            (np.col (np.mean0 P)) [1; 0]) false true st) in C;
        [exact C | vm_compute; reflexivity].
    - apply commutes_atb_sound.
      pose proof Est as C.
      apply (ok_fact _ (fun st => commutes_atb inv (moment_positions 2 1 0 [1; 0])
                            (LinearFactorModel.st_G st)) false true st) in C;
        [exact C | vm_compute; reflexivity].
    - apply commutes_atb_sound.
      pose proof Er as C.
      apply (ok_fact _ (fun res => commutes_atb inv [1; 0] (alpha_vcv res)) false true res) in C;
        [exact C | vm_compute; reflexivity]. }
  destruct (two_pass_portfolio_order (A := Qc) [1; 0] Examples.two_pass base'
              true "robust" [] st res HP Es Est Er Hc) as (res' & H1 & H2 & H3 & H4).
  exists base', res, res'.
  split; [exact Es|]. split; [exact Er|]. split; [exact H1|].
  split; [exact H2|]. split; [exact H3 | exact H4].
Defined.


(** * Options and arguments of the estimators *)

(** Both sides run the same computation [r] first. *)
Ltac same_start :=
  cbv beta iota zeta;
  match goal with
  | |- context [match ?p with pair _ _ => _ end] => is_var p; destruct p
  | |- bind ?r _ = bind (bind ?r _) _ =>
      let E := fresh "E" in destruct r eqn:E; cbn [bind]; [|reflexivity]
  | |- bind ?r _ = bind ?r _ =>
      let E := fresh "E" in destruct r eqn:E; cbn [bind]; [|reflexivity]
  end.

(** The run [H] succeeded, and the goal starts with the same computation. *)
Ltac replay H :=
  repeat
    (cbv beta iota zeta in H; cbv beta iota zeta;
     match type of H with
     | bind ?r _ = Ok _ =>
         match goal with
         | |- bind r _ = _ =>
             let E := fresh "E" in
             destruct r eqn:E; cbn [bind] in H |- *; [|discriminate H]
         end
     | match ?p with (_, _) => _ end = Ok _ => is_var p; destruct p
     end).

Section Options.

Context {A : Type} {SA : Scalar A} {LA : LinAlg A} {KS : Kernels A}
        {DI : DataInput A} {OPT : Optimizer A}.

Lemma covariance_heteroskedastic cfg cfg' nobs (xe fe : matrix A) :
  TradedFactorModel.covariance "heteroskedastic" cfg nobs xe fe
  = TradedFactorModel.covariance "robust" cfg' nobs xe fe.
Proof. reflexivity. Qed.

Lemma dict_get_other {V : Type} (d : list (string * V)) key key' v default :
  String.eqb key' key = false ->
  dict_get ((key', v) :: d) key default = dict_get d key default.
Proof. intros H. unfold dict_get. simpl. rewrite H. reflexivity. Qed.

Lemma covariance_default_bandwidth cfg nobs (xe fe : matrix A) :
  dict_get cfg "bandwidth" PyNone = PyNone ->
  TradedFactorModel.covariance "kernel" cfg nobs xe fe
  = TradedFactorModel.covariance "kernel"
      (("bandwidth", PyInt (TradedFactorModel.default_bandwidth nobs)) :: cfg)
      nobs xe fe.
Proof.
  intros H. unfold TradedFactorModel.covariance.
  change (mem "kernel" ["robust"; "heteroskedastic"]) with false.
  change ("kernel" =? "kernel")%string with true. cbv iota.
  rewrite dict_get_other by reflexivity.
  rewrite H.
  change (dict_get (("bandwidth", PyInt (TradedFactorModel.default_bandwidth nobs)) :: cfg)
            "bandwidth" PyNone)
    with (PyInt (TradedFactorModel.default_bandwidth nobs)).
  reflexivity.
Qed.

Lemma covariance_missing_kernel cfg nobs (xe fe : matrix A) name :
  dict_get cfg "kernel" (PyStr "bartlett") = PyStr name ->
  missing KERNEL_LOOKUP name ->
  TradedFactorModel.covariance "kernel" cfg nobs xe fe = Err (KeyError name).
Proof.
  intros H M. unfold TradedFactorModel.covariance.
  change (mem "kernel" ["robust"; "heteroskedastic"]) with false.
  change ("kernel" =? "kernel")%string with true. cbv iota zeta.
  rewrite H. unfold dict_item. unfold missing in M. rewrite M. reflexivity.
Qed.

(** X3: the two-pass estimator takes no account of the covariance options:
    whatever [cov_type] and [cov_config] are -- a kernel, or a name that the
    time-series estimator rejects -- [fit] does the same and returns the
    same numbers, under the [cov_type] it was given. *)
Theorem two_pass_ignores_covariance_options self (excess_returns : bool)
        cov_type cov_config cov_type' cov_config' :
  LinearFactorModel.fit self excess_returns cov_type' cov_config'
  = (res <- LinearFactorModel.fit self excess_returns cov_type cov_config ;;
     Ok (with_cov_type cov_type' res)).
Proof.
  unfold LinearFactorModel.fit, np.shape.
  repeat same_start. reflexivity.
Qed.

(** X4: the GMM estimator takes no account of [cov_type], [debiased] and
    [cov_config]: whatever they are, [fit] does the same and returns the
    same numbers, under the [cov_type] it was given. *)
Theorem gmm_ignores_covariance_options self (excess_returns : bool) steps disp max_iter
        cov_type debiased cov_config cov_type' debiased' cov_config' :
  LinearFactorModelGMM.fit self excess_returns steps disp max_iter
    cov_type' debiased' cov_config'
  = (res <- LinearFactorModelGMM.fit self excess_returns steps disp max_iter
              cov_type debiased cov_config ;;
     Ok (with_cov_type cov_type' res)).
Proof.
  unfold LinearFactorModelGMM.fit, np.shape.
  repeat same_start. reflexivity.
Qed.

(** X5: [sigma] is stored and never read: the two-pass [fit] of a model
    built with a [sigma] does what the [fit] of the model built without
    does, and returns the same results, but for the model object they
    refer to. *)
Theorem sigma_is_not_used (b : TradedFactorModel.t A) (sigma : option (array_like A))
        (excess_returns : bool) cov_type cov_config :
  LinearFactorModel.fit (LinearFactorModel.Build b sigma) excess_returns
    cov_type cov_config
  = (res <- LinearFactorModel.fit (LinearFactorModel.Build b None) excess_returns
              cov_type cov_config ;;
     Ok (with_model (LinearFactorModel.Build b sigma) res)).
Proof.
  unfold LinearFactorModel.fit, np.shape.
  change (LinearFactorModel.moments_and_jacobian (LinearFactorModel.Build b sigma))
    with (LinearFactorModel.moments_and_jacobian (LinearFactorModel.Build b None)).
  change (LinearFactorModel.factors (LinearFactorModel.Build b sigma))
    with (LinearFactorModel.factors (LinearFactorModel.Build b None)).
  change (LinearFactorModel.portfolios (LinearFactorModel.Build b sigma))
    with (LinearFactorModel.portfolios (LinearFactorModel.Build b None)).
  repeat same_start. reflexivity.
Qed.

(** X6: [sigma] is keyword-only, and a parameter of [LinearFactorModel]
    alone: a third positional argument is a [TypeError] whatever else is
    passed, [sigma=s] is stored by [LinearFactorModel], and is a
    [TypeError] for the two other constructors. *)
Theorem sigma_keyword_only (p f s : array_like A) (kw : list (string * array_like A)) :
  LinearFactorModel.new (Call [p; f; s] kw)
  = Err (TypeError "too many positional arguments")
  /\ LinearFactorModel.new (Call [p; f] [("sigma", s)])
     = (m <- stored "LinearFactorModel" p f ;;
        Ok (LinearFactorModel.Build m (Some s)))
  /\ TradedFactorModel.new (Call [p; f] [("sigma", s)])
     = Err (TypeError "unexpected keyword argument")
  /\ LinearFactorModelGMM.new (Call [p; f] [("sigma", s)])
     = Err (TypeError "unexpected keyword argument").
Proof.
  repeat split; reflexivity.
Qed.

(** X7: a kernel name that is no key of [KERNEL_LOOKUP] is a [KeyError]
    of that name: on data that the robust [fit] accepts, the kernel [fit]
    fails with it. *)
Theorem unknown_kernel_key_error self debiased cov_config name res :
  TradedFactorModel.fit self "robust" debiased [] = Ok res ->
  dict_get cov_config "kernel" (PyStr "bartlett") = PyStr name ->
  missing KERNEL_LOOKUP name ->
  TradedFactorModel.fit self "kernel" debiased cov_config = Err (KeyError name).
Proof.
  intros H Hn Hm. unfold TradedFactorModel.fit, np.shape in *.
  replay H.
  rewrite (covariance_missing_kernel _ _ _ _ name Hn Hm). reflexivity.
Qed.

(** X8: without a [bandwidth], or with [bandwidth=None], the kernel [fit]
    is the [fit] with the bandwidth [ceil(4 * (nobs / 100) ** (2 / 9))]. *)
Theorem default_bandwidth_used self debiased cov_config :
  dict_get cov_config "bandwidth" PyNone = PyNone ->
  TradedFactorModel.fit self "kernel" debiased cov_config
  = TradedFactorModel.fit self "kernel" debiased
      (("bandwidth",
        PyInt (TradedFactorModel.default_bandwidth
                 (nrows (ndarray_ (TradedFactorModel.factors self))))) :: cov_config).
Proof.
  intros H. unfold TradedFactorModel.fit, np.shape.
  repeat same_start.
  rewrite <- (covariance_default_bandwidth _ _ _ _ H). reflexivity.
Qed.

(** X9: ['heteroskedastic'] is another name of ['robust'], and neither
    reads [cov_config]: the time-series [fit] returns the same numbers
    under both names, whatever the covariance options. *)
Theorem heteroskedastic_is_robust self debiased cov_config cov_config' :
  TradedFactorModel.fit self "heteroskedastic" debiased cov_config
  = (res <- TradedFactorModel.fit self "robust" debiased cov_config' ;;
     Ok (with_cov_type "heteroskedastic" res)).
Proof.
  unfold TradedFactorModel.fit, np.shape.
  repeat same_start.
  rewrite (covariance_heteroskedastic cov_config cov_config').
  repeat same_start. reflexivity.
Qed.

End Options.

(** No kernel goes by the name ['gaussian']. *)
Lemma unknown_kernel_key_error_witness :
  TradedFactorModel.fit Examples.traded "kernel" true [("kernel", PyStr "gaussian")]
  = Err (KeyError "gaussian").
Proof.
  destruct (is_ok_inv (TradedFactorModel.fit Examples.traded "robust" true []))
    as [res E]; [vm_compute; reflexivity|].
  apply (unknown_kernel_key_error Examples.traded true
           [("kernel", PyStr "gaussian")] "gaussian" res E); reflexivity.
Defined.

(** On the example of six observations the default bandwidth is 3,
    [ceil(4 * (6 / 100) ** (2 / 9))]: the fit with no bandwidth is the fit
    with the bandwidth 3, and it returns its results. *)
Lemma default_bandwidth_used_witness :
  TradedFactorModel.default_bandwidth (A := Qc) 6 = 3%Z
  /\ TradedFactorModel.fit Examples.traded "kernel" true [("kernel", PyStr "bartlett")]
     = TradedFactorModel.fit Examples.traded "kernel" true
         [("bandwidth", PyInt 3); ("kernel", PyStr "bartlett")]
  /\ is_ok (TradedFactorModel.fit Examples.traded "kernel" true
              [("kernel", PyStr "bartlett")]) = true.
Proof.
  assert (E : TradedFactorModel.default_bandwidth (A := Qc) 6 = 3%Z)
    by (vm_compute; reflexivity).
  split; [exact E|]. split; [|vm_compute; reflexivity].
  rewrite <- E.
  apply (default_bandwidth_used Examples.traded true [("kernel", PyStr "bartlett")]).
  reflexivity.
Defined.

(** * What the estimators ask of the data, and what they report *)

Section Observations.

Context {A : Type} {SA : Scalar A} {LA : LinAlg A} {LS : @LinAlgShapes A LA}
        {KS : Kernels A} {DI : DataInput A}.

Lemma augmented_factors (f : matrix A) :
  exists fc, np.c_ (np.ones (nrows f) 1) f = Ok fc
             /\ nrows fc = nrows f /\ ncols fc = 1 + ncols f.
Proof.
  destruct (c_ok (np.ones (nrows f) 1) f) as (fc & E & R & C).
  - apply nrows_ones.
  - exists fc. rewrite nrows_ones in R. rewrite ncols_ones in C. auto.
Qed.

Lemma demeaned_factors (f : matrix A) :
  exists fe, np.sub f (np.row (np.mean0 f)) = Ok fe.
Proof.
  destruct (broadcast_ok fsub f (np.row (np.mean0 f)) (nrows f) (ncols f))
    as (fe & E & _).
  - rewrite nrows_row. apply bdim_one_r.
  - rewrite ncols_row, length_mean0. apply bdim_same.
  - exists fe. exact E.
Qed.

(** X10: portfolios and factors must have the same number of
    observations: if they have not, the time-series [fit] fails, with the
    error of the pseudo-inverse or with the [ValueError] of the product
    [pinv(fc) @ p], and the two-pass [fit] fails with the error of the
    least-squares solver -- whatever the other arguments. *)
Theorem observations_must_match :
  (forall (self : TradedFactorModel.t A) cov_type debiased cov_config,
      nrows (ndarray_ (TradedFactorModel.portfolios self))
      <> nrows (ndarray_ (TradedFactorModel.factors self)) ->
      TradedFactorModel.fit self cov_type debiased cov_config = Err singular_matrix
      \/ TradedFactorModel.fit self cov_type debiased cov_config
         = Err (ValueError "matmul: shapes not aligned"))
  /\ (forall (self : LinearFactorModel.t A) (excess_returns : bool) cov_type cov_config,
         nrows (ndarray_ (LinearFactorModel.portfolios self))
         <> nrows (ndarray_ (LinearFactorModel.factors self)) ->
         LinearFactorModel.fit self excess_returns cov_type cov_config
         = Err singular_matrix).
Proof.
  split.
  - intros self ct deb cfg Hne.
    unfold TradedFactorModel.fit, np.shape.
    destruct (augmented_factors (ndarray_ (TradedFactorModel.factors self)))
      as (fc & -> & R & _).
    destruct (demeaned_factors (ndarray_ (TradedFactorModel.factors self)))
      as (fe & ->).
    cbn [bind].
    destruct (np_pinv fc) as [pfc|e] eqn:E.
    + right. cbn [bind]. apply pinv_ok_shape in E. destruct E as [_ C].
      unfold np.matmul at 1.
      destruct (Nat.eqb_spec (ncols pfc)
                  (nrows (ndarray_ (TradedFactorModel.portfolios self)))) as [X|X].
      * exfalso. apply Hne. lia.
      * reflexivity.
    + left. cbn [bind]. unfold np_pinv, singular in E.
      destruct (pinv fc); [discriminate E | injection E as <-; reflexivity].
  - intros self ex ct cfg Hne.
    unfold LinearFactorModel.fit, LinearFactorModel.moments_and_jacobian, np.shape.
    destruct (augmented_factors (ndarray_ (LinearFactorModel.factors self)))
      as (fc & -> & R & _).
    cbn [bind].
    destruct (np_lstsq fc (ndarray_ (LinearFactorModel.portfolios self)))
      as [b|e] eqn:E.
    + apply lstsq_ok_shape in E. destruct E as [X _]. exfalso. apply Hne. lia.
    + cbn [bind]. unfold np_lstsq, singular in E.
      destruct (lstsq fc _); [discriminate E | injection E as <-; reflexivity].
Qed.

End Observations.

(** Three observations of the factor against six of the portfolios. *)
Lemma observations_must_match_witness :
  (TradedFactorModel.fit Examples.unequal "robust" true [] = Err singular_matrix
   \/ TradedFactorModel.fit Examples.unequal "robust" true []
      = Err (ValueError "matmul: shapes not aligned"))
  /\ LinearFactorModel.fit (LinearFactorModel.Build Examples.unequal None)
       true "robust" []
     = Err singular_matrix.
Proof.
  destruct (observations_must_match (A := Qc)) as [H1 H2].
  split.
  - apply H1. vm_compute. lia.
  - apply H2. vm_compute. lia.
Defined.

Section Reports.

Context {A : Type} {SA : Scalar A} {LA : LinAlg A} {KS : Kernels A}
        {DI : DataInput A} {OPT : Optimizer A}.

Lemma c_first_row_rest (b : matrix A) :
  np.c_ (np.T_ (np.slice b 0 (Some 1) 0 None)) (np.T_ (np.slice b 1 None 0 None))
  = Ok (np.T_ b).
Proof.
  unfold np.c_. autorewrite with shp.
  rewrite Nat.eqb_refl. f_equal.
  unfold np.T_ at 3.
  apply tabulate_ext2.
  - rewrite Nat.min_0_l. lia.
  - rewrite Nat.min_0_l. lia.
  - intros i j Hi Hj. rewrite !Nat.min_0_l, !Nat.sub_0_r in *.
    destruct (Nat.ltb_spec j (Nat.min 1 (nrows b))) as [X|X].
    + unfold np.T_, np.slice, np.slice_bounds.
      rewrite !Nat.min_0_l, !Nat.sub_0_r.
      rewrite !nrows_tabulate, !ncols_tabulate.
      rewrite get_tabulate by lia. rewrite get_tabulate by lia.
      reflexivity.
    + unfold np.T_, np.slice, np.slice_bounds.
      rewrite !Nat.min_0_l, !Nat.sub_0_r.
      rewrite !nrows_tabulate, !ncols_tabulate.
      rewrite get_tabulate by lia. rewrite get_tabulate by lia.
      f_equal; lia.
Qed.

(** X11: every estimator reports the parameters as the alphas followed by
    the betas, portfolio by portfolio: [params] is [np.c_[alphas, betas]]
    of the reported alphas and betas; for the time-series estimator, which
    reports the transposed regression coefficients, these are the first
    column and the remaining columns. *)
Theorem params_are_alphas_and_betas :
  (forall self cov_type debiased cov_config res,
      TradedFactorModel.fit self cov_type debiased cov_config = Ok res ->
      np.c_ (alphas res) (betas res) = Ok (params res))
  /\ (forall self (excess_returns : bool) cov_type cov_config res,
         LinearFactorModel.fit self excess_returns cov_type cov_config = Ok res ->
         np.c_ (alphas res) (betas res) = Ok (params res))
  /\ (forall self (excess_returns : bool) steps disp max_iter cov_type debiased
             cov_config res,
         LinearFactorModelGMM.fit self excess_returns steps disp max_iter
           cov_type debiased cov_config = Ok res ->
         np.c_ (alphas res) (betas res) = Ok (params res)).
Proof.
  repeat split.
  - intros self ct deb cfg res H.
    unfold TradedFactorModel.fit, np.shape in H. inv_bind H. injection H as <-.
    cbn [alphas betas params]. apply c_first_row_rest.
  - intros self ex ct cfg res H.
    unfold LinearFactorModel.fit, np.shape in H. inv_bind H. injection H as <-.
    cbn [alphas betas params]. assumption.
  - intros self ex steps disp mi ct deb cfg res H.
    unfold LinearFactorModelGMM.fit, np.shape in H. inv_bind H. injection H as <-.
    cbn [alphas betas params]. assumption.
Qed.

(** X12: a number of [steps] below two, zero and the negative numbers
    among them, is one step: [fit] makes the first minimisation, from the
    two-pass starting values, and no other. *)
Theorem steps_below_two self (excess_returns : bool) (steps disp max_iter : Z)
        cov_type debiased cov_config :
  (steps <= 1)%Z ->
  LinearFactorModelGMM.fit self excess_returns steps disp max_iter
    cov_type debiased cov_config
  = LinearFactorModelGMM.fit self excess_returns 1 disp max_iter
      cov_type debiased cov_config
  /\ LinearFactorModelGMM.estimate self excess_returns steps max_iter
     = (sv <- LinearFactorModelGMM.starting_values self excess_returns ;;
        w <- LinearFactorModelGMM.weighting self (Arr2 sv) excess_returns ;;
        res <- minimize
                 (fun x => LinearFactorModelGMM._j self (Arr1 x) excess_returns w)
                 (np.ravel sv) max_iter ;;
        Ok (LinearFactorModelGMM.mkSteps (fst res) w [snd res])).
Proof.
  intros Hs.
  assert (Z0 : Z.to_nat (steps - 1) = 0) by lia.
  assert (E : LinearFactorModelGMM.estimate self excess_returns steps max_iter
              = LinearFactorModelGMM.estimate self excess_returns 1 max_iter).
  { unfold LinearFactorModelGMM.estimate. rewrite Z0. reflexivity. }
  split.
  - unfold LinearFactorModelGMM.fit. rewrite E. reflexivity.
  - unfold LinearFactorModelGMM.estimate. rewrite Z0. reflexivity.
Qed.

End Reports.

Lemma steps_below_two_witness :
  LinearFactorModelGMM.fit (OPT := stopped_Optimizer) Examples.gmm true 0 10 1000
    "robust" true []
  = LinearFactorModelGMM.fit (OPT := stopped_Optimizer) Examples.gmm true 1 10 1000
      "robust" true [].
Proof.
  apply (steps_below_two (OPT := stopped_Optimizer) Examples.gmm true 0 10 1000
           "robust" true []).
  lia.
Defined.

(** The three estimators on the example. *)
Lemma params_are_alphas_and_betas_witness :
  (exists res, TradedFactorModel.fit Examples.traded "robust" true [] = Ok res
               /\ np.c_ (alphas res) (betas res) = Ok (params res))
  /\ (exists res, LinearFactorModel.fit Examples.two_pass true "robust" [] = Ok res
                  /\ np.c_ (alphas res) (betas res) = Ok (params res))
  /\ (exists res, LinearFactorModelGMM.fit (OPT := stopped_Optimizer) Examples.gmm true
                    2%Z 10%Z 1000%Z "robust" true [] = Ok res
                  /\ np.c_ (alphas res) (betas res) = Ok (params res)).
Proof.
  destruct (params_are_alphas_and_betas (A := Qc) (OPT := stopped_Optimizer))
    as (H1 & H2 & H3).
  split; [|split].
  - destruct (is_ok_inv (TradedFactorModel.fit Examples.traded "robust" true []))
      as [res E]; [vm_compute; reflexivity|].
    exists res. split; [exact E | exact (H1 _ _ _ _ _ E)].
  - destruct (is_ok_inv (LinearFactorModel.fit Examples.two_pass true "robust" []))
      as [res E]; [vm_compute; reflexivity|].
    exists res. split; [exact E | exact (H2 _ _ _ _ _ E)].
  - destruct (is_ok_inv (LinearFactorModelGMM.fit (OPT := stopped_Optimizer)
                           Examples.gmm true 2%Z 10%Z 1000%Z "robust" true []))
      as [res E]; [vm_compute; reflexivity|].
    exists res. split; [exact E | exact (H3 _ _ _ _ _ _ _ _ _ E)].
Defined.

(** ** Shapes of the reported arrays *)

Section ReportedShapes.

Context {A : Type} {SA : Scalar A} {LA : LinAlg A} {LS : @LinAlgShapes A LA}
        {KS : Kernels A} {DI : DataInput A} {OPT : Optimizer A}.

Lemma covariance_rp_shape ct cfg nobs (xe fe xeex rpc : matrix A) :
  TradedFactorModel.covariance ct cfg nobs xe fe = Ok (xeex, rpc) ->
  nrows rpc = ncols fe /\ ncols rpc = ncols fe.
Proof.
  intros H. unfold TradedFactorModel.covariance in H.
  destruct (mem ct ["robust"; "heteroskedastic"]).
  - inv_bind H. injection H as <- <-. shape_facts. auto.
  - destruct (String.eqb ct "kernel"); [|discriminate].
    inv_bind H. injection H as <- <-. auto.
Qed.

Lemma traded_shapes self ct deb cfg res :
  TradedFactorModel.fit self ct deb cfg = Ok res ->
  reports_shapes res (ncols (ndarray_ (TradedFactorModel.portfolios self)))
                     (ncols (ndarray_ (TradedFactorModel.factors self))) 0.
Proof.
  intros H.
  destruct (traded_alpha_shapes self ct deb cfg res H) as (A1 & A2 & A3 & A4).
  unfold TradedFactorModel.fit, np.shape in H. inv_bind H. injection H as <-.
  unfold reports_shapes, np.shape. cbn [params betas alphas alpha_vcv rp rp_cov nd_len] in *.
  apply covariance_rp_shape in Ex11. destruct Ex11 as [R1 R2].
  apply pinv_ok_shape in Ex1. destruct Ex1 as [P1 _].
  apply c_shape in Ex. destruct Ex as (_ & _ & C3).
  apply matmul_shape in Ex2. destruct Ex2 as (_ & M2 & M3).
  apply broadcast_shape in Ex0. destruct Ex0 as (_ & B2). apply bdim_some in B2.
  clear - A1 A2 A3 A4 R1 R2 P1 C3 M2 M3 B2.
  autorewrite with shp in *.
  assert (B : ncols x0 = ncols (ndarray_ (TradedFactorModel.factors self)))
    by (clear - B2; lia).
  clear B2. rewrite ?Nat.min_0_l, ?Nat.sub_0_r in *.
  repeat apply conj; f_equal; lia.
Qed.

Lemma gmm_shapes self (ex : bool) steps disp mi ct deb cfg res :
  LinearFactorModelGMM.fit self ex steps disp mi ct deb cfg = Ok res ->
  reports_shapes res (ncols (ndarray_ (TradedFactorModel.portfolios self)))
                     (ncols (ndarray_ (TradedFactorModel.factors self)))
                     (if ex then 0 else 1).
Proof.
  intros H.
  unfold LinearFactorModelGMM.fit, np.shape in H. inv_bind H. injection H as <-.
  unfold reports_shapes, np.shape. cbn [params betas alphas alpha_vcv rp rp_cov nd_len] in *.
  pose proof (gmm_param_length self _ ex x0 x2 Ex0 Ex2) as PL. unfold nparams in PL.
  pose proof (moments_shape _ _ _ _ Ex0) as [G1 G2].
  pose proof (jacobian_shape _ _ _ _ Ex2) as J. cbv zeta in J.
  destruct J as (J1 & J2 & _).
  apply matmul_shape in Ex1. destruct Ex1 as (_ & S1 & S2).
  apply matmul_shape in Ex5. destruct Ex5 as (_ & C1 & C2).
  apply matmul_shape in Ex4. destruct Ex4 as (_ & D1 & _).
  apply inv_ok_shape in Ex6. destruct Ex6 as (_ & I1 & I2).
  apply reshape1_shape in Ex8. destruct Ex8 as (_ & B1 & B2).
  apply c_shape in Ex13. destruct Ex13 as (_ & P1 & P2).
  clear - PL G1 G2 J1 J2 S1 S2 C1 C2 D1 I1 I2 B1 B2 P1 P2.
  autorewrite with shp in *.
  remember (ncols (ndarray_ (TradedFactorModel.portfolios self))) as n eqn:Hn.
  remember (ncols (ndarray_ (TradedFactorModel.factors self))) as k eqn:Hk.
  remember (if ex then 0 else 1) as nrf eqn:Hnrf.
  rewrite S1, S2 in *. rewrite G2 in *.
  assert (LE : n * (k + 1) <= n * (k + 1) + k) by lia.
  rewrite (strided_alpha_positions n k (n * (k + 1) + k) LE) in *.
  rewrite !length_alpha_positions in *.
  rewrite ?Nat.min_0_l, ?Nat.sub_0_r in *.
  repeat apply conj; first [lia | f_equal; lia].
Qed.

Lemma two_pass_shapes self (ex : bool) ct cfg res :
  LinearFactorModel.fit self ex ct cfg = Ok res ->
  reports_shapes res (ncols (ndarray_ (LinearFactorModel.portfolios self)))
                     (ncols (ndarray_ (LinearFactorModel.factors self)))
                     (if ex then 0 else 1).
Proof.
  intros H.
  destruct (two_pass_report self ex ct cfg res H) as (st & Hst & _).
  pose proof (stage_shapes self ex st Hst) as S. cbv zeta in S.
  destruct S as (_ & _ & S3 & S4 & S5 & _ & S7 & S8 & _ & _ & S11 & S12).
  destruct (two_pass_alpha_shapes self ex ct cfg st res Hst H) as (_ & V1 & V2).
  cbv zeta in V1, V2.
  unfold LinearFactorModel.fit, np.shape in H. rewrite Hst in H. cbn [bind] in H.
  inv_bind H. injection H as <-.
  unfold reports_shapes, np.shape. cbn [params betas alphas alpha_vcv rp rp_cov nd_len] in *.
  apply inv_ok_shape in Ex. destruct Ex as (_ & I1 & I2).
  apply matmul_shape in Ex0. destruct Ex0 as (_ & M1 & _).
  apply matmul_shape in Ex1. destruct Ex1 as (_ & N1 & N2).
  apply c_shape in Ex7. destruct Ex7 as (_ & P1 & P2).
  clear - S3 S4 S5 S7 S8 S11 S12 V1 V2 I1 I2 M1 N1 N2 P1 P2.
  remember (ncols (ndarray_ (LinearFactorModel.portfolios self))) as n eqn:Hn.
  remember (ncols (ndarray_ (LinearFactorModel.factors self))) as k eqn:Hk.
  destruct ex; autorewrite with shp in *;
    rewrite ?Nat.min_0_l, ?Nat.sub_0_r in *;
    repeat apply conj; first [lia | f_equal; lia].
Qed.

(** X13: what each estimator reports has the shape the number [N] of
    portfolios and [K] of factors give: [params] is [N] by [K + 1], [betas]
    [N] by [K], [alphas] [N] by [1], the alpha covariance [N] by [N], and
    there are [K] risk premia with a [K] by [K] covariance -- [K + 1] of
    them for the two-pass and the GMM estimator when a risk-free premium is
    estimated. *)
Theorem reported_shapes :
  (forall self cov_type debiased cov_config res,
      TradedFactorModel.fit self cov_type debiased cov_config = Ok res ->
      reports_shapes res (ncols (ndarray_ (TradedFactorModel.portfolios self)))
                         (ncols (ndarray_ (TradedFactorModel.factors self))) 0)
  /\ (forall self (excess_returns : bool) cov_type cov_config res,
         LinearFactorModel.fit self excess_returns cov_type cov_config = Ok res ->
         reports_shapes res (ncols (ndarray_ (LinearFactorModel.portfolios self)))
                            (ncols (ndarray_ (LinearFactorModel.factors self)))
                            (if excess_returns then 0 else 1))
  /\ (forall self (excess_returns : bool) steps disp max_iter cov_type debiased
             cov_config res,
         LinearFactorModelGMM.fit self excess_returns steps disp max_iter
           cov_type debiased cov_config = Ok res ->
         reports_shapes res (ncols (ndarray_ (TradedFactorModel.portfolios self)))
                            (ncols (ndarray_ (TradedFactorModel.factors self)))
                            (if excess_returns then 0 else 1)).
Proof.
  split; [|split].
  - exact traded_shapes.
  - exact two_pass_shapes.
  - exact gmm_shapes.
Qed.

End ReportedShapes.

(** The three estimators on two portfolios and one factor. *)
Lemma reported_shapes_witness :
  (exists res, TradedFactorModel.fit Examples.traded "robust" true [] = Ok res
               /\ reports_shapes res 2 1 0)
  /\ (exists res, LinearFactorModel.fit Examples.two_pass false "robust" [] = Ok res
                  /\ reports_shapes res 2 1 1)
  /\ (exists res, LinearFactorModelGMM.fit (OPT := stopped_Optimizer) Examples.gmm true
                    2%Z 10%Z 1000%Z "robust" true [] = Ok res
                  /\ reports_shapes res 2 1 0).
Proof.
  destruct (reported_shapes (A := Qc) (OPT := stopped_Optimizer)) as (H1 & H2 & H3).
  split; [|split].
  - destruct (is_ok_inv (TradedFactorModel.fit Examples.traded "robust" true []))
      as [res E]; [vm_compute; reflexivity|].
    exists res. split; [exact E | exact (H1 _ _ _ _ _ E)].
  - destruct (is_ok_inv (LinearFactorModel.fit Examples.two_pass false "robust" []))
      as [res E]; [vm_compute; reflexivity|].
    exists res. split; [exact E | exact (H2 _ _ _ _ _ E)].
  - destruct (is_ok_inv (LinearFactorModelGMM.fit (OPT := stopped_Optimizer)
                           Examples.gmm true 2%Z 10%Z 1000%Z "robust" true []))
      as [res E]; [vm_compute; reflexivity|].
    exists res. split; [exact E | exact (H3 _ _ _ _ _ _ _ _ _ E)].
Defined.

(** * Risk premia: names and covariance *)

Section SliceFacts.

Context {T : Type} {DT : Default T}.

Lemma slice1_middle (a b c : list T) :
  np.slice1 (a ++ b ++ c) (List.length a) (Some (List.length a + List.length b)) = b.
Proof.
  unfold np.slice1, np.slice_bounds.
  rewrite !length_app.
  rewrite (Nat.min_l (List.length a)) by lia.
  rewrite (Nat.min_l (List.length a + List.length b)) by lia.
  replace (List.length a + List.length b - List.length a) with (List.length b) by lia.
  rewrite skipn_app, skipn_all, Nat.sub_diag. simpl.
  rewrite firstn_app, firstn_all, Nat.sub_diag. simpl.
  apply app_nil_r.
Qed.

Lemma length_flat_map_const {X Y : Type} (f : X -> list Y) (l : list X) (c : nat) :
  (forall x, List.length (f x) = c) ->
  List.length (flat_map f l) = List.length l * c.
Proof.
  intros H. induction l as [|x l IH]; simpl; [reflexivity|].
  rewrite length_app, H, IH. lia.
Qed.

End SliceFacts.

Section RiskPremia.

Context {A : Type} {SA : Scalar A} {LA : LinAlg A} {LS : @LinAlgShapes A LA}
        {KS : Kernels A} {DI : DataInput A} {OPT : Optimizer A}.

(** X14: when every column has its label, the GMM estimator names its
    risk premia by their parameter names, ['lambda-risk_free'] (if a
    risk-free premium is estimated) and ['lambda-' + factor] -- where the
    two-pass estimator reports ['risk_free'] and the factor names -- and
    there is one name per risk premium. *)
Theorem gmm_risk_premia_names self (excess_returns : bool) steps disp max_iter
        cov_type debiased cov_config res :
  LinearFactorModelGMM.fit self excess_returns steps disp max_iter
    cov_type debiased cov_config = Ok res ->
  List.length (cols (TradedFactorModel.portfolios self))
  = ncols (ndarray_ (TradedFactorModel.portfolios self)) ->
  List.length (cols (TradedFactorModel.factors self))
  = ncols (ndarray_ (TradedFactorModel.factors self)) ->
  rp_names res
  = (if excess_returns then [] else ["lambda-risk_free"])
    ++ map lambda_name (cols (TradedFactorModel.factors self))
  /\ List.length (rp_names res) = nd_len (rp res).
Proof.
  intros H Hp Hf.
  pose proof (gmm_shapes self excess_returns steps disp max_iter cov_type debiased
                cov_config res H) as (_ & _ & _ & _ & L & _).
  unfold LinearFactorModelGMM.fit, np.shape in H. inv_bind H. injection H as <-.
  cbn [rp_names rp nd_len] in *.
  set (pcols := cols (TradedFactorModel.portfolios self)) in *.
  set (fcols := cols (TradedFactorModel.factors self)) in *.
  set (names := flat_map (fun portfolio => map (beta_name portfolio) fcols) pcols).
  set (rf := if excess_returns then [] else ["lambda-risk_free"]).
  assert (Ln : List.length names
               = ncols (ndarray_ (TradedFactorModel.portfolios self))
                 * ncols (ndarray_ (TradedFactorModel.factors self))).
  { unfold names. rewrite (length_flat_map_const _ _ (List.length fcols)).
    - rewrite Hp, Hf. reflexivity.
    - intros y. apply length_map. }
  assert (Lr : List.length (rf ++ map lambda_name fcols)
               = ncols (ndarray_ (TradedFactorModel.factors self))
                 + (if excess_returns then 0 else 1)).
  { rewrite length_app, length_map, Hf. unfold rf.
    destruct excess_returns; simpl; lia. }
  assert (E : np.slice1 (names ++ rf ++ map lambda_name fcols ++ map mu_name fcols)
                (ncols (ndarray_ (TradedFactorModel.portfolios self))
                 * ncols (ndarray_ (TradedFactorModel.factors self)))
                (Some (ncols (ndarray_ (TradedFactorModel.portfolios self))
                       * ncols (ndarray_ (TradedFactorModel.factors self))
                       + ncols (ndarray_ (TradedFactorModel.factors self))
                       + (if excess_returns then 0 else 1)))
              = rf ++ map lambda_name fcols).
  { rewrite <- Ln.
    replace (List.length names + ncols (ndarray_ (TradedFactorModel.factors self))
             + (if excess_returns then 0 else 1))
      with (List.length names + List.length (rf ++ map lambda_name fcols))
      by (rewrite Lr; lia).
    rewrite (app_assoc rf). apply slice1_middle. }
  rewrite E. split; [reflexivity|].
  rewrite Lr. symmetry. exact L.
Qed.

(** X15: in the covariance that the two-pass estimator reports, the block
    after the [N * (K + 1)] loadings is the covariance of the risk premia
    that it reports. *)
Theorem two_pass_risk_premia_block self (excess_returns : bool) cov_type cov_config res :
  LinearFactorModel.fit self excess_returns cov_type cov_config = Ok res ->
  let n := ncols (ndarray_ (LinearFactorModel.portfolios self)) in
  let k := ncols (ndarray_ (LinearFactorModel.factors self)) in
  np.slice (cov res) (n * (k + 1)) None (n * (k + 1)) None = rp_cov res.
Proof.
  intros H n k.
  destruct (two_pass_report self excess_returns cov_type cov_config res H)
    as (st & Hst & _).
  pose proof (stage_shapes self excess_returns st Hst) as S. cbv zeta in S.
  destruct S as (_ & _ & _ & _ & _ & _ & _ & _ & _ & _ & S11 & S12).
  fold n k in S11, S12.
  unfold LinearFactorModel.fit, np.shape in H. rewrite Hst in H. cbn [bind] in H.
  fold n k in H.
  inv_bind H. injection H as <-. cbn [cov rp_cov].
  set (nrf := if excess_returns then 0 else 1) in *.
  set (V := np.div_scalar x1 _) in *.
  set (order := np.ravel x9
                ++ np.arange ((k + 1) * n) ((k + 1) * n + (k + nrf))) in *.
  apply inv_ok_shape in Ex. destruct Ex as (_ & I1 & _).
  apply matmul_shape in Ex0. destruct Ex0 as (_ & M1 & _).
  apply matmul_shape in Ex1. destruct Ex1 as (_ & N1 & N2).
  apply reshape1_shape in Ex8. destruct Ex8 as (_ & O1 & O2).
  apply set_col_shape in Ex9. destruct Ex9 as (_ & Q1 & Q2).
  apply take_rows_inv in Ex10. destruct Ex10 as [_ ->].
  apply take_cols_inv in Ex11. destruct Ex11 as [_ ->].
  assert (VR : nrows V = n * (k + 1) + (k + nrf) + n)
    by (unfold V; rewrite nrows_div_scalar; lia).
  assert (VC : ncols V = n * (k + 1) + (k + nrf) + n)
    by (unfold V; rewrite ncols_div_scalar, N2, ?ncols_T; lia).
  assert (LR : List.length (np.ravel x9) = n * (k + 1))
    by (rewrite length_ravel; nia).
  assert (LO : List.length order = n * (k + 1) + (k + nrf)).
  { unfold order, np.arange. rewrite length_app, length_seq, LR. lia. }
  assert (NO : forall i, i < k + nrf -> nth (n * (k + 1) + i) order 0 = (k + 1) * n + i).
  { intros i Hi. unfold order. rewrite <- LR. rewrite app_nth2_plus.
    unfold np.arange. rewrite seq_nth by lia. reflexivity. }
  unfold np.slice, np.slice_bounds.
  rewrite !nrows_tabulate, !ncols_tabulate, VR, VC, LO.
  rewrite (Nat.min_l (n * (k + 1))) by lia.
  rewrite (Nat.min_l ((k + 1) * n)) by lia.
  rewrite (Nat.min_l ((k + 1) * n + (k + nrf))) by lia.
  apply tabulate_ext2; [lia | lia |].
  intros i j Hi Hj.
  rewrite get_tabulate by lia. rewrite (NO j) by lia.
  rewrite get_tabulate by lia. rewrite (NO i) by lia. reflexivity.
Qed.

End RiskPremia.

(** On the example with a risk-free premium: the names of the two risk
    premia. *)
Lemma gmm_risk_premia_names_witness :
  exists res,
    LinearFactorModelGMM.fit (OPT := stopped_Optimizer) Examples.gmm false
      2%Z 10%Z 1000%Z "robust" true [] = Ok res
    /\ rp_names res = ["lambda-risk_free"; "lambda-factor.0"].
Proof.
  destruct (is_ok_inv (LinearFactorModelGMM.fit (OPT := stopped_Optimizer)
                         Examples.gmm false 2%Z 10%Z 1000%Z "robust" true []))
    as [res E]; [vm_compute; reflexivity|].
  exists res. split; [exact E|].
  destruct (gmm_risk_premia_names (OPT := stopped_Optimizer) Examples.gmm false
              2%Z 10%Z 1000%Z "robust" true [] res E) as [H _];
    [reflexivity | reflexivity | exact H].
Defined.

(** On the example: the block from position 4 on. *)
Lemma two_pass_risk_premia_block_witness :
  exists res,
    LinearFactorModel.fit Examples.two_pass true "robust" [] = Ok res
    /\ np.slice (cov res) 4 None 4 None = rp_cov res.
Proof.
  destruct (is_ok_inv (LinearFactorModel.fit Examples.two_pass true "robust" []))
    as [res E]; [vm_compute; reflexivity|].
  exists res. split; [exact E|].
  exact (two_pass_risk_premia_block Examples.two_pass true "robust" [] res E).
Defined.

(** * The progress callback *)

Section CallbackFacts.

Context {A P Args : Type}.

Variables (obj : P -> Args -> result A) (args : Args) (disp : Z).

Lemma called_on_from (xs : list P) :
  forall d0 out0 d out,
    called_on (callback obj args disp) d0 out0 xs = Ok (d, out) ->
    d = d0 + List.length xs
    /\ exists new,
        out = out0 ++ new
        /\ map (@iteration A) new = filter (due disp) (seq d0 (List.length xs))
        /\ forall l, In l new ->
             d0 <= iteration l
             /\ exists x, nth_error xs (iteration l - d0) = Some x
                          /\ obj x args = Ok (objective l).
Proof.
  induction xs as [|x rest IH]; intros d0 out0 d out H; simpl in H.
  - injection H as <- <-. split; [simpl; lia|].
    exists []. rewrite app_nil_r. split; [reflexivity|]. split; [reflexivity|].
    intros l [].
  - apply bind_ok in H. destruct H as (r & Hr & H).
    unfold callback in Hr. apply bind_ok in Hr. destruct Hr as (fval & Hf & Hr).
    injection Hr as <-. cbn [fst snd] in H.
    apply IH in H. destruct H as (Hd & new & Ho & Hm & Hl).
    split; [simpl; lia|].
    fold (due disp d0) in Ho.
    replace (d0 + 1) with (S d0) in Hm by lia.
    assert (Later : forall l, In l new ->
                      d0 <= iteration l
                      /\ exists y, nth_error (x :: rest) (iteration l - d0) = Some y
                                   /\ obj y args = Ok (objective l)).
    { intros l Hin. destruct (Hl l Hin) as (Hle & y & Hy & Hobj).
      split; [lia|]. exists y. split; [|exact Hobj].
      replace (iteration l - d0) with (S (iteration l - (d0 + 1))) by lia.
      exact Hy. }
    simpl. destruct (due disp d0) eqn:D.
    + exists (mkProgress d0 fval :: new). repeat split.
      * rewrite Ho, <- app_assoc. reflexivity.
      * simpl. rewrite Hm. reflexivity.
      * destruct H as [<-|Hin]; [simpl; lia | apply (Later l Hin)].
      * destruct H as [<-|Hin]; [|apply (Later l Hin)].
        exists x. simpl. rewrite Nat.sub_diag. split; [reflexivity | exact Hf].
    + exists new. repeat split.
      * exact Ho.
      * exact Hm.
      * apply (Later l H).
      * apply (Later l H).
Qed.

Lemma called_on_error (xs : list P) :
  forall d0 out0 e,
    called_on (callback obj args disp) d0 out0 xs = Err e ->
    exists x, In x xs /\ obj x args = Err e.
Proof.
  induction xs as [|x rest IH]; intros d0 out0 e H; simpl in H; [discriminate|].
  apply bind_err in H. destruct H as [H | (r & Hr & H)].
  - unfold callback in H. apply bind_err in H.
    destruct H as [H | (fval & _ & H)]; [|discriminate].
    exists x. split; [left; reflexivity | exact H].
  - apply IH in H. destruct H as (y & Hy & Hobj).
    exists y. split; [right; exact Hy | exact Hobj].
Qed.

Lemma due_never (i : nat) : (disp <= 0)%Z -> due disp i = false.
Proof.
  intros H. unfold due.
  destruct (Z.ltb_spec 0 disp); [lia | reflexivity].
Qed.

(** X16: called on the iterates of an optimizer one after the other, the
    callback counts them from 0 and, for a positive [disp], prints a line
    at the iterations that are multiples of [disp] and no other, each with
    the objective at that iterate; for a [disp] of zero or below it prints
    nothing.  Printing or not, it evaluates the objective at every iterate,
    and an error of the objective is the only error it raises. *)
Theorem callback_schedule (xs : list P) :
  let d0 := fst (callback_factory obj args disp) in
  let cb := snd (callback_factory obj args disp) in
  d0 = 0
  /\ (forall d out,
         called_on cb d0 [] xs = Ok (d, out) ->
         d = List.length xs
         /\ map (@iteration A) out
            = filter (fun i => (0 <? disp)%Z && (Z.of_nat i mod disp =? 0)%Z)
                     (seq 0 (List.length xs))
         /\ (forall l, In l out ->
               exists x, nth_error xs (iteration l) = Some x
                         /\ obj x args = Ok (objective l))
         /\ ((disp <= 0)%Z -> out = []))
  /\ (forall e,
         called_on cb d0 [] xs = Err e -> exists x, In x xs /\ obj x args = Err e)
  /\ (forall x e d out,
         In x xs -> obj x args = Err e -> called_on cb d0 [] xs <> Ok (d, out)).
Proof.
  intros d0 cb. split; [reflexivity|]. split; [|split].
  - intros d out H. unfold cb, d0, callback_factory in H. cbn [fst snd] in H.
    apply called_on_from in H. destruct H as (Hd & new & Ho & Hm & Hl).
    simpl in Ho. subst out. split; [exact Hd|]. split; [exact Hm|]. split.
    + intros l Hin. destruct (Hl l Hin) as (_ & x & Hx & Hobj).
      rewrite Nat.sub_0_r in Hx. exists x. split; assumption.
    + intros Hneg.
      assert (E : filter (due disp) (seq 0 (List.length xs)) = []).
      { clear - Hneg. induction (seq 0 (List.length xs)) as [|i l IH];
          [reflexivity|].
        simpl. rewrite (due_never i Hneg). exact IH. }
      rewrite E in Hm. destruct new; [reflexivity | discriminate Hm].
  - intros e H. apply called_on_error in H. exact H.
  - intros x e d out Hin Hobj H.
    unfold cb, d0, callback_factory in H. cbn [fst snd] in H.
    clear d0 cb. revert H. generalize 0 at 1. generalize (@nil (progress A)).
    induction xs as [|y rest IH]; intros out0 n0 H; [destruct Hin|].
    simpl in H. apply bind_ok in H. destruct H as (r & Hr & H).
    destruct Hin as [->|Hin].
    + unfold callback in Hr. rewrite Hobj in Hr. discriminate Hr.
    + exact (IH Hin _ _ H).
Qed.

End CallbackFacts.

(** Five iterates with [disp = 2]: lines at the iterations 0, 2 and 4. *)
Lemma callback_schedule_witness :
  exists d out,
    called_on (snd (callback_factory (fun (x : nat) (_ : unit) => Ok (10 * x)) tt 2))
              0 [] [5; 6; 7; 8; 9] = Ok (d, out)
    /\ d = 5 /\ map (@iteration nat) out = [0; 2; 4].
Proof.
  destruct (callback_schedule (fun (x : nat) (_ : unit) => Ok (10 * x)) tt 2
              [5; 6; 7; 8; 9]) as (_ & H & _).
  destruct (is_ok_inv (called_on
               (snd (callback_factory (fun (x : nat) (_ : unit) => Ok (10 * x)) tt 2))
               0 [] [5; 6; 7; 8; 9])) as [[d out] E]; [reflexivity|].
  exists d, out. split; [exact E|].
  destruct (H d out E) as (Hd & Hm & _). split; [exact Hd | exact Hm].
Defined.

(** * Flat and column parameter vectors *)

Section Columns.

Context {T : Type} {DT : Default T}.

Lemma get1_slice1 (v : list T) lo hi t :
  t < List.length (np.slice1 v lo hi) ->
  np.get1 (np.slice1 v lo hi) t = np.get1 v (Nat.min lo (List.length v) + t).
Proof.
  intros H. rewrite length_slice1 in H. revert H.
  unfold np.slice1, np.slice_bounds, np.get1. cbn [fst snd]. intros H.
  rewrite nth_firstn. destruct (Nat.ltb_spec t
    (match hi with Some h => Nat.min h (List.length v) | None => List.length v end
     - Nat.min lo (List.length v))) as [X|X]; [|lia].
  apply nth_skipn.
Qed.

Lemma get_col (v : list T) i : i < List.length v -> np.get (np.col v) i 0 = np.get1 v i.
Proof. intros H. unfold np.col. rewrite get_tabulate by lia. reflexivity. Qed.

Lemma slice_col (v : list T) lo hi :
  np.slice (np.col v) lo hi 0 None = np.col (np.slice1 v lo hi).
Proof.
  unfold np.slice at 1. rewrite nrows_col, ncols_col.
  unfold np.col at 2. rewrite length_slice1.
  change (np.slice_bounds 0 None 1) with (0, 1).
  destruct (np.slice_bounds lo hi (List.length v)) as [s cnt] eqn:E. cbn [snd].
  apply tabulate_ext. intros i j Hi Hj.
  assert (j = 0) by lia. subst j.
  unfold np.slice_bounds in E. injection E as <- <-.
  rewrite get1_slice1 by (rewrite length_slice1; exact Hi).
  apply get_col. destruct hi; lia.
Qed.

Lemma reshape_col (v : list T) r c : np.reshape (np.col v) r c = np.reshape1 v r c.
Proof.
  unfold np.reshape, np.reshape1. rewrite length_ravel, nrows_col, ncols_col.
  rewrite Nat.mul_1_r.
  destruct (Nat.eqb_spec (List.length v) (r * c)) as [E|]; [|reflexivity].
  f_equal. apply tabulate_ext. intros i j Hi Hj.
  assert (B : i * c + j < List.length v) by nia.
  unfold np.ravel. rewrite nrows_col, ncols_col, Nat.mul_1_r.
  rewrite get1_tabulate1 by exact B.
  rewrite Nat.div_1_r, Nat.mod_1_r. apply get_col. exact B.
Qed.

Lemma T_col (v : list T) : np.T_ (np.col v) = np.row v.
Proof.
  unfold np.T_, np.row. rewrite nrows_col, ncols_col.
  apply tabulate_ext. intros i j Hi Hj.
  assert (i = 0) by lia. subst i. apply get_col. exact Hj.
Qed.

End Columns.

Section FlatOrColumn.

Context {A : Type} {SA : Scalar A} {LA : LinAlg A} {DI : DataInput A}
        {OPT : Optimizer A}.

Lemma matmul_col (a : matrix A) (v : list A) :
  nd_matmul a (Arr2 (np.col v)) = (y <- np.matvec a v ;; Ok (Arr2 (np.col y))).
Proof.
  unfold nd_matmul, np.matmul, np.matvec. rewrite nrows_col, ncols_col.
  destruct (Nat.eqb_spec (ncols a) (List.length v)) as [E|]; [|reflexivity].
  cbn [bind]. do 2 f_equal. unfold np.col at 2. rewrite length_tabulate1.
  apply tabulate_ext. intros i j Hi Hj.
  rewrite get1_tabulate1 by exact Hi.
  apply sum_to_ext. intros t Ht. assert (j = 0) by lia. subst j.
  rewrite get_col by lia. reflexivity.
Qed.

(** X17: the moment builder reads a parameter vector the same whether it
    comes as the column of starting values or as the flat array of the
    optimizer: moments, objective and weighting matrix of [v[:, None]] are
    those of [v], and so are their errors. *)
Theorem moments_flat_or_column self (v : list A) (excess_returns : bool) (w : matrix A) :
  LinearFactorModelGMM._moments self (Arr2 (np.col v)) excess_returns
  = LinearFactorModelGMM._moments self (Arr1 v) excess_returns
  /\ LinearFactorModelGMM._j self (Arr2 (np.col v)) excess_returns w
     = LinearFactorModelGMM._j self (Arr1 v) excess_returns w
  /\ LinearFactorModelGMM.weighting self (Arr2 (np.col v)) excess_returns
     = LinearFactorModelGMM.weighting self (Arr1 v) excess_returns.
Proof.
  assert (M : LinearFactorModelGMM._moments self (Arr2 (np.col v)) excess_returns
              = LinearFactorModelGMM._moments self (Arr1 v) excess_returns).
  { unfold LinearFactorModelGMM._moments, np.shape. cbn [nd_slice].
    rewrite !slice_col. cbn [nd_reshape]. rewrite reshape_col.
    destruct (np.reshape1 _ _ _) as [betas|e]; [cbn [bind] | reflexivity].
    destruct (np.c_ _ betas) as [ob|e]; [cbn [bind] | reflexivity].
    rewrite matmul_col. cbn [nd_matmul].
    destruct (np.matvec ob _) as [y|e]; [cbn [bind] | reflexivity].
    cbn [nd_T as2d]. rewrite !T_col. reflexivity. }
  split; [exact M|]. split.
  - unfold LinearFactorModelGMM._j. rewrite M. reflexivity.
  - unfold LinearFactorModelGMM.weighting. rewrite M. reflexivity.
Qed.

End FlatOrColumn.

(** * From the two-pass estimates to the GMM moments *)

Section StartingValues.

Context {A : Type} {SA : Scalar A} {LA : LinAlg A} {LS : @LinAlgShapes A LA}
        {DI : DataInput A}.

Lemma two_pass_observations (self : LinearFactorModel.t A) (ex : bool) st :
  LinearFactorModel.moments_and_jacobian self ex = Ok st ->
  nrows (ndarray_ (LinearFactorModel.factors self))
  = nrows (ndarray_ (LinearFactorModel.portfolios self)).
Proof.
  intros H. unfold LinearFactorModel.moments_and_jacobian, np.shape in H.
  apply bind_ok in H. destruct H as (fc & Hfc & H).
  apply bind_ok in H. destruct H as (b & Hb & _).
  apply c_shape in Hfc. destruct Hfc as (_ & R & _).
  apply lstsq_ok_shape in Hb. destruct Hb as (E & _).
  rewrite nrows_ones in R. lia.
Qed.

(** X18: when wrapping the model's own data again gives the same data, the
    starting values that the GMM estimator takes from the two-pass fit are
    a column of exactly the [N * K + (K + nrf) + K] parameters that its
    moment builder reads, and the moments at the starting values are
    built without error. *)
Theorem starting_values_fit_the_moments self (excess_returns : bool) sv :
  IVData_init (FromIVData (TradedFactorModel.portfolios self)) "portfolio"
  = Ok (TradedFactorModel.portfolios self) ->
  IVData_init (FromIVData (TradedFactorModel.factors self)) "factor"
  = Ok (TradedFactorModel.factors self) ->
  LinearFactorModelGMM.starting_values self excess_returns = Ok sv ->
  let n := ncols (ndarray_ (TradedFactorModel.portfolios self)) in
  let k := ncols (ndarray_ (TradedFactorModel.factors self)) in
  let nrf := if excess_returns then 0 else 1 in
  np.shape sv = (nparams n k nrf, 1)
  /\ exists g, LinearFactorModelGMM._moments self (Arr2 sv) excess_returns = Ok g.
Proof.
  intros Hp Hf H n k nrf.
  unfold LinearFactorModelGMM.starting_values in H.
  apply bind_ok in H. destruct H as (mod_ & Hmod & H).
  apply bind_ok in H. destruct H as (res & Hres & H).
  injection H as <-.
  assert (Em : mod_ = LinearFactorModel.Build
                        (TradedFactorModel.Build (TradedFactorModel.portfolios self)
                           (TradedFactorModel.factors self) "LinearFactorModel") None).
  { unfold LinearFactorModel.new in Hmod. simpl in Hmod.
    unfold LinearFactorModel.__init__, TradedFactorModel.__init__ in Hmod.
    rewrite Hp, Hf in Hmod. simpl in Hmod. injection Hmod as <-. reflexivity. }
  destruct (two_pass_report mod_ excess_returns "robust" [] res Hres)
    as (st & Hst & Hrp & _ & _ & Hb & _).
  pose proof (stage_shapes mod_ excess_returns st Hst) as S. cbv zeta in S.
  destruct S as (_ & _ & S3 & S4 & S5 & S6 & _).
  pose proof (two_pass_observations mod_ excess_returns st Hst) as Hobs.
  subst mod_.
  change (LinearFactorModel.portfolios _) with (TradedFactorModel.portfolios self)
    in S3, S4, S5, Hobs.
  change (LinearFactorModel.factors _) with (TradedFactorModel.factors self)
    in S3, S4, S5, Hobs.
  fold n k nrf in S3, S4, S5.
  assert (Lb : List.length (np.ravel (LinearFactorModelGMM.betas_values res)) = n * k).
  { unfold LinearFactorModelGMM.betas_values. rewrite Hb, length_ravel.
    destruct excess_returns; autorewrite with shp; rewrite S3, S4; subst nrf; lia. }
  assert (Ll : List.length (LinearFactorModelGMM.risk_premia_values res) = k + nrf).
  { unfold LinearFactorModelGMM.risk_premia_values. rewrite Hrp. cbn [nd_ravel].
    rewrite length_ravel, S5, S6. lia. }
  assert (Ls : nrows (np.col (np.ravel (LinearFactorModelGMM.betas_values res)
                              ++ LinearFactorModelGMM.risk_premia_values res
                              ++ np.mean0 (ndarray_ (TradedFactorModel.factors self))))
               = nparams n k nrf).
  { rewrite nrows_col, !length_app, Lb, Ll, length_mean0. unfold nparams. lia. }
  split.
  - unfold np.shape. rewrite Ls, ncols_col. reflexivity.
  - apply moments_total.
    + exact Hobs.
    + split; [exact Ls | apply ncols_col].
Qed.

End StartingValues.

Lemma starting_values_fit_the_moments_witness :
  exists sv g,
    LinearFactorModelGMM.starting_values Examples.gmm true = Ok sv
    /\ np.shape sv = (4, 1)
    /\ LinearFactorModelGMM._moments Examples.gmm (Arr2 sv) true = Ok g.
Proof.
  destruct (is_ok_inv (LinearFactorModelGMM.starting_values Examples.gmm true))
    as [sv E]; [vm_compute; reflexivity|].
  assert (Hp : IVData_init (FromIVData (TradedFactorModel.portfolios Examples.gmm))
                 "portfolio" = Ok (TradedFactorModel.portfolios Examples.gmm))
    by reflexivity.
  assert (Hf : IVData_init (FromIVData (TradedFactorModel.factors Examples.gmm))
                 "factor" = Ok (TradedFactorModel.factors Examples.gmm))
    by reflexivity.
  destruct (starting_values_fit_the_moments Examples.gmm true sv Hp Hf E)
    as (S & g & G).
  exists sv, g. split; [exact E|]. split; [exact S | exact G].
Defined.

(** * The covariance of the risk premia in the time-series estimator *)

#[export] Instance Qc_CommutativeScalar : @CommutativeScalar Qc Qc_Scalar.
Proof. constructor. exact Qcmult_comm. Qed.


Section UnitSums.

Context {A : Type} {SA : Scalar A} {ES : @ExactScalar A SA}
        {CS : @CommutativeScalar A SA}.

Lemma sum_to_zero (n : nat) (f : nat -> A) :
  (forall t, t < n -> f t = zero) -> np.sum_to n f = zero.
Proof.
  induction n as [|n IH]; intros H; [reflexivity|].
  rewrite sum_to_S, IH by (intros t Ht; apply H; lia).
  rewrite (H n) by lia. apply fadd_0_l.
Qed.

Lemma sum_unit_l (n a : nat) (g : nat -> A) :
  a < n ->
  np.sum_to n (fun t => fmul (if a =? t then one else zero) (g t)) = g a.
Proof.
  induction n as [|n IH]; intros H; [lia|].
  rewrite sum_to_S. destruct (Nat.eq_dec a n) as [->|Hne].
  - rewrite sum_to_zero.
    + rewrite Nat.eqb_refl, fmul_1_l. apply fadd_0_l.
    + intros t Ht. destruct (Nat.eqb_spec n t); [lia | apply fmul_0_l].
  - rewrite IH by lia.
    destruct (Nat.eqb_spec a n); [lia|]. rewrite fmul_0_l. apply fadd_0_r.
Qed.

Lemma sum_unit_r (n b : nat) (g : nat -> A) :
  b < n ->
  np.sum_to n (fun t => fmul (g t) (if t =? b then one else zero)) = g b.
Proof.
  intros H. rewrite <- (sum_unit_l n b g H). apply sum_to_ext. intros t Ht.
  rewrite fmul_comm, (Nat.eqb_sym t b). reflexivity.
Qed.

End UnitSums.

Section FactorBlock.

Context {A : Type} {SA : Scalar A} {ES : @ExactScalar A SA}
        {CS : @CommutativeScalar A SA}
        {LA : LinAlg A} {LS : @LinAlgShapes A LA} {KS : Kernels A}
        {DI : DataInput A}.

Lemma get_div_scalar (m : matrix A) (d : A) i j :
  i < nrows m -> j < ncols m ->
  np.get (np.div_scalar m d) i j = fdiv (np.get m i j) d.
Proof.
  intros Hi Hj. unfold np.div_scalar, np.map_matrix.
  rewrite get_tabulate by assumption. reflexivity.
Qed.

(** Outside its top-left block, [xpxi] is the identity. *)
Lemma outside_top_left (L h : nat) (v x : matrix A) i j :
  np.set_slice (np.eye L) 0 (Some h) 0 (Some h) v = Ok x ->
  i < L -> j < L -> h <= i \/ h <= j ->
  np.get x i j = if i =? j then one else zero.
Proof.
  intros H Hi Hj Ho. unfold np.set_slice, np.slice_bounds in H.
  rewrite nrows_eye, ncols_eye, Nat.min_0_l, Nat.sub_0_r in H.
  destruct (np.fits _ _ && np.fits _ _); [|discriminate].
  injection H as <-. rewrite get_tabulate by assumption.
  rewrite eye_get by assumption.
  destruct (Nat.ltb_spec i (0 + Nat.min h L)), (Nat.ltb_spec j (0 + Nat.min h L));
    try lia; rewrite ?andb_false_r; reflexivity.
Qed.

(** The covariance of the moments [[xe0 | fe]] has the covariance of [fe]
    as its last block. *)
Lemma covariance_factor_block ct cfg nobs (xe fe xeex rpc : matrix A) (c0 : nat) :
  TradedFactorModel.covariance ct cfg nobs xe fe = Ok (xeex, rpc) ->
  nrows xe = nrows fe -> ncols xe = c0 + ncols fe ->
  (forall t i, t < nrows fe -> i < ncols fe -> np.get xe t (c0 + i) = np.get fe t i) ->
  forall i j, i < ncols fe -> j < ncols fe ->
    np.get xeex (c0 + i) (c0 + j) = np.get rpc i j.
Proof.
  intros H R C E i j Hi Hj. unfold TradedFactorModel.covariance in H.
  destruct (mem ct ["robust"; "heteroskedastic"]).
  - inv_bind H. injection H as <- <-.
    apply matmul_inv in Ex. destruct Ex as [_ ->].
    apply matmul_inv in Ex0. destruct Ex0 as [_ ->].
    rewrite !get_div_scalar by (autorewrite with shp; lia).
    f_equal. rewrite !get_tabulate by (autorewrite with shp; lia).
    rewrite !ncols_T, R. apply sum_to_ext. intros t Ht.
    unfold np.T_. rewrite !get_tabulate by lia.
    rewrite !E by assumption. reflexivity.
  - destruct (String.eqb ct "kernel"); [|discriminate].
    inv_bind H. injection H as <- <-.
    unfold _cov_kernel. rewrite !get_tabulate by lia.
    rewrite R. f_equal. apply sum_to_ext. intros lag Hlag.
    unfold lag_term. rewrite !get_tabulate by lia.
    f_equal. unfold autocov. rewrite !get_tabulate by lia.
    assert (S : forall a b, a < ncols fe -> b < ncols fe ->
                  np.sum_to (nrows xe - lag)
                    (fun t => fmul (np.get xe (lag + t) (c0 + a)) (np.get xe t (c0 + b)))
                  = np.sum_to (nrows fe - lag)
                      (fun t => fmul (np.get fe (lag + t) a) (np.get fe t b))).
    { intros a b Ha Hb. rewrite R. apply sum_to_ext. intros t Ht.
      rewrite !E by lia. reflexivity. }
    rewrite !S by assumption. reflexivity.
Qed.

Lemma traded_factor_block self ct (deb : bool) cfg res :
  TradedFactorModel.fit self ct deb cfg = Ok res ->
  let n := ncols (ndarray_ (TradedFactorModel.portfolios self)) in
  let k := ncols (ndarray_ (TradedFactorModel.factors self)) in
  let nobs := nrows (ndarray_ (TradedFactorModel.factors self)) in
  let d := (if deb then 1 else 0)%Z in
  exists core,
    np.slice (cov res) (n * (k + 1)) None (n * (k + 1)) None
    = np.div_scalar core (of_Z (Z.of_nat nobs - d * Z.of_nat (k + 1)))
    /\ rp_cov res = np.div_scalar core (of_Z (Z.of_nat nobs - d)).
Proof.
  intros H n k nobs d.
  unfold TradedFactorModel.fit, np.shape in H. fold n k nobs in H.
  inv_bind H. injection H as <-. cbn [cov rp_cov]. fold d.
  exists m0.
  pose proof (covariance_rp_shape _ _ _ _ _ _ _ Ex11) as [R1 R2].
  pose proof (covariance_shape _ _ _ _ _ _ _ Ex11) as [X1 X2].
  pose proof Ex as Hfc. apply c_shape in Hfc. destruct Hfc as (_ & F1 & F2).
  rewrite nrows_ones in F1. rewrite ncols_ones in F2. fold nobs in F1. fold k in F2.
  pose proof Ex0 as Hfe. apply broadcast_shape in Hfe. destruct Hfe as (B1 & B2).
  apply bdim_some in B1, B2.
  rewrite nrows_row in B1. rewrite ncols_row, length_mean0 in B2.
  fold nobs in B1. fold k in B2.
  assert (FE1 : nrows x0 = nobs) by (clear - B1; lia).
  assert (FE2 : ncols x0 = k) by (clear - B2; lia).
  clear B1 B2.
  pose proof Ex8 as Hrep. apply reshape1F_shape in Hrep. destruct Hrep as (_ & P1 & P2).
  pose proof Ex9 as Hxe0. apply broadcast_shape in Hxe0. destruct Hxe0 as (Q1 & Q2).
  apply bdim_some in Q1, Q2.
  rewrite nrows_tile, P1, F1 in Q1. rewrite ncols_tile, P2, F2 in Q2.
  assert (XE1 : nrows x9 = nobs) by (clear - Q1; lia).
  assert (XE2 : ncols x9 = n * (k + 1)) by (clear - Q2; nia).
  clear Q1 Q2.
  pose proof Ex10 as Hxe. apply c_shape in Hxe. destruct Hxe as (_ & Z1 & Z2).
  rewrite XE1 in Z1. rewrite XE2, FE2 in Z2.
  pose proof (set_slice_shape _ _ _ _ _ _ _ Ex7) as [W1 W2].
  rewrite nrows_eye in W1. rewrite ncols_eye in W2.
  assert (BL : forall i j, i < k -> j < k ->
                 np.get m (n * (k + 1) + i) (n * (k + 1) + j) = np.get m0 i j).
  { intros i j Hi Hj.
    apply (covariance_factor_block _ _ _ _ _ _ _ (n * (k + 1)) Ex11);
      try lia.
    intros t a Ht Ha. unfold np.c_ in Ex10.
    destruct (nrows x9 =? nrows x0); [|discriminate]. injection Ex10 as <-.
    rewrite get_tabulate by lia. rewrite XE2.
    destruct (Nat.ltb_spec (n * (k + 1) + a) (n * (k + 1))); [lia|].
    f_equal. lia. }
  apply matmul_inv in Ex12. destruct Ex12 as [M1 ->].
  apply matmul_inv in Ex13. destruct Ex13 as [M2 E13].
  rewrite nrows_tabulate, ncols_tabulate in *.
  assert (V2 : forall i j, i < k -> j < k ->
                 np.get x12 (n * (k + 1) + i) (n * (k + 1) + j) = np.get m0 i j).
  { intros i j Hi Hj. rewrite E13.
    rewrite get_tabulate by lia.
    rewrite (sum_to_ext _ _
               (fun t => fmul (np.get (np.tabulate (nrows x7) (ncols m)
                                  (fun i0 j0 => np.sum_to (ncols x7)
                                     (fun t0 => fmul (np.get x7 i0 t0) (np.get m t0 j0))))
                                 (n * (k + 1) + i) t)
                              (if t =? n * (k + 1) + j then one else zero))).
    2:{ intros t Ht. f_equal.
        apply (outside_top_left _ _ _ _ _ _ Ex7); lia. }
    rewrite sum_unit_r by lia.
    rewrite get_tabulate by lia.
    rewrite (sum_to_ext _ _
               (fun t => fmul (if n * (k + 1) + i =? t then one else zero)
                              (np.get m t (n * (k + 1) + j)))).
    2:{ intros t Ht. f_equal.
        apply (outside_top_left _ _ _ _ _ _ Ex7); lia. }
    rewrite sum_unit_l by lia. apply BL; assumption. }
  assert (S1 : nrows x12 = (k + 1) * n + k) by (rewrite E13, nrows_tabulate; lia).
  assert (S2 : ncols x12 = (k + 1) * n + k) by (rewrite E13, ncols_tabulate; lia).
  split.
  - unfold np.slice, np.slice_bounds.
    rewrite nrows_div_scalar, ncols_div_scalar, S1, S2.
    rewrite (Nat.min_l (n * (k + 1))) by lia.
    unfold np.div_scalar at 2. unfold np.map_matrix.
    apply tabulate_ext2; [lia | lia |].
    intros i j Hi Hj.
    rewrite get_div_scalar by lia. rewrite V2 by lia.
    rewrite F2. do 3 f_equal. lia.
  - reflexivity.
Qed.

(** X19: in the time-series estimator, the block of the full covariance at
    the risk premia and the reported covariance of the risk premia are one
    matrix, divided by [nobs - debiased * (K + 1)] in the first and by
    [nobs - debiased] in the second: they are equal when [debiased] is
    false (in exact arithmetic; for the kernel covariance, with
    [_cov_kernel] as modelled). *)
Theorem traded_risk_premia_block self cov_type (debiased : bool) cov_config res :
  TradedFactorModel.fit self cov_type debiased cov_config = Ok res ->
  let n := ncols (ndarray_ (TradedFactorModel.portfolios self)) in
  let k := ncols (ndarray_ (TradedFactorModel.factors self)) in
  let nobs := nrows (ndarray_ (TradedFactorModel.factors self)) in
  let d := (if debiased then 1 else 0)%Z in
  (exists core,
      np.slice (cov res) (n * (k + 1)) None (n * (k + 1)) None
      = np.div_scalar core (of_Z (Z.of_nat nobs - d * Z.of_nat (k + 1)))
      /\ rp_cov res = np.div_scalar core (of_Z (Z.of_nat nobs - d)))
  /\ (debiased = false ->
      np.slice (cov res) (n * (k + 1)) None (n * (k + 1)) None = rp_cov res).
Proof.
  intros H n k nobs d.
  destruct (traded_factor_block self cov_type debiased cov_config res H)
    as (core & C1 & C2).
  fold n k nobs d in C1, C2. split.
  - exists core. split; assumption.
  - intros ->. rewrite C1, C2. reflexivity.
Qed.

End FactorBlock.

Lemma traded_risk_premia_block_witness :
  exists res,
    TradedFactorModel.fit Examples.traded "robust" false [] = Ok res
    /\ np.slice (cov res) 4 None 4 None = rp_cov res.
Proof.
  destruct (is_ok_inv (TradedFactorModel.fit Examples.traded "robust" false []))
    as [res E]; [vm_compute; reflexivity|].
  exists res. split; [exact E|].
  destruct (traded_risk_premia_block Examples.traded "robust" false [] res E)
    as [_ H].
  exact (H eq_refl).
Defined.

(** * The Jacobian of the GMM moments *)

Section JacobianBuilt.

Context {A : Type} {SA : Scalar A}.

Lemma for_each_ok {S : Type} (body : S -> nat -> result S) (Inv : S -> Prop)
      (range : list nat) :
  (forall s i, In i range -> Inv s -> exists s', body s i = Ok s' /\ Inv s') ->
  forall s, Inv s ->
    exists s', LinearFactorModel.for_each body s range = Ok s' /\ Inv s'.
Proof.
  induction range as [|i rest IH]; intros Hb s Hs; simpl.
  - exists s. split; [reflexivity | exact Hs].
  - destruct (Hb s i (or_introl eq_refl) Hs) as (s1 & -> & H1). cbn [bind].
    apply IH; [|exact H1].
    intros s2 j Hj. apply Hb. right. exact Hj.
Qed.

Lemma set_rows_ok (m v : matrix A) (lo hi : nat) :
  lo <= hi -> hi <= nrows m -> nrows v = hi - lo -> ncols v = ncols m ->
  exists x, np.set_slice m lo (Some hi) 0 None v = Ok x
            /\ nrows x = nrows m /\ ncols x = ncols m.
Proof.
  intros H1 H2 H3 H4.
  rewrite (set_slice_ok_eq m lo (Some hi) 0 None v hi (ncols m));
    try reflexivity; try lia.
  eexists. split; [reflexivity|]. rewrite nrows_tabulate, ncols_tabulate. auto.
Qed.

(** The rows of portfolio [i] in [jac12] and [jac13]. *)
Lemma jacobian_blocks_ok (ex : bool) (nobs k n i : nat)
      (betas f_aug iota jac12 jac13 : matrix A) :
  let nrf := if ex then 0 else 1 in
  i < n ->
  nrows betas = n -> ncols betas = k ->
  nrows f_aug = nobs -> ncols f_aug = k + 1 ->
  nrows iota = nobs -> ncols iota = 1 ->
  nrows jac12 = n * (k + 1) -> ncols jac12 = k + nrf ->
  nrows jac13 = n * (k + 1) -> ncols jac13 = k ->
  exists a b,
    LinearFactorModelGMM.jacobian_blocks ex nobs k betas f_aug iota (jac12, jac13) i
    = Ok (a, b)
    /\ nrows a = n * (k + 1) /\ ncols a = k + nrf
    /\ nrows b = n * (k + 1) /\ ncols b = k.
Proof.
  intros nrf Hi B1 B2 F1 F2 I1 I2 J1 J2 K1 K2.
  unfold LinearFactorModelGMM.jacobian_blocks.
  assert (Hbi : exists bi, np.take_rows betas [i] = Ok bi
                           /\ nrows bi = 1 /\ ncols bi = k).
  { rewrite take_rows_ok by (repeat constructor; lia).
    eexists. split; [reflexivity|]. rewrite nrows_tabulate, ncols_tabulate. auto. }
  destruct Hbi as (bi & Ebi & R1 & R2).
  assert (Hb : exists b,
             (if ex then np.take_rows betas [i]
              else bi0 <- np.take_rows betas [i] ;; np.c_ (np.col [one]) bi0) = Ok b
             /\ nrows b = 1 /\ ncols b = k + nrf).
  { destruct ex.
    - exists bi. subst nrf. rewrite Nat.add_0_r. auto.
    - rewrite Ebi. cbn [bind].
      destruct (c_ok (np.col [one]) bi) as (b & E & X1 & X2).
      + rewrite nrows_col. simpl. lia.
      + exists b. rewrite nrows_col in X1. rewrite ncols_col in X2.
        simpl in X1. subst nrf. split; [exact E|]. lia. }
  destruct Hb as (b & -> & Rb1 & Rb2). cbn [bind].
  destruct (matmul_ok iota b) as (ib & -> & X1 & X2); [lia|]. cbn [bind].
  destruct (matmul_ok (np.T_ f_aug) ib) as (v & -> & Y1 & Y2);
    [rewrite ncols_T; lia|]. cbn [bind].
  rewrite nrows_T in Y1.
  destruct (set_rows_ok jac12 (np.div_scalar v (np.of_nat nobs))
              (i * (k + 1)) ((i + 1) * (k + 1))) as (a & -> & A1 & A2);
    try (rewrite ?nrows_div_scalar, ?ncols_div_scalar; nia).
  cbn [bind]. rewrite Ebi. cbn [bind].
  destruct (matmul_ok iota bi) as (ib' & -> & X1' & X2'); [lia|]. cbn [bind].
  destruct (matmul_ok (np.neg (np.T_ f_aug)) ib') as (v' & -> & Y1' & Y2');
    [rewrite ncols_neg, ncols_T; lia|]. cbn [bind].
  rewrite nrows_neg, nrows_T in Y1'.
  destruct (set_rows_ok jac13 (np.div_scalar v' (np.of_nat nobs))
              (i * (k + 1)) ((i + 1) * (k + 1))) as (c & -> & C1 & C2);
    try (rewrite ?nrows_div_scalar, ?ncols_div_scalar; nia).
  cbn [bind]. exists a, c. split; [reflexivity|].
  repeat apply conj; lia.
Qed.

Lemma jacobian_built self (v : list A) (ex : bool) :
  let n := ncols (ndarray_ (TradedFactorModel.portfolios self)) in
  let k := ncols (ndarray_ (TradedFactorModel.factors self)) in
  let nrf := if ex then 0 else 1 in
  1 <= k ->
  List.length v = nparams n k nrf ->
  exists jac,
    LinearFactorModelGMM._jacobian self (Arr1 v) ex = Ok jac
    /\ np.shape jac = (n * k + n + k, nparams n k nrf)
    /\ forall a j, a < k -> j < nparams n k nrf ->
         np.get jac (n * (k + 1) + a) j
         = if j =? n * k + k + nrf + a then one else zero.
Proof.
  intros n k nrf Hk Hv. unfold nparams in *.
  unfold LinearFactorModelGMM._jacobian, np.shape.
  fold n k nrf. cbn [nd_slice nd_reshape nd_len nd_T as2d].
  set (nobs := nrows (ndarray_ (TradedFactorModel.factors self))).
  set (f := ndarray_ (TradedFactorModel.factors self)).
  assert (Hf1 : nrows f = nobs) by reflexivity.
  assert (Hf2 : ncols f = k) by reflexivity.
  rewrite Hv. unfold np.sub, np.add.
  assert (Hnrf : nrf = if ex then 0 else 1) by reflexivity.
  set (R := n * k + n + k). set (C := n * k + (k + nrf) + k).
  assert (HR : R = n * k + n + k) by reflexivity.
  assert (HC : C = n * k + (k + nrf) + k) by reflexivity.
  clearbody R C nrf.
  destruct (reshape1_ok (np.slice1 v 0 (Some (n * k))) n k) as (betas & -> & B1 & B2).
  { autorewrite with shp. rewrite Hv. lia. }
  cbn [bind].
  assert (Hls : np.last_start k C = C - k).
  { unfold np.last_start. destruct (Nat.eqb_spec k 0); [lia | reflexivity]. }
  destruct (broadcast_ok fsub f (np.row (np.slice1 v (np.last_start k C) None)) nobs k)
    as (fe & -> & F1 & F2).
  { rewrite nrows_row. apply bdim_one_r. }
  { rewrite ncols_row. apply bdim_eq; [|reflexivity].
    autorewrite with shp. rewrite Hls, Hv. lia. }
  cbn [bind].
  assert (Hlt : exists lt,
             as2d (nd_T (if ex
                         then Arr1 (np.slice1 v (n * k) (Some (n * k + k + nrf)))
                         else Arr1 (np.slice1
                                      (np.slice1 v (n * k) (Some (n * k + k + nrf)))
                                      1 None)))
             = np.row lt /\ List.length lt = k).
  { destruct ex; eexists; (split; [reflexivity|]);
      autorewrite with shp; rewrite ?length_slice1; autorewrite with shp;
      rewrite Hv; lia. }
  destruct Hlt as (lt & -> & Llt).
  destruct (broadcast_ok fadd fe (np.row lt) nobs k) as (fe0 & -> & G1 & G2).
  { rewrite nrows_row. rewrite F1. apply bdim_one_r. }
  { rewrite ncols_row. apply bdim_eq; lia. }
  cbn [bind].
  destruct (augmented_factors f) as (f_aug & E & U1 & U2).
  change (nrows f) with nobs in E, U1. rewrite E. clear E. cbn [bind].
  destruct (matmul_ok (np.T_ f_aug) fe0) as (fef & -> & V1 & V2);
    [rewrite ncols_T; lia|].
  rewrite nrows_T in V1. cbn [bind].
  rewrite (set_slice_ok_eq (np.zeros R C) 0 (Some (n * (k + 1))) 0 (Some (n * k)) _
             (n * (k + 1)) (n * k))
    by (autorewrite with shp; first [reflexivity | nia]).
  cbn [bind]. rewrite nrows_zeros, ncols_zeros.
  set (Inv := fun acc : matrix A * matrix A =>
                nrows (fst acc) = n * (k + 1) /\ ncols (fst acc) = k + nrf
                /\ nrows (snd acc) = n * (k + 1) /\ ncols (snd acc) = k).
  assert (Hbody : forall s i, In i (seq 0 n) -> Inv s ->
            exists s', LinearFactorModelGMM.jacobian_blocks ex nobs k betas f_aug
                         (np.ones nobs 1) s i = Ok s' /\ Inv s').
  { intros [a b] i Hi (H1 & H2 & H3 & H4). apply in_seq in Hi. cbn [fst snd] in *.
    destruct (jacobian_blocks_ok ex nobs k n i betas f_aug (np.ones nobs 1) a b)
      as (a' & b' & E' & H1' & H2' & H3' & H4');
      try assumption; try (rewrite <- Hnrf; assumption);
      autorewrite with shp; try lia.
    exists (a', b'). split; [exact E'|]. rewrite <- Hnrf in H2'.
    unfold Inv. cbn [fst snd]. auto. }
  assert (Hinit : Inv (np.zeros (n * (k + 1)) (k + nrf), np.zeros (n * (k + 1)) k)).
  { unfold Inv. cbn [fst snd]. autorewrite with shp. auto. }
  destruct (for_each_ok _ Inv (seq 0 n) Hbody _ Hinit)
    as ([jac12 jac13] & -> & I1 & I2 & I3 & I4).
  cbn [fst snd] in *. cbn [bind]. clear Hbody Hinit Inv.
  rewrite (set_slice_ok_eq _ 0 (Some (n * (k + 1))) (n * k) (Some (n * k + k + nrf))
             jac12 (n * (k + 1)) (n * k + k + nrf))
    by (autorewrite with shp; first [reflexivity | nia]).
  cbn [bind]. rewrite nrows_tabulate, ncols_tabulate.
  rewrite (set_slice_ok_eq _ 0 (Some (n * (k + 1))) (n * k + k + nrf) None
             jac13 (n * (k + 1)) C)
    by (autorewrite with shp; first [reflexivity | nia]).
  cbn [bind]. rewrite !nrows_tabulate, !ncols_tabulate.
  assert (HlR : np.last_start k R = R - k).
  { unfold np.last_start. destruct (Nat.eqb_spec k 0); [lia | reflexivity]. }
  rewrite Hls, HlR.
  rewrite (set_slice_ok_eq _ (R - k) None (C - k) None (np.eye k) R C)
    by (autorewrite with shp; first [reflexivity | nia]).
  eexists. split; [reflexivity|]. split.
  - rewrite !nrows_tabulate, !ncols_tabulate. reflexivity.
  - intros a j Ha Hj.
    rewrite !nrows_tabulate, !ncols_tabulate.
    rewrite get_tabulate by lia.
    assert (Hr : (n * (k + 1) + a <? n * (k + 1)) = false)
      by (apply Nat.ltb_ge; lia).
    destruct (Nat.leb_spec (R - k) (n * (k + 1) + a)); [|lia].
    destruct (Nat.ltb_spec (n * (k + 1) + a) R); [|lia].
    destruct (Nat.ltb_spec j C); [|lia].
    destruct (Nat.leb_spec (C - k) j) as [X|X]; cbn [andb].
    + rewrite eye_get by lia.
      destruct (Nat.eqb_spec (n * (k + 1) + a - (R - k)) (j - (C - k))),
               (Nat.eqb_spec j (n * k + k + nrf + a)); try reflexivity; lia.
    + rewrite get_tabulate by lia. rewrite Hr, andb_false_r. cbn [andb].
      rewrite get_tabulate by lia. rewrite Hr, andb_false_r. cbn [andb].
      rewrite get_tabulate by lia. rewrite Hr, andb_false_r. cbn [andb].
      unfold np.zeros. rewrite get_tabulate by lia.
      destruct (Nat.eqb_spec j (n * k + k + nrf + a)); [lia | reflexivity].
Qed.

(** X20: for at least one factor and a flat parameter vector of the
    [N * K + (K + nrf) + K] parameters, the Jacobian of the GMM moments is
    built without error, with one row per moment and one column per
    parameter; its rows for the factor-mean moments are zero but for the
    identity in the columns of the factor means [mu]. *)
Theorem jacobian_is_built self (v : list A) (excess_returns : bool) :
  let n := ncols (ndarray_ (TradedFactorModel.portfolios self)) in
  let k := ncols (ndarray_ (TradedFactorModel.factors self)) in
  let nrf := if excess_returns then 0 else 1 in
  1 <= k ->
  List.length v = nparams n k nrf ->
  exists jac,
    LinearFactorModelGMM._jacobian self (Arr1 v) excess_returns = Ok jac
    /\ np.shape jac = (n * (k + 1) + k, nparams n k nrf)
    /\ forall a j, a < k -> j < nparams n k nrf ->
         np.get jac (n * (k + 1) + a) j
         = if j =? n * k + (k + nrf) + a then one else zero.
Proof.
  intros n k nrf Hk Hv.
  destruct (jacobian_built self v excess_returns Hk Hv) as (jac & E & S & H).
  fold n k nrf in S, H.
  exists jac. split; [exact E|]. split.
  - rewrite S. f_equal. lia.
  - intros a j Ha Hj. rewrite (H a j Ha Hj).
    replace (n * k + k + nrf + a) with (n * k + (k + nrf) + a) by lia.
    reflexivity.
Qed.

End JacobianBuilt.

(** On the example, at the two-pass estimates: five moments, four
    parameters, and the row of the factor-mean moment. *)
Lemma jacobian_is_built_witness :
  exists jac,
    LinearFactorModelGMM._jacobian Examples.gmm
      (Arr1 Examples.theta) true = Ok jac
    /\ np.shape jac = (5, 4)
    /\ np.get jac 4 3 = one.
Proof.
  destruct (jacobian_is_built Examples.gmm Examples.theta true)
    as (jac & E & S & H); [vm_compute; lia | reflexivity |].
  exists jac. split; [exact E|]. split; [exact S|].
  apply (H 0 3); vm_compute; lia.
Defined.

(** * The exact inverse returns inverses only *)

Section QcSums.

Lemma Qc_sum_S (n : nat) (f : nat -> Qc) :
  np.sum_to (S n) f = Qcplus (np.sum_to n f) (f n).
Proof. exact (sum_to_S n f). Qed.

Lemma Qc_sum_0 (f : nat -> Qc) : np.sum_to 0 f = Q2Qc 0.
Proof. reflexivity. Qed.

Lemma Qc_sum_zero (n : nat) (f : nat -> Qc) :
  (forall t, t < n -> f t = Q2Qc 0) -> np.sum_to n f = Q2Qc 0.
Proof.
  intros H. induction n as [|n IH]; [reflexivity|].
  rewrite Qc_sum_S, IH, (H n) by auto. ring.
Qed.

(** Sums are linear. *)
Lemma Qc_sum_sub (n : nat) (c : Qc) (f g h : nat -> Qc) :
  np.sum_to n (fun t => Qcmult (Qcminus (f t) (Qcmult c (g t))) (h t))
  = Qcminus (np.sum_to n (fun t => Qcmult (f t) (h t)))
            (Qcmult c (np.sum_to n (fun t => Qcmult (g t) (h t)))).
Proof.
  induction n as [|n IH].
  - rewrite !Qc_sum_0. ring.
  - rewrite !Qc_sum_S, IH. ring.
Qed.

Lemma Qc_sum_div (n : nat) (d : Qc) (f h : nat -> Qc) :
  np.sum_to n (fun t => Qcmult (Qcdiv (f t) d) (h t))
  = Qcdiv (np.sum_to n (fun t => Qcmult (f t) (h t))) d.
Proof.
  unfold Qcdiv. induction n as [|n IH].
  - rewrite !Qc_sum_0. ring.
  - rewrite !Qc_sum_S, IH. ring.
Qed.

Lemma Qc_sum_scale (n : nat) (c : Qc) (f : nat -> Qc) :
  np.sum_to n (fun t => Qcmult c (f t)) = Qcmult c (np.sum_to n f).
Proof.
  induction n as [|n IH].
  - rewrite !Qc_sum_0. ring.
  - rewrite !Qc_sum_S, IH. ring.
Qed.

Lemma Qc_sum_add (n : nat) (f g : nat -> Qc) :
  np.sum_to n (fun t => Qcplus (f t) (g t))
  = Qcplus (np.sum_to n f) (np.sum_to n g).
Proof.
  induction n as [|n IH].
  - rewrite !Qc_sum_0. ring.
  - rewrite !Qc_sum_S, IH. ring.
Qed.

(** Sums over two indices are taken in either order. *)
Lemma Qc_sum_swap (n m : nat) (f : nat -> nat -> Qc) :
  np.sum_to n (fun i => np.sum_to m (fun j => f i j))
  = np.sum_to m (fun j => np.sum_to n (fun i => f i j)).
Proof.
  induction n as [|n IH].
  - rewrite Qc_sum_0. symmetry. apply Qc_sum_zero. intros t _. reflexivity.
  - rewrite Qc_sum_S, IH, <- Qc_sum_add. apply sum_to_ext. intros j _.
    rewrite Qc_sum_S. reflexivity.
Qed.

End QcSums.

Section GaussJordan.

Lemma nth_axpy (c : Qc) (p r : list Qc) (j : nat) :
  List.length p = List.length r ->
  nth j (axpy c p r) (Q2Qc 0) = Qcminus (nth j r (Q2Qc 0)) (Qcmult c (nth j p (Q2Qc 0))).
Proof.
  revert r j. induction p as [|x p IH]; intros [|y r] j H; try discriminate H.
  - destruct j; simpl; ring.
  - destruct j; simpl; [reflexivity|]. apply IH. simpl in H. lia.
Qed.

Lemma length_axpy (c : Qc) (p r : list Qc) :
  List.length p = List.length r -> List.length (axpy c p r) = List.length r.
Proof.
  intros H. unfold axpy. rewrite length_map, length_combine, H. apply Nat.min_id.
Qed.

Lemma nth_scaled (d : Qc) (p : list Qc) (j : nat) :
  nth j (map (fun x => Qcdiv x d) p) (Q2Qc 0) = Qcdiv (nth j p (Q2Qc 0)) d.
Proof.
  revert j. induction p as [|x p IH]; intros j.
  - destruct j; simpl; unfold Qcdiv; ring.
  - destruct j; simpl; [reflexivity | apply IH].
Qed.

Lemma find_pivot_some (c : nat) (todo : list (list Qc)) p others :
  find_pivot c todo = Some (p, others) ->
  In p todo /\ nth c p (Q2Qc 0) <> Q2Qc 0
  /\ (forall r, In r others -> In r todo)
  /\ S (List.length others) = List.length todo.
Proof.
  revert p others. induction todo as [|r rest IH]; intros p others H; [discriminate H|].
  simpl in H. destruct (Qc_eq_bool (nth c r (Q2Qc 0)) (Q2Qc 0)) eqn:E.
  - destruct (find_pivot c rest) as [[p' others']|]; [|discriminate H].
    injection H as <- <-. destruct (IH p' others' eq_refl) as (I1 & I2 & I3 & I4).
    split; [right; exact I1|]. split; [exact I2|]. split.
    + intros r' [<-|Hr]; [left; reflexivity | right; apply I3; exact Hr].
    + simpl. rewrite I4. reflexivity.
  - injection H as <- <-. split; [left; reflexivity|]. split.
    + intros Z. rewrite Z in E. discriminate E.
    + split; [intros r' Hr; right; exact Hr | reflexivity].
Qed.

Variable a : matrix Qc.
Variable n : nat.

Lemma combines_scaled (d : Qc) (p : list Qc) :
  combines a n p -> combines a n (map (fun x => Qcdiv x d) p).
Proof.
  intros [L H]. split; [rewrite length_map; exact L|].
  intros j Hj. rewrite nth_scaled, (H j Hj), <- Qc_sum_div.
  apply sum_to_ext. intros t _. rewrite nth_scaled. reflexivity.
Qed.

Lemma combines_axpy (c : Qc) (p r : list Qc) :
  combines a n p -> combines a n r -> combines a n (axpy c p r).
Proof.
  intros [Lp Hp] [Lr Hr]. assert (E : List.length p = List.length r) by congruence.
  split; [rewrite length_axpy by exact E; exact Lr|].
  intros j Hj. rewrite nth_axpy, (Hp j Hj), (Hr j Hj), <- Qc_sum_sub by exact E.
  apply sum_to_ext. intros t _. rewrite nth_axpy by exact E. reflexivity.
Qed.

Lemma eliminate_reduced (count : nat) :
  forall c done todo res,
    reduced a n c done todo ->
    eliminate count c done todo = Some res ->
    reduced a n (c + count) res [].
Proof.
  induction count as [|count IH]; intros c done todo res R H.
  - simpl in H. injection H as <-. rewrite Nat.add_0_r.
    destruct R as (R1 & R2 & R3 & R4). split; [|split; [|split]].
    + intros r Hr. apply R1. rewrite app_nil_r in Hr. apply in_or_app. left. exact Hr.
    + exact R2.
    + exact R3.
    + intros r j [].
  - simpl in H. destruct (find_pivot c todo) as [[p others]|] eqn:F; [|discriminate H].
    apply find_pivot_some in F. destruct F as (F1 & F2 & F3 & F4).
    destruct R as (R1 & R2 & R3 & R4).
    set (d := nth c p (Q2Qc 0)) in *.
    set (p' := map (fun x => Qcdiv x d) p) in *.
    assert (Cp : combines a n p) by (apply R1, in_or_app; right; exact F1).
    assert (Cp' : combines a n p') by (apply combines_scaled; exact Cp).
    assert (P0 : forall j, j < c -> nth j p' (Q2Qc 0) = Q2Qc 0).
    { intros j Hj. unfold p'. rewrite nth_scaled, (R4 p j F1 Hj). unfold Qcdiv. ring. }
    assert (P1 : nth c p' (Q2Qc 0) = Q2Qc 1).
    { unfold p'. rewrite nth_scaled. fold d. unfold Qcdiv. apply Qcmult_inv_r. exact F2. }
    rewrite <- Nat.add_succ_comm. apply (fun R => IH _ _ _ _ R H). clear IH H.
    split; [|split; [|split]].
    + intros r Hr. apply in_app_or in Hr. destruct Hr as [Hr|Hr].
      * apply in_app_or in Hr. destruct Hr as [Hr|[<-|[]]]; [|exact Cp'].
        apply in_map_iff in Hr. destruct Hr as (r0 & <- & Hr0).
        apply combines_axpy; [exact Cp'|]. apply R1, in_or_app. left. exact Hr0.
      * apply in_map_iff in Hr. destruct Hr as (r0 & <- & Hr0).
        apply combines_axpy; [exact Cp'|]. apply R1, in_or_app. right.
        apply F3. exact Hr0.
    + rewrite length_app, length_map, R2. simpl. lia.
    + intros i j Hi Hj.
      assert (Lp' : List.length p' = n + n) by apply Cp'.
      destruct (Nat.eq_dec i c) as [->|Hic].
      * rewrite app_nth2 by (rewrite length_map; lia).
        rewrite length_map, R2, Nat.sub_diag. simpl nth at 2.
        unfold identity_entry. destruct (Nat.eqb_spec c j) as [<-|Hcj]; [exact P1|].
        apply P0. lia.
      * rewrite app_nth1 by (rewrite length_map; lia).
        assert (Hin : In (nth i done []) done) by (apply nth_In; lia).
        assert (Cr : combines a n (nth i done [])) by (apply R1, in_or_app; left; exact Hin).
        rewrite (nth_indep _ [] (axpy (nth c [] (Q2Qc 0)) p' []))
          by (rewrite length_map; lia).
        rewrite (map_nth (fun r => axpy (nth c r (Q2Qc 0)) p' r) done [] i).
        rewrite nth_axpy by (rewrite Lp'; symmetry; apply Cr).
        destruct (Nat.eq_dec j c) as [->|Hjc].
        -- rewrite P1. unfold identity_entry. destruct (Nat.eqb_spec i c); [lia|]. ring.
        -- rewrite P0 by lia. rewrite R3 by lia. ring.
    + intros r j Hr Hj. apply in_map_iff in Hr. destruct Hr as (r0 & <- & Hr0).
      assert (Lp' : List.length p' = n + n) by apply Cp'.
      assert (Cr : combines a n r0) by (apply R1, in_or_app; right; apply F3; exact Hr0).
      rewrite nth_axpy by (rewrite Lp'; symmetry; apply Cr).
      destruct (Nat.eq_dec j c) as [->|Hjc].
      * rewrite P1. ring.
      * rewrite P0 by lia. rewrite (R4 r0 j) by (try apply F3; try exact Hr0; lia). ring.
Qed.

End GaussJordan.

Section ExactInverseSound.

Lemma Qc_sum_unit (n i : nat) (g : nat -> Qc) :
  i < n ->
  np.sum_to n (fun t => Qcmult (if t =? i then Q2Qc 1 else Q2Qc 0) (g t)) = g i.
Proof.
  intros H. induction n as [|n IH]; [lia|].
  rewrite Qc_sum_S. destruct (Nat.eq_dec i n) as [->|Hne].
  - rewrite Nat.eqb_refl.
    rewrite Qc_sum_zero; [ring|]. intros t Ht.
    destruct (Nat.eqb_spec t n); [lia|]. ring.
  - rewrite IH by lia. destruct (Nat.eqb_spec n i); [lia|]. ring.
Qed.

Lemma augmented_reduced (a : matrix Qc) (n : nat) :
  reduced a n 0 []
    (map (fun i => map (fun j => if j <? n then np.get a i j
                                 else if j - n =? i then Q2Qc 1 else Q2Qc 0)
                       (seq 0 (n + n))) (seq 0 n)).
Proof.
  split; [|split; [reflexivity | split; [intros i j Hi; lia | intros r j _ Hj; lia]]].
  intros r Hr. simpl in Hr. apply in_map_iff in Hr. destruct Hr as (i & <- & Hi).
  apply in_seq in Hi.
  set (f := fun j => if j <? n then np.get a i j
                     else if j - n =? i then Q2Qc 1 else Q2Qc 0).
  assert (N : forall j, j < n + n -> nth j (map f (seq 0 (n + n))) (Q2Qc 0) = f j).
  { intros j Hj. exact (get1_tabulate1 (n + n) f j Hj). }
  split; [rewrite length_map, length_seq; reflexivity|].
  intros j Hj. rewrite N by lia. unfold f at 1.
  destruct (Nat.ltb_spec j n) as [_|]; [|lia].
  rewrite <- (Qc_sum_unit n i (fun t => np.get a t j)) by lia.
  apply sum_to_ext. intros t Ht. rewrite N by lia. unfold f.
  destruct (Nat.ltb_spec (n + t) n) as [|_]; [lia|].
  replace (n + t - n) with t by lia. reflexivity.
Qed.

Lemma inverse_sound (a x : matrix Qc) : inverse a = Some x -> inverse_of a x.
Proof.
  unfold inverse. destruct (Nat.eqb_spec (nrows a) (ncols a)) as [E|]; [|discriminate].
  set (n := nrows a) in *.
  destruct (eliminate n 0 [] _) as [done|] eqn:H; [|discriminate].
  intros [= <-].
  apply (eliminate_reduced a n n 0 [] _ done (augmented_reduced a n)) in H.
  destruct H as (R1 & R2 & R3 & _). simpl in R2.
  unfold inverse_of, np.matmul. simpl ncols. simpl nrows. fold n.
  rewrite Nat.eqb_refl. unfold np.eye. rewrite <- E. f_equal.
  apply tabulate_ext. intros i j Hi Hj.
  assert (C : combines a n (nth i done [])).
  { apply R1. rewrite app_nil_r. apply nth_In. lia. }
  destruct C as [_ C].
  transitivity (nth j (nth i done []) (Q2Qc 0)); [|rewrite R3 by lia; reflexivity].
  rewrite (C j Hj). apply sum_to_ext. intros t Ht.
  apply (f_equal (fun z => Qcmult z (np.get a t j))).
  unfold np.get. simpl rows.
  rewrite (nth_indep _ [] (skipn n [])) by (rewrite length_map; lia).
  rewrite (map_nth (skipn n) done [] i). apply nth_skipn.
Qed.

End ExactInverseSound.

#[export] Instance Qc_ExactInverse : @ExactInverse Qc Qc_Scalar Qc_LinAlg.
Proof. constructor. exact inverse_sound. Qed.

(** A matrix that sends a vector other than zero to zero has no inverse. *)
Lemma kernel_no_inverse (a : matrix Qc) (v : list Qc) (j : nat) :
  np.matvec a v = Ok (np.tabulate1 (nrows a) (fun _ => Q2Qc 0)) ->
  np.get1 v j <> Q2Qc 0 ->
  no_inverse a.
Proof.
  intros Hv Hj x Hx. apply Hj. clear Hj.
  unfold inverse_of, np.matmul in Hx.
  destruct (Nat.eqb_spec (ncols x) (nrows a)) as [E1|]; [|discriminate Hx].
  apply (f_equal (fun r => match r with Ok m => m | Err _ => x end)) in Hx.
  cbv beta iota in Hx. set (n := nrows a) in *.
  assert (Er : nrows x = n) by exact (f_equal (@nrows Qc) Hx).
  assert (Ec : ncols a = n) by exact (f_equal (@ncols Qc) Hx).
  unfold np.matvec in Hv.
  destruct (Nat.eqb_spec (ncols a) (List.length v)) as [E2|]; [|discriminate Hv].
  apply (f_equal (fun r => match r with Ok l => l | Err _ => v end)) in Hv.
  cbv beta iota in Hv.
  destruct (Nat.lt_ge_cases j n) as [Hjn|Hjn];
    [|apply nth_overflow; lia].
  assert (K : forall i, i < n ->
                np.sum_to n (fun t => Qcmult (np.get a i t) (np.get1 v t)) = Q2Qc 0).
  { intros i Hi. apply (f_equal (fun l => np.get1 l i)) in Hv.
    rewrite !get1_tabulate1 in Hv by exact Hi. rewrite Ec in Hv. exact Hv. }
  assert (X : forall i k, i < n -> k < n ->
                np.sum_to n (fun t => Qcmult (np.get x i t) (np.get a t k))
                = if i =? k then Q2Qc 1 else Q2Qc 0).
  { intros i k Hi Hk. apply (f_equal (fun m => np.get m i k)) in Hx.
    unfold np.eye in Hx. rewrite !get_tabulate in Hx by lia.
    rewrite E1 in Hx. exact Hx. }
  rewrite <- (Qc_sum_unit n j (fun k => np.get1 v k)) by exact Hjn.
  transitivity (np.sum_to n (fun k =>
                  np.sum_to n (fun t => Qcmult (np.get x j t)
                                          (Qcmult (np.get a t k) (np.get1 v k))))).
  - apply sum_to_ext. intros k Hk. rewrite (Nat.eqb_sym k j), <- (X j k) by lia.
    rewrite Qcmult_comm, <- Qc_sum_scale. apply sum_to_ext. intros t _. ring.
  - rewrite Qc_sum_swap. apply Qc_sum_zero. intros t Ht.
    rewrite Qc_sum_scale, (K t Ht). ring.
Qed.

Lemma kernel_vector_no_inverse (a : matrix Qc) (v : list Qc) (j : nat) :
  kernel_vector a v j = true -> no_inverse a.
Proof.
  unfold kernel_vector. destruct (np.matvec a v) as [av|] eqn:E; [|discriminate].
  intros H. apply andb_true_iff in H. destruct H as [H1 H2].
  apply (list_eqb_sound _ Qc_eqb_sound) in H1. subst av.
  apply (kernel_no_inverse a v j E). intros Z. rewrite Z, Qc_eqb_refl in H2.
  discriminate H2.
Qed.



